(** * PINC embedded-conductor core: a shallow embedding of [object.c]

    The development follows the source file [src/object.c] of PINC.
    - [long int] / [int] values are [Z]; the arrays of [long int] are
      [list Z] and are indexed by a [Z] (a C array has no bounds check:
      a read outside the list yields [0], a write outside the list is
      dropped; every statement proved below says where the indices are
      in range).
    - [double] values are exact rationals ([Qc]); the comparisons of the
      source ([> a+0.5], [< a+1.5]) and the cast [(int)(x+0.5)] are
      taken on these exact values.  Sums, products and quotients are
      the exact ones, where the source rounds each of them to a double
      and has [inf] and [NaN] for a division by zero ([x/0] is [0]
      here).  What is proved of indices, tables, counters and of which
      entries are written does not depend on that; every statement
      that does says "in exact arithmetic" and takes the divisors
      non-zero.
    - the MPI collectives are modelled on the list of the per-rank
      states: an all-reduce with [MPI_SUM] is the sum over that list. *)

From Stdlib Require Import ZArith List Lia QArith Qcanon Bool.
From stdpp Require Import base list list_numbers.
Import ListNotations.

Local Open Scope Z_scope.

(** ** Arrays indexed by a [long int] *)

Module Arr.

Definition rd {A : Type} (dflt : A) (l : list A) (i : Z) : A :=
  if i <? 0 then dflt else nth (Z.to_nat i) l dflt.

Definition wr {A : Type} (l : list A) (i : Z) (v : A) : list A :=
  if i <? 0 then l else <[Z.to_nat i := v]> l.

Definition rdZ : list Z -> Z -> Z := rd 0.
Definition rdQ : list Qc -> Z -> Qc := rd 0%Qc.

(** [for (long int i = lo; i < hi; i++) body] *)
Definition for_loop {S : Type} (lo hi : Z) (body : Z -> S -> S) (s : S) : S :=
  fold_left (fun acc i => body i acc) (seqZ lo (hi - lo)) s.

(** [alSetAll(a, n, v)] / [adSetAll(a, n, v)] on a fresh allocation *)
Definition alloc {A : Type} (n : Z) (v : A) : list A :=
  replicate (Z.to_nat n) v.

End Arr.

(** ** Exact stand-ins for the [double] operations of the source *)

Module Dbl.

Definition ltb (x y : Qc) : bool :=
  match (x ?= y)%Qc with Lt => true | _ => false end.
Definition gtb (x y : Qc) : bool := ltb y x.

Definition ofZ (z : Z) : Qc := Q2Qc (inject_Z z).
Definition half : Qc := Q2Qc (1 # 2).

(** the C cast [(int) x]: truncation towards zero *)
Definition toInt (x : Qc) : Z := Z.quot (Qnum x) (Zpos (Qden x)).

End Dbl.

(** ** The grid ([Grid] of pinc.h) *)

Record Grid := mkGrid {
  val : list Qc;            (* double *val *)
  rank : Z;                 (* int rank *)
  size : list Z;            (* int *size *)
  trueSize : list Z;        (* int *trueSize *)
  sizeProd : list Z;        (* long int *sizeProd *)
  nGhostLayers : list Z     (* int *nGhostLayers *)
}.

(** ** [oGhost] and [isGhostNode]

    The four pointers of the source walk down the arrays in step; [d] is
    the common index of [trueSize] and [sizeProd], and the two
    ghost-layer pointers are the indices [nGhostLayersBefore] and
    [nGhostLayersAfter] into [nGhostLayers].  The recursion stops at the
    first [d] with [sizeProd[d] == 1]; at [d = 0] the pointers cannot be
    decremented inside the arrays and the model stops there. *)

Fixpoint oGhost (g : Grid) (d : nat) (node : Z)
    (nGhostLayersBefore nGhostLayersAfter : Z) (ghost : bool) : bool :=
  let sp := Arr.rdZ (sizeProd g) (Z.of_nat d) in
  let ts := Arr.rdZ (trueSize g) (Z.of_nat d) in
  if sp =? 1 then
    if (node >? ts) || (node <? 1) then true else ghost
  else
    let help := sp * (ts + 1) in
    let ghost' := if (node <? sp) || (node >? help) then true else ghost in
    let node' := Z.rem node sp in
    match d with
    | O => ghost'
    | S d' => oGhost g d' node' (nGhostLayersBefore - 1)
                (nGhostLayersAfter - 1) ghost'
    end.

Definition isGhostNode (g : Grid) (node : Z) : bool :=
  oGhost g (Z.to_nat (rank g - 1)) node (rank g - 1) (2 * rank g - 1) false.

(** The ghost band as the grid documentation and the specification have
    it: coordinate [d] of a node lies in the band when it is among the
    first [nGhostLayers[d]] or the last [nGhostLayers[rank+d]] layers. *)

Definition coordinate (g : Grid) (node : Z) (d : Z) : Z :=
  (node / Arr.rdZ (sizeProd g) d) mod Arr.rdZ (size g) d.

Definition inGhostBand_axis (g : Grid) (node : Z) (d : Z) : bool :=
  let c := coordinate g node d in
  (c <? Arr.rdZ (nGhostLayers g) d)
  || (Arr.rdZ (size g) d - Arr.rdZ (nGhostLayers g) (rank g + d) <=? c).

Definition inGhostBand (g : Grid) (node : Z) : bool :=
  existsb (inGhostBand_axis g node) (seqZ 0 (rank g)).

(** A scalar grid over [nx * ny * nz] true points with [gl] ghost layers
    on every side of every physical axis (the shape [gAlloc] builds). *)

Definition scalarGrid (v : list Qc) (nx ny nz gl : Z) : Grid :=
  let sx := nx + 2 * gl in
  let sy := ny + 2 * gl in
  let sz := nz + 2 * gl in
  {| val := v;
     rank := 4;
     size := [1; sx; sy; sz];
     trueSize := [1; nx; ny; nz];
     sizeProd := [1; 1; sx; sx * sy; sx * sy * sz];
     nGhostLayers := [0; gl; gl; gl; 0; gl; gl; gl] |}.

Definition node_of (g : Grid) (i j k : Z) : Z :=
  i * Arr.rdZ (sizeProd g) 1 + j * Arr.rdZ (sizeProd g) 2
  + k * Arr.rdZ (sizeProd g) 3.


(** ** MPI collectives, taken over the list of per-rank contributions *)

Module Mpi.

Definition sumQ (l : list Qc) : Qc := fold_right Qcplus 0%Qc l.

(** [MPI_Allreduce(..., 1, MPI_DOUBLE, MPI_SUM, ...)] *)
Definition allreduce_sum (contrib : list Qc) : Qc := sumQ contrib.

(** [MPI_Allreduce(MPI_IN_PLACE, buf, n, MPI_DOUBLE, MPI_SUM, ...)]:
    the first [n] entries of the buffers, summed entry by entry *)
Definition allreduce_sum_vec (n : Z) (bufs : list (list Qc)) : list Qc :=
  map (fun i => sumQ (map (fun b => Arr.rdQ b i) bufs)) (seqZ 0 n).

(** [MPI_Allreduce(..., 1, MPI_INT, MPI_MAX, ...)] *)
Definition allreduce_max (contrib : list Z) : Z :=
  match contrib with
  | [] => 0
  | x :: rest => fold_left Z.max rest x
  end.

End Mpi.

(** ** Per-rank memory and the replicated object data

    A [Rank] is the memory of one MPI process that the functions below
    touch: its particles, its slice of the object map ([obj->domain]),
    its lookup tables, and the grids of the time loop.  The values every rank holds
    an identical copy of (they come out of collectives) are kept once,
    in [World]. *)

Record Population := mkPopulation {
  nDims : Z;                        (* int nDims *)
  nSpecies : Z;                     (* int nSpecies *)
  pos : list Qc;                    (* double *pos *)
  vel : list Qc;                    (* double *vel *)
  iStart : list Z;                  (* long int *iStart *)
  iStop : list Z;                   (* long int *iStop *)
  charge : list Qc                  (* double *charge *)
}.

Record Rank := mkRank {
  mpiRank : Z;                      (* mpiInfo->mpiRank *)
  pop : Population;                 (* the particles of this rank *)
  domain : Grid;                    (* obj->domain *)
  lookupInterior : list Z;          (* obj->lookupInterior *)
  lookupInteriorOffset : list Z;    (* obj->lookupInteriorOffset *)
  lookupSurface : list Z;           (* obj->lookupSurface *)
  lookupSurfaceOffset : list Z;     (* obj->lookupSurfaceOffset *)
  rho : list Qc;                    (* rho->val *)
  phi : list Qc;                    (* phi->val *)
  rhoObj : list Qc                  (* rhoObj->val *)
}.

Record World := mkWorld {
  mpiSize : Z;                      (* mpiInfo->mpiSize *)
  nObjects : Z;                     (* obj->nObjects *)
  capMatrixAllOffsets : list Z;     (* obj->capMatrixAllOffsets (nodCorGlob) *)
  capMatrixAll : list Qc;           (* obj->capMatrixAll *)
  capMatrixSum : list Qc;           (* obj->capMatrixSum *)
  ranks : list Rank
}.

(** Modelled from the spec: [alCumSum] (aux.c is not among the sources).
    The specification calls it the prefix sum of the offsets, and its
    sibling [alCumProd] is documented in pinc.h as the cumulative
    product starting at 1 with [n+1] results, so [alCumSum(a, res, n)]
    is [res[0] = 0; res[p+1] = res[p] + a[p]].  Every call of object.c
    passes [a = res + 1], which is the in-place form below. *)
Definition alCumSum (res : list Z) (n : Z) : list Z :=
  Arr.for_loop 0 n
    (fun p r => Arr.wr r (p + 1) (Arr.rdZ r p + Arr.rdZ r (p + 1)))
    (Arr.wr res 0 0).

(** ** [oFillLookupTables] *)

(** [val[i] > 0.5] *)
Definition isObjectNode (g : Grid) (i : Z) : bool :=
  Dbl.gtb (Arr.rdQ (val g) i) Dbl.half.

(** [(int)(val[i] + 0.5)] *)
Definition tagOf (g : Grid) (i : Z) : Z :=
  Dbl.toInt (Arr.rdQ (val g) i + Dbl.half)%Qc.

Definition nNodes (g : Grid) : Z := Arr.rdZ (sizeProd g) (rank g).

Definition interiorCount (g : Grid) (nObj : Z) : list Z :=
  Arr.for_loop 0 (nNodes g)
    (fun i off =>
       if isObjectNode g i
       then Arr.wr off (tagOf g i) (Arr.rdZ off (tagOf g i) + 1)
       else off)
    (Arr.alloc (nObj + 1) 0).

Definition initIndex (off : list Z) (nObj : Z) : list Z :=
  Arr.for_loop 0 nObj (fun i idx => Arr.wr idx i (Arr.rdZ off i))
    (Arr.alloc nObj 0).

Definition interiorFill (g : Grid) (nObj : Z) (off : list Z)
  : list Z * list Z :=
  Arr.for_loop 0 (nNodes g)
    (fun i st =>
       let '(tbl, index) := st in
       if isObjectNode g i
       then (Arr.wr tbl (Arr.rdZ index (tagOf g i - 1)) i,
             Arr.wr index (tagOf g i - 1)
               (Arr.rdZ index (tagOf g i - 1) + 1))
       else st)
    (Arr.alloc (Arr.rdZ off nObj) 0, initIndex off nObj).

(** returns [(lookupInterior, lookupInteriorOffset)] *)
Definition oFillLookupTables (g : Grid) (nObj : Z) : list Z * list Z :=
  let off := alCumSum (interiorCount g nObj) nObj in
  (fst (interiorFill g nObj off), off).

(** ** [oFindObjectSurfaceNodes] *)

(** [val[n] > (a+0.5) && val[n] < (a+1.5)] *)
Definition hasTag (g : Grid) (a n : Z) : bool :=
  Dbl.gtb (Arr.rdQ (val g) n) (Dbl.ofZ a + Dbl.half)%Qc
  && Dbl.ltb (Arr.rdQ (val g) n) (Dbl.ofZ a + Dbl.half + 1)%Qc.

(** [myNB[1] .. myNB[8]] for [myNB[0] = b] *)
Definition myNB (g : Grid) (b : Z) : list Z :=
  let sp := Arr.rdZ (sizeProd g) in
  [ b;
    b - sp 3;
    b - sp 1;
    b - sp 1 - sp 3;
    b - sp 2;
    b - sp 2 - sp 3;
    b - sp 2 - sp 1;
    b - sp 2 - sp 1 - sp 3 ].

(** the counter [d] after the eight tests *)
Definition countNB (g : Grid) (a b : Z) : Z :=
  fold_left (fun d n => if hasTag g a n then d + 1 else d) (myNB g b) 0.

(** [!isGhostNode(obj->domain, b)] and then [d < 7.5 && d > 0] *)
Definition acceptSurface (g : Grid) (a b : Z) : bool :=
  negb (isGhostNode g b) && ((countNB g a b <? 8) && (countNB g a b >? 0)).

Definition surfaceCount (g : Grid) (nObj : Z) : list Z :=
  Arr.for_loop 0 nObj
    (fun a off =>
       Arr.for_loop 0 (nNodes g)
         (fun b off =>
            if negb (isGhostNode g b) then
              if (countNB g a b <? 8) && (countNB g a b >? 0)
              then Arr.wr off (a + 1) (Arr.rdZ off (a + 1) + 1)
              else off
            else off)
         off)
    (Arr.alloc (nObj + 1) 0).

Definition surfaceFill (g : Grid) (nObj : Z) (off : list Z)
  : list Z * list Z :=
  Arr.for_loop 0 nObj
    (fun a st =>
       Arr.for_loop 0 (nNodes g)
         (fun b st =>
            let '(tbl, index) := st in
            if negb (isGhostNode g b) then
              if (countNB g a b <? 8) && (countNB g a b >? 0)
              then (Arr.wr tbl (Arr.rdZ index a) b,
                    Arr.wr index a (Arr.rdZ index a + 1))
              else st
            else st)
         st)
    (Arr.alloc (Arr.rdZ off nObj) 0, initIndex off nObj).

(** returns [(lookupSurface, lookupSurfaceOffset)] *)
Definition oFindObjectSurfaceNodes (g : Grid) (nObj : Z) : list Z * list Z :=
  let off := alCumSum (surfaceCount g nObj) nObj in
  (fst (surfaceFill g nObj off), off).

(** block [a] of a lookup table with offsets [off] *)
Definition block (tbl off : list Z) (a : Z) : list Z :=
  take (Z.to_nat (Arr.rdZ off (a + 1) - Arr.rdZ off a))
       (drop (Z.to_nat (Arr.rdZ off a)) tbl).

(** ** [oGatherSurfaceNodes] *)

(** [MPI_Allgather] of one [long int] per rank into [buf] *)
Definition allgather (contrib buf : list Z) : list Z :=
  contrib ++ drop (length contrib) buf.

(** [for (i = size-1; i > -1; i--) nodCorLoc[i+1] = nodCorLoc[i];] *)
Definition shiftUp (size : Z) (nodCorLoc : list Z) : list Z :=
  fold_left (fun buf i => Arr.wr buf (i + 1) (Arr.rdZ buf i))
    (rev (seqZ 0 size)) nodCorLoc.

(** [nodesThisCore = lookupSurfOff[a+1] - lookupSurfOff[a]] *)
Definition nodesThisCore (a : Z) (r : Rank) : Z :=
  Arr.rdZ (lookupSurfaceOffset r) (a + 1) - Arr.rdZ (lookupSurfaceOffset r) a.

Definition gatherObject (size : Z) (rs : list Rank) (a : Z)
    (st : list Z * list Z) : list Z * list Z :=
  let '(nodCorLoc, nodCorGlob) := st in
  let loc1 := allgather (map (nodesThisCore a) rs) nodCorLoc in
  let loc2 := Arr.wr (shiftUp size loc1) 0 0 in
  let loc3 := alCumSum loc2 size in
  (loc3,
   Arr.for_loop 0 (size + 1)
     (fun b glob => Arr.wr glob (a * (size + 1) + b) (Arr.rdZ loc3 b))
     nodCorGlob).

(** returns [(nodCorGlob, capMatrixAllSize)] *)
Definition oGatherSurfaceNodes (size nObj : Z) (rs : list Rank) : list Z * Z :=
  let nodCorGlob :=
    snd (Arr.for_loop 0 nObj (gatherObject size rs)
           (Arr.alloc (size + 1) 0, Arr.alloc (nObj * (size + 1)) 0)) in
  (nodCorGlob,
   Arr.for_loop 0 nObj
     (fun a acc => acc + Arr.rdZ nodCorGlob (a * (size + 1) + size)) 0).

(** ** [oAlloc] *)

(** The error kinds of the specification; [msg(ERROR, ...)] of io.c
    prints and calls [exit(EXIT_FAILURE)]. *)
Inductive ErrorKind := CONFIG | NUMERICAL | COMM | INTERNAL.

Inductive Outcome (A : Type) :=
| Returned (a : A)
| Fatal (kind : ErrorKind).
Arguments Returned {A} a.
Arguments Fatal {A} kind.

(** the loop that finds the highest tag on one rank *)
Definition localObjectCount (g : Grid) : Z :=
  Arr.for_loop 0 (nNodes g)
    (fun i nObj =>
       if Dbl.gtb (Arr.rdQ (val g) i) (Dbl.ofZ nObj)
       then Dbl.toInt (Arr.rdQ (val g) i + Dbl.half)%Qc
       else nObj)
    0.

Definition withTables (nObj : Z) (r : Rank) : Rank :=
  let '(li, lio) := oFillLookupTables (domain r) nObj in
  let '(ls, lso) := oFindObjectSurfaceNodes (domain r) nObj in
  {| mpiRank := mpiRank r; pop := pop r; domain := domain r;
     lookupInterior := li; lookupInteriorOffset := lio;
     lookupSurface := ls; lookupSurfaceOffset := lso;
     rho := rho r; phi := phi r; rhoObj := rhoObj r |}.

(** [rs] is the memory of the ranks after [oReadH5] and the halo
    exchange of the object map.  Freshly allocated arrays are taken as
    zero-filled. *)
Definition oAlloc (size : Z) (rs : list Rank) : Outcome World :=
  let nObj := Mpi.allreduce_max (map (fun r => localObjectCount (domain r)) rs) in
  let rs' := map (withTables nObj) rs in
  let '(nodCorGlob, capMatrixAllSize) := oGatherSurfaceNodes size nObj rs' in
  Returned
    {| mpiSize := size;
       nObjects := nObj;
       capMatrixAllOffsets := nodCorGlob;
       capMatrixAll := Arr.alloc (capMatrixAllSize * capMatrixAllSize) 0%Qc;
       capMatrixSum := Arr.alloc nObj 0%Qc;
       ranks := rs' |}.

(** ** [oComputeCapacitanceMatrix] *)

(** the index expressions of the source into [nodCorGlob] *)
Definition totSNGlob (W : World) (a : Z) : Z :=
  Arr.rdZ (capMatrixAllOffsets W) (a * (mpiSize W + 1) + mpiSize W).
Definition beginIndex (W : World) (a : Z) (r : Rank) : Z :=
  Arr.rdZ (capMatrixAllOffsets W) (a * (mpiSize W + 1) + mpiRank r).
Definition endIndex (W : World) (a : Z) (r : Rank) : Z :=
  Arr.rdZ (capMatrixAllOffsets W) (a * (mpiSize W + 1) + mpiRank r + 1).

(** [nodCorGlob[a*(size+1)+j+1] - nodCorGlob[a*(size+1)+j]] *)
Definition nodesOnCore (W : World) (a j : Z) : Z :=
  Arr.rdZ (capMatrixAllOffsets W) (a * (mpiSize W + 1) + j + 1)
  - Arr.rdZ (capMatrixAllOffsets W) (a * (mpiSize W + 1) + j).

(** the two entries of [nodCorGlob] that [nodesOnCore W a j] reads are
    entries of the array *)
Definition coreInArray (W : World) (a j : Z) : bool :=
  (0 <=? a * (mpiSize W + 1) + j)
  && (a * (mpiSize W + 1) + j + 1 <? Z.of_nat (length (capMatrixAllOffsets W))).

(** [while (nodesOnCore == 0) j++;]  The loop has no bound on [j]: a
    test that reads outside [nodCorGlob] is undefined in C and ends the
    walk without a result ([None]).  The fuel is never used up before
    that (the array has fewer entries). *)
Fixpoint skipEmptyCores (fuel : nat) (W : World) (a j : Z) : option Z :=
  match fuel with
  | O => None
  | S fuel' =>
      if coreInArray W a j then
        if nodesOnCore W a j =? 0 then skipEmptyCores fuel' W a (j + 1)
        else Some j
      else None
  end.

(** [while (inode > nodesOnCore - 1) { j++; inode = 0; }], with the
    same convention *)
Fixpoint nextCore (fuel : nat) (W : World) (a j inode : Z) : option (Z * Z) :=
  match fuel with
  | O => None
  | S fuel' =>
      if coreInArray W a j then
        if inode >? nodesOnCore W a j - 1 then nextCore fuel' W a (j + 1) 0
        else Some (j, inode)
      else None
  end.

(** [capMatrixAll[a*totSNGlob*totSNGlob + l]], the slot of entry [l] of
    the matrix of object [a] in the store *)
Definition capStoreIndex (T a l : Z) : Z := a * T * T + l.

(** the loop that copies [invCapMatrix] into [capMatrixAll] *)
Definition storeInverse (T a : Z) (invCapMatrix capAll : list Qc) : list Qc :=
  Arr.for_loop 0 (T * T)
    (fun l all => Arr.wr all (capStoreIndex T a l) (Arr.rdQ invCapMatrix l))
    capAll.

(** [adSum(a, n)] *)
Definition adSum (a : list Qc) (n : Z) : Qc :=
  Arr.for_loop 0 n (fun l acc => (acc + Arr.rdQ a l)%Qc) 0%Qc.

(** the end of the body of the loop over the objects: the inverse goes
    into the store and the inverse of its sum into [capMatrixSum[a]].
    The sum [adSum] and the quotient are exact here; the source stores
    the double nearest to [1/adSum], and [inf] when the sum is 0 (the
    exact quotient [1/0] is 0). *)
Definition storeObject (W : World) (a : Z) (invCapMatrix : list Qc) : World :=
  let T := totSNGlob W a in
  {| mpiSize := mpiSize W;
     nObjects := nObjects W;
     capMatrixAllOffsets := capMatrixAllOffsets W;
     capMatrixAll := storeInverse T a invCapMatrix (capMatrixAll W);
     capMatrixSum :=
       Arr.wr (capMatrixSum W) a (1 / adSum invCapMatrix (T * T))%Qc;
     ranks := ranks W |}.

Record CapRank := mkCapRank {
  owner : Rank;
  rhoCap : list Qc;      (* rhoCap->val *)
  phiCap : list Qc;      (* phiCap->val *)
  capMatrix : list Qc    (* this rank's copy of capMatrix *)
}.

Section Capacitance.

(** The Poisson solver, from the charge on every rank to the potential
    on every rank, and the LU inversion of GSL on a row-major
    [T x T] matrix: both are external to object.c. *)
Variable solve : list (list Qc) -> list (list Qc).
Variable invert : Z -> list Qc -> list Qc.

(** more steps than [nodCorGlob] has entries, for the two walks *)
Definition fuelOf (W : World) : nat := S (length (capMatrixAllOffsets W)).

(** [rhoCap->val[lookupSurf[lookupSurfOff[a] + inode]] = 1] on rank [j] *)
Definition placeCharge (a j inode : Z) (c : CapRank) : CapRank :=
  if mpiRank (owner c) =? j then
    let r := owner c in
    mkCapRank r
      (Arr.wr (rhoCap c)
         (Arr.rdZ (lookupSurface r)
            (Arr.rdZ (lookupSurfaceOffset r) a + inode)) 1%Qc)
      (phiCap c) (capMatrix c)
  else c.

(** [solve(solver, rhoCap, phiCap, mpiInfo)]: rank [k] receives entry
    [k] of the solver's answer *)
Definition runSolver (cs : list CapRank) : list CapRank :=
  let phis := solve (map rhoCap cs) in
  imap (fun k c => mkCapRank (owner c) (rhoCap c)
                     (nth k phis (phiCap c)) (capMatrix c)) cs.

(** [rhoCap->val[lookupSurf[inode]] = 0] on rank [j] *)
Definition resetCharge (j inode : Z) (c : CapRank) : CapRank :=
  if mpiRank (owner c) =? j then
    let r := owner c in
    mkCapRank r
      (Arr.wr (rhoCap c) (Arr.rdZ (lookupSurface r) inode) 0%Qc)
      (phiCap c) (capMatrix c)
  else c.

(** column [i] of the capacitance matrix, rows [beginIndex .. endIndex) *)
Definition fillColumn (W : World) (a i : Z) (c : CapRank) : CapRank :=
  let r := owner c in
  let T := totSNGlob W a in
  mkCapRank r (rhoCap c) (phiCap c)
    (Arr.for_loop (beginIndex W a r) (endIndex W a r)
       (fun k m =>
          Arr.wr m (T * k + i)
            (Arr.rdQ (phiCap c)
               (Arr.rdZ (lookupSurface r)
                  (Arr.rdZ (lookupSurfaceOffset r) a + k - beginIndex W a r))))
       (capMatrix c)).

(** One pass of the loop over [i], in its two parts.  The state is the
    pair of counters [(j, inode)] and the ranks.  Each of the two
    [while] loops walks along [nodCorGlob] without a bound of its own;
    a walk that does not stop inside the array has left it, which is
    undefined in C: the pass has no result ([None]). *)

(** from the opening [while] to the loop that fills column [i] *)
Definition capFill (W : World) (a i : Z) (st : (Z * Z) * list CapRank)
  : option ((Z * Z) * list CapRank) :=
  let '((j, inode), cs) := st in
  match skipEmptyCores (fuelOf W) W a j with
  | None => None
  | Some j1 =>
      let cs1 := map (placeCharge a j1 inode) cs in
      let cs2 := runSolver cs1 in
      let cs3 := map (resetCharge j1 inode) cs2 in
      let cs4 := map (fillColumn W a i) cs3 in
      Some ((j1, inode), cs4)
  end.

(** [inode++] and the closing [while] *)
Definition capAdvance (W : World) (a : Z) (st : (Z * Z) * list CapRank)
  : option ((Z * Z) * list CapRank) :=
  let '((j, inode), cs) := st in
  match nextCore (fuelOf W) W a j (inode + 1) with
  | None => None
  | Some ctr => Some (ctr, cs)
  end.

Definition capColumn (W : World) (a i : Z) (st : (Z * Z) * list CapRank)
  : option ((Z * Z) * list CapRank) :=
  match capFill W a i st with
  | None => None
  | Some st' => capAdvance W a st'
  end.

(** the first [n] passes of the loop over [i], from [j = 0, inode = 0] *)
Definition capColumnsUpTo (W : World) (a n : Z) (cs : list CapRank)
  : option ((Z * Z) * list CapRank) :=
  Arr.for_loop 0 n
    (fun i st => match st with None => None | Some s => capColumn W a i s end)
    (Some ((0, 0), cs)).

(** pass [i] up to the end of the loop that fills column [i], after
    the [i] passes before it *)
Definition capColumnFilled (W : World) (a i : Z) (cs : list CapRank)
  : option ((Z * Z) * list CapRank) :=
  match capColumnsUpTo W a i cs with
  | None => None
  | Some s => capFill W a i s
  end.

Definition capColumns (W : World) (a : Z) (cs : list CapRank)
  : option ((Z * Z) * list CapRank) :=
  capColumnsUpTo W a (totSNGlob W a) cs.

(** [malloc] and [adSetAll(capMatrix, totSNGlob*totSNGlob, 0)] *)
Definition freshMatrix (T : Z) (c : CapRank) : CapRank :=
  mkCapRank (owner c) (rhoCap c) (phiCap c) (Arr.alloc (T * T) 0%Qc).

(** the body of the loop over the objects; the state is the ranks with
    their solver grids, and the store being filled *)
Definition capObject (a : Z) (st : option (World * list CapRank))
  : option (World * list CapRank) :=
  match st with
  | None => None
  | Some (W, cs) =>
      let T := totSNGlob W a in
      let cs0 := map (freshMatrix T) cs in
      match capColumns W a cs0 with
      | None => None
      | Some (_, cs1) =>
          let reduced := Mpi.allreduce_sum_vec (T * T) (map capMatrix cs1) in
          let invCapMatrix := invert T reduced in
          Some (storeObject W a invCapMatrix, cs1)
      end
  end.

(** [gZero(rhoCap); gZero(phiCap)] on grids of the geometry of the
    object map *)
Definition capInit (r : Rank) : CapRank :=
  mkCapRank r (Arr.alloc (nNodes (domain r)) 0%Qc)
    (Arr.alloc (nNodes (domain r)) 0%Qc) [].

(** the loop over the objects, up to (not including) object [n] *)
Definition capObjectsUpTo (W : World) (n : Z) : option (World * list CapRank) :=
  Arr.for_loop 0 n capObject (Some (W, map capInit (ranks W))).

Definition oComputeCapacitanceMatrix (W : World) : option World :=
  match capObjectsUpTo W (nObjects W) with
  | None => None
  | Some (W', _) => Some W'
  end.

(** [rhoCap->val] on every rank when pass [i] of object [a] has reset
    its charge and filled its column (nothing after that in the pass
    writes [rhoCap]) *)
Definition rhoAfterColumn (W : World) (a i : Z) : option (list (list Qc)) :=
  match capObjectsUpTo W a with
  | None => None
  | Some (W', cs) =>
      match capColumnFilled W' a i
              (map (freshMatrix (totSNGlob W' a)) cs) with
      | None => None
      | Some (_, cs1) => Some (map rhoCap cs1)
      end
  end.

End Capacitance.

(** ** [oApplyCapacitanceMatrix] *)

(** [capMatrixAll[a*totSNGlob*totSNGlob + totSNGlob*j + i]] *)
Definition capEntry (W : World) (a j i : Z) : Qc :=
  Arr.rdQ (capMatrixAll W)
    (capStoreIndex (totSNGlob W a) a (totSNGlob W a * j + i)).

(** [lookupSurf[lookupSurfOff[a] + j - beginIndex]] *)
Definition surfNode (W : World) (a : Z) (r : Rank) (j : Z) : Z :=
  Arr.rdZ (lookupSurface r)
    (Arr.rdZ (lookupSurfaceOffset r) a + j - beginIndex W a r).

(** eq. 7 on one rank: the double loop, then the product with
    [capMatrixSum[a]].  The sums and products of this and of the next
    three definitions are exact; the source accumulates them in
    doubles. *)
Definition localPhiSum (W : World) (a : Z) (r : Rank) : Qc :=
  (Arr.for_loop 0 (totSNGlob W a)
     (fun i acc =>
        Arr.for_loop (beginIndex W a r) (endIndex W a r)
          (fun j acc =>
             (acc + capEntry W a j i * Arr.rdQ (phi r) (surfNode W a r j))%Qc)
          acc)
     0%Qc
   * Arr.rdQ (capMatrixSum W) a)%Qc.

(** [deltaPhi] on one rank before the all-reduce *)
Definition localDeltaPhi (W : World) (a : Z) (phiC : Qc) (r : Rank) : list Qc :=
  Arr.for_loop (beginIndex W a r) (endIndex W a r)
    (fun j d => Arr.wr d j (phiC - Arr.rdQ (phi r) (surfNode W a r j))%Qc)
    (Arr.alloc (totSNGlob W a) 0%Qc).

(** eq. 5 on one rank before the all-reduce *)
Definition localRhoCorr (W : World) (a : Z) (deltaPhi : list Qc) (r : Rank)
  : list Qc :=
  Arr.for_loop 0 (totSNGlob W a)
    (fun i rc =>
       Arr.for_loop (beginIndex W a r) (endIndex W a r)
         (fun j rc =>
            Arr.wr rc i (Arr.rdQ rc i + capEntry W a j i * Arr.rdQ deltaPhi j)%Qc)
         rc)
    (Arr.alloc (totSNGlob W a) 0%Qc).

(** [rho->val[surfNode j] += rhoCorr[j]] for the rows of this rank *)
Definition addCorrection (W : World) (a : Z) (rhoCorr : list Qc) (r : Rank)
  : Rank :=
  {| mpiRank := mpiRank r; pop := pop r; domain := domain r;
     lookupInterior := lookupInterior r;
     lookupInteriorOffset := lookupInteriorOffset r;
     lookupSurface := lookupSurface r;
     lookupSurfaceOffset := lookupSurfaceOffset r;
     rho :=
       Arr.for_loop (beginIndex W a r) (endIndex W a r)
         (fun j v =>
            Arr.wr v (surfNode W a r j)
              (Arr.rdQ v (surfNode W a r j) + Arr.rdQ rhoCorr j)%Qc)
         (rho r);
     phi := phi r;
     rhoObj := rhoObj r |}.

(** the potential [capMatrixPhiSum] of object [a] after its all-reduce *)
Definition objectPotential (W : World) (a : Z) (rs : list Rank) : Qc :=
  Mpi.allreduce_sum (map (localPhiSum W a) rs).

Definition reducedDeltaPhi (W : World) (a : Z) (rs : list Rank) : list Qc :=
  Mpi.allreduce_sum_vec (totSNGlob W a)
    (map (localDeltaPhi W a (objectPotential W a rs)) rs).

Definition reducedRhoCorr (W : World) (a : Z) (rs : list Rank) : list Qc :=
  Mpi.allreduce_sum_vec (totSNGlob W a)
    (map (localRhoCorr W a (reducedDeltaPhi W a rs)) rs).

(** the body of the loop over the objects, on all ranks.  The scratch
    buffers [obj->deltaPhi] and [obj->rhoCorr] are cleared, reduced and
    read on their first [totSNGlob] entries only; the model keeps that
    part. *)
Definition applyObject (W : World) (a : Z) (rs : list Rank) : list Rank :=
  map (addCorrection W a (reducedRhoCorr W a rs)) rs.

Definition oApplyCapacitanceMatrix (W : World) : World :=
  {| mpiSize := mpiSize W;
     nObjects := nObjects W;
     capMatrixAllOffsets := capMatrixAllOffsets W;
     capMatrixAll := capMatrixAll W;
     capMatrixSum := capMatrixSum W;
     ranks := Arr.for_loop 0 (nObjects W) (applyObject W) (ranks W) |}.

(** ** [oCollectObjectCharge] *)

(** Modelled from the spec: [pCut] (population.c is not among the
    sources).  The specification has it remove particle [pIndex] of
    species [s] "by swapping the last particle of that species into the
    gap"; the stop index of the species goes down by one. *)
Definition pCut (p : Population) (s pIndex : Z) : Population :=
  let pLast := (Arr.rdZ (iStop p) s - 1) * nDims p in
  {| nDims := nDims p; nSpecies := nSpecies p;
     pos := Arr.for_loop 0 (nDims p)
              (fun d x => Arr.wr x (pIndex + d) (Arr.rdQ x (pLast + d))) (pos p);
     vel := Arr.for_loop 0 (nDims p)
              (fun d x => Arr.wr x (pIndex + d) (Arr.rdQ x (pLast + d))) (vel p);
     iStart := iStart p;
     iStop := Arr.wr (iStop p) s (Arr.rdZ (iStop p) s - 1);
     charge := charge p |}.

(** [invNrSurfNod[a] = 1.0/(nodCorGlob[(a+1)*(size)])], as the exact
    quotient; the source has the double nearest to it, and [inf] for
    the divisor 0 (the exact quotient [1/0] is 0) *)
Definition invNrSurfNod (W : World) : list Qc :=
  Arr.for_loop 0 (nObjects W)
    (fun a inv =>
       Arr.wr inv a
         (1 / Dbl.ofZ (Arr.rdZ (capMatrixAllOffsets W) ((a + 1) * mpiSize W)))%Qc)
    (Arr.alloc (nObjects W) 0%Qc).

Record Collecting := mkCollecting {
  cPop : Population;          (* pop *)
  chargeCounter : list Qc;    (* chargeCounter *)
  cutNumber : Z;              (* cutNumber *)
  cStop : Z                   (* the local iStop *)
}.

(** the lower corner of the cell of particle [i]:
    [p = j + k*sizeProd[2] + l*sizeProd[3]] with the integer parts of
    the position ([rhoObj] has the geometry of the object map) *)
Definition cellCorner (r : Rank) (pp : Population) (i : Z) : Z :=
  let j := Dbl.toInt (Arr.rdQ (pos pp) (i * nDims pp)) in
  let k := Dbl.toInt (Arr.rdQ (pos pp) (i * nDims pp + 1)) in
  let l := Dbl.toInt (Arr.rdQ (pos pp) (i * nDims pp + 2)) in
  j + k * Arr.rdZ (sizeProd (domain r)) 2 + l * Arr.rdZ (sizeProd (domain r)) 3.

(** the body of [if ((obj->lookupInterior[b])==p)]: the charge of the
    species goes to object [a] and the particle is cut (the addition
    is exact here and a rounded addition of doubles in the source) *)
Definition attribute (a s pIndex : Z) (st : Collecting) : Collecting :=
  {| cPop := pCut (cPop st) s pIndex;
     chargeCounter :=
       Arr.wr (chargeCounter st) a
         (Arr.rdQ (chargeCounter st) a + Arr.rdQ (charge (cPop st)) s)%Qc;
     cutNumber := cutNumber st + 1;
     cStop := cStop st - 1 |}.

(** the two loops over [a] and [b] that look [p] up in the interior
    table *)
Definition matchInterior (nObj : Z) (r : Rank) (s pIndex p : Z)
    (st : Collecting) : Collecting :=
  Arr.for_loop 0 nObj
    (fun a st =>
       Arr.for_loop (Arr.rdZ (lookupInteriorOffset r) a)
         (Arr.rdZ (lookupInteriorOffset r) (a + 1))
         (fun b st =>
            if Arr.rdZ (lookupInterior r) b =? p then attribute a s pIndex st
            else st)
         st)
    st.

(** [for (i = iStart; i < iStop; i++)], where the body lowers [iStop] *)
Fixpoint particleLoop (fuel : nat) (nObj : Z) (r : Rank) (s i : Z)
    (st : Collecting) : Collecting :=
  match fuel with
  | O => st
  | S fuel' =>
      if i <? cStop st then
        let p := cellCorner r (cPop st) i in
        particleLoop fuel' nObj r s (i + 1)
          (matchInterior nObj r s (i * nDims (cPop st)) p st)
      else st
  end.

Definition speciesLoop (nObj : Z) (r : Rank) (s : Z) (st : Collecting)
  : Collecting :=
  let start := Arr.rdZ (iStart (cPop st)) s in
  let stop := Arr.rdZ (iStop (cPop st)) s in
  particleLoop (Z.to_nat (stop - start)) nObj r s start
    (mkCollecting (cPop st) (chargeCounter st) (cutNumber st) stop).

(** the particle loops of one rank, before the all-reduce *)
Definition collectLocal (nObj : Z) (r : Rank) : Collecting :=
  Arr.for_loop 0 (nSpecies (pop r)) (speciesLoop nObj r)
    (mkCollecting (pop r) (Arr.alloc nObj 0%Qc) 0 0).

(** [val[obj->lookupSurface[b]] += chargeCounter[a]*invNrSurfNod[a]] *)
Definition depositCharge (nObj : Z) (counter inv : list Qc) (r : Rank)
  : list Qc :=
  Arr.for_loop 0 nObj
    (fun a v =>
       Arr.for_loop (Arr.rdZ (lookupSurfaceOffset r) a)
         (Arr.rdZ (lookupSurfaceOffset r) (a + 1))
         (fun b v =>
            Arr.wr v (Arr.rdZ (lookupSurface r) b)
              (Arr.rdQ v (Arr.rdZ (lookupSurface r) b)
               + Arr.rdQ counter a * Arr.rdQ inv a)%Qc)
         v)
    (rhoObj r).

(** the charge counters after [MPI_Allreduce(..., MPI_SUM, ...)] *)
Definition collectedCharge (W : World) : list Qc :=
  Mpi.allreduce_sum_vec (nObjects W)
    (map (fun r => chargeCounter (collectLocal (nObjects W) r)) (ranks W)).

Definition oCollectObjectCharge (W : World) : World :=
  let counter := collectedCharge W in
  let inv := invNrSurfNod W in
  {| mpiSize := mpiSize W;
     nObjects := nObjects W;
     capMatrixAllOffsets := capMatrixAllOffsets W;
     capMatrixAll := capMatrixAll W;
     capMatrixSum := capMatrixSum W;
     ranks :=
       map (fun r =>
              {| mpiRank := mpiRank r;
                 pop := cPop (collectLocal (nObjects W) r);
                 domain := domain r;
                 lookupInterior := lookupInterior r;
                 lookupInteriorOffset := lookupInteriorOffset r;
                 lookupSurface := lookupSurface r;
                 lookupSurfaceOffset := lookupSurfaceOffset r;
                 rho := rho r; phi := phi r;
                 rhoObj := depositCharge (nObjects W) counter inv r |})
           (ranks W) |}.

(** * Concrete inputs

    All of them live on a subdomain of 2 x 2 x 2 true points with one
    ghost layer on every side (4 x 4 x 4 nodes, [sizeProd = 1,1,4,16,64]),
    where node [(i,j,k)] has the linear index [i + 4 j + 16 k] and the
    true points are the nodes with all coordinates in [1..2]. *)

Definition noParticles : Population :=
  {| nDims := 3; nSpecies := 0; pos := []; vel := [];
     iStart := [0]; iStop := []; charge := [] |}.

Definition objectMap (tags : list (Z * Z)) : list Qc :=
  fold_left (fun v nt => Arr.wr v (fst nt) (Dbl.ofZ (snd nt))) tags
    (Arr.alloc 64 0%Qc).

Definition loadedRank (me : Z) (pp : Population) (tags : list (Z * Z)) : Rank :=
  {| mpiRank := me; pop := pp;
     domain := scalarGrid (objectMap tags) 2 2 2 1;
     lookupInterior := []; lookupInteriorOffset := [];
     lookupSurface := []; lookupSurfaceOffset := [];
     rho := Arr.alloc 64 0%Qc; phi := Arr.alloc 64 0%Qc;
     rhoObj := Arr.alloc 64 0%Qc |}.

Definition withLookups (r : Rank) (li lio ls lso : list Z) : Rank :=
  {| mpiRank := mpiRank r; pop := pop r; domain := domain r;
     lookupInterior := li; lookupInteriorOffset := lio;
     lookupSurface := ls; lookupSurfaceOffset := lso;
     rho := rho r; phi := phi r; rhoObj := rhoObj r |}.

(** One rank; object 1 is the node (2,2,2) = 42, object 2 is the node
    (1,2,2) = 41. *)
Definition twoObjectsRank : Rank := loadedRank 0 noParticles [(42, 1); (41, 2)].

Definition twoObjectsWorld : World :=
  {| mpiSize := 1; nObjects := 2;
     capMatrixAllOffsets := [0; 1; 0; 2];
     capMatrixAll := Arr.alloc 9 0%Qc;
     capMatrixSum := Arr.alloc 2 0%Qc;
     ranks := [withLookups twoObjectsRank [42; 41] [0; 1; 2]
                 [42; 41; 42] [0; 1; 3]] |}.

(** One rank; object 1 is the node 41 (two surface nodes), object 2 is
    the node 42 (one surface node). *)
Definition bigSmallRank : Rank := loadedRank 0 noParticles [(41, 1); (42, 2)].

Definition bigSmallWorld : World :=
  {| mpiSize := 1; nObjects := 2;
     capMatrixAllOffsets := [0; 2; 0; 1];
     capMatrixAll := Arr.alloc 9 0%Qc;
     capMatrixSum := Arr.alloc 2 0%Qc;
     ranks := [withLookups bigSmallRank [41; 42] [0; 1; 2]
                 [41; 42; 42] [0; 2; 3]] |}.

(** One rank; object 1 is the node 42 (one surface node), object 2 is
    the nodes 38 and 41 (three surface nodes). *)
Definition smallBigRank : Rank :=
  loadedRank 0 noParticles [(42, 1); (38, 2); (41, 2)].

Definition smallBigWorld : World :=
  {| mpiSize := 1; nObjects := 2;
     capMatrixAllOffsets := [0; 1; 0; 3];
     capMatrixAll := Arr.alloc 16 0%Qc;
     capMatrixSum := Arr.alloc 2 0%Qc;
     ranks := [withLookups smallBigRank [42; 38; 41] [0; 1; 3]
                 [42; 38; 41; 42] [0; 1; 4]] |}.

(** Two ranks.  Rank 0 holds one particle of charge -1 at
    (1.5, 2.25, 2.75), in the cell with lower corner (1,2,2) = 41,
    which is object 2 there. *)
Definition oneElectron : Population :=
  {| nDims := 3; nSpecies := 1;
     pos := [Q2Qc (3 # 2); Q2Qc (9 # 4); Q2Qc (11 # 4)];
     vel := [0; 0; 0]%Qc;
     iStart := [0; 1]; iStop := [1]; charge := [Dbl.ofZ (-1)] |}.

Definition impactRank0 : Rank := loadedRank 0 oneElectron [(42, 1); (41, 2)].
Definition impactRank1 : Rank := loadedRank 1 noParticles [(41, 1); (42, 2)].

Definition impactWorld : World :=
  {| mpiSize := 2; nObjects := 2;
     capMatrixAllOffsets := [0; 1; 3; 0; 2; 3];
     capMatrixAll := Arr.alloc 36 0%Qc;
     capMatrixSum := Arr.alloc 2 0%Qc;
     ranks := [withLookups impactRank0 [42; 41] [0; 1; 2]
                 [42; 41; 42] [0; 1; 3];
               withLookups impactRank1 [41; 42] [0; 1; 2]
                 [41; 42; 42] [0; 2; 3]] |}.

(** The rank of [bigSmallWorld] with its tables, the potential 3 on
    node 41 and 5 on node 42. *)
Definition collidedRank : Rank :=
  {| mpiRank := 0; pop := noParticles;
     domain := domain bigSmallRank;
     lookupInterior := [41; 42]; lookupInteriorOffset := [0; 1; 2];
     lookupSurface := [41; 42; 42]; lookupSurfaceOffset := [0; 2; 3];
     rho := Arr.alloc 64 0%Qc;
     phi := Arr.wr (Arr.wr (Arr.alloc 64 0%Qc) 41 (Dbl.ofZ 3)) 42 (Dbl.ofZ 5);
     rhoObj := Arr.alloc 64 0%Qc |}.

(** [bigSmallWorld] on that rank, when the end of the loop body of
    [oComputeCapacitanceMatrix] has stored the inverse of the matrix
    (2 1; 1 2) for object 1, ... *)
Definition firstStoredWorld : World :=
  storeObject
    {| mpiSize := 1; nObjects := 2;
       capMatrixAllOffsets := [0; 2; 0; 1];
       capMatrixAll := Arr.alloc 9 0%Qc;
       capMatrixSum := Arr.alloc 2 0%Qc;
       ranks := [collidedRank] |}
    0 (map Q2Qc [2 # 3; -1 # 3; -1 # 3; 2 # 3]%Q).

(** ... and then the inverse of the matrix (2) for object 2. *)
Definition collidedWorld : World :=
  storeObject firstStoredWorld 1 [Q2Qc (1 # 2)].

(** The 4 x 4 x 4 grid with the value 3/2 on the true point
    (2,2,2) = 42: the highest tag is 2. *)
Definition halfTagGrid : Grid :=
  scalarGrid (Arr.wr (Arr.alloc 64 0%Qc) 42 (Q2Qc (3 # 2))) 2 2 2 1.

(** A subdomain of 2 x 2 x 2 true points with two ghost layers on every
    side (6 x 6 x 6 nodes) and tag 1 on the node (1,1,1) = 43 of the
    ghost band. *)
Definition twoLayerGrid : Grid :=
  scalarGrid (Arr.wr (Arr.alloc 216 0%Qc) 43 1%Qc) 2 2 2 2.

(** One rank whose object map is zero everywhere. *)
Definition emptyRank : Rank := loadedRank 0 noParticles [].

(** One rank; object 1 is the node (1,1,1) = 21 and, copied into the
    halo, the ghost node (0,1,1) = 20.  One particle of charge -1 sits
    at (0.5, 1.5, 1.5), in the ghost cell with lower corner 20. *)
Definition ghostElectron : Population :=
  {| nDims := 3; nSpecies := 1;
     pos := [Q2Qc (1 # 2); Q2Qc (3 # 2); Q2Qc (3 # 2)];
     vel := [0; 0; 0]%Qc;
     iStart := [0; 1]; iStop := [1]; charge := [Dbl.ofZ (-1)] |}.

Definition haloRank : Rank := loadedRank 0 ghostElectron [(20, 1); (21, 1)].

(** ** Properties of the specification that the code does not have *)

(** every entry of a surface block is a non-ghost node with the tag of
    the block *)
Definition SurfaceEntriesOwnTag (g : Grid) (nObj : Z) : Prop :=
  forall a i, 0 <= a < nObj ->
    In i (block (fst (oFindObjectSurfaceNodes g nObj))
                (snd (oFindObjectSurfaceNodes g nObj)) a) ->
    isGhostNode g i = false /\ hasTag g a i = true.

(** the eight nodes the specification samples around node [i] *)
Definition sampledNodes (g : Grid) (i : Z) : list Z :=
  let sp := Arr.rdZ (sizeProd g) in
  [i; i - sp 3; i - sp 1; i - sp 1 - sp 3; i - sp 2; i - sp 2 - sp 3;
   i - sp 2 - sp 1; i - sp 2 - sp 1 - sp 3].

(** the count [d] of the specification: the sampled nodes whose tag, the
    rounded value, is the tag [a+1] of the object with index [a] *)
Definition taggedSamples (g : Grid) (a i : Z) : Z :=
  Z.of_nat (length (List.filter (fun n => tagOf g n =? a + 1)
                      (sampledNodes g i))).

(** a node of the local array is recorded for an object exactly when it
    is outside the ghost band and [0 < d < 8] *)
Definition SurfaceIsTaggedFrontier (g : Grid) (nObj : Z) : Prop :=
  forall a i, 0 <= a < nObj -> 0 <= i < nNodes g ->
    In i (block (fst (oFindObjectSurfaceNodes g nObj))
                (snd (oFindObjectSurfaceNodes g nObj)) a)
    <-> inGhostBand g i = false /\ 0 < taggedSamples g a i < 8.

(** the count of the sampled nodes whose value lies strictly between
    [a + 1/2] and [a + 3/2] (a value of exactly [a + 1/2] has the tag
    [a+1] and is not counted) *)
Definition strictSamples (g : Grid) (a i : Z) : Z :=
  Z.of_nat
    (length
       (List.filter
          (fun n => bool_decide
                      ((Dbl.ofZ a + Q2Qc (1 # 2) < Arr.rdQ (val g) n)%Qc
                       /\ (Arr.rdQ (val g) n < Dbl.ofZ a + Q2Qc (3 # 2))%Qc))
          (sampledNodes g i))).

(** outside the ghost band, and between one and seven sampled nodes
    with a value of the object *)
Definition onFrontier (g : Grid) (a i : Z) : bool :=
  negb (inGhostBand g i)
  && ((0 <? strictSamples g a i) && (strictSamples g a i <? 8)).

(** the interior table holds non-ghost nodes only *)
Definition InteriorEntriesNonGhost (g : Grid) (nObj : Z) : Prop :=
  forall i, In i (fst (oFillLookupTables g nObj)) -> isGhostNode g i = false.

(** an object count of zero is a fatal configuration error *)
Definition ZeroObjectsIsFatal (size : Z) (rs : list Rank) : Prop :=
  Mpi.allreduce_max (map (fun r => localObjectCount (domain r)) rs) = 0 ->
  oAlloc size rs = Fatal CONFIG.

(** ** The two passes of a lookup table, entry by entry

    Both tables are built alike: a first pass counts, for each object,
    the entries it will hold ([off[a+1]++]), [alCumSum] turns the counts
    into offsets, and a second pass files each entry at [index[a]++].
    An entry is a pair (object index [a], node). *)

Definition fileCount (off : list Z) (e : Z * Z) : list Z :=
  Arr.wr off (fst e + 1) (Arr.rdZ off (fst e + 1) + 1).

Definition fileEntry (st : list Z * list Z) (e : Z * Z) : list Z * list Z :=
  (Arr.wr (fst st) (Arr.rdZ (snd st) (fst e)) (snd e),
   Arr.wr (snd st) (fst e) (Arr.rdZ (snd st) (fst e) + 1)).

(** the nodes filed under object [a], in the order of the entries *)
Definition filed (es : list (Z * Z)) (a : Z) : list Z :=
  map snd (List.filter (fun e => fst e =? a) es).

Definition cntEq (es : list (Z * Z)) (a : Z) : Z :=
  Z.of_nat (length (List.filter (fun e => fst e =? a) es)).

Definition cntLt (es : list (Z * Z)) (a : Z) : Z :=
  Z.of_nat (length (List.filter (fun e => fst e <? a) es)).

(** the entries of the surface table in the order of the two nested
    loops: object by object, node by node *)
Definition surfaceEntries (g : Grid) (nObj : Z) : list (Z * Z) :=
  flat_map
    (fun a => map (fun b => (a, b)) (List.filter (acceptSurface g a) (seqZ 0 (nNodes g))))
    (seqZ 0 nObj).

(** the entries of the interior table in the order of the loop over
    the nodes *)
Definition interiorEntries (g : Grid) : list (Z * Z) :=
  map (fun i => (tagOf g i - 1, i))
    (List.filter (isObjectNode g) (seqZ 0 (nNodes g))).

(** the nodes the interior table files under object [a] (tag [a+1]) *)
Definition acceptInterior (g : Grid) (a i : Z) : bool :=
  isObjectNode g i && (tagOf g i - 1 =? a).

(** no node of the local array has a tag above [nObj] (the object count
    is the highest tag over all ranks) *)
Definition tagsWithin (g : Grid) (nObj : Z) : bool :=
  forallb (fun i => implb (isObjectNode g i) (tagOf g i <=? nObj))
    (seqZ 0 (nNodes g)).

(** ** Sums, and the state the charge corrector relies on *)

(** the sum of [f x] over the entries [x] of a list *)
Definition sumOver {X : Type} (f : X -> Qc) (l : list X) : Qc :=
  Mpi.sumQ (map f l).

(** the sum of [rho] over all nodes of all ranks *)
Definition totalCharge (rs : list Rank) : Qc :=
  sumOver (fun r => Mpi.sumQ (rho r)) rs.

(** the ranks are numbered [0 .. size-1] *)
Definition ranksNumbered (W : World) (rs : list Rank) : Prop :=
  map mpiRank rs = seqZ 0 (mpiSize W).

(** row [a] of [nodCorGlob] starts at 0 and does not decrease (it is a
    list of running totals) *)
Definition rowOrdered (W : World) (a : Z) : Prop :=
  Arr.rdZ (capMatrixAllOffsets W) (a * (mpiSize W + 1)) = 0
  /\ forall k, 0 <= k < mpiSize W ->
       Arr.rdZ (capMatrixAllOffsets W) (a * (mpiSize W + 1) + k)
       <= Arr.rdZ (capMatrixAllOffsets W) (a * (mpiSize W + 1) + k + 1).

(** the sum of the entries of the matrix of object [a] in the store *)
Definition storedSum (W : World) (a : Z) : Qc :=
  Arr.for_loop 0 (totSNGlob W a * totSNGlob W a)
    (fun l acc =>
       (acc + Arr.rdQ (capMatrixAll W) (capStoreIndex (totSNGlob W a) a l))%Qc)
    0%Qc.

(** [capMatrixSum[a]] is the inverse of the sum of the stored matrix *)
Definition sumNormalised (W : World) (a : Z) : Prop :=
  (Arr.rdQ (capMatrixSum W) a * storedSum W a = 1)%Qc.

(** the surface nodes of the rows of rank [r] are nodes of its [rho] *)
Definition rowsInRange (W : World) (a : Z) (r : Rank) : Prop :=
  forall j, beginIndex W a r <= j < endIndex W a r ->
    0 <= surfNode W a r j < Z.of_nat (length (rho r)).

(** the rows of rank [r] in [nodCorGlob] are as many as the entries of
    its surface block, and the block lies in the table *)
Definition rowsMatchBlock (W : World) (a : Z) (r : Rank) : Prop :=
  endIndex W a r - beginIndex W a r
  = Arr.rdZ (lookupSurfaceOffset r) (a + 1) - Arr.rdZ (lookupSurfaceOffset r) a
  /\ 0 <= Arr.rdZ (lookupSurfaceOffset r) a
  /\ Arr.rdZ (lookupSurfaceOffset r) (a + 1)
     <= Z.of_nat (length (lookupSurface r)).

(** what the corrector leaves alone on a rank: everything but the values
    of [rho] *)
Definition sameShape (r r' : Rank) : Prop :=
  mpiRank r' = mpiRank r
  /\ lookupSurface r' = lookupSurface r
  /\ lookupSurfaceOffset r' = lookupSurfaceOffset r
  /\ phi r' = phi r
  /\ rhoObj r' = rhoObj r
  /\ length (rho r') = length (rho r).

(** [rho] is the same outside the nodes listed in the surface blocks *)
Definition framed (nObj : Z) (r r' : Rank) : Prop :=
  sameShape r r'
  /\ forall m,
       (forall a, 0 <= a < nObj ->
          ~ In m (block (lookupSurface r) (lookupSurfaceOffset r) a)) ->
       Arr.rdQ (rho r') m = Arr.rdQ (rho r) m.

(** Two ranks and one object with the two surface nodes 42 (on rank 0)
    and 21 (on rank 1); the stored matrix is ((2,1),(1,2)), whose
    entries add up to 6, and the potential is 3 on node 42 of rank 0 and
    5 on node 21 of rank 1. *)
Definition correctorRank (me node : Z) (potential : Z) : Rank :=
  {| mpiRank := me; pop := noParticles;
     domain := scalarGrid (objectMap []) 2 2 2 1;
     lookupInterior := []; lookupInteriorOffset := [0; 0];
     lookupSurface := [node]; lookupSurfaceOffset := [0; 1];
     rho := Arr.alloc 64 0%Qc;
     phi := Arr.wr (Arr.alloc 64 0%Qc) node (Dbl.ofZ potential);
     rhoObj := Arr.alloc 64 0%Qc |}.

Definition correctorWorld : World :=
  {| mpiSize := 2; nObjects := 1;
     capMatrixAllOffsets := [0; 1; 2];
     capMatrixAll := map Dbl.ofZ [2; 1; 1; 2];
     capMatrixSum := [Q2Qc (1 # 6)];
     ranks := [correctorRank 0 42 3; correctorRank 1 21 5] |}.

(** a coordinate triple with a component outside the true points
    [1..nx] x [1..ny] x [1..nz] *)
Definition offTruePoints (nx ny nz i j k : Z) : bool :=
  (i <? 1) || (nx <? i) || (j <? 1) || (ny <? j) || (k <? 1) || (nz <? k).

(** the number of surface nodes of object [a] on the ranks before rank
    [b] *)
Definition nodesBefore (rs : list Rank) (a b : Z) : Z :=
  fold_right Z.add 0 (map (nodesThisCore a) (take (Z.to_nat b) rs)).

(** ** Notions used by the further properties *)

(** the entries of a list of node indices go up strictly *)
Definition increasing (l : list Z) : Prop :=
  forall p q x y, (p < q)%nat -> l !! p = Some x -> l !! q = Some y -> x < y.

(** the sum of [f a] over a list of integers *)
Definition sumZ {X : Type} (f : X -> Z) (l : list X) : Z :=
  fold_right Z.add 0 (map f l).

(** One rank; object 1 is the node (1,2,2) = 41 and object 2 the node
    (2,1,2) = 38: two surface nodes each. *)
Definition twinRank : Rank := loadedRank 0 noParticles [(41, 1); (38, 2)].

Definition twinWorld : World :=
  {| mpiSize := 1; nObjects := 2;
     capMatrixAllOffsets := [0; 2; 0; 2];
     capMatrixAll := Arr.alloc 16 0%Qc;
     capMatrixSum := Arr.alloc 2 0%Qc;
     ranks := [withLookups twinRank [41; 38] [0; 1; 2]
                 [41; 42; 38; 42] [0; 2; 4]] |}.

(** the potential is [c] on every surface node of object [a], on every
    rank of [rs] *)
Definition equipotential (W : World) (a : Z) (rs : list Rank) (c : Qc) : Prop :=
  forall r j, In r rs -> beginIndex W a r <= j < endIndex W a r ->
    Arr.rdQ (phi r) (surfNode W a r j) = c.

(** The two ranks of [correctorWorld] with the potential 3 on both
    surface nodes. *)
Definition levelWorld : World :=
  {| mpiSize := 2; nObjects := 1;
     capMatrixAllOffsets := [0; 1; 2];
     capMatrixAll := map Dbl.ofZ [2; 1; 1; 2];
     capMatrixSum := [Q2Qc (1 # 6)];
     ranks := [correctorRank 0 42 3; correctorRank 1 21 3] |}.

(** the number of particles species [s] has lost from the population
    [p0] to the population [p] *)
Definition removed (p0 p : Population) (s : Z) : Z :=
  Arr.rdZ (iStop p0) s - Arr.rdZ (iStop p) s.

(** the charge of the particles lost from [p0] to [p] *)
Definition chargeRemoved (p0 p : Population) : Qc :=
  sumOver (fun s => (Arr.rdQ (charge p0) s * Dbl.ofZ (removed p0 p s))%Qc)
    (seqZ 0 (nSpecies p0)).

(** what the particle loops of [oCollectObjectCharge] keep true of
    their state, [p0] being the population at the start *)
Definition accountedFor (nObj : Z) (p0 : Population) (st : Collecting) : Prop :=
  Z.of_nat (length (chargeCounter st)) = Z.max 0 nObj
  /\ length (iStop (cPop st)) = length (iStop p0)
  /\ charge (cPop st) = charge p0
  /\ iStart (cPop st) = iStart p0
  /\ nSpecies (cPop st) = nSpecies p0
  /\ nDims (cPop st) = nDims p0
  /\ (forall s, 0 <= removed p0 (cPop st) s)
  /\ Mpi.sumQ (chargeCounter st) = chargeRemoved p0 (cPop st)
  /\ cutNumber st = sumZ (removed p0 (cPop st)) (seqZ 0 (nSpecies p0)).

(** the sum of [rhoObj] over all nodes of all ranks *)
Definition totalObjectCharge (rs : list Rank) : Qc :=
  sumOver (fun r => Mpi.sumQ (rhoObj r)) rs.

(** the nodes listed in surface block [a] of rank [r] are nodes of its
    [rhoObj] *)
Definition blockInRange (a : Z) (r : Rank) : Prop :=
  forall b, Arr.rdZ (lookupSurfaceOffset r) a <= b
            < Arr.rdZ (lookupSurfaceOffset r) (a + 1) ->
    0 <= Arr.rdZ (lookupSurface r) b < Z.of_nat (length (rhoObj r)).

(** the entry of [nodCorGlob] that [oCollectObjectCharge] divides by *)
Definition divisorSlot (W : World) (a : Z) : Z :=
  Arr.rdZ (capMatrixAllOffsets W) ((a + 1) * mpiSize W).

(** The halo rank after [oAlloc]: all eight true points are surface
    nodes of the object. *)
Definition haloWorld : World :=
  {| mpiSize := 1; nObjects := 1;
     capMatrixAllOffsets := [0; 8];
     capMatrixAll := Arr.alloc 64 0%Qc;
     capMatrixSum := Arr.alloc 1 0%Qc;
     ranks := [withLookups haloRank [20; 21] [0; 2]
                 [21; 22; 25; 26; 37; 38; 41; 42] [0; 8]] |}.

(** what [oCollectObjectCharge] leaves alone on a rank: everything but
    the particles and [rhoObj], whose entries change only at the nodes
    listed in the first [nObj] blocks of the surface table *)
Definition collectorFrame (nObj : Z) (r r' : Rank) : Prop :=
  mpiRank r' = mpiRank r
  /\ domain r' = domain r
  /\ lookupInterior r' = lookupInterior r
  /\ lookupInteriorOffset r' = lookupInteriorOffset r
  /\ lookupSurface r' = lookupSurface r
  /\ lookupSurfaceOffset r' = lookupSurfaceOffset r
  /\ rho r' = rho r
  /\ phi r' = phi r
  /\ length (rhoObj r') = length (rhoObj r)
  /\ forall m,
       (forall a b, 0 <= a < nObj ->
          Arr.rdZ (lookupSurfaceOffset r) a <= b
          < Arr.rdZ (lookupSurfaceOffset r) (a + 1) ->
          Arr.rdZ (lookupSurface r) b <> m) ->
       Arr.rdQ (rhoObj r') m = Arr.rdQ (rhoObj r) m.

(** no particle of the rank has the lower corner of its cell on a node
    with [val > 0.5] of the local array *)
Definition noParticleInside (r : Rank) : Prop :=
  forall s i, 0 <= s < nSpecies (pop r) ->
    Arr.rdZ (iStart (pop r)) s <= i < Arr.rdZ (iStop (pop r)) s ->
    ~ (0 <= cellCorner r (pop r) i < nNodes (domain r)
       /\ isObjectNode (domain r) (cellCorner r (pop r) i) = true).

(** One rank; object 1 is the node (1,1,1) = 21, and one particle of
    charge -1 sits at (2.5, 2.5, 2.5), in the cell with lower corner
    (2,2,2) = 42, outside the object. *)
Definition strayElectron : Population :=
  {| nDims := 3; nSpecies := 1;
     pos := [Q2Qc (5 # 2); Q2Qc (5 # 2); Q2Qc (5 # 2)];
     vel := [0; 0; 0]%Qc;
     iStart := [0; 1]; iStop := [1]; charge := [Dbl.ofZ (-1)] |}.

Definition strayRank : Rank := loadedRank 0 strayElectron [(21, 1)].

Definition strayWorld : World :=
  {| mpiSize := 1; nObjects := 1;
     capMatrixAllOffsets := [0; 8];
     capMatrixAll := Arr.alloc 64 0%Qc;
     capMatrixSum := Arr.alloc 1 0%Qc;
     ranks := [withLookups strayRank [21] [0; 1]
                 [21; 22; 25; 26; 37; 38; 41; 42] [0; 8]] |}.

(** entry [k] of row [a] of [nodCorGlob]: the number of surface nodes
    of object [a] on the ranks before rank [k] *)
Definition rowEntry (W : World) (a k : Z) : Z :=
  Arr.rdZ (capMatrixAllOffsets W) (a * (mpiSize W + 1) + k).

(** the position of the loop over the columns of object [a] before
    column [i]: the next
    rank with surface nodes from [j] on is [j1], global index [i] lies
    in the rows of rank [j1], and [inode] is its place among them *)
Definition columnAt (W : World) (a i : Z) (ctr : Z * Z) (j1 : Z) : Prop :=
  exists j inode,
    ctr = (j, inode)
    /\ skipEmptyCores (fuelOf W) W a j = Some j1
    /\ 0 <= j1 < mpiSize W
    /\ rowEntry W a j1 <= i < rowEntry W a (j1 + 1)
    /\ inode = i - rowEntry W a j1.

(** a rank's solver grids hold the charge of [c0] *)
Definition chargeKept (c0 c : CapRank) : Prop :=
  owner c = owner c0 /\ rhoCap c = rhoCap c0.

(** where the loop over the columns of object [a] stands before column
    [i]: on a rank [j] with [inode] of its rows done, or with none done
    (then [j] may be a rank without surface nodes) *)
Definition standsAt (W : World) (a i : Z) (ctr : Z * Z) : Prop :=
  exists j inode,
    ctr = (j, inode)
    /\ 0 <= j < mpiSize W /\ 0 <= inode /\ rowEntry W a j + inode = i
    /\ (inode = 0 \/ inode < rowEntry W a (j + 1) - rowEntry W a j).

(** ** [oSolFacingSurfaceNodes2]

    The function walks, for every object, over the lines of the grid
    along the first axis and records the first node of each line that
    is not a ghost node and is listed in the block of the object in the
    surface table; it is built like the other lookup tables (a counting
    pass, [alCumSum], a filling pass). *)

(** the loop over [b] with its [break]: is [p] one of the entries
    [surf[surfOff[a] + b]] *)
Fixpoint inSurfaceBlock (surf : list Z) (base p : Z) (bs : list Z) : bool :=
  match bs with
  | [] => false
  | b :: rest =>
      if p =? Arr.rdZ surf (base + b) then true
      else inSurfaceBlock surf base p rest
  end.

(** [!isGhostNode(obj->domain, p)] and the loop over [b] finding [p]:
    the condition under which [flag] is set *)
Definition exposedHit (g : Grid) (surf surfOff : list Z) (a p : Z) : bool :=
  negb (isGhostNode g p)
  && inSurfaceBlock surf (Arr.rdZ surfOff a) p
       (seqZ 0 (Arr.rdZ surfOff (a + 1) - Arr.rdZ surfOff a)).

(** the loop over [i] with [if(flag) break]: the node the line [(j,k)]
    contributes for object [a], if any;
    [p = i*sizeProd[1] + j*sizeProd[2] + k*sizeProd[3]] *)
Fixpoint firstExposed (g : Grid) (surf surfOff : list Z) (a j k : Z)
    (line : list Z) : option Z :=
  match line with
  | [] => None
  | i :: rest =>
      if exposedHit g surf surfOff a (node_of g i j k)
      then Some (node_of g i j k)
      else firstExposed g surf surfOff a j k rest
  end.

Definition exposedLine (g : Grid) (surf surfOff : list Z) (a j k : Z)
  : option Z :=
  firstExposed g surf surfOff a j k (seqZ 0 (Arr.rdZ (size g) 1)).

Definition exposedCount (g : Grid) (surf surfOff : list Z) (nObj : Z) : list Z :=
  Arr.for_loop 0 nObj
    (fun a off =>
       Arr.for_loop 0 (Arr.rdZ (size g) 3)
         (fun k off =>
            Arr.for_loop 0 (Arr.rdZ (size g) 2)
              (fun j off =>
                 match exposedLine g surf surfOff a j k with
                 | Some _ => Arr.wr off (a + 1) (Arr.rdZ off (a + 1) + 1)
                 | None => off
                 end)
              off)
         off)
    (Arr.alloc (nObj + 1) 0).

Definition exposedFill (g : Grid) (surf surfOff : list Z) (nObj : Z)
    (off : list Z) : list Z * list Z :=
  Arr.for_loop 0 nObj
    (fun a st =>
       Arr.for_loop 0 (Arr.rdZ (size g) 3)
         (fun k st =>
            Arr.for_loop 0 (Arr.rdZ (size g) 2)
              (fun j st =>
                 let '(tbl, index) := st in
                 match exposedLine g surf surfOff a j k with
                 | Some p => (Arr.wr tbl (Arr.rdZ index a) p,
                              Arr.wr index a (Arr.rdZ index a + 1))
                 | None => st
                 end)
              st)
         st)
    (Arr.alloc (Arr.rdZ off nObj) 0, initIndex off nObj).

(** returns [(exposedNodes, exposedNodesOffset)] *)
Definition oSolFacingSurfaceNodes2 (g : Grid) (surf surfOff : list Z)
    (nObj : Z) : list Z * list Z :=
  let off := alCumSum (exposedCount g surf surfOff nObj) nObj in
  (fst (exposedFill g surf surfOff nObj off), off).

(** [p] is an entry of block [a] of the surface table *)
Definition listedIn (surf surfOff : list Z) (a p : Z) : Prop :=
  exists b, Arr.rdZ surfOff a <= b < Arr.rdZ surfOff (a + 1)
            /\ Arr.rdZ surf b = p.

(** a node that [oSolFacingSurfaceNodes2] can record for object [a] *)
Definition exposable (g : Grid) (surf surfOff : list Z) (a p : Z) : Prop :=
  isGhostNode g p = false /\ listedIn surf surfOff a p.

(** the entry a line yields, as a list *)
Definition lineEntries (g : Grid) (surf surfOff : list Z) (a k j : Z)
  : list (Z * Z) :=
  match exposedLine g surf surfOff a j k with
  | Some p => [(a, p)]
  | None => []
  end.

(** the entries of the exposed-node table in the order of the three
    nested loops *)
Definition exposedEntries (g : Grid) (surf surfOff : list Z) (nObj : Z)
  : list (Z * Z) :=
  flat_map
    (fun a =>
       flat_map
         (fun k => flat_map (lineEntries g surf surfOff a k)
                     (seqZ 0 (Arr.rdZ (size g) 2)))
         (seqZ 0 (Arr.rdZ (size g) 3)))
    (seqZ 0 nObj).

(** the nodes recorded for object [a], line by line *)
Definition exposedOf (g : Grid) (surf surfOff : list Z) (a : Z) : list Z :=
  flat_map
    (fun k => flat_map (fun j => option_list (exposedLine g surf surfOff a j k))
                (seqZ 0 (Arr.rdZ (size g) 2)))
    (seqZ 0 (Arr.rdZ (size g) 3)).

(** ** [oSetObjectValues]

    [grid->val] after the call.  The bound of the loop is the entry
    [lookupSurface[nthObj+1]] of the surface table. *)
Definition oSetObjectValues (r : Rank) (v : list Qc) (nthObj : Z) (value : Qc)
  : list Qc :=
  let surf := lookupSurface r in
  let surfOff := Arr.rdZ (lookupSurfaceOffset r) nthObj in
  Arr.for_loop 0 (Arr.rdZ (lookupSurface r) (nthObj + 1))
    (fun i v => Arr.wr v (Arr.rdZ surf (surfOff + i)) value)
    v.

(** A rank with a surface table of three entries for one object, whose
    second entry is 2. *)
Definition shortTableRank : Rank :=
  withLookups emptyRank [] [0; 0] [5; 2; 7] [0; 3].

(** ** The matrix of the first object

    [gZero(rhoCap)] on the grid of rank [r] *)
Definition zeroGrid (r : Rank) : list Qc := Arr.alloc (nNodes (domain r)) 0%Qc.

(** the charge on all ranks when one unit sits on surface node [i] of
    object [a], on the rank that holds it *)
Definition unitChargeAt (W : World) (a i : Z) : list (list Qc) :=
  map (fun r =>
         if decide (beginIndex W a r <= i < endIndex W a r)
         then Arr.wr (zeroGrid r) (surfNode W a r i) 1%Qc
         else zeroGrid r)
    (ranks W).

(** the potential the solver returns on surface node [k] of object [a]
    (a row of rank [r]) for the unit charge on surface node [i] *)
Definition response (solve : list (list Qc) -> list (list Qc))
    (W : World) (a i : Z) (r : Rank) (k : Z) : Qc :=
  Arr.rdQ (nth (Z.to_nat (mpiRank r)) (solve (unitChargeAt W a i)) [])
    (surfNode W a r k).

(** the solver grids and the matrix of rank [r] when the first [n]
    columns of object [a] are done *)
Definition columnsDone (solve : list (list Qc) -> list (list Qc))
    (W : World) (a n : Z) (r : Rank) (c : CapRank) : Prop :=
  owner c = r
  /\ rhoCap c = zeroGrid r
  /\ Z.of_nat (length (capMatrix c)) = totSNGlob W a * totSNGlob W a
  /\ forall k i, 0 <= k < totSNGlob W a -> 0 <= i < totSNGlob W a ->
       Arr.rdQ (capMatrix c) (totSNGlob W a * k + i)
       = if decide (beginIndex W a r <= k < endIndex W a r /\ i < n)
         then response solve W a i r k else 0%Qc.

(** ** A potential raised by a constant *)

(** rank [r] with [c] added to [phi] on every node *)
Definition raisePotential (c : Qc) (r : Rank) : Rank :=
  {| mpiRank := mpiRank r; pop := pop r; domain := domain r;
     lookupInterior := lookupInterior r;
     lookupInteriorOffset := lookupInteriorOffset r;
     lookupSurface := lookupSurface r;
     lookupSurfaceOffset := lookupSurfaceOffset r;
     rho := rho r;
     phi := map (fun v => (v + c)%Qc) (phi r);
     rhoObj := rhoObj r |}.

Definition raiseWorld (c : Qc) (W : World) : World :=
  {| mpiSize := mpiSize W;
     nObjects := nObjects W;
     capMatrixAllOffsets := capMatrixAllOffsets W;
     capMatrixAll := capMatrixAll W;
     capMatrixSum := capMatrixSum W;
     ranks := map (raisePotential c) (ranks W) |}.

(** the surface nodes of the rows of rank [r] are nodes of its [phi] *)
Definition phiCovers (W : World) (a : Z) (r : Rank) : Prop :=
  forall j, beginIndex W a r <= j < endIndex W a r ->
    0 <= surfNode W a r j < Z.of_nat (length (phi r)).

(** * Properties *)

(** ** The concrete worlds are the ones [oAlloc] builds *)

Lemma oAlloc_twoObjects : oAlloc 1 [twoObjectsRank] = Returned twoObjectsWorld.
Proof. vm_compute. reflexivity. Qed.

Lemma oAlloc_bigSmall : oAlloc 1 [bigSmallRank] = Returned bigSmallWorld.
Proof. vm_compute. reflexivity. Qed.

Lemma oAlloc_smallBig : oAlloc 1 [smallBigRank] = Returned smallBigWorld.
Proof. vm_compute. reflexivity. Qed.

Lemma oAlloc_impact :
  oAlloc 2 [impactRank0; impactRank1] = Returned impactWorld.
Proof. vm_compute. reflexivity. Qed.

(** ** Ghost nodes *)

(** C9 (the code falls short of it).  On a grid with two ghost layers
    per side the node (1,1,1) = 43 has every coordinate inside the lower
    ghost band, and [isGhostNode] answers [false]: [oGhost] is handed
    the ghost-layer counts and never reads them, it tests against one
    layer whatever the grid says. *)
Theorem C9_isGhostNode_assumes_one_layer :
  let g := scalarGrid [] 2 2 2 2 in
  node_of g 1 1 1 = 43
  /\ map (coordinate g 43) [1; 2; 3] = [1; 1; 1]
  /\ inGhostBand g 43 = true
  /\ isGhostNode g 43 = false.
Proof. vm_compute. repeat split; reflexivity. Qed.

(** ** Capacitance builder *)

(** C1 (the code falls short of it).  For the second object the test
    charge is placed at [lookupSurf[lookupSurfOff[a] + inode]] and the
    reset clears [lookupSurf[inode]], an entry of the first object's
    block.  With object 1 = {42} and object 2 = {41, 42} the charge put
    on node 41 for column 0 of object 2 is still there when the column
    is done, and after column 1 node 42 keeps its charge. *)
Theorem C1_reset_drops_block_offset :
  forall (solve : list (list Qc) -> list (list Qc))
         (invert : Z -> list Qc -> list Qc),
    map (fun r => surfNode twoObjectsWorld 1 r 0) (ranks twoObjectsWorld) = [41]
    /\ rhoAfterColumn solve invert twoObjectsWorld 1 0
       = Some [Arr.wr (Arr.alloc 64 0%Qc) 41 1%Qc]
    /\ rhoAfterColumn solve invert twoObjectsWorld 1 1
       = Some [Arr.wr (Arr.alloc 64 0%Qc) 42 1%Qc].
Proof. intros solve invert. vm_compute. repeat split; reflexivity. Qed.

(** C6 (the code falls short of it).  The matrix of object [a] is put
    at [a*T_a*T_a], not after the matrices of the objects before it.
    With T = (2, 1) entry (0,1) of the first matrix and the only entry
    of the second share slot 1, and storing the second matrix
    overwrites the first; with T = (1, 3) the second matrix runs up to
    slot 17 of a store of 16. *)
Theorem C6_store_blocks_collide :
  map (totSNGlob bigSmallWorld) [0; 1] = [2; 1]
  /\ capStoreIndex 2 0 (2 * 0 + 1) = capStoreIndex 1 1 0
  /\ map this
       (storeInverse 1 1 [Dbl.ofZ 9]
          (storeInverse 2 0 (map Dbl.ofZ [1; 2; 3; 4])
             (capMatrixAll bigSmallWorld)))
     = map inject_Z [1; 9; 3; 4; 0; 0; 0; 0; 0]
  /\ map (totSNGlob smallBigWorld) [0; 1] = [1; 3]
  /\ Z.of_nat (length (capMatrixAll smallBigWorld)) = 16
  /\ capStoreIndex 3 1 (3 * 3 - 1) = 17.
Proof. vm_compute. repeat split; reflexivity. Qed.

(** ** Charge corrector *)

(** C4 (the code falls short of it).  With T = (2, 1), storing the
    matrix of the first object leaves [capMatrixSum[0]] the inverse of
    the sum of its block; storing the matrix of the second object then
    puts its one entry on entry (0,1) of the first (C6), so the matrix
    [oApplyCapacitanceMatrix] reads for the first object is no longer
    the one whose sum [capMatrixSum[0]] inverts: the product of the two
    is 9/4 instead of 1, the corrections of the first object add up to
    155/24 instead of 0, and the call takes the sum of [rho] over all
    nodes from 0 to 155/24 (in exact arithmetic, of which the claim
    speaks). *)
Theorem C4_collided_store_breaks_conservation :
  this (Arr.rdQ (capMatrixSum firstStoredWorld) 0 * storedSum firstStoredWorld 0)%Qc
  = 1%Q
  /\ map this (firstn 4 (capMatrixAll collidedWorld))
     = [(2 # 3); (1 # 2); (-1 # 3); (2 # 3)]%Q
  /\ map this (capMatrixSum collidedWorld) = [(3 # 2); 2]%Q
  /\ this (Arr.rdQ (capMatrixSum collidedWorld) 0 * storedSum collidedWorld 0)%Qc
     = (9 # 4)%Q
  /\ map this (reducedRhoCorr collidedWorld 0 (ranks collidedWorld))
     = [(9 # 4); (101 # 24)]%Q
  /\ this (totalCharge (ranks collidedWorld)) = 0%Q
  /\ this (totalCharge (ranks (oApplyCapacitanceMatrix collidedWorld)))
     = (155 # 24)%Q.
Proof. vm_compute. repeat split; reflexivity. Qed.

(** ** Impact collector *)

(** C3 (the code falls short of it).  The divisor of object [a] is read
    at [nodCorGlob[(a+1)*size]]; the total of the object is at
    [nodCorGlob[a*(size+1)+size]].  On two ranks the second object has
    three surface nodes and the divisor read is 2: one collected charge
    of -1 puts -1/2 on each of the three nodes. *)
Theorem C3_divisor_read_from_wrong_slot :
  totSNGlob impactWorld 1 = 3
  /\ map this (collectedCharge impactWorld) = map inject_Z [0; -1]
  /\ this (Arr.rdQ (invNrSurfNod impactWorld) 1) = (1 # 2)%Q
  /\ map (fun r => (block (lookupSurface r) (lookupSurfaceOffset r) 1,
                    map (fun n => this (Arr.rdQ (rhoObj r) n)) [41; 42]))
         (ranks (oCollectObjectCharge impactWorld))
     = [([41; 42], [(-1 # 2)%Q; (-1 # 2)%Q]); ([42], [0%Q; (-1 # 2)%Q])].
Proof. vm_compute. repeat split; reflexivity. Qed.

(** ** Initialisation *)

(** C7, as stated, fails.  One rank whose object map is zero everywhere
    gives the object count 0, and [oAlloc] returns an object instead of
    failing with [CONFIG]. *)
Lemma C7_zero_objects_not_fatal : ~ ZeroObjectsIsFatal 1 [emptyRank].
Proof.
  intros H. specialize (H eq_refl). vm_compute in H. discriminate H.
Qed.

(** ** Lookup tables *)


(** C5, as stated, fails, in two ways.  A node with the value 3/2 has
    the tag 2 (the object count is 2 and the interior table files the
    node under object 2), but the scan counts a node for object 2 only
    when its value is above 3/2: the true point 42, the one sampled
    node of tag 2 around itself, is not recorded.  And on a grid with
    two ghost layers the node 43 of the ghost band is recorded (the
    scan asks [isGhostNode], which C9 shows wrong there). *)
Lemma C5_scan_is_not_the_tagged_frontier :
  localObjectCount halfTagGrid = 2
  /\ fst (oFillLookupTables halfTagGrid 2) = [42]
  /\ ~ SurfaceIsTaggedFrontier halfTagGrid 2
  /\ ~ SurfaceIsTaggedFrontier twoLayerGrid 1.
Proof.
  split; [vm_compute; reflexivity |]. split; [vm_compute; reflexivity |].
  split.
  - intros H. specialize (H 1 42 ltac:(lia) ltac:(vm_compute; done)).
    vm_compute in H. apply H. repeat split.
  - intros H. specialize (H 0 43 ltac:(lia) ltac:(vm_compute; done)).
    vm_compute in H. destruct H as [H _].
    specialize (H ltac:(left; reflexivity)). destruct H as [H _].
    discriminate H.
Qed.

(** C8, as stated, fails.  With tag 1 on the ghost node 20 (the halo
    copy of node 21), the interior table holds node 20. *)
Lemma C8_interior_holds_ghost_node :
  ~ InteriorEntriesNonGhost (domain haloRank) 1.
Proof.
  intros H. specialize (H 20).
  assert (Hin : In 20 (fst (oFillLookupTables (domain haloRank) 1))).
  { vm_compute. left. reflexivity. }
  apply H in Hin. vm_compute in Hin. discriminate Hin.
Qed.

(** ** Arrays and loops *)

Section ArrayFacts.
Context {A : Type}.
Implicit Types (l : list A) (i j : Z) (v d : A).

Lemma length_wr l i v : length (Arr.wr l i v) = length l.
Proof. unfold Arr.wr. destruct (i <? 0); [done | apply length_insert]. Qed.

Lemma rd_wr_eq d l i v :
  0 <= i < Z.of_nat (length l) -> Arr.rd d (Arr.wr l i v) i = v.
Proof.
  intros Hi. unfold Arr.rd, Arr.wr.
  destruct (Z.ltb_spec i 0); [lia |].
  rewrite nth_lookup, list_lookup_insert_eq by lia. done.
Qed.

Lemma rd_wr_ne d l i j v : i <> j -> Arr.rd d (Arr.wr l i v) j = Arr.rd d l j.
Proof.
  intros Hij. unfold Arr.rd, Arr.wr.
  destruct (Z.ltb_spec i 0); [done |].
  destruct (Z.ltb_spec j 0); [done |].
  rewrite !nth_lookup, list_lookup_insert_ne by lia. done.
Qed.

Lemma rd_nth d l i : 0 <= i -> Arr.rd d l i = nth (Z.to_nat i) l d.
Proof. intros Hi. unfold Arr.rd. by destruct (Z.ltb_spec i 0); [lia |]. Qed.

Lemma rd_outside d l i :
  i < 0 \/ Z.of_nat (length l) <= i -> Arr.rd d l i = d.
Proof.
  intros Hi. unfold Arr.rd.
  destruct (Z.ltb_spec i 0); [done |].
  apply nth_overflow. lia.
Qed.

Lemma wr_outside l i v :
  i < 0 \/ Z.of_nat (length l) <= i -> Arr.wr l i v = l.
Proof.
  intros Hi. unfold Arr.wr.
  destruct (Z.ltb_spec i 0); [done |].
  apply list_insert_ge. lia.
Qed.

Lemma rd_wr d l i j v :
  Arr.rd d (Arr.wr l i v) j
  = if decide (i = j /\ 0 <= i < Z.of_nat (length l)) then v else Arr.rd d l j.
Proof.
  case_decide as H.
  - destruct H as [-> H]. by apply rd_wr_eq.
  - destruct (decide (i = j)) as [-> | Hne].
    + rewrite wr_outside by lia. done.
    + by apply rd_wr_ne.
Qed.

Lemma length_alloc n v : Z.of_nat (length (Arr.alloc n v)) = Z.max 0 n.
Proof. unfold Arr.alloc. rewrite length_replicate. lia. Qed.

Lemma rd_alloc d n i : Arr.rd d (Arr.alloc n d) i = d.
Proof.
  unfold Arr.rd, Arr.alloc. destruct (i <? 0); [done |].
  rewrite nth_lookup.
  destruct (replicate (Z.to_nat n) d !! Z.to_nat i) eqn:E; [| done].
  apply lookup_replicate in E. simpl. tauto.
Qed.

(** a list is determined by its length and its reads *)
Lemma rd_ext d l1 l2 :
  length l1 = length l2 ->
  (forall i, 0 <= i < Z.of_nat (length l1) -> Arr.rd d l1 i = Arr.rd d l2 i) ->
  l1 = l2.
Proof.
  intros Hlen Hrd. apply (nth_ext _ _ d d Hlen). intros k Hk.
  specialize (Hrd (Z.of_nat k)). unfold Arr.rd in Hrd.
  destruct (Z.ltb_spec (Z.of_nat k) 0); [lia |].
  rewrite Nat2Z.id in Hrd. apply Hrd. lia.
Qed.

End ArrayFacts.

Lemma rdQ_wr (l : list Qc) i j v :
  Arr.rdQ (Arr.wr l i v) j
  = if decide (i = j /\ 0 <= i < Z.of_nat (length l)) then v else Arr.rdQ l j.
Proof. apply rd_wr. Qed.

Lemma rdZ_wr (l : list Z) i j v :
  Arr.rdZ (Arr.wr l i v) j
  = if decide (i = j /\ 0 <= i < Z.of_nat (length l)) then v else Arr.rdZ l j.
Proof. apply rd_wr. Qed.

Section LoopFacts.
Context {S : Type}.
Implicit Types (body : Z -> S -> S) (s : S).

Lemma for_loop_done lo hi body s : hi <= lo -> Arr.for_loop lo hi body s = s.
Proof. intros H. unfold Arr.for_loop. rewrite seqZ_nil by lia. done. Qed.

Lemma for_loop_last lo hi body s :
  lo <= hi ->
  Arr.for_loop lo (hi + 1) body s = body hi (Arr.for_loop lo hi body s).
Proof.
  intros H. unfold Arr.for_loop.
  replace (hi + 1 - lo) with ((hi - lo) + 1) by lia.
  rewrite seqZ_app by lia. rewrite fold_left_app.
  rewrite (seqZ_cons (lo + (hi - lo)) 1) by lia.
  rewrite seqZ_nil by lia. simpl. f_equal. lia.
Qed.

Lemma for_loop_first lo hi body s :
  lo < hi ->
  Arr.for_loop lo hi body s = Arr.for_loop (lo + 1) hi body (body lo s).
Proof.
  intros H. unfold Arr.for_loop. rewrite seqZ_cons by lia. simpl.
  do 2 f_equal; lia.
Qed.

(** loop invariants *)
Lemma for_loop_inv (P : Z -> S -> Prop) lo hi body s :
  lo <= hi ->
  P lo s ->
  (forall i t, lo <= i < hi -> P i t -> P (i + 1) (body i t)) ->
  P hi (Arr.for_loop lo hi body s).
Proof.
  intros Hle H0 Hstep.
  assert (Hgen : forall k : nat, lo + Z.of_nat k <= hi ->
            P (lo + Z.of_nat k) (Arr.for_loop lo (lo + Z.of_nat k) body s)).
  { induction k as [| k IH]; intros Hk.
    - rewrite Z.add_0_r, for_loop_done by lia. done.
    - replace (lo + Z.of_nat (Datatypes.S k)) with (lo + Z.of_nat k + 1) by lia.
      rewrite for_loop_last by lia. apply Hstep; [lia |]. apply IH. lia. }
  specialize (Hgen (Z.to_nat (hi - lo))).
  replace (lo + Z.of_nat (Z.to_nat (hi - lo))) with hi in Hgen by lia.
  apply Hgen. lia.
Qed.

Lemma for_loop_ext lo hi body1 body2 s :
  (forall i t, lo <= i < hi -> body1 i t = body2 i t) ->
  Arr.for_loop lo hi body1 s = Arr.for_loop lo hi body2 s.
Proof.
  intros Hb. destruct (Z.le_gt_cases lo hi) as [Hle | Hgt].
  - apply (for_loop_inv
             (fun i t => t = Arr.for_loop lo i body2 s) lo hi body1 s Hle).
    + by rewrite for_loop_done by lia.
    + intros i t Hi ->. rewrite for_loop_last by lia. by apply Hb.
  - by rewrite !for_loop_done by lia.
Qed.

(** a loop whose body acts on the accepted indices only is a fold
    over the accepted indices *)
Lemma for_loop_filter lo hi (keep : Z -> bool) (act : Z -> S -> S) s :
  Arr.for_loop lo hi (fun i t => if keep i then act i t else t) s
  = fold_left (fun t i => act i t) (List.filter keep (seqZ lo (hi - lo))) s.
Proof.
  unfold Arr.for_loop. generalize (seqZ lo (hi - lo)) as xs.
  intros xs. revert s. induction xs as [| x xs IH]; intros s; simpl; [done |].
  destruct (keep x); simpl; apply IH.
Qed.

End LoopFacts.

(** ** Counting and filing the entries of a lookup table *)

Section Filing.

Implicit Types (es : list (Z * Z)) (a k : Z).

Lemma cntEq_app es1 es2 a : cntEq (es1 ++ es2) a = cntEq es1 a + cntEq es2 a.
Proof. unfold cntEq. rewrite List.filter_app, length_app. lia. Qed.

Lemma cntEq_one (e : Z * Z) a : cntEq [e] a = if fst e =? a then 1 else 0.
Proof. unfold cntEq. simpl. by destruct (fst e =? a). Qed.

Lemma cntEq_nonneg es a : 0 <= cntEq es a.
Proof. unfold cntEq. lia. Qed.

Lemma cntLt_succ es a : cntLt es (a + 1) = cntLt es a + cntEq es a.
Proof.
  unfold cntLt, cntEq. induction es as [| [b x] es IH]; simpl; [done |].
  destruct (Z.ltb_spec b (a + 1)), (Z.ltb_spec b a), (Z.eqb_spec b a);
    simpl; lia.
Qed.

Lemma cntLt_mono es a b : a <= b -> cntLt es a <= cntLt es b.
Proof.
  intros Hab. unfold cntLt. induction es as [| [c x] es IH]; simpl; [done |].
  destruct (Z.ltb_spec c a), (Z.ltb_spec c b); simpl; lia.
Qed.

Lemma cntLt_zero es : (forall e, In e es -> 0 <= fst e) -> cntLt es 0 = 0.
Proof.
  intros H. unfold cntLt. induction es as [| e es IH]; simpl; [done |].
  destruct (Z.ltb_spec (fst e) 0).
  - specialize (H e (or_introl eq_refl)). lia.
  - apply IH. intros e' He'. apply H. by right.
Qed.

Lemma length_filed es a : Z.of_nat (length (filed es a)) = cntEq es a.
Proof. unfold filed, cntEq. by rewrite length_map. Qed.

Lemma filed_app es1 es2 a : filed (es1 ++ es2) a = filed es1 a ++ filed es2 a.
Proof. unfold filed. by rewrite List.filter_app, map_app. Qed.

(** *** the counting pass *)

Lemma fileCount_fold es : forall off N,
  Z.of_nat (length off) = N + 1 ->
  (forall e, In e es -> 0 <= fst e < N) ->
  let off' := fold_left fileCount es off in
  length off' = length off
  /\ forall k, Arr.rdZ off' k
       = if decide (1 <= k <= N) then Arr.rdZ off k + cntEq es (k - 1)
         else Arr.rdZ off k.
Proof.
  induction es as [| e es IH]; intros off N Hlen Hes; simpl.
  - split; [done |]. intros k. unfold cntEq. simpl.
    case_decide; lia.
  - assert (He : 0 <= fst e < N) by (apply Hes; by left).
    destruct (IH (fileCount off e) N) as [IHlen IHrd].
    + unfold fileCount. by rewrite length_wr.
    + intros e' He'. apply Hes. by right.
    + split.
      * rewrite IHlen. unfold fileCount. by rewrite length_wr.
      * intros k. rewrite IHrd. unfold fileCount, Arr.rdZ.
        rewrite rd_wr. unfold cntEq. simpl.
        destruct (Z.eqb_spec (fst e) (k - 1)) as [Hek | Hek];
          repeat case_decide; simpl; try lia.
        replace (fst e + 1) with k by lia. lia.
Qed.

(** *** [alCumSum] on the counts *)

Lemma alCumSum_counts es off N :
  0 <= N ->
  Z.of_nat (length off) = N + 1 ->
  (forall k, 1 <= k <= N -> Arr.rdZ off k = cntEq es (k - 1)) ->
  (forall e, In e es -> 0 <= fst e) ->
  let off' := alCumSum off N in
  Z.of_nat (length off') = N + 1
  /\ forall k, 0 <= k <= N -> Arr.rdZ off' k = cntLt es k.
Proof.
  intros HN Hlen Hcnt Hes. unfold alCumSum.
  pose (P := fun (p : Z) (r : list Z) =>
    Z.of_nat (length r) = N + 1
    /\ (forall k, 0 <= k <= p -> Arr.rdZ r k = cntLt es k)
    /\ (forall k, p < k <= N -> Arr.rdZ r k = cntEq es (k - 1))).
  assert (HP : P N (Arr.for_loop 0 N
                      (fun p r => Arr.wr r (p + 1)
                                    (Arr.rdZ r p + Arr.rdZ r (p + 1)))
                      (Arr.wr off 0 0))).
  { apply for_loop_inv; [lia | |].
    - unfold P. rewrite length_wr. split; [done |]. split.
      + intros k Hk. assert (k = 0) as -> by lia.
        unfold Arr.rdZ. rewrite rd_wr_eq by lia.
        symmetry. by apply cntLt_zero.
      + intros k Hk. unfold Arr.rdZ. rewrite rd_wr_ne by lia.
        apply Hcnt. lia.
    - intros p r Hp (Hl & Hlo & Hhi). unfold P.
      rewrite length_wr. split; [done |]. split.
      + intros k Hk. unfold Arr.rdZ. rewrite rd_wr.
        case_decide as Hd.
        * destruct Hd as [<- _].
          fold (Arr.rdZ r p). fold (Arr.rdZ r (p + 1)).
          rewrite Hlo, Hhi by lia. rewrite cntLt_succ. f_equal. f_equal. lia.
        * apply Hlo. lia.
      + intros k Hk. unfold Arr.rdZ. rewrite rd_wr_ne by lia.
        apply Hhi. lia. }
  destruct HP as (Hl & Hlo & _). split; [done |]. exact Hlo.
Qed.

Lemma initIndex_spec off N :
  0 <= N ->
  Z.of_nat (length (initIndex off N)) = N
  /\ forall k, 0 <= k < N -> Arr.rdZ (initIndex off N) k = Arr.rdZ off k.
Proof.
  intros HN. unfold initIndex.
  pose (P := fun (p : Z) (idx : list Z) =>
    Z.of_nat (length idx) = N
    /\ forall k, 0 <= k < p -> Arr.rdZ idx k = Arr.rdZ off k).
  assert (HP : P N (Arr.for_loop 0 N
                      (fun i idx => Arr.wr idx i (Arr.rdZ off i))
                      (Arr.alloc N 0))).
  { apply for_loop_inv; [lia | |].
    - unfold P. rewrite length_alloc. split; [lia |]. intros; lia.
    - intros p idx Hp (Hl & Hrd). unfold P. rewrite length_wr.
      split; [done |]. intros k Hk. unfold Arr.rdZ. rewrite rd_wr.
      case_decide as Hd.
      + by destruct Hd as [-> _].
      + apply Hrd. lia. }
  exact HP.
Qed.

End Filing.

Section FilingPass.

Variables (es : list (Z * Z)) (off : list Z) (N : Z).
Hypothesis HN : 0 <= N.
Hypothesis Hlen : Z.of_nat (length off) = N + 1.
Hypothesis Hoff : forall k, 0 <= k <= N -> Arr.rdZ off k = cntLt es k.
Hypothesis Hes : forall e, In e es -> 0 <= fst e < N.

Let start : list Z * list Z := (Arr.alloc (Arr.rdZ off N) 0, initIndex off N).

Lemma off_step a : 0 <= a < N -> Arr.rdZ off (a + 1) = Arr.rdZ off a + cntEq es a.
Proof. intros Ha. rewrite !Hoff by lia. apply cntLt_succ. Qed.

Lemma off_mono a b : 0 <= a <= b -> b <= N -> Arr.rdZ off a <= Arr.rdZ off b.
Proof. intros Ha Hb. rewrite !Hoff by lia. apply cntLt_mono. lia. Qed.

Lemma off_nonneg a : 0 <= a <= N -> 0 <= Arr.rdZ off a.
Proof. intros Ha. rewrite Hoff by lia. unfold cntLt. lia. Qed.

(** what holds after a prefix [es1] of the entries has been filed *)
Lemma fileEntry_prefix es1 : forall es2,
  es = es1 ++ es2 ->
  let st := fold_left fileEntry es1 start in
  Z.of_nat (length (fst st)) = Arr.rdZ off N
  /\ Z.of_nat (length (snd st)) = N
  /\ (forall a, 0 <= a < N -> Arr.rdZ (snd st) a = Arr.rdZ off a + cntEq es1 a)
  /\ (forall a m, 0 <= a < N -> 0 <= m < cntEq es1 a ->
        Arr.rdZ (fst st) (Arr.rdZ off a + m)
        = nth (Z.to_nat m) (filed es1 a) 0).
Proof.
  induction es1 as [| e es1 IH] using rev_ind; intros es2 Hsplit.
  - simpl. unfold start. simpl.
    destruct (initIndex_spec off N HN) as [Hil Hird].
    rewrite length_alloc. split; [pose proof (off_nonneg N); lia |].
    split; [done |]. split.
    + intros a Ha. rewrite Hird by done. unfold cntEq. simpl. lia.
    + intros a m Ha Hm. unfold cntEq in Hm. simpl in Hm. lia.
  - rewrite fold_left_app. simpl.
    destruct (IH ([e] ++ es2)) as (Ht & Hi & Hidx & Htbl).
    { rewrite Hsplit. by rewrite <- app_assoc. }
    set (st := fold_left fileEntry es1 start) in *.
    assert (He : 0 <= fst e < N).
    { apply Hes. rewrite Hsplit. apply in_or_app. left.
      apply in_or_app. right. by left. }
    assert (Hroom : cntEq es1 (fst e) + 1 <= cntEq es (fst e)).
    { rewrite Hsplit, !cntEq_app, cntEq_one, Z.eqb_refl.
      pose proof (cntEq_nonneg es2 (fst e)). lia. }
    assert (Hbound : forall a, 0 <= a < N -> cntEq es1 a <= cntEq es a).
    { intros a Ha. rewrite Hsplit, cntEq_app, cntEq_app.
      pose proof (cntEq_nonneg [e] a). pose proof (cntEq_nonneg es2 a). lia. }
    rewrite !length_wr.
    split; [done |]. split; [done |]. split.
    + intros a Ha. unfold Arr.rdZ at 1. rewrite rd_wr.
      rewrite cntEq_app, cntEq_one.
      destruct (Z.eqb_spec (fst e) a) as [Hea | Hea]; case_decide as Hd;
        simpl; try lia.
      * subst a. fold (Arr.rdZ (snd st) (fst e)). rewrite Hidx by done. lia.
      * fold (Arr.rdZ (snd st) a). rewrite Hidx by done. lia.
    + intros a m Ha Hm. rewrite filed_app.
      rewrite cntEq_app, cntEq_one in Hm.
      rewrite (Hidx (fst e)) by done.
      pose proof (cntEq_nonneg es1 a) as Hca.
      pose proof (cntEq_nonneg es1 (fst e)) as Hce.
      pose proof (off_step (fst e) He) as Hse.
      pose proof (off_step a Ha) as Hsa.
      pose proof (off_nonneg a) as Hna.
      pose proof (off_nonneg (fst e)) as Hne.
      pose proof (off_mono (fst e + 1) N) as HmN.
      unfold Arr.rdZ at 1. rewrite rd_wr.
      destruct (Z.eqb_spec (fst e) a) as [Hea | Hea].
      * subst a. simpl in Hm. case_decide as Hd.
        -- assert (m = cntEq es1 (fst e)) as -> by lia.
           rewrite app_nth2 by (pose proof (length_filed es1 (fst e)); lia).
           replace (Z.to_nat (cntEq es1 (fst e)) - length (filed es1 (fst e)))%nat
             with 0%nat by (pose proof (length_filed es1 (fst e)); lia).
           unfold filed. simpl. rewrite Z.eqb_refl. done.
        -- assert (m < cntEq es1 (fst e)) by lia.
           rewrite app_nth1 by (pose proof (length_filed es1 (fst e)); lia).
           apply Htbl; lia.
      * simpl in Hm.
        rewrite app_nth1 by (pose proof (length_filed es1 a); lia).
        case_decide as Hd.
        -- exfalso. destruct Hd as [Hpos _].
           specialize (Hbound a Ha).
           destruct (Z.lt_ge_cases a (fst e)).
           ++ pose proof (off_mono (a + 1) (fst e)). lia.
           ++ pose proof (off_mono (fst e + 1) a). lia.
        -- apply Htbl; lia.
Qed.

(** every block of the filled table holds the nodes filed under its
    object, in the order of the entries *)
Lemma filed_block a :
  0 <= a < N ->
  block (fst (fold_left fileEntry es start)) off a = filed es a.
Proof.
  intros Ha.
  destruct (fileEntry_prefix es [] (eq_sym (app_nil_r es)))
    as (Ht & _ & _ & Htbl).
  set (tbl := fst (fold_left fileEntry es start)) in *.
  pose proof (off_step a Ha) as Hs.
  pose proof (off_nonneg a) as Hn.
  pose proof (off_mono (a + 1) N) as Hm.
  pose proof (cntEq_nonneg es a) as Hc.
  pose proof (length_filed es a) as Hf.
  unfold block. apply (nth_ext _ _ 0 0).
  - rewrite length_take, length_drop. lia.
  - intros k Hk. rewrite length_take, length_drop in Hk.
    rewrite !nth_lookup, lookup_take_lt, lookup_drop by lia.
    rewrite <- !nth_lookup.
    specialize (Htbl a (Z.of_nat k) Ha). rewrite Nat2Z.id in Htbl.
    rewrite <- Htbl by lia.
    unfold Arr.rdZ in *. rewrite (rd_nth 0 tbl) by lia. f_equal. lia.
Qed.

Lemma filed_length :
  Z.of_nat (length (fst (fold_left fileEntry es start))) = cntLt es N.
Proof.
  destruct (fileEntry_prefix es [] (eq_sym (app_nil_r es))) as (Ht & _).
  rewrite Ht. apply Hoff. lia.
Qed.

End FilingPass.

(** ** The loops of the source as folds over the entries *)

Lemma for_loop_entries {S : Type} (f : S -> Z * Z -> S) (keep : Z -> bool)
    (tag : Z -> Z) lo hi s :
  Arr.for_loop lo hi (fun b t => if keep b then f t (tag b, b) else t) s
  = fold_left f (map (fun b => (tag b, b)) (List.filter keep (seqZ lo (hi - lo)))) s.
Proof.
  unfold Arr.for_loop. generalize (seqZ lo (hi - lo)) as xs.
  intros xs. revert s. induction xs as [| x xs IH]; intros s; simpl; [done |].
  destruct (keep x); simpl; apply IH.
Qed.

Lemma for_loop_flat_map {S : Type} (f : S -> Z * Z -> S)
    (evs : Z -> list (Z * Z)) lo hi s :
  Arr.for_loop lo hi (fun a t => fold_left f (evs a) t) s
  = fold_left f (flat_map evs (seqZ lo (hi - lo))) s.
Proof.
  unfold Arr.for_loop. generalize (seqZ lo (hi - lo)) as xs.
  intros xs. revert s. induction xs as [| x xs IH]; intros s; simpl; [done |].
  rewrite fold_left_app. apply IH.
Qed.

Lemma filed_pairs a a' (l : list Z) :
  filed (map (fun b => (a', b)) l) a = if a' =? a then l else [].
Proof.
  unfold filed. induction l as [| x l IH]; simpl.
  - by destruct (a' =? a).
  - destruct (a' =? a) eqn:E; simpl; rewrite IH; done.
Qed.

Lemma filed_flat_map (evs : Z -> list Z) (objs : list Z) a :
  NoDup objs ->
  filed (flat_map (fun a' => map (fun b => (a', b)) (evs a')) objs) a
  = if decide (a ∈ objs) then evs a else [].
Proof.
  induction 1 as [| x objs Hx Hnd IH].
  - destruct (decide (a ∈ [])) as [H |]; [| done]. by apply elem_of_nil in H.
  - cbn [flat_map]. rewrite filed_app, filed_pairs, IH.
    destruct (Z.eqb_spec x a) as [-> | Hne].
    + rewrite (decide_True (P := a ∈ a :: objs)) by (by left).
      rewrite decide_False by done. by rewrite app_nil_r.
    + cbn [app].
      destruct (decide (a ∈ objs)) as [H1 | H1];
        destruct (decide (a ∈ x :: objs)) as [H2 | H2]; try done.
      * exfalso. apply H2. by right.
      * exfalso. apply elem_of_cons in H2 as [-> | H2]; done.
Qed.

(** ** The surface table *)

Section SurfaceTable.

Variables (g : Grid) (nObj : Z).

Lemma acceptSurface_unfold a b (T : Type) (x y : T) :
  (if negb (isGhostNode g b)
   then if (countNB g a b <? 8) && (countNB g a b >? 0) then x else y
   else y)
  = if acceptSurface g a b then x else y.
Proof.
  unfold acceptSurface. destruct (isGhostNode g b); simpl; [done |].
  by destruct ((countNB g a b <? 8) && (countNB g a b >? 0)).
Qed.

Lemma surfaceCount_entries :
  surfaceCount g nObj
  = fold_left fileCount (surfaceEntries g nObj) (Arr.alloc (nObj + 1) 0).
Proof.
  unfold surfaceCount, surfaceEntries.
  pose proof (for_loop_flat_map fileCount
    (fun a => map (fun b => (a, b)) (List.filter (acceptSurface g a) (seqZ 0 (nNodes g))))
    0 nObj (Arr.alloc (nObj + 1) 0)) as Hflat.
  rewrite Z.sub_0_r in Hflat. rewrite <- Hflat.
  apply for_loop_ext. intros a off _.
  pose proof (for_loop_entries fileCount (acceptSurface g a) (fun _ => a)
                0 (nNodes g) off) as Hin.
  rewrite Z.sub_0_r in Hin. rewrite <- Hin.
  apply for_loop_ext. intros b t _. apply acceptSurface_unfold.
Qed.

Lemma surfaceFill_entries off :
  surfaceFill g nObj off
  = fold_left fileEntry (surfaceEntries g nObj)
      (Arr.alloc (Arr.rdZ off nObj) 0, initIndex off nObj).
Proof.
  unfold surfaceFill, surfaceEntries.
  pose proof (for_loop_flat_map fileEntry
    (fun a => map (fun b => (a, b)) (List.filter (acceptSurface g a) (seqZ 0 (nNodes g))))
    0 nObj (Arr.alloc (Arr.rdZ off nObj) 0, initIndex off nObj)) as Hflat.
  rewrite Z.sub_0_r in Hflat. rewrite <- Hflat.
  apply for_loop_ext. intros a st _.
  pose proof (for_loop_entries fileEntry (acceptSurface g a) (fun _ => a)
                0 (nNodes g) st) as Hin.
  rewrite Z.sub_0_r in Hin. rewrite <- Hin.
  apply for_loop_ext. intros b [tbl index] _.
  rewrite acceptSurface_unfold. done.
Qed.

Lemma surfaceEntries_bucket e :
  In e (surfaceEntries g nObj) -> 0 <= fst e < nObj.
Proof.
  unfold surfaceEntries. rewrite in_flat_map. intros (a & Ha & He).
  apply in_map_iff in He as (b & <- & _). simpl.
  apply list_elem_of_In, elem_of_seqZ in Ha. lia.
Qed.

Lemma surfaceEntries_filed a :
  0 <= a < nObj ->
  filed (surfaceEntries g nObj) a
  = List.filter (acceptSurface g a) (seqZ 0 (nNodes g)).
Proof.
  intros Ha. unfold surfaceEntries.
  rewrite (filed_flat_map
             (fun a' => List.filter (acceptSurface g a') (seqZ 0 (nNodes g))))
    by apply NoDup_seqZ.
  rewrite decide_True; [done |]. apply elem_of_seqZ. lia.
Qed.

(** the offsets after [alCumSum]: entry [k] counts the entries of the
    objects before [k] *)
Lemma surfaceOffsets_spec :
  0 <= nObj ->
  let off := snd (oFindObjectSurfaceNodes g nObj) in
  Z.of_nat (length off) = nObj + 1
  /\ forall k, 0 <= k <= nObj -> Arr.rdZ off k = cntLt (surfaceEntries g nObj) k.
Proof.
  intros HN. simpl. rewrite surfaceCount_entries.
  destruct (fileCount_fold (surfaceEntries g nObj) (Arr.alloc (nObj + 1) 0) nObj)
    as [Hl Hrd].
  { rewrite length_alloc. lia. }
  { apply surfaceEntries_bucket. }
  apply alCumSum_counts; [done | | |].
  - rewrite Hl, length_alloc. lia.
  - intros k Hk. rewrite Hrd. rewrite decide_True by lia.
    unfold Arr.rdZ. rewrite rd_alloc. lia.
  - intros e He. apply surfaceEntries_bucket in He. lia.
Qed.

(** block [a] of the surface table is the list of the nodes the test
    accepts for [a], in scan order *)
Lemma surface_block a :
  0 <= a < nObj ->
  block (fst (oFindObjectSurfaceNodes g nObj))
        (snd (oFindObjectSurfaceNodes g nObj)) a
  = List.filter (acceptSurface g a) (seqZ 0 (nNodes g)).
Proof.
  intros Ha.
  destruct surfaceOffsets_spec as [Hl Hoff]; [lia |].
  unfold oFindObjectSurfaceNodes in *. simpl in *.
  rewrite surfaceFill_entries.
  rewrite (filed_block (surfaceEntries g nObj) _ nObj); try done; try lia.
  - by apply surfaceEntries_filed.
  - apply surfaceEntries_bucket.
Qed.

Lemma surface_length :
  0 <= nObj ->
  Z.of_nat (length (fst (oFindObjectSurfaceNodes g nObj)))
  = Arr.rdZ (snd (oFindObjectSurfaceNodes g nObj)) nObj.
Proof.
  intros HN.
  destruct surfaceOffsets_spec as [Hl Hoff]; [lia |].
  unfold oFindObjectSurfaceNodes in *. simpl in *.
  rewrite surfaceFill_entries.
  rewrite (filed_length (surfaceEntries g nObj) _ nObj); try done.
  - symmetry. apply Hoff. lia.
  - apply surfaceEntries_bucket.
Qed.

Lemma surface_count a :
  0 <= a < nObj ->
  Arr.rdZ (surfaceCount g nObj) (a + 1)
  = Z.of_nat (length (List.filter (acceptSurface g a) (seqZ 0 (nNodes g)))).
Proof.
  intros Ha. rewrite surfaceCount_entries.
  destruct (fileCount_fold (surfaceEntries g nObj) (Arr.alloc (nObj + 1) 0) nObj)
    as [_ Hrd].
  { rewrite length_alloc. lia. }
  { apply surfaceEntries_bucket. }
  rewrite Hrd, decide_True by lia. unfold Arr.rdZ. rewrite rd_alloc.
  replace (a + 1 - 1) with a by lia.
  rewrite <- length_filed, surfaceEntries_filed by done. lia.
Qed.

Lemma acceptSurface_true a i :
  acceptSurface g a i = true
  <-> isGhostNode g i = false /\ 0 < countNB g a i < 8.
Proof.
  unfold acceptSurface.
  rewrite !andb_true_iff, negb_true_iff, Z.ltb_lt, Z.gtb_gt.
  split; intros (H1 & H2); (split; [exact H1 | lia]).
Qed.

Lemma surface_block_member a i :
  0 <= a < nObj ->
  In i (block (fst (oFindObjectSurfaceNodes g nObj))
              (snd (oFindObjectSurfaceNodes g nObj)) a)
  <-> 0 <= i < nNodes g /\ isGhostNode g i = false /\ 0 < countNB g a i < 8.
Proof.
  intros Ha. rewrite surface_block by done.
  rewrite filter_In, acceptSurface_true.
  rewrite <- list_elem_of_In, elem_of_seqZ.
  split; intros (H1 & H2); (split; [lia | exact H2]).
Qed.

End SurfaceTable.

Lemma countNB_filter g a i :
  countNB g a i = Z.of_nat (length (List.filter (hasTag g a) (myNB g i))).
Proof.
  unfold countNB.
  assert (H : forall l d,
            fold_left (fun d n => if hasTag g a n then d + 1 else d) l d
            = d + Z.of_nat (length (List.filter (hasTag g a) l))).
  { induction l as [| n l IH]; intros d; simpl; [lia |].
    rewrite IH. destruct (hasTag g a n); simpl; lia. }
  rewrite H. lia.
Qed.

(** The scan in the terms of the source, on any grid: for the object
    with index [a] a node [i] is in block [a] of the surface table
    exactly when it lies in the local array, [isGhostNode] rejects it,
    and the counter [d] of the eight tests satisfies [0 < d < 8].  The
    block is the list of these nodes in scan order, its length is the
    count of the first pass and the width of the offsets, and the table
    is full. *)
Lemma surface_blocks_hold_the_accepted_scan (g : Grid) (nObj a : Z) :
  0 <= a < nObj ->
  let tbl := fst (oFindObjectSurfaceNodes g nObj) in
  let off := snd (oFindObjectSurfaceNodes g nObj) in
  let sp := Arr.rdZ (sizeProd g) in
  (forall i,
      myNB g i
      = [i; i - sp 3; i - sp 1; i - sp 1 - sp 3; i - sp 2; i - sp 2 - sp 3;
         i - sp 2 - sp 1; i - sp 2 - sp 1 - sp 3]
      /\ countNB g a i
         = Z.of_nat (length (List.filter (hasTag g a) (myNB g i))))
  /\ (forall i,
         In i (block tbl off a)
         <-> 0 <= i < nNodes g /\ isGhostNode g i = false
             /\ 0 < countNB g a i < 8)
  /\ block tbl off a = List.filter (acceptSurface g a) (seqZ 0 (nNodes g))
  /\ Arr.rdZ (surfaceCount g nObj) (a + 1) = Z.of_nat (length (block tbl off a))
  /\ Arr.rdZ off (a + 1) - Arr.rdZ off a = Z.of_nat (length (block tbl off a))
  /\ Z.of_nat (length tbl) = Arr.rdZ off nObj.
Proof.
  intros Ha tbl off sp.
  split; [| split; [| split; [| split; [| split]]]].
  - intros i. split; [reflexivity | apply countNB_filter].
  - intros i. by apply surface_block_member.
  - by apply surface_block.
  - unfold tbl, off. rewrite surface_block by done. by apply surface_count.
  - unfold tbl, off. rewrite surface_block by done.
    destruct (surfaceOffsets_spec g nObj) as [_ Hoff]; [lia |].
    rewrite !Hoff by lia. rewrite cntLt_succ.
    rewrite <- length_filed, surfaceEntries_filed by done. lia.
  - apply surface_length. lia.
Qed.



(** ** Exact comparisons and casts *)

Lemma Dbl_ltb_lt x y : Dbl.ltb x y = true <-> (x < y)%Qc.
Proof.
  unfold Dbl.ltb. rewrite Qclt_alt. destruct (x ?= y)%Qc; split; congruence.
Qed.

Lemma Dbl_toInt_ge_1 (y : Qc) : (1 <= y)%Qc -> 1 <= Dbl.toInt y.
Proof.
  unfold Qcle, Qle, Dbl.toInt. simpl. intros H.
  apply Z.quot_le_lower_bound; lia.
Qed.

Lemma Dbl_half_half : (Dbl.half + Dbl.half = 1)%Qc.
Proof. apply Qc_is_canon. reflexivity. Qed.

(** a node with [val > 0.5] has a tag of at least 1 *)
Lemma tagOf_ge_1 g i : isObjectNode g i = true -> 1 <= tagOf g i.
Proof.
  unfold isObjectNode, tagOf, Dbl.gtb. rewrite Dbl_ltb_lt. intros H.
  apply Dbl_toInt_ge_1. rewrite <- Dbl_half_half. apply Qcplus_le_compat.
  - by apply Qclt_le_weak.
  - apply Qcle_refl.
Qed.

(** ** The interior table *)

Section InteriorTable.

Variables (g : Grid) (nObj : Z).
Hypothesis Htags :
  forall i, 0 <= i < nNodes g -> isObjectNode g i = true -> tagOf g i <= nObj.

Lemma interiorCount_entries :
  interiorCount g nObj
  = fold_left fileCount (interiorEntries g) (Arr.alloc (nObj + 1) 0).
Proof.
  unfold interiorCount, interiorEntries.
  pose proof (for_loop_entries fileCount (isObjectNode g)
                (fun i => tagOf g i - 1) 0 (nNodes g)
                (Arr.alloc (nObj + 1) 0)) as Hin.
  rewrite Z.sub_0_r in Hin. rewrite <- Hin.
  apply for_loop_ext. intros i off _. unfold fileCount. simpl.
  by replace (tagOf g i - 1 + 1) with (tagOf g i) by lia.
Qed.

Lemma interiorFill_entries off :
  interiorFill g nObj off
  = fold_left fileEntry (interiorEntries g)
      (Arr.alloc (Arr.rdZ off nObj) 0, initIndex off nObj).
Proof.
  unfold interiorFill, interiorEntries.
  pose proof (for_loop_entries fileEntry (isObjectNode g)
                (fun i => tagOf g i - 1) 0 (nNodes g)
                (Arr.alloc (Arr.rdZ off nObj) 0, initIndex off nObj)) as Hin.
  rewrite Z.sub_0_r in Hin. rewrite <- Hin.
  apply for_loop_ext. intros i [tbl index] _. done.
Qed.

Lemma interiorEntries_bucket e :
  In e (interiorEntries g) -> 0 <= fst e < nObj.
Proof.
  unfold interiorEntries. rewrite in_map_iff. intros (i & <- & Hi).
  apply filter_In in Hi as [Hi Hobj]. simpl.
  apply list_elem_of_In, elem_of_seqZ in Hi.
  pose proof (tagOf_ge_1 g i Hobj). pose proof (Htags i ltac:(lia) Hobj). lia.
Qed.

Lemma interiorEntries_filed a :
  filed (interiorEntries g) a
  = List.filter (acceptInterior g a) (seqZ 0 (nNodes g)).
Proof.
  unfold filed, interiorEntries, acceptInterior.
  induction (seqZ 0 (nNodes g)) as [| i l IH]; simpl; [done |].
  destruct (isObjectNode g i); simpl; [| exact IH].
  destruct (tagOf g i - 1 =? a); simpl; by rewrite IH.
Qed.

Lemma interiorOffsets_spec :
  0 <= nObj ->
  let off := snd (oFillLookupTables g nObj) in
  Z.of_nat (length off) = nObj + 1
  /\ forall k, 0 <= k <= nObj -> Arr.rdZ off k = cntLt (interiorEntries g) k.
Proof.
  intros HN. simpl. rewrite interiorCount_entries.
  destruct (fileCount_fold (interiorEntries g) (Arr.alloc (nObj + 1) 0) nObj)
    as [Hl Hrd].
  { rewrite length_alloc. lia. }
  { apply interiorEntries_bucket. }
  apply alCumSum_counts; [done | | |].
  - rewrite Hl, length_alloc. lia.
  - intros k Hk. rewrite Hrd. rewrite decide_True by lia.
    unfold Arr.rdZ. rewrite rd_alloc. lia.
  - intros e He. apply interiorEntries_bucket in He. lia.
Qed.

(** block [a] of the interior table is the list of the nodes with
    [val > 0.5] and tag [a+1], in scan order *)
Lemma interior_block a :
  0 <= a < nObj ->
  block (fst (oFillLookupTables g nObj)) (snd (oFillLookupTables g nObj)) a
  = List.filter (acceptInterior g a) (seqZ 0 (nNodes g)).
Proof.
  intros Ha.
  destruct interiorOffsets_spec as [Hl Hoff]; [lia |].
  unfold oFillLookupTables in *. simpl in *.
  rewrite interiorFill_entries.
  rewrite (filed_block (interiorEntries g) _ nObj); try done; try lia.
  - by apply interiorEntries_filed.
  - apply interiorEntries_bucket.
Qed.

Lemma interior_length :
  0 <= nObj ->
  Z.of_nat (length (fst (oFillLookupTables g nObj)))
  = Arr.rdZ (snd (oFillLookupTables g nObj)) nObj.
Proof.
  intros HN.
  destruct interiorOffsets_spec as [Hl Hoff]; [lia |].
  unfold oFillLookupTables in *. simpl in *.
  rewrite interiorFill_entries.
  rewrite (filed_length (interiorEntries g) _ nObj); try done.
  - symmetry. apply Hoff. lia.
  - apply interiorEntries_bucket.
Qed.

Lemma interior_offsets_ordered a :
  0 <= a < nObj ->
  let off := snd (oFillLookupTables g nObj) in
  0 <= Arr.rdZ off a <= Arr.rdZ off (a + 1)
  /\ Arr.rdZ off (a + 1) <= Arr.rdZ off nObj.
Proof.
  intros Ha off.
  destruct interiorOffsets_spec as [Hl Hoff]; [lia |].
  fold off in Hoff. rewrite !Hoff by lia.
  pose proof (cntLt_mono (interiorEntries g) a (a + 1)).
  pose proof (cntLt_mono (interiorEntries g) (a + 1) nObj).
  unfold cntLt in *. lia.
Qed.

End InteriorTable.

Lemma tagsWithin_spec g nObj :
  tagsWithin g nObj = true ->
  forall i, 0 <= i < nNodes g -> isObjectNode g i = true -> tagOf g i <= nObj.
Proof.
  unfold tagsWithin. rewrite forallb_forall. intros H i Hi Hobj.
  specialize (H i). rewrite Hobj in H. simpl in H.
  apply Z.leb_le, H, list_elem_of_In, elem_of_seqZ. lia.
Qed.

(** ** Looking a particle up in the interior table *)

Lemma fold_left_map_arg {S X Y : Type} (f : S -> Y -> S) (h : X -> Y) l s :
  fold_left f (map h l) s = fold_left (fun t x => f t (h x)) l s.
Proof. revert s. induction l as [| x l IH]; intros s; simpl; [done | apply IH]. Qed.

Lemma map_rd_seqZ (tbl : list Z) lo hi :
  0 <= lo <= hi -> hi <= Z.of_nat (length tbl) ->
  map (Arr.rdZ tbl) (seqZ lo (hi - lo))
  = take (Z.to_nat (hi - lo)) (drop (Z.to_nat lo) tbl).
Proof.
  intros Hlo Hhi. apply list_eq. intros k.
  rewrite list_lookup_fmap.
  destruct (decide (Z.of_nat k < hi - lo)) as [Hk | Hk].
  - rewrite lookup_seqZ_lt by done. simpl.
    rewrite lookup_take_lt, lookup_drop by lia.
    unfold Arr.rdZ. rewrite rd_nth by lia.
    replace (Z.to_nat (lo + Z.of_nat k)) with (Z.to_nat lo + k)%nat by lia.
    destruct (nth_lookup_or_length tbl (Z.to_nat lo + k) 0) as [-> | Hge];
      [done | lia].
  - rewrite lookup_seqZ_ge by lia. rewrite lookup_take_ge by lia. done.
Qed.

Lemma for_loop_block {S : Type} (F : Z -> S -> S) (tbl off : list Z) a s :
  0 <= Arr.rdZ off a <= Arr.rdZ off (a + 1) ->
  Arr.rdZ off (a + 1) <= Z.of_nat (length tbl) ->
  Arr.for_loop (Arr.rdZ off a) (Arr.rdZ off (a + 1))
    (fun b t => F (Arr.rdZ tbl b) t) s
  = fold_left (fun t x => F x t) (block tbl off a) s.
Proof.
  intros Hlo Hhi. unfold Arr.for_loop, block.
  rewrite <- map_rd_seqZ by done. by rewrite fold_left_map_arg.
Qed.

Lemma fold_miss {S : Type} (h : S -> S) (l : list Z) p s :
  ~ In p l ->
  fold_left (fun t x => if x =? p then h t else t) l s = s.
Proof.
  revert s. induction l as [| x l IH]; intros s Hp; simpl; [done |].
  destruct (Z.eqb_spec x p) as [-> | Hne].
  - exfalso. apply Hp. by left.
  - apply IH. intros Hin. apply Hp. by right.
Qed.

Lemma fold_hit {S : Type} (h : S -> S) (l : list Z) p s :
  NoDup l -> In p l ->
  fold_left (fun t x => if x =? p then h t else t) l s = h s.
Proof.
  intros Hnd. revert s. induction Hnd as [| x l Hx Hnd IH]; intros s Hp.
  - destruct Hp.
  - simpl. destruct (Z.eqb_spec x p) as [-> | Hne].
    + apply fold_miss. intros Hin. apply Hx. by apply list_elem_of_In.
    + apply IH. destruct Hp as [-> | Hp]; done.
Qed.

Lemma for_loop_once {S : Type} (h : Z -> S -> S) (hit : Z -> bool) a n s :
  0 <= a < n ->
  (forall i, 0 <= i < n -> hit i = true <-> i = a) ->
  Arr.for_loop 0 n (fun i t => if hit i then h i t else t) s = h a s.
Proof.
  intros Ha Hhit.
  pose (P := fun (i : Z) (t : S) => (i <= a -> t = s) /\ (a < i -> t = h a s)).
  assert (HP : P n (Arr.for_loop 0 n (fun i t => if hit i then h i t else t) s)).
  { apply for_loop_inv; [lia | |].
    - split; [done | lia].
    - intros i t Hi [Hbefore Hafter]. split; intros Hia.
      + rewrite Hbefore by lia. destruct (hit i) eqn:E; [| done].
        apply Hhit in E; lia.
      + destruct (decide (i = a)) as [-> | Hne].
        * rewrite Hbefore by lia.
          destruct (hit a) eqn:E; [done |].
          assert (hit a = true) by (by apply Hhit). congruence.
        * rewrite Hafter by lia. destruct (hit i) eqn:E; [| done].
          apply Hhit in E; lia. }
  apply HP. lia.
Qed.

Lemma for_loop_never {S : Type} (h : Z -> S -> S) (hit : Z -> bool) n s :
  (forall i, 0 <= i < n -> hit i = false) ->
  Arr.for_loop 0 n (fun i t => if hit i then h i t else t) s = s.
Proof.
  intros Hhit. destruct (Z.le_gt_cases 0 n) as [Hn | Hn].
  - apply (for_loop_inv (fun _ t => t = s)); [done | done |].
    intros i t Hi ->. by rewrite Hhit.
  - apply for_loop_done. lia.
Qed.

Section Matching.

Variables (r0 : Rank) (nObj : Z).
Let g := domain r0.
Let r := withTables nObj r0.
Hypothesis Htags : tagsWithin g nObj = true.

Lemma withTables_interior :
  lookupInterior r = fst (oFillLookupTables g nObj)
  /\ lookupInteriorOffset r = snd (oFillLookupTables g nObj).
Proof.
  unfold r, withTables, g.
  destruct (oFillLookupTables (domain r0) nObj) as [li lio].
  destruct (oFindObjectSurfaceNodes (domain r0) nObj) as [ls lso]. done.
Qed.

(** the inner loop over block [a] attributes the particle exactly when
    [p] is a node of tag [a+1] *)
Lemma matchInterior_block a s pIndex p st :
  0 <= a < nObj ->
  Arr.for_loop (Arr.rdZ (lookupInteriorOffset r) a)
    (Arr.rdZ (lookupInteriorOffset r) (a + 1))
    (fun b t =>
       if Arr.rdZ (lookupInterior r) b =? p then attribute a s pIndex t else t)
    st
  = if (0 <=? p) && (p <? nNodes g) && acceptInterior g a p
    then attribute a s pIndex st else st.
Proof.
  intros Ha. destruct withTables_interior as [-> ->].
  pose proof (tagsWithin_spec g nObj Htags) as Hw.
  destruct (interior_offsets_ordered g nObj Hw a Ha) as [Hlo Hhi].
  pose proof (interior_length g nObj Hw ltac:(lia)) as Hlen.
  rewrite (for_loop_block
             (fun x t => if x =? p then attribute a s pIndex t else t))
    by lia.
  rewrite interior_block by done.
  destruct ((0 <=? p) && (p <? nNodes g) && acceptInterior g a p) eqn:E.
  - apply fold_hit.
    + apply NoDup_ListNoDup, List.NoDup_filter, NoDup_ListNoDup, NoDup_seqZ.
    + apply filter_In.
      rewrite !andb_true_iff, Z.leb_le, Z.ltb_lt in E.
      split; [| tauto]. apply list_elem_of_In, elem_of_seqZ. lia.
  - apply fold_miss. rewrite filter_In. intros [Hin Hacc].
    apply list_elem_of_In, elem_of_seqZ in Hin.
    rewrite Hacc in E.
    destruct (Z.leb_spec 0 p), (Z.ltb_spec p (nNodes g)); simpl in E;
      try discriminate; lia.
Qed.

Lemma matchInterior_as_test s pIndex p st :
  matchInterior nObj r s pIndex p st
  = Arr.for_loop 0 nObj
      (fun a t =>
         if (0 <=? p) && (p <? nNodes g) && acceptInterior g a p
         then attribute a s pIndex t else t)
      st.
Proof.
  unfold matchInterior. apply for_loop_ext. intros a t Ha.
  by apply matchInterior_block.
Qed.

Lemma matchInterior_tagged s pIndex p st :
  0 <= p < nNodes g -> isObjectNode g p = true ->
  matchInterior nObj r s pIndex p st = attribute (tagOf g p - 1) s pIndex st.
Proof.
  intros Hp Hobj. rewrite matchInterior_as_test.
  pose proof (tagOf_ge_1 g p Hobj).
  pose proof (tagsWithin_spec g nObj Htags p Hp Hobj).
  apply (for_loop_once (fun a t => attribute a s pIndex t)); [lia |].
  intros a Ha. unfold acceptInterior. rewrite Hobj.
  rewrite !andb_true_iff, Z.leb_le, Z.ltb_lt, Z.eqb_eq.
  split; [intros [_ [_ H1]]; lia | intros ->; repeat split; lia].
Qed.

Lemma matchInterior_untagged s pIndex p st :
  ~ (0 <= p < nNodes g /\ isObjectNode g p = true) ->
  matchInterior nObj r s pIndex p st = st.
Proof.
  intros Hno. rewrite matchInterior_as_test.
  apply (for_loop_never (fun a t => attribute a s pIndex t)).
  intros a Ha. unfold acceptInterior.
  destruct (Z.leb_spec 0 p), (Z.ltb_spec p (nNodes g)); simpl; try done.
  destruct (isObjectNode g p) eqn:E; [| done].
  exfalso. apply Hno. split; [lia | done].
Qed.

End Matching.

(** C8, as the code has it.  The interior table files every node of the
    local array with [val > 0.5] under the object of its tag, whatever
    [isGhostNode] says of it (the ghost test is commented out in both
    loops of [oFillLookupTables]).  In [oCollectObjectCharge] the
    particle the loop examines at index [i] is looked up by the lower
    corner of its cell: when the corner is such a node the particle is
    matched once, against the block of that object, and attributed to
    it; it is passed over only when the corner is outside the local
    array or has [val <= 0.5].  The loop then goes on to index [i+1].
    (Which particles the loop gets to examine is not part of the
    statement.) *)
Theorem C8_interior_table_keeps_tagged_ghost_nodes (r0 : Rank) (nObj : Z) :
  tagsWithin (domain r0) nObj = true ->
  let g := domain r0 in
  let r := withTables nObj r0 in
  (forall a i, 0 <= a < nObj ->
      In i (block (lookupInterior r) (lookupInteriorOffset r) a)
      <-> 0 <= i < nNodes g /\ isObjectNode g i = true /\ tagOf g i = a + 1)
  /\ (forall p s pIndex st,
         0 <= p < nNodes g -> isObjectNode g p = true ->
         matchInterior nObj r s pIndex p st
         = attribute (tagOf g p - 1) s pIndex st)
  /\ (forall p s pIndex st,
         ~ (0 <= p < nNodes g /\ isObjectNode g p = true) ->
         matchInterior nObj r s pIndex p st = st)
  /\ (forall fuel s i st,
         i < cStop st ->
         let p := cellCorner r (cPop st) i in
         particleLoop (S fuel) nObj r s i st
         = particleLoop fuel nObj r s (i + 1)
             (if decide (0 <= p < nNodes g /\ isObjectNode g p = true)
              then attribute (tagOf g p - 1) s (i * nDims (cPop st)) st
              else st)).
Proof.
  intros Htags g r. split; [| split; [| split]].
  - intros a i Ha.
    destruct (withTables_interior r0 nObj) as [Hli Hlo].
    fold r in Hli, Hlo. rewrite Hli, Hlo.
    rewrite interior_block by (by apply tagsWithin_spec || done).
    rewrite filter_In. unfold acceptInterior.
    rewrite andb_true_iff, Z.eqb_eq, <- list_elem_of_In, elem_of_seqZ.
    fold g. split.
    + intros (H1 & H2 & H3). repeat split; [lia | lia | done | lia].
    + intros (H1 & H2 & H3). repeat split; [lia | lia | done | lia].
  - intros p s pIndex st Hp Hobj. by apply matchInterior_tagged.
  - intros p s pIndex st Hno. by apply matchInterior_untagged.
  - intros fuel s i st Hi p. cbn [particleLoop].
    destruct (Z.ltb_spec i (cStop st)) as [_ | Hge]; [| lia].
    fold p. f_equal. case_decide as Hp.
    + destruct Hp as [Hp Hobj]. by apply matchInterior_tagged.
    + by apply matchInterior_untagged.
Qed.

(** C8 on the halo map: the particle whose lower corner is the ghost
    node 20 is attributed to object 1. *)
Lemma C8_witness :
  tagsWithin (domain haloRank) 1 = true
  /\ isGhostNode (domain haloRank) 20 = true
  /\ cellCorner haloRank (pop haloRank) 0 = 20
  /\ forall st, matchInterior 1 (withTables 1 haloRank) 0 0 20 st
                = attribute 0 0 0 st.
Proof.
  assert (Ht : tagsWithin (domain haloRank) 1 = true) by (vm_compute; reflexivity).
  split; [exact Ht |].
  split; [vm_compute; reflexivity |].
  split; [vm_compute; reflexivity |].
  intros st.
  exact (proj1 (proj2 (C8_interior_table_keeps_tagged_ghost_nodes haloRank 1 Ht))
           20 0 0 st ltac:(vm_compute; split; [discriminate | reflexivity])
           ltac:(vm_compute; reflexivity)).
Defined.

(** ** The object count *)

Lemma Dbl_toInt_lower (n : Z) (y : Qc) :
  (Dbl.ofZ n <= y)%Qc -> 0 <= n -> n <= Dbl.toInt y.
Proof.
  unfold Qcle, Dbl.toInt, Dbl.ofZ. intros H Hn.
  change (this (Q2Qc (inject_Z n))) with (Qred (inject_Z n)) in H.
  rewrite Qred_correct in H. unfold Qle in H. simpl in H.
  apply Z.quot_le_lower_bound; lia.
Qed.

Lemma Dbl_half_pos : (0 < Dbl.half)%Qc.
Proof. reflexivity. Qed.

(** the running maximum never decreases, and while it is 0 no node seen
    so far has [val > 0.5] *)
Lemma localObjectCount_inv g :
  0 <= localObjectCount g
  /\ (localObjectCount g = 0 ->
      forall i, 0 <= i < nNodes g -> isObjectNode g i = false).
Proof.
  unfold localObjectCount.
  destruct (Z.le_gt_cases 0 (nNodes g)) as [Hn | Hn].
  2:{ rewrite for_loop_done by lia. split; [lia |]. intros _ i Hi. lia. }
  pose (P := fun (i nObj : Z) =>
    0 <= nObj /\ (nObj = 0 -> forall k, 0 <= k < i -> isObjectNode g k = false)).
  apply (for_loop_inv P); [done | |].
  - split; [lia |]. intros _ k Hk. lia.
  - intros i nObj Hi [Hpos Hnone]. unfold P.
    destruct (Dbl.gtb (Arr.rdQ (val g) i) (Dbl.ofZ nObj)) eqn:E.
    + unfold Dbl.gtb in E. apply Dbl_ltb_lt in E.
      assert (Hup : nObj <= Dbl.toInt (Arr.rdQ (val g) i + Dbl.half)%Qc).
      { apply Dbl_toInt_lower; [| done].
        rewrite <- (Qcplus_0_r (Dbl.ofZ nObj)).
        apply Qcplus_le_compat; [by apply Qclt_le_weak |].
        apply Qclt_le_weak, Dbl_half_pos. }
      split; [lia |]. intros Hzero k Hk.
      destruct (decide (k = i)) as [-> | Hne].
      * destruct (isObjectNode g i) eqn:Eo; [| done].
        pose proof (tagOf_ge_1 g i Eo) as Htag. unfold tagOf in Htag. lia.
      * apply Hnone; lia.
    + split; [done |]. intros Hzero k Hk.
      destruct (decide (k = i)) as [-> | Hne]; [| apply Hnone; lia].
      subst nObj. unfold isObjectNode, Dbl.gtb.
      destruct (Dbl.ltb Dbl.half (Arr.rdQ (val g) i)) eqn:Eo; [| done].
      apply Dbl_ltb_lt in Eo.
      assert (Hlt : Dbl.ltb (Dbl.ofZ 0) (Arr.rdQ (val g) i) = true).
      { apply Dbl_ltb_lt. eapply Qclt_trans; [| exact Eo]. reflexivity. }
      unfold Dbl.gtb in E. congruence.
Qed.

Lemma allreduce_max_upper (xs : list Z) x :
  In x xs -> x <= Mpi.allreduce_max xs.
Proof.
  assert (H : forall l m, m <= fold_left Z.max l m
                          /\ forall y, In y l -> y <= fold_left Z.max l m).
  { induction l as [| z l IH]; intros m; simpl.
    - split; [lia | intros y []].
    - destruct (IH (Z.max m z)) as [H1 H2]. split; [lia |].
      intros y [-> | Hy]; [lia | by apply H2]. }
  destruct xs as [| z xs]; [intros [] |]. simpl.
  destruct (H xs z) as [H1 H2]. intros [-> | Hx]; [done | by apply H2].
Qed.

Section NoObjects.

Variable g : Grid.
Hypothesis Hnone : forall i, 0 <= i < nNodes g -> isObjectNode g i = false.

Lemma oFillLookupTables_empty : oFillLookupTables g 0 = ([], [0]).
Proof.
  unfold oFillLookupTables.
  assert (Hc : interiorCount g 0 = [0]).
  { unfold interiorCount.
    apply (for_loop_never
             (fun i off => Arr.wr off (tagOf g i) (Arr.rdZ off (tagOf g i) + 1))
             (isObjectNode g)). exact Hnone. }
  rewrite Hc.
  assert (Ha : alCumSum [0] 0 = [0]) by reflexivity.
  rewrite Ha. f_equal. unfold interiorFill.
  rewrite (for_loop_ext _ _ _
             (fun i st => if isObjectNode g i
                          then fileEntry st (tagOf g i - 1, i) else st)).
  - rewrite (for_loop_never (fun i st => fileEntry st (tagOf g i - 1, i))
               (isObjectNode g)) by exact Hnone.
    reflexivity.
  - intros i [tbl index] _. done.
Qed.

End NoObjects.

Lemma oFindObjectSurfaceNodes_empty g : oFindObjectSurfaceNodes g 0 = ([], [0]).
Proof. reflexivity. Qed.

(** C7, as the code has it.  [oAlloc] has no test on the object count:
    when the count over all ranks is 0 it returns an object with
    [nObjects = 0], empty lookup tables with the single offset 0, and
    empty capacitance arrays; the object map of every rank is kept. *)
Theorem C7_oAlloc_returns_when_no_object (size : Z) (rs : list Rank) :
  Mpi.allreduce_max (map (fun r => localObjectCount (domain r)) rs) = 0 ->
  exists W,
    oAlloc size rs = Returned W
    /\ nObjects W = 0
    /\ capMatrixAllOffsets W = [] /\ capMatrixAll W = [] /\ capMatrixSum W = []
    /\ map domain (ranks W) = map domain rs
    /\ Forall (fun r => lookupInterior r = [] /\ lookupInteriorOffset r = [0]
                        /\ lookupSurface r = [] /\ lookupSurfaceOffset r = [0])
         (ranks W).
Proof.
  intros Hzero. unfold oAlloc. rewrite Hzero.
  assert (Hgather : forall rs', oGatherSurfaceNodes size 0 rs' = ([], 0))
    by reflexivity.
  rewrite Hgather. eexists. split; [reflexivity |]. simpl.
  repeat split.
  - rewrite map_map. apply map_ext. intros r. unfold withTables.
    destruct (oFillLookupTables (domain r) 0), (oFindObjectSurfaceNodes (domain r) 0).
    done.
  - apply Forall_forall. intros r' Hr'. apply list_elem_of_In in Hr'.
    apply in_map_iff in Hr' as (r & <- & Hr).
    assert (Hloc : localObjectCount (domain r) = 0).
    { pose proof (allreduce_max_upper
                    (map (fun r => localObjectCount (domain r)) rs)
                    (localObjectCount (domain r))) as Hup.
      rewrite Hzero in Hup.
      pose proof (proj1 (localObjectCount_inv (domain r))).
      assert (localObjectCount (domain r) <= 0); [| lia].
      apply Hup. apply in_map_iff. by exists r. }
    unfold withTables.
    rewrite oFillLookupTables_empty
      by (apply (proj2 (localObjectCount_inv (domain r))); exact Hloc).
    rewrite oFindObjectSurfaceNodes_empty. done.
Qed.

(** C7 on one rank with an empty object map: [oAlloc] returns an
    object with no objects in it. *)
Lemma C7_witness :
  Mpi.allreduce_max (map (fun r => localObjectCount (domain r)) [emptyRank]) = 0
  /\ exists W, oAlloc 1 [emptyRank] = Returned W /\ nObjects W = 0.
Proof.
  assert (H : Mpi.allreduce_max
                (map (fun r => localObjectCount (domain r)) [emptyRank]) = 0)
    by (vm_compute; reflexivity).
  split; [exact H |].
  destruct (C7_oAlloc_returns_when_no_object 1 [emptyRank] H) as (W & HW & HN & _).
  exists W. split; [exact HW | exact HN].
Defined.

(** ** Finite sums of exact reals *)

Section Sums.
Context {X : Type}.
Implicit Types (f g : X -> Qc) (l : list X).

Lemma sumOver_nil f : sumOver f [] = 0%Qc.
Proof. reflexivity. Qed.

Lemma sumOver_cons f x l : sumOver f (x :: l) = (f x + sumOver f l)%Qc.
Proof. reflexivity. Qed.

Lemma sumOver_app f l1 l2 :
  sumOver f (l1 ++ l2) = (sumOver f l1 + sumOver f l2)%Qc.
Proof.
  induction l1 as [| x l1 IH]; [rewrite sumOver_nil; simpl; ring |].
  simpl. rewrite !sumOver_cons, IH. ring.
Qed.

Lemma sumOver_ext f g l :
  (forall x, In x l -> f x = g x) -> sumOver f l = sumOver g l.
Proof.
  induction l as [| x l IH]; intros H; [done |].
  rewrite !sumOver_cons. rewrite (H x) by (by left).
  rewrite IH; [done |]. intros y Hy. apply H. by right.
Qed.

Lemma sumOver_plus f g l :
  sumOver (fun x => f x + g x)%Qc l = (sumOver f l + sumOver g l)%Qc.
Proof.
  induction l as [| x l IH]; [rewrite !sumOver_nil; ring |].
  rewrite !sumOver_cons, IH. ring.
Qed.

Lemma sumOver_minus f g l :
  sumOver (fun x => f x - g x)%Qc l = (sumOver f l - sumOver g l)%Qc.
Proof.
  induction l as [| x l IH]; [rewrite !sumOver_nil; ring |].
  rewrite !sumOver_cons, IH. ring.
Qed.

Lemma sumOver_scale_l c f l :
  sumOver (fun x => c * f x)%Qc l = (c * sumOver f l)%Qc.
Proof.
  induction l as [| x l IH]; [rewrite !sumOver_nil; ring |].
  rewrite !sumOver_cons, IH. ring.
Qed.

Lemma sumOver_scale_r c f l :
  sumOver (fun x => f x * c)%Qc l = (sumOver f l * c)%Qc.
Proof.
  induction l as [| x l IH]; [rewrite !sumOver_nil; ring |].
  rewrite !sumOver_cons, IH. ring.
Qed.

Lemma sumOver_zero l : sumOver (fun _ : X => 0%Qc) l = 0%Qc.
Proof.
  induction l as [| x l IH]; [done |]. rewrite sumOver_cons, IH. ring.
Qed.

End Sums.

Lemma sumOver_swap {X Y : Type} (f : X -> Y -> Qc) (l1 : list X) (l2 : list Y) :
  sumOver (fun x => sumOver (fun y => f x y) l2) l1
  = sumOver (fun y => sumOver (fun x => f x y) l1) l2.
Proof.
  induction l1 as [| x l1 IH].
  - rewrite sumOver_nil. symmetry. apply sumOver_zero.
  - rewrite sumOver_cons, IH, <- sumOver_plus. done.
Qed.

(** [acc += f j] over a range *)
Lemma for_loop_sum (f : Z -> Qc) lo hi acc :
  Arr.for_loop lo hi (fun j t => (t + f j)%Qc) acc
  = (acc + sumOver f (seqZ lo (hi - lo)))%Qc.
Proof.
  unfold Arr.for_loop. generalize (seqZ lo (hi - lo)) as xs.
  intros xs. revert acc. induction xs as [| x xs IH]; intros acc; simpl.
  - rewrite sumOver_nil. ring.
  - rewrite IH, sumOver_cons. ring.
Qed.

(** a sum over a range splits at any point of the range *)
Lemma sumOver_range_split (f : Z -> Qc) lo mid hi :
  lo <= mid <= hi ->
  sumOver f (seqZ lo (hi - lo))
  = (sumOver f (seqZ lo (mid - lo)) + sumOver f (seqZ mid (hi - mid)))%Qc.
Proof.
  intros H. replace (hi - lo) with ((mid - lo) + (hi - mid)) by lia.
  rewrite seqZ_app by lia. rewrite sumOver_app.
  by replace (lo + (mid - lo)) with mid by lia.
Qed.

(** a sum over [0 .. n) of terms that vanish outside [lo .. hi) *)
Lemma sumOver_indicator (f : Z -> Qc) lo hi n :
  0 <= lo <= hi -> hi <= n ->
  sumOver (fun j => if decide (lo <= j < hi) then f j else 0%Qc) (seqZ 0 n)
  = sumOver f (seqZ lo (hi - lo)).
Proof.
  intros Hlo Hhi.
  pose (h := fun j => if decide (lo <= j < hi) then f j else 0%Qc).
  pose proof (sumOver_range_split h 0 lo n ltac:(lia)) as H1.
  pose proof (sumOver_range_split h lo hi n ltac:(lia)) as H2.
  rewrite !Z.sub_0_r in H1. fold h. rewrite H1, H2.
  rewrite (sumOver_ext h (fun _ => 0%Qc) (seqZ 0 lo)).
  2:{ intros j Hj. apply list_elem_of_In, elem_of_seqZ in Hj.
      unfold h. rewrite decide_False by lia. done. }
  rewrite (sumOver_ext h (fun _ => 0%Qc) (seqZ hi (n - hi))).
  2:{ intros j Hj. apply list_elem_of_In, elem_of_seqZ in Hj.
      unfold h. rewrite decide_False by lia. done. }
  rewrite (sumOver_ext h f (seqZ lo (hi - lo))).
  2:{ intros j Hj. apply list_elem_of_In, elem_of_seqZ in Hj.
      unfold h. rewrite decide_True by lia. done. }
  rewrite !sumOver_zero. ring.
Qed.

(** the sum of a list is the sum of its reads *)
Lemma sumQ_reads (v : list Qc) :
  Mpi.sumQ v = sumOver (Arr.rdQ v) (seqZ 0 (Z.of_nat (length v))).
Proof.
  induction v as [| x v IH] using rev_ind; [done |].
  rewrite length_app. simpl length.
  replace (Z.of_nat (length v + 1)) with (Z.of_nat (length v) + 1) by lia.
  rewrite seqZ_app by lia. rewrite sumOver_app. simpl seqZ.
  rewrite (seqZ_cons _ 1) by lia.
  rewrite (seqZ_nil _ (Z.pred 1)) by lia.
  rewrite sumOver_cons, sumOver_nil.
  assert (Happ : forall l1 l2, Mpi.sumQ (l1 ++ l2) = (Mpi.sumQ l1 + Mpi.sumQ l2)%Qc).
  { induction l1 as [| y l1 IH1]; intros l2; simpl; [ring |].
    rewrite IH1. ring. }
  rewrite Happ, IH. simpl.
  rewrite (sumOver_ext (Arr.rdQ (v ++ [x])) (Arr.rdQ v)).
  2:{ intros j Hj. apply list_elem_of_In, elem_of_seqZ in Hj.
      unfold Arr.rdQ. rewrite !rd_nth by lia. apply app_nth1. lia. }
  unfold Arr.rdQ at 3. rewrite rd_nth by lia.
  rewrite app_nth2 by lia.
  replace (Z.to_nat (0 + Z.of_nat (length v)) - length v)%nat with 0%nat by lia.
  simpl. ring.
Qed.

(** [v[n] += c] adds [c] to the sum of [v] *)
Lemma sumQ_add_at (v : list Qc) n c :
  0 <= n < Z.of_nat (length v) ->
  Mpi.sumQ (Arr.wr v n (Arr.rdQ v n + c)%Qc) = (Mpi.sumQ v + c)%Qc.
Proof.
  intros Hn. unfold Arr.wr, Arr.rdQ. rewrite rd_nth by lia.
  destruct (Z.ltb_spec n 0); [lia |].
  assert (Hk : (Z.to_nat n < length v)%nat) by lia.
  generalize (Z.to_nat n) Hk. clear. intros k. revert k.
  induction v as [| x v IH]; intros k Hk; simpl in *; [lia |].
  destruct k as [| k]; simpl; [ring |].
  rewrite IH by lia. ring.
Qed.

(** ** Vectors written by loops *)

Lemma rd_map_seqZ (h : Z -> Qc) n i :
  Arr.rdQ (map h (seqZ 0 n)) i = if decide (0 <= i < n) then h i else 0%Qc.
Proof.
  case_decide as Hi.
  - unfold Arr.rdQ. rewrite rd_nth by lia. rewrite nth_lookup.
    rewrite list_lookup_fmap, lookup_seqZ_lt by lia. simpl. f_equal. lia.
  - unfold Arr.rdQ. apply rd_outside. rewrite length_map, length_seqZ. lia.
Qed.

Lemma rd_allreduce_sum_vec n bufs i :
  Arr.rdQ (Mpi.allreduce_sum_vec n bufs) i
  = if decide (0 <= i < n) then sumOver (fun b => Arr.rdQ b i) bufs else 0%Qc.
Proof. unfold Mpi.allreduce_sum_vec. by rewrite rd_map_seqZ. Qed.

Lemma sumQ_allreduce_sum_vec n bufs :
  Mpi.sumQ (Mpi.allreduce_sum_vec n bufs)
  = sumOver (fun i => sumOver (fun b => Arr.rdQ b i) bufs) (seqZ 0 n).
Proof. reflexivity. Qed.

(** [d[j] = v j] for [j] in a range *)
Lemma rd_loop_write (v : Z -> Qc) lo hi (d0 : list Qc) :
  let d := Arr.for_loop lo hi (fun j d => Arr.wr d j (v j)) d0 in
  length d = length d0
  /\ forall k, Arr.rdQ d k
       = if decide (lo <= k < hi /\ 0 <= k < Z.of_nat (length d0))
         then v k else Arr.rdQ d0 k.
Proof.
  unfold Arr.for_loop. generalize (seqZ_app lo) (elem_of_seqZ lo (hi - lo)).
  intros _ Hmem.
  assert (Hgen : forall xs d1,
            NoDup xs ->
            let d := fold_left (fun d j => Arr.wr d j (v j)) xs d1 in
            length d = length d1
            /\ forall k, Arr.rdQ d k
                 = if decide (k ∈ xs /\ 0 <= k < Z.of_nat (length d1))
                   then v k else Arr.rdQ d1 k).
  { induction xs as [| x xs IH]; intros d1 Hnd; cbn [fold_left].
    - split; [done |]. intros k.
      destruct (decide (k ∈ [] /\ 0 <= k < Z.of_nat (length d1))) as [[H _] |];
        [| done].
      by apply elem_of_nil in H.
    - apply NoDup_cons in Hnd as [Hx Hnd].
      destruct (IH (Arr.wr d1 x (v x)) Hnd) as [Hl Hrd].
      rewrite length_wr in Hl, Hrd. split; [done |].
      intros k. rewrite Hrd, rdQ_wr.
      destruct (decide (k ∈ xs /\ 0 <= k < Z.of_nat (length d1))) as [H1 | H1].
      + rewrite decide_True; [done |]. destruct H1 as [H1 H1'].
        split; [by right | done].
      + destruct (decide (x = k /\ 0 <= x < Z.of_nat (length d1))) as [H2 | H2].
        * destruct H2 as [-> H2]. rewrite decide_True; [done |].
          split; [by left | done].
        * rewrite decide_False; [done |]. intros [H3 H3'].
          apply elem_of_cons in H3 as [-> | H3]; [apply H2 | apply H1]; done. }
  destruct (Hgen (seqZ lo (hi - lo)) d0 (NoDup_seqZ _ _)) as [Hl Hrd].
  split; [done |]. intros k. rewrite Hrd.
  repeat case_decide; try done; exfalso; rewrite elem_of_seqZ in *; lia.
Qed.

(** [rc[i] += g j] for [j] in a range *)
Lemma rd_loop_accumulate (g : Z -> Qc) i lo hi (rc0 : list Qc) :
  let rc := Arr.for_loop lo hi
              (fun j rc => Arr.wr rc i (Arr.rdQ rc i + g j)%Qc) rc0 in
  length rc = length rc0
  /\ forall k, Arr.rdQ rc k
       = if decide (k = i /\ 0 <= i < Z.of_nat (length rc0))
         then (Arr.rdQ rc0 i + sumOver g (seqZ lo (hi - lo)))%Qc
         else Arr.rdQ rc0 k.
Proof.
  unfold Arr.for_loop. generalize (seqZ lo (hi - lo)) as xs. intros xs.
  revert rc0. induction xs as [| x xs IH]; intros rc0; simpl.
  - split; [done |]. intros k. case_decide as H; [| done].
    destruct H as [-> _]. rewrite sumOver_nil. ring.
  - destruct (IH (Arr.wr rc0 i (Arr.rdQ rc0 i + g x)%Qc)) as [Hl Hrd].
    rewrite length_wr in Hl, Hrd. split; [done |].
    intros k. rewrite Hrd, !rdQ_wr, sumOver_cons.
    repeat case_decide; try done; try (exfalso; lia).
    ring.
Qed.

Lemma sumOver_map {X Y : Type} (f : Y -> Qc) (h : X -> Y) (l : list X) :
  sumOver f (map h l) = sumOver (fun x => f (h x)) l.
Proof. unfold sumOver. by rewrite map_map. Qed.

Lemma sumOver_shift (f : Z -> Qc) c n :
  sumOver f (seqZ c n) = sumOver (fun i => f (c + i)) (seqZ 0 n).
Proof.
  rewrite <- (sumOver_map f (Z.add c)).
  change (map (Z.add c) (seqZ 0 n)) with (Z.add c <$> seqZ 0 n).
  rewrite fmap_add_seqZ. by rewrite Z.add_0_r.
Qed.

(** a row-major walk over a [T x T] matrix is a walk over its rows *)
Lemma sumOver_row_major (f : Z -> Qc) T :
  0 <= T ->
  sumOver f (seqZ 0 (T * T))
  = sumOver (fun j => sumOver (fun i => f (T * j + i)) (seqZ 0 T)) (seqZ 0 T).
Proof.
  intros HT.
  assert (H : forall n : nat,
            sumOver f (seqZ 0 (T * Z.of_nat n))
            = sumOver (fun j => sumOver (fun i => f (T * j + i)) (seqZ 0 T))
                (seqZ 0 (Z.of_nat n))).
  { induction n as [| n IH].
    - rewrite Z.mul_0_r. done.
    - replace (T * Z.of_nat (S n)) with (T * Z.of_nat n + T) by lia.
      rewrite seqZ_app by lia. rewrite sumOver_app, IH.
      rewrite seqZ_S, sumOver_app. f_equal.
      rewrite sumOver_cons, sumOver_nil. simpl.
      rewrite sumOver_shift, !Z.add_0_l.
      change (Q2Qc 0) with 0%Qc. ring. }
  specialize (H (Z.to_nat T)). by rewrite Z2Nat.id in H by lia.
Qed.

(** ** One object of the charge corrector *)

Section ApplyObject.

Variables (W : World) (a : Z).
Hypothesis Hsize : 0 <= mpiSize W.
Hypothesis Hrow : rowOrdered W a.

Let G (k : Z) : Z :=
  Arr.rdZ (capMatrixAllOffsets W) (a * (mpiSize W + 1) + k).
Let T : Z := totSNGlob W a.
Let rows (r : Rank) : list Z :=
  seqZ (beginIndex W a r) (endIndex W a r - beginIndex W a r).
Let psi (r : Rank) (j : Z) : Qc := Arr.rdQ (phi r) (surfNode W a r j).
Let K : Z -> Z -> Qc := capEntry W a.

Lemma G_chain x y : 0 <= x <= y -> y <= mpiSize W -> G x <= G y.
Proof.
  intros Hx Hy.
  assert (H : forall n : nat, x + Z.of_nat n <= mpiSize W ->
                              G x <= G (x + Z.of_nat n)).
  { induction n as [| n IH]; intros Hn.
    - rewrite Z.add_0_r. lia.
    - etransitivity; [apply IH; lia |].
      destruct Hrow as [_ Hstep].
      specialize (Hstep (x + Z.of_nat n) ltac:(lia)). unfold G.
      replace (a * (mpiSize W + 1) + (x + Z.of_nat (S n)))
        with (a * (mpiSize W + 1) + (x + Z.of_nat n) + 1) by lia.
      exact Hstep. }
  specialize (H (Z.to_nat (y - x))).
  replace (x + Z.of_nat (Z.to_nat (y - x))) with y in H by lia.
  apply H. lia.
Qed.

Lemma G_zero : G 0 = 0.
Proof. unfold G. rewrite Z.add_0_r. apply Hrow. Qed.

Lemma T_is_G : T = G (mpiSize W).
Proof. reflexivity. Qed.

Lemma T_nonneg : 0 <= T.
Proof. rewrite T_is_G, <- G_zero. apply G_chain; lia. Qed.

(** the rows of consecutive ranks tile a range of global indices *)
Lemma rows_tile (f : Z -> Qc) (rs : list Rank) : forall k,
  0 <= k -> k + Z.of_nat (length rs) <= mpiSize W ->
  map mpiRank rs = seqZ k (Z.of_nat (length rs)) ->
  sumOver (fun r => sumOver f (rows r)) rs
  = sumOver f (seqZ (G k) (G (k + Z.of_nat (length rs)) - G k)).
Proof.
  induction rs as [| r rs IH]; intros k Hk Hlen Hnum.
  - simpl. rewrite Z.add_0_r, Z.sub_diag. done.
  - simpl length in *. rewrite seqZ_cons in Hnum by lia.
    simpl in Hnum. injection Hnum as Hr Hrest.
    replace (Z.pred (Z.of_nat (S (length rs)))) with (Z.of_nat (length rs))
      in Hrest by lia.
    rewrite sumOver_cons, (IH (Z.succ k)) by (done || lia).
    unfold rows at 1, beginIndex, endIndex. rewrite Hr.
    fold (G k).
    replace (Arr.rdZ (capMatrixAllOffsets W) (a * (mpiSize W + 1) + k + 1))
      with (G (Z.succ k)) by (unfold G; f_equal; lia).
    replace (Z.succ k + Z.of_nat (length rs))
      with (k + Z.of_nat (S (length rs))) by lia.
    symmetry. apply sumOver_range_split.
    split; apply G_chain; lia.
Qed.

Variable rs : list Rank.
Hypothesis Hnum : ranksNumbered W rs.

Lemma ranks_length : Z.of_nat (length rs) = mpiSize W.
Proof.
  unfold ranksNumbered in Hnum.
  apply (f_equal (@length Z)) in Hnum.
  rewrite length_map, length_seqZ in Hnum. lia.
Qed.

Lemma rows_partition (f : Z -> Qc) :
  sumOver (fun r => sumOver f (rows r)) rs = sumOver f (seqZ 0 T).
Proof.
  pose proof ranks_length as Hl.
  rewrite (rows_tile f rs 0); [| lia | lia |].
  - rewrite Z.add_0_l, Hl, G_zero, Z.sub_0_r. done.
  - rewrite Hl. exact Hnum.
Qed.

Lemma rows_within r :
  In r rs ->
  0 <= beginIndex W a r <= endIndex W a r /\ endIndex W a r <= T.
Proof.
  intros Hr. pose proof ranks_length as Hl.
  assert (Hk : 0 <= mpiRank r < mpiSize W).
  { assert (Hin : In (mpiRank r) (map mpiRank rs)) by (by apply in_map).
    rewrite Hnum in Hin. apply list_elem_of_In, elem_of_seqZ in Hin. lia. }
  unfold beginIndex, endIndex. fold (G (mpiRank r)).
  replace (Arr.rdZ (capMatrixAllOffsets W)
             (a * (mpiSize W + 1) + mpiRank r + 1))
    with (G (mpiRank r + 1)) by (unfold G; f_equal; lia).
  rewrite T_is_G.
  pose proof (G_chain 0 (mpiRank r)). pose proof G_zero.
  pose proof (G_chain (mpiRank r) (mpiRank r + 1)).
  pose proof (G_chain (mpiRank r + 1) (mpiSize W)). lia.
Qed.

End ApplyObject.

Section Correction.

Variables (W : World) (a : Z) (rs : list Rank).
Hypothesis Hsize : 0 <= mpiSize W.
Hypothesis Hrow : rowOrdered W a.
Hypothesis Hnum : ranksNumbered W rs.

Let T : Z := totSNGlob W a.
Let rows (r : Rank) : list Z :=
  seqZ (beginIndex W a r) (endIndex W a r - beginIndex W a r).
Let psi (r : Rank) (j : Z) : Qc := Arr.rdQ (phi r) (surfNode W a r j).
Let K : Z -> Z -> Qc := capEntry W a.

(** the weighted potential of the rows of one rank *)
Let X (r : Rank) : Qc :=
  sumOver (fun i => sumOver (fun j => K j i * psi r j)%Qc (rows r)) (seqZ 0 T).

Lemma localPhiSum_sum r :
  localPhiSum W a r = (X r * Arr.rdQ (capMatrixSum W) a)%Qc.
Proof.
  unfold localPhiSum. f_equal.
  rewrite (for_loop_ext _ _ _
             (fun i acc =>
                (acc + sumOver (fun j => K j i * psi r j)%Qc (rows r))%Qc)).
  - rewrite for_loop_sum, Z.sub_0_r. unfold X, T. ring.
  - intros i acc _. apply for_loop_sum.
Qed.

Lemma objectPotential_sum :
  objectPotential W a rs = (sumOver X rs * Arr.rdQ (capMatrixSum W) a)%Qc.
Proof.
  unfold objectPotential, Mpi.allreduce_sum.
  change (Mpi.sumQ (map (localPhiSum W a) rs))
    with (sumOver (localPhiSum W a) rs).
  rewrite (sumOver_ext _ (fun r => X r * Arr.rdQ (capMatrixSum W) a)%Qc)
    by (intros r _; apply localPhiSum_sum).
  apply sumOver_scale_r.
Qed.

Lemma rd_localDeltaPhi phiC r j :
  Arr.rdQ (localDeltaPhi W a phiC r) j
  = if decide (beginIndex W a r <= j < endIndex W a r /\ 0 <= j < T)
    then (phiC - psi r j)%Qc else 0%Qc.
Proof.
  unfold localDeltaPhi.
  destruct (rd_loop_write (fun j => phiC - psi r j)%Qc
              (beginIndex W a r) (endIndex W a r)
              (Arr.alloc (totSNGlob W a) 0%Qc)) as [_ Hrd].
  rewrite Hrd, length_alloc. unfold Arr.rdQ. rewrite rd_alloc.
  pose proof (T_nonneg W a Hsize Hrow) as HT. fold T in HT. fold T.
  repeat case_decide; try done; exfalso; lia.
Qed.

Lemma rd_reducedDeltaPhi j :
  0 <= j < T ->
  Arr.rdQ (reducedDeltaPhi W a rs) j
  = sumOver
      (fun r => if decide (beginIndex W a r <= j < endIndex W a r)
                then (objectPotential W a rs - psi r j)%Qc else 0%Qc)
      rs.
Proof.
  intros Hj. unfold reducedDeltaPhi.
  rewrite rd_allreduce_sum_vec, decide_True by done.
  rewrite sumOver_map. apply sumOver_ext. intros r _.
  rewrite rd_localDeltaPhi. repeat case_decide; try done; exfalso; lia.
Qed.

Lemma rd_localRhoCorr dphi r i :
  Arr.rdQ (localRhoCorr W a dphi r) i
  = if decide (0 <= i < T)
    then sumOver (fun j => K j i * Arr.rdQ dphi j)%Qc (rows r) else 0%Qc.
Proof.
  pose proof (T_nonneg W a Hsize Hrow) as HT. fold T in HT.
  unfold localRhoCorr. fold T.
  pose (P := fun (n : Z) (rc : list Qc) =>
    Z.of_nat (length rc) = T
    /\ forall k, Arr.rdQ rc k
         = if decide (0 <= k < n)
           then sumOver (fun j => K j k * Arr.rdQ dphi j)%Qc (rows r)
           else 0%Qc).
  assert (HP : P T (Arr.for_loop 0 T
    (fun i rc =>
       Arr.for_loop (beginIndex W a r) (endIndex W a r)
         (fun j rc =>
            Arr.wr rc i (Arr.rdQ rc i + capEntry W a j i * Arr.rdQ dphi j)%Qc)
         rc)
    (Arr.alloc T 0%Qc))).
  { apply for_loop_inv; [done | |].
    - unfold P. rewrite length_alloc. split; [lia |].
      intros k. unfold Arr.rdQ. rewrite rd_alloc.
      rewrite decide_False by lia. done.
    - intros n rc Hn [Hl Hrd]. unfold P.
      destruct (rd_loop_accumulate
                  (fun j => capEntry W a j n * Arr.rdQ dphi j)%Qc n
                  (beginIndex W a r) (endIndex W a r) rc) as [Hl' Hrd'].
      split; [by rewrite Hl' |].
      intros k. rewrite Hrd', !Hrd.
      repeat case_decide; try done; try (exfalso; lia).
      destruct_and!. subst k. fold (rows r). unfold K. ring. }
  destruct HP as [_ Hrd]. apply Hrd.
Qed.

Lemma sumQ_reducedRhoCorr :
  Mpi.sumQ (reducedRhoCorr W a rs)
  = sumOver
      (fun i =>
         sumOver
           (fun r =>
              sumOver (fun j => K j i * Arr.rdQ (reducedDeltaPhi W a rs) j)%Qc
                (rows r))
           rs)
      (seqZ 0 T).
Proof.
  unfold reducedRhoCorr. rewrite sumQ_allreduce_sum_vec. fold T.
  apply sumOver_ext. intros i Hi.
  apply list_elem_of_In, elem_of_seqZ in Hi.
  rewrite sumOver_map. apply sumOver_ext. intros r _.
  rewrite rd_localRhoCorr, decide_True by lia. done.
Qed.

(** column [i] of eq. 5, summed over the ranks *)
Lemma column_correction i :
  sumOver
    (fun r =>
       sumOver (fun j => K j i * Arr.rdQ (reducedDeltaPhi W a rs) j)%Qc (rows r))
    rs
  = (objectPotential W a rs * sumOver (fun j => K j i) (seqZ 0 T)
     - sumOver (fun r => sumOver (fun j => K j i * psi r j)%Qc (rows r)) rs)%Qc.
Proof.
  set (phiC := objectPotential W a rs). unfold rows.
  rewrite (rows_partition W a Hsize Hrow rs Hnum
             (fun j => K j i * Arr.rdQ (reducedDeltaPhi W a rs) j)%Qc).
  fold T.
  rewrite (sumOver_ext _
    (fun j => sumOver
                (fun r => if decide (beginIndex W a r <= j < endIndex W a r)
                          then (K j i * (phiC - psi r j))%Qc else 0%Qc) rs)).
  2:{ intros j Hj. apply list_elem_of_In, elem_of_seqZ in Hj.
      rewrite rd_reducedDeltaPhi by lia. fold phiC.
      rewrite <- sumOver_scale_l. apply sumOver_ext. intros r _.
      case_decide; ring. }
  rewrite sumOver_swap.
  rewrite (sumOver_ext _
    (fun r =>
       (phiC * sumOver (fun j => K j i)
                 (seqZ (beginIndex W a r) (endIndex W a r - beginIndex W a r))
        - sumOver (fun j => K j i * psi r j)
            (seqZ (beginIndex W a r) (endIndex W a r - beginIndex W a r)))%Qc)).
  2:{ intros r Hr.
      destruct (rows_within W a Hsize Hrow rs Hnum r Hr) as [Hb He].
      fold T in He.
      rewrite (sumOver_indicator (fun j => K j i * (phiC - psi r j))%Qc)
        by lia.
      rewrite <- sumOver_scale_l, <- sumOver_minus.
      apply sumOver_ext. intros j _. ring. }
  rewrite sumOver_minus, sumOver_scale_l.
  rewrite (rows_partition W a Hsize Hrow rs Hnum (fun j => K j i)).
  done.
Qed.

Lemma storedSum_sum :
  storedSum W a
  = sumOver (fun i => sumOver (fun j => K j i) (seqZ 0 T)) (seqZ 0 T).
Proof.
  pose proof (T_nonneg W a Hsize Hrow) as HT. fold T in HT.
  unfold storedSum. fold T. rewrite for_loop_sum, Z.sub_0_r.
  rewrite (sumOver_row_major _ T HT), sumOver_swap.
  unfold K, capEntry. fold T. ring.
Qed.

(** the corrections of one object add up to zero *)
Lemma corrections_cancel :
  sumNormalised W a -> Mpi.sumQ (reducedRhoCorr W a rs) = 0%Qc.
Proof.
  intros Hnorm. unfold sumNormalised in Hnorm.
  rewrite storedSum_sum in Hnorm.
  rewrite sumQ_reducedRhoCorr.
  rewrite (sumOver_ext _ _ _ (fun i _ => column_correction i)).
  rewrite sumOver_minus, sumOver_scale_l.
  rewrite (sumOver_swap
             (fun i r => sumOver (fun j => K j i * psi r j)%Qc (rows r))).
  fold X. rewrite objectPotential_sum.
  set (S := Arr.rdQ (capMatrixSum W) a) in *.
  set (sumK := sumOver (fun i => sumOver (fun j => K j i) (seqZ 0 T)) (seqZ 0 T)) in *.
  set (x := sumOver X rs).
  replace (x * S * sumK - x)%Qc with (x * (S * sumK - 1))%Qc by ring.
  rewrite Hnorm. ring.
Qed.

End Correction.

(** ** Adding the corrections to [rho] *)

Lemma loop_add_length (n : Z -> Z) (c : Z -> Qc) lo hi (v0 : list Qc) :
  length (Arr.for_loop lo hi
            (fun j v => Arr.wr v (n j) (Arr.rdQ v (n j) + c j)%Qc) v0)
  = length v0.
Proof.
  unfold Arr.for_loop. generalize (seqZ lo (hi - lo)) as xs. intros xs.
  revert v0. induction xs as [| x xs IH]; intros v0; simpl; [done |].
  by rewrite IH, length_wr.
Qed.

Lemma loop_add_sum (n : Z -> Z) (c : Z -> Qc) lo hi (v0 : list Qc) :
  (forall j, lo <= j < hi -> 0 <= n j < Z.of_nat (length v0)) ->
  Mpi.sumQ (Arr.for_loop lo hi
              (fun j v => Arr.wr v (n j) (Arr.rdQ v (n j) + c j)%Qc) v0)
  = (Mpi.sumQ v0 + sumOver c (seqZ lo (hi - lo)))%Qc.
Proof.
  intros Hin.
  assert (Hmem : forall j, In j (seqZ lo (hi - lo)) ->
                           0 <= n j < Z.of_nat (length v0)).
  { intros j Hj. apply Hin. apply list_elem_of_In, elem_of_seqZ in Hj. lia. }
  clear Hin. unfold Arr.for_loop. revert Hmem.
  generalize (seqZ lo (hi - lo)) as xs.
  intros xs. revert v0. induction xs as [| x xs IH]; intros v0 Hmem; simpl.
  - rewrite sumOver_nil. ring.
  - rewrite IH.
    + rewrite sumQ_add_at by (apply Hmem; by left). rewrite sumOver_cons. ring.
    + intros j Hj. rewrite length_wr. apply Hmem. by right.
Qed.

Lemma loop_add_frame (n : Z -> Z) (c : Z -> Qc) lo hi (v0 : list Qc) m :
  (forall j, lo <= j < hi -> n j <> m) ->
  Arr.rdQ (Arr.for_loop lo hi
             (fun j v => Arr.wr v (n j) (Arr.rdQ v (n j) + c j)%Qc) v0) m
  = Arr.rdQ v0 m.
Proof.
  intros Hne. destruct (Z.le_gt_cases lo hi) as [Hle | Hgt].
  - apply (for_loop_inv (fun _ v => Arr.rdQ v m = Arr.rdQ v0 m)); [done | done |].
    intros j v Hj Hv. rewrite rdQ_wr, decide_False; [done |].
    intros [H _]. by apply (Hne j).
  - by rewrite for_loop_done by lia.
Qed.

Lemma Forall2_map_step {X : Type} (R : X -> X -> Prop) (h : X -> X) l0 l :
  Forall2 R l0 l ->
  (forall x x', In x l0 -> R x x' -> R x (h x')) ->
  Forall2 R l0 (map h l).
Proof.
  induction 1 as [| x x' l0 l Hx Hl IH]; intros Hstep; simpl.
  - constructor.
  - constructor.
    + apply Hstep; [by left | done].
    + apply IH. intros y y' Hy. apply Hstep. by right.
Qed.

Lemma Forall2_transfer {X : Type} (R : X -> X -> Prop) (P : X -> Prop) l0 l :
  Forall2 R l0 l ->
  (forall x x', R x x' -> P x -> P x') ->
  (forall x, In x l0 -> P x) ->
  forall x', In x' l -> P x'.
Proof.
  induction 1 as [| x x' l0 l Hx Hl IH]; intros Hmove HP y Hy.
  - destruct Hy.
  - destruct Hy as [<- | Hy].
    + apply (Hmove x); [done |]. apply HP. by left.
    + apply IH; [done | | done]. intros z Hz. apply HP. by right.
Qed.

Lemma Forall2_diag {X : Type} (R : X -> X -> Prop) l :
  (forall x, R x x) -> Forall2 R l l.
Proof. intros Hr. induction l; constructor; auto. Qed.

Lemma sameShape_refl r : sameShape r r.
Proof. by repeat split. Qed.

Lemma sameShape_addCorrection W a rc r r' :
  sameShape r r' -> sameShape r (addCorrection W a rc r').
Proof.
  intros (H1 & H2 & H3 & H4 & H5 & H6). unfold sameShape. simpl.
  rewrite loop_add_length. by repeat split.
Qed.

Lemma sameShape_rowsInRange W a r r' :
  sameShape r r' -> rowsInRange W a r -> rowsInRange W a r'.
Proof.
  intros (H1 & H2 & H3 & H4 & H5 & H6) Hin j Hj.
  unfold rowsInRange, surfNode, beginIndex, endIndex in *.
  rewrite H1, H2, H3, H6 in *. by apply Hin.
Qed.

Lemma sameShape_numbered rs0 rs :
  Forall2 sameShape rs0 rs -> map mpiRank rs = map mpiRank rs0.
Proof.
  induction 1 as [| r r' rs0 rs Hr Hrs IH]; simpl; [done |].
  destruct Hr as (-> & _). by rewrite IH.
Qed.

Lemma sameShape_rhoObj rs0 rs :
  Forall2 sameShape rs0 rs -> map rhoObj rs = map rhoObj rs0.
Proof.
  induction 1 as [| r r' rs0 rs Hr Hrs IH]; simpl; [done |].
  destruct Hr as (_ & _ & _ & _ & -> & _). by rewrite IH.
Qed.

Lemma sameShape_phi rs0 rs :
  Forall2 sameShape rs0 rs -> map phi rs = map phi rs0.
Proof.
  induction 1 as [| r r' rs0 rs Hr Hrs IH]; simpl; [done |].
  destruct Hr as (_ & _ & _ & -> & _). by rewrite IH.
Qed.

(** one object changes the total charge by the sum of its corrections *)
Lemma applyObject_total W a rs :
  0 <= mpiSize W -> rowOrdered W a -> ranksNumbered W rs ->
  (forall r, In r rs -> rowsInRange W a r) ->
  totalCharge (applyObject W a rs)
  = (totalCharge rs + Mpi.sumQ (reducedRhoCorr W a rs))%Qc.
Proof.
  intros Hsize Hrow Hnum Hin. unfold totalCharge, applyObject.
  set (rc := reducedRhoCorr W a rs).
  rewrite sumOver_map.
  rewrite (sumOver_ext _
    (fun r => (Mpi.sumQ (rho r)
               + sumOver (Arr.rdQ rc)
                   (seqZ (beginIndex W a r)
                      (endIndex W a r - beginIndex W a r)))%Qc)).
  2:{ intros r Hr. simpl. apply loop_add_sum. by apply Hin. }
  rewrite sumOver_plus. f_equal.
  rewrite (rows_partition W a Hsize Hrow rs Hnum).
  rewrite (sumQ_reads rc). f_equal. f_equal.
  unfold rc, reducedRhoCorr, Mpi.allreduce_sum_vec.
  rewrite length_map, length_seqZ.
  pose proof (T_nonneg W a Hsize Hrow). lia.
Qed.

(** What holds of the corrector with exact arithmetic: for a store in
    which [capMatrixSum[a]] is the inverse of the sum of the matrix
    read for object [a], and for any potential, the corrections
    [rhoCorr] of every object add up to zero over its global surface
    indices, so the call leaves the sum of [rho] over all nodes of all
    ranks as it was; [rhoObj], where the collected charge lives, and
    [phi] are not written.  The store [oComputeCapacitanceMatrix]
    leaves is of this kind for an object whose block no later object
    overwrites ([storeObject_normalised]). *)
Lemma corrector_conserves_normalised_charge (W : World) :
  0 <= mpiSize W ->
  ranksNumbered W (ranks W) ->
  (forall a, 0 <= a < nObjects W ->
     rowOrdered W a /\ sumNormalised W a
     /\ forall r, In r (ranks W) -> rowsInRange W a r) ->
  (forall a rs, 0 <= a < nObjects W -> ranksNumbered W rs ->
     Mpi.sumQ (reducedRhoCorr W a rs) = 0%Qc)
  /\ totalCharge (ranks (oApplyCapacitanceMatrix W)) = totalCharge (ranks W)
  /\ map rhoObj (ranks (oApplyCapacitanceMatrix W)) = map rhoObj (ranks W)
  /\ map phi (ranks (oApplyCapacitanceMatrix W)) = map phi (ranks W).
Proof.
  intros Hsize Hnum Hobj.
  assert (Hzero : forall a rs, 0 <= a < nObjects W -> ranksNumbered W rs ->
                    Mpi.sumQ (reducedRhoCorr W a rs) = 0%Qc).
  { intros a rs Ha Hrs. destruct (Hobj a Ha) as (Hrow & Hnorm & _).
    by apply corrections_cancel. }
  split; [exact Hzero |].
  assert (Hinv : Forall2 sameShape (ranks W) (ranks (oApplyCapacitanceMatrix W))
                 /\ totalCharge (ranks (oApplyCapacitanceMatrix W))
                    = totalCharge (ranks W)).
  { simpl. destruct (Z.le_gt_cases 0 (nObjects W)) as [HN | HN].
    2:{ rewrite for_loop_done by lia. split; [| done].
        apply Forall2_diag, sameShape_refl. }
    apply (for_loop_inv
             (fun _ rs => Forall2 sameShape (ranks W) rs
                          /\ totalCharge rs = totalCharge (ranks W)));
      [done | |].
    - split; [| done]. apply Forall2_diag, sameShape_refl.
    - intros a rs Ha [Hshape Htot].
      destruct (Hobj a Ha) as (Hrow & Hnorm & Hrange).
      assert (Hrs : ranksNumbered W rs).
      { unfold ranksNumbered. by rewrite (sameShape_numbered _ _ Hshape). }
      split.
      + unfold applyObject. apply Forall2_map_step; [done |].
        intros r r' _. apply sameShape_addCorrection.
      + rewrite applyObject_total; try done.
        * rewrite Hzero by done. rewrite Htot. ring.
        * apply (Forall2_transfer sameShape (rowsInRange W a) (ranks W) rs);
            [done | | done].
          intros r r'. apply sameShape_rowsInRange. }
  destruct Hinv as [Hshape Htot].
  split; [exact Htot |]. split.
  - by apply sameShape_rhoObj.
  - by apply sameShape_phi.
Qed.

Lemma correctorWorld_ready :
  0 <= mpiSize correctorWorld
  /\ ranksNumbered correctorWorld (ranks correctorWorld)
  /\ forall a, 0 <= a < nObjects correctorWorld ->
       rowOrdered correctorWorld a /\ sumNormalised correctorWorld a
       /\ (forall r, In r (ranks correctorWorld) -> rowsInRange correctorWorld a r)
       /\ (forall r, In r (ranks correctorWorld) -> rowsMatchBlock correctorWorld a r).
Proof.
  split; [simpl; lia |]. split; [reflexivity |].
  intros a Ha. assert (a = 0) as -> by (simpl in Ha; lia).
  split; [| split; [| split]].
  - split; [reflexivity |]. intros k Hk.
    assert (k = 0 \/ k = 1) as [-> | ->] by (simpl in Hk; lia);
      vm_compute; discriminate.
  - apply Qc_is_canon. reflexivity.
  - intros r [<- | [<- | []]] j Hj.
    + change (0 <= j < 1) in Hj. assert (j = 0) as -> by lia.
      vm_compute. split; [discriminate | reflexivity].
    + change (1 <= j < 2) in Hj. assert (j = 1) as -> by lia.
      vm_compute. split; [discriminate | reflexivity].
  - intros r [<- | [<- | []]]; vm_compute;
      (split; [reflexivity | split; discriminate]).
Qed.

(** ** The frame of the charge corrector *)

Lemma surfNode_in_block W a r j :
  rowsMatchBlock W a r ->
  beginIndex W a r <= j < endIndex W a r ->
  In (surfNode W a r j) (block (lookupSurface r) (lookupSurfaceOffset r) a).
Proof.
  intros (Hwidth & Hlo & Hhi) Hj. unfold surfNode, block.
  apply list_elem_of_In.
  apply (list_elem_of_lookup_2 _ (Z.to_nat (j - beginIndex W a r))).
  rewrite lookup_take_lt, lookup_drop by lia.
  unfold Arr.rdZ in *. rewrite (rd_nth 0 (lookupSurface r)) by lia.
  replace (Z.to_nat (Arr.rd 0 (lookupSurfaceOffset r) a + j - beginIndex W a r))
    with (Z.to_nat (Arr.rd 0%Z (lookupSurfaceOffset r) a)
          + Z.to_nat (j - beginIndex W a r))%nat by lia.
  destruct (nth_lookup_or_length (lookupSurface r)
              (Z.to_nat (Arr.rd 0 (lookupSurfaceOffset r) a)
               + Z.to_nat (j - beginIndex W a r)) 0) as [-> | Hge]; [done |].
  lia.
Qed.

Lemma sameShape_rowsMatchBlock W a r r' :
  sameShape r r' -> rowsMatchBlock W a r -> rowsMatchBlock W a r'.
Proof.
  intros (H1 & H2 & H3 & _) Hm.
  unfold rowsMatchBlock, beginIndex, endIndex in *.
  rewrite H1, H2, H3. exact Hm.
Qed.

Lemma framed_refl nObj r : framed nObj r r.
Proof. split; [apply sameShape_refl | done]. Qed.

Lemma framed_addCorrection W a rc r r' :
  0 <= a < nObjects W ->
  rowsMatchBlock W a r ->
  framed (nObjects W) r r' ->
  framed (nObjects W) r (addCorrection W a rc r').
Proof.
  intros Ha Hmatch [Hshape Hframe]. split.
  - by apply sameShape_addCorrection.
  - intros m Hm. simpl. rewrite loop_add_frame; [by apply Hframe |].
    intros j Hj Heq. apply (Hm a Ha).
    pose proof (sameShape_rowsMatchBlock W a r r' Hshape Hmatch) as Hmatch'.
    pose proof (surfNode_in_block W a r' j Hmatch' Hj) as Hin.
    destruct Hshape as (_ & H2 & H3 & _). rewrite H2, H3 in Hin.
    by rewrite <- Heq.
Qed.

(** C10.  When the rows a rank holds of every object are as many as the
    entries of its surface block, the call leaves [phi] (and the lookup
    tables, [rhoObj] and the length of [rho]) of every rank as they
    were, and changes no entry of [rho] other than the nodes listed in
    the surface blocks of that rank; the replicated data is the
    same. *)
Theorem C10_corrector_writes_surface_nodes_only (W : World) :
  (forall a r, 0 <= a < nObjects W -> In r (ranks W) -> rowsMatchBlock W a r) ->
  Forall2 (framed (nObjects W)) (ranks W) (ranks (oApplyCapacitanceMatrix W))
  /\ map phi (ranks (oApplyCapacitanceMatrix W)) = map phi (ranks W)
  /\ capMatrixAll (oApplyCapacitanceMatrix W) = capMatrixAll W
  /\ capMatrixSum (oApplyCapacitanceMatrix W) = capMatrixSum W
  /\ capMatrixAllOffsets (oApplyCapacitanceMatrix W) = capMatrixAllOffsets W.
Proof.
  intros Hmatch.
  assert (Hinv : Forall2 (framed (nObjects W)) (ranks W)
                   (ranks (oApplyCapacitanceMatrix W))).
  { simpl. destruct (Z.le_gt_cases 0 (nObjects W)) as [HN | HN].
    2:{ rewrite for_loop_done by lia. apply Forall2_diag, framed_refl. }
    apply (for_loop_inv
             (fun _ rs => Forall2 (framed (nObjects W)) (ranks W) rs));
      [done | |].
    - apply Forall2_diag, framed_refl.
    - intros a rs Ha Hrs. unfold applyObject.
      apply Forall2_map_step; [done |].
      intros r r' Hr. apply framed_addCorrection; [done |]. by apply Hmatch. }
  split; [exact Hinv |]. split; [| done].
  apply sameShape_phi.
  clear Hmatch. induction Hinv as [| r r' l l' [Hs _] _ IH]; by constructor.
Qed.

(** C10 on the same two ranks: each rank keeps everything but [rho] at
    its surface nodes. *)
Lemma C10_witness :
  Forall2 (framed (nObjects correctorWorld)) (ranks correctorWorld)
    (ranks (oApplyCapacitanceMatrix correctorWorld)).
Proof.
  destruct correctorWorld_ready as (_ & _ & Hobj).
  refine (proj1 (C10_corrector_writes_surface_nodes_only correctorWorld _)).
  intros a r Ha Hr. destruct (Hobj a Ha) as (_ & _ & _ & H4). auto.
Defined.

(** ** One ghost layer

    On the grids the driver builds by default, with one ghost layer on
    every side, [isGhostNode] and the ghost band agree: both single out
    the nodes with a coordinate outside the true points. *)

Lemma rem_linear a q m : 0 <= a < m -> 0 <= q -> Z.rem (a + q * m) m = a.
Proof.
  intros Ha Hq. rewrite Z.rem_mod_nonneg by nia.
  rewrite Z.mod_add by lia. apply Z.mod_small. lia.
Qed.

Lemma div_linear a q m : 0 <= a < m -> (a + q * m) / m = q.
Proof.
  intros Ha. rewrite Z.div_add by lia. rewrite Z.div_small by lia. lia.
Qed.

Lemma mod_linear a q m : 0 <= a < m -> (a + q * m) mod m = a.
Proof.
  intros Ha. rewrite Z.mod_add by lia. apply Z.mod_small. lia.
Qed.

Lemma oGhost_stop g d node before after ghost :
  Arr.rdZ (sizeProd g) (Z.of_nat d) = 1 ->
  oGhost g d node before after ghost
  = if (node >? Arr.rdZ (trueSize g) (Z.of_nat d)) || (node <? 1)
    then true else ghost.
Proof. intros H. destruct d; simpl; rewrite H; reflexivity. Qed.

Lemma oGhost_down g d node before after ghost :
  Arr.rdZ (sizeProd g) (Z.of_nat (S d)) <> 1 ->
  oGhost g (S d) node before after ghost
  = oGhost g d (Z.rem node (Arr.rdZ (sizeProd g) (Z.of_nat (S d))))
      (before - 1) (after - 1)
      (if (node <? Arr.rdZ (sizeProd g) (Z.of_nat (S d)))
          || (node >? Arr.rdZ (sizeProd g) (Z.of_nat (S d))
                      * (Arr.rdZ (trueSize g) (Z.of_nat (S d)) + 1))
       then true else ghost).
Proof.
  intros H. cbn [oGhost].
  destruct (Z.eqb_spec (Arr.rdZ (sizeProd g) (Z.of_nat (S d))) 1); [done |].
  reflexivity.
Qed.

Section OneLayer.

Variables (v : list Qc) (nx ny nz i j k : Z).
Hypothesis Hnx : 1 <= nx.
Hypothesis Hny : 1 <= ny.
Hypothesis Hnz : 1 <= nz.
Hypothesis Hi : 0 <= i < nx + 2.
Hypothesis Hj : 0 <= j < ny + 2.
Hypothesis Hk : 0 <= k < nz + 2.

Let g : Grid := scalarGrid v nx ny nz 1.

Lemma node_of_one_layer :
  node_of g i j k = (i + j * (nx + 2)) + k * ((nx + 2) * (ny + 2)).
Proof. unfold node_of, g, scalarGrid. simpl. unfold Arr.rdZ, Arr.rd. simpl. lia. Qed.

Lemma one_layer_arrays :
  Arr.rdZ (sizeProd g) 1 = 1
  /\ Arr.rdZ (sizeProd g) 2 = nx + 2
  /\ Arr.rdZ (sizeProd g) 3 = (nx + 2) * (ny + 2)
  /\ Arr.rdZ (trueSize g) 1 = nx
  /\ Arr.rdZ (trueSize g) 2 = ny
  /\ Arr.rdZ (trueSize g) 3 = nz.
Proof. unfold g, scalarGrid, Arr.rdZ, Arr.rd. simpl. repeat split; lia. Qed.

Lemma isGhostNode_one_layer :
  isGhostNode g (node_of g i j k) = offTruePoints nx ny nz i j k.
Proof.
  rewrite node_of_one_layer.
  destruct one_layer_arrays as (S1 & S2 & S3 & T1 & T2 & T3).
  unfold isGhostNode. change (rank g) with 4.
  change (Z.to_nat (4 - 1)) with 3%nat.
  assert (Ha : 0 <= i + j * (nx + 2) < (nx + 2) * (ny + 2)) by nia.
  rewrite oGhost_down by (change (Z.of_nat 3) with 3; rewrite S3; nia).
  change (Z.of_nat 3) with 3. rewrite S3, T3.
  rewrite rem_linear by lia.
  rewrite oGhost_down by (change (Z.of_nat 2) with 2; rewrite S2; lia).
  change (Z.of_nat 2) with 2. rewrite S2, T2.
  rewrite rem_linear by lia.
  rewrite oGhost_stop by (change (Z.of_nat 1) with 1; exact S1).
  change (Z.of_nat 1) with 1. rewrite T1.
  unfold offTruePoints.
  remember ((nx + 2) * (ny + 2)) as M eqn:HM.
  assert (HMpos : 0 < M) by nia.
  assert (Hif : forall c x : bool, (if c then true else x) = c || x)
    by (intros [] []; reflexivity).
  rewrite !Hif, orb_false_r. apply eq_iff_eq_true.
  rewrite !orb_true_iff, !Z.ltb_lt, !Z.gtb_gt.
  remember (nx + 2) as sx eqn:Hsx.
  assert (Fj1 : 1 <= j -> sx <= j * sx) by nia.
  assert (Fj2 : j <= ny -> j * sx <= ny * sx) by nia.
  assert (Fj3 : ny + 1 <= j -> (ny + 1) * sx <= j * sx) by nia.
  assert (Fk1 : 1 <= k -> M <= k * M) by nia.
  assert (Fk2 : k <= nz -> k * M <= nz * M) by nia.
  assert (Fk3 : nz + 1 <= k -> (nz + 1) * M <= k * M) by nia.
  assert (Fj0 : j < 1 -> j * sx = 0) by nia.
  assert (Fk0 : k < 1 -> k * M = 0) by nia.
  clear HM. lia.
Qed.

Lemma one_layer_band_arrays :
  Arr.rdZ (sizeProd g) 0 = 1
  /\ (Arr.rdZ (size g) 0 = 1 /\ Arr.rdZ (size g) 1 = nx + 2
      /\ Arr.rdZ (size g) 2 = ny + 2 /\ Arr.rdZ (size g) 3 = nz + 2)
  /\ (Arr.rdZ (nGhostLayers g) 0 = 0 /\ Arr.rdZ (nGhostLayers g) 1 = 1
      /\ Arr.rdZ (nGhostLayers g) 2 = 1 /\ Arr.rdZ (nGhostLayers g) 3 = 1)
  /\ (Arr.rdZ (nGhostLayers g) 4 = 0 /\ Arr.rdZ (nGhostLayers g) 5 = 1
      /\ Arr.rdZ (nGhostLayers g) 6 = 1 /\ Arr.rdZ (nGhostLayers g) 7 = 1).
Proof. unfold g, scalarGrid, Arr.rdZ, Arr.rd. simpl. repeat split; lia. Qed.

Lemma coordinates_one_layer :
  let node := node_of g i j k in
  coordinate g node 0 = 0 /\ coordinate g node 1 = i
  /\ coordinate g node 2 = j /\ coordinate g node 3 = k.
Proof.
  intros node. unfold node. rewrite node_of_one_layer.
  destruct one_layer_arrays as (S1 & S2 & S3 & _).
  destruct one_layer_band_arrays as (S0 & (Z0 & Z1 & Z2 & Z3) & _).
  assert (Ha : 0 <= i + j * (nx + 2) < (nx + 2) * (ny + 2)) by nia.
  unfold coordinate. rewrite S0, S1, S2, S3, Z0, Z1, Z2, Z3.
  rewrite !Z.div_1_r, Z.mod_1_r.
  split; [reflexivity |]. split; [| split].
  - replace (i + j * (nx + 2) + k * ((nx + 2) * (ny + 2)))
      with (i + (j + k * (ny + 2)) * (nx + 2)) by lia.
    apply mod_linear. lia.
  - replace (i + j * (nx + 2) + k * ((nx + 2) * (ny + 2)))
      with (i + (j + k * (ny + 2)) * (nx + 2)) by lia.
    rewrite div_linear by lia. apply mod_linear. lia.
  - rewrite div_linear by lia. apply Z.mod_small. lia.
Qed.

Lemma inGhostBand_one_layer :
  inGhostBand g (node_of g i j k) = offTruePoints nx ny nz i j k.
Proof.
  destruct coordinates_one_layer as (C0 & C1 & C2 & C3).
  destruct one_layer_band_arrays
    as (_ & (Z0 & Z1 & Z2 & Z3) & (L0 & L1 & L2 & L3) & (U0 & U1 & U2 & U3)).
  unfold inGhostBand. change (rank g) with 4.
  change (seqZ 0 4) with [0; 1; 2; 3]. cbn [existsb].
  unfold inGhostBand_axis. change (rank g) with 4.
  change (4 + 0) with 4. change (4 + 1) with 5.
  change (4 + 2) with 6. change (4 + 3) with 7.
  rewrite C0, C1, C2, C3, Z0, Z1, Z2, Z3, L0, L1, L2, L3, U0, U1, U2, U3.
  unfold offTruePoints. apply eq_iff_eq_true.
  rewrite !orb_true_iff, !Z.ltb_lt, !Z.leb_le.
  assert (Hno : false = true <-> False) by (split; [discriminate | tauto]).
  rewrite Hno. lia.
Qed.

(** with one ghost layer per side the two notions agree on every node
    of the grid *)
Lemma isGhostNode_is_inGhostBand_one_layer :
  isGhostNode g (node_of g i j k) = inGhostBand g (node_of g i j k).
Proof. by rewrite isGhostNode_one_layer, inGhostBand_one_layer. Qed.

End OneLayer.

(** ** The object count bounds every tag *)

Lemma Dbl_toInt_upper (n : Z) (y : Qc) :
  (0 <= y)%Qc -> (y < Dbl.ofZ n + 1)%Qc -> Dbl.toInt y <= n.
Proof.
  unfold Qcle, Qclt, Dbl.toInt, Dbl.ofZ. intros H0 H1.
  change (this (Q2Qc (inject_Z n) + 1)%Qc)
    with (Qred (Qred (inject_Z n) + Qred 1)) in H1.
  rewrite !Qred_correct in H1.
  unfold Qle in H0. unfold Qlt in H1. simpl in H0, H1.
  assert (Qnum y ÷ Z.pos (Qden y) < n + 1); [| lia].
  apply Z.quot_lt_upper_bound; lia.
Qed.

Lemma localObjectCount_covers g i :
  0 <= i < nNodes g -> isObjectNode g i = true ->
  tagOf g i <= localObjectCount g.
Proof.
  intros Hi Hobj. unfold localObjectCount.
  pose (P := fun (n nObj : Z) =>
    0 <= nObj
    /\ forall k, 0 <= k < n -> isObjectNode g k = true -> tagOf g k <= nObj).
  assert (HP : P (nNodes g)
    (Arr.for_loop 0 (nNodes g)
       (fun i nObj =>
          if Dbl.gtb (Arr.rdQ (val g) i) (Dbl.ofZ nObj)
          then Dbl.toInt (Arr.rdQ (val g) i + Dbl.half)%Qc else nObj) 0)).
  { apply for_loop_inv; [lia | |].
    - split; [lia |]. intros k Hk. lia.
    - intros n nObj Hn [Hpos Hcov]. unfold P.
      destruct (Dbl.gtb (Arr.rdQ (val g) n) (Dbl.ofZ nObj)) eqn:E.
      + unfold Dbl.gtb in E. apply Dbl_ltb_lt in E.
        assert (Hup : nObj <= Dbl.toInt (Arr.rdQ (val g) n + Dbl.half)%Qc).
        { apply Dbl_toInt_lower; [| done].
          rewrite <- (Qcplus_0_r (Dbl.ofZ nObj)).
          apply Qcplus_le_compat; [by apply Qclt_le_weak |].
          apply Qclt_le_weak, Dbl_half_pos. }
        split; [lia |]. intros k Hk Hk'.
        destruct (decide (k = n)) as [-> | Hne]; [done |].
        specialize (Hcov k ltac:(lia) Hk'). lia.
      + split; [done |]. intros k Hk Hk'.
        destruct (decide (k = n)) as [-> | Hne]; [| apply Hcov; [lia | done]].
        assert (Hle : (Arr.rdQ (val g) n <= Dbl.ofZ nObj)%Qc).
        { apply Qcnot_lt_le. intros Hlt. apply Dbl_ltb_lt in Hlt.
          unfold Dbl.gtb in E. congruence. }
        unfold isObjectNode, Dbl.gtb in Hk'. apply Dbl_ltb_lt in Hk'.
        unfold tagOf. apply Dbl_toInt_upper.
        * replace 0%Qc with (0 + 0)%Qc by ring.
          apply Qcplus_le_compat.
          -- apply Qclt_le_weak. eapply Qclt_trans; [apply Dbl_half_pos | done].
          -- apply Qclt_le_weak, Dbl_half_pos.
        * eapply Qcle_lt_trans.
          -- apply Qcplus_le_mono_r. exact Hle.
          -- apply Qcplus_lt_mono_l. reflexivity. }
  by apply HP.
Qed.

Lemma tagsWithin_mono g n m :
  n <= m -> tagsWithin g n = true -> tagsWithin g m = true.
Proof.
  intros Hnm. unfold tagsWithin. rewrite !forallb_forall. intros H i Hi.
  specialize (H i Hi). destruct (isObjectNode g i); [| done]. simpl in *.
  apply Z.leb_le in H. apply Z.leb_le. lia.
Qed.

Lemma tagsWithin_localObjectCount g : tagsWithin g (localObjectCount g) = true.
Proof.
  unfold tagsWithin. apply forallb_forall. intros i Hi.
  apply list_elem_of_In, elem_of_seqZ in Hi.
  destruct (isObjectNode g i) eqn:E; [| done]. simpl.
  apply Z.leb_le, localObjectCount_covers; [lia | done].
Qed.

Lemma withTables_domain nObj r : domain (withTables nObj r) = domain r.
Proof.
  unfold withTables.
  destruct (oFillLookupTables (domain r) nObj),
           (oFindObjectSurfaceNodes (domain r) nObj). done.
Qed.

(** no rank of a world built by [oAlloc] has a tag above the object
    count *)
Lemma oAlloc_tagsWithin size rs W :
  oAlloc size rs = Returned W ->
  Forall (fun r => tagsWithin (domain r) (nObjects W) = true) (ranks W).
Proof.
  unfold oAlloc.
  destruct (oGatherSurfaceNodes size _ _) as [glob total].
  intros [= <-]. simpl. apply Forall_forall. intros r' Hr'.
  apply list_elem_of_In, in_map_iff in Hr' as (r & <- & Hr).
  rewrite withTables_domain.
  apply (tagsWithin_mono _ (localObjectCount (domain r)));
    [| apply tagsWithin_localObjectCount].
  apply allreduce_max_upper, in_map_iff. by exists r.
Qed.

(** ** What [oGatherSurfaceNodes] records *)

Lemma shiftUp_spec (n : nat) : forall (l : list Z),
  Z.of_nat n + 1 <= Z.of_nat (length l) ->
  let l' := shiftUp (Z.of_nat n) l in
  length l' = length l
  /\ (forall i, 0 <= i < Z.of_nat n -> Arr.rdZ l' (i + 1) = Arr.rdZ l i)
  /\ (forall i, Z.of_nat n < i -> Arr.rdZ l' i = Arr.rdZ l i)
  /\ Arr.rdZ l' 0 = Arr.rdZ l 0.
Proof.
  unfold shiftUp. induction n as [| n IH]; intros l Hlen.
  - simpl. repeat split; try done. intros i Hi. lia.
  - rewrite seqZ_S, rev_app_distr. simpl rev. cbn [app fold_left].
    rewrite Z.add_0_l.
    destruct (IH (Arr.wr l (Z.of_nat n + 1) (Arr.rdZ l (Z.of_nat n))))
      as (Hl & Hlow & Hhigh & Hzero).
    { rewrite length_wr. lia. }
    rewrite length_wr in Hl. split; [done |]. split; [| split].
    + intros i Hi. destruct (decide (i = Z.of_nat n)) as [-> | Hne].
      * rewrite Hhigh by lia. rewrite rdZ_wr, decide_True; [done | lia].
      * rewrite Hlow by lia. rewrite rdZ_wr, decide_False; [done | lia].
    + intros i Hi. rewrite Hhigh by lia.
      rewrite rdZ_wr, decide_False; [done | lia].
    + rewrite Hzero, rdZ_wr, decide_False; [done | lia].
Qed.

(** the general form of [alCumSum]: entry [k] becomes the sum of the
    entries [1 .. k] *)
Lemma alCumSum_spec (res : list Z) n :
  0 <= n -> Z.of_nat (length res) = n + 1 ->
  let res' := alCumSum res n in
  Z.of_nat (length res') = n + 1
  /\ forall k, 0 <= k <= n ->
       Arr.rdZ res' k = fold_right Z.add 0 (map (Arr.rdZ res) (seqZ 1 k)).
Proof.
  intros Hn Hlen. unfold alCumSum.
  pose (P := fun (p : Z) (r : list Z) =>
    Z.of_nat (length r) = n + 1
    /\ (forall k, 0 <= k <= p ->
          Arr.rdZ r k = fold_right Z.add 0 (map (Arr.rdZ res) (seqZ 1 k)))
    /\ (forall k, p < k <= n -> Arr.rdZ r k = Arr.rdZ res k)).
  assert (HP : P n (Arr.for_loop 0 n
                      (fun p r => Arr.wr r (p + 1)
                                    (Arr.rdZ r p + Arr.rdZ r (p + 1)))
                      (Arr.wr res 0 0))).
  { apply for_loop_inv; [lia | |].
    - unfold P. rewrite length_wr. split; [done |]. split.
      + intros k Hk. assert (k = 0) as -> by lia.
        rewrite rdZ_wr, decide_True by lia. done.
      + intros k Hk. rewrite rdZ_wr, decide_False by lia. done.
    - intros p r Hp (Hl & Hlo & Hhi). unfold P.
      rewrite length_wr. split; [done |]. split.
      + intros k Hk. rewrite rdZ_wr. case_decide as Hd.
        * destruct Hd as [<- _]. rewrite Hlo, Hhi by lia.
          replace (p + 1) with (Z.of_nat (S (Z.to_nat p))) at 2 by lia.
          rewrite seqZ_S, map_app. simpl map.
          assert (Happ : forall l1 l2, fold_right Z.add 0 (l1 ++ l2)
                    = fold_right Z.add 0 l1 + fold_right Z.add 0 l2).
          { induction l1 as [| y l1 IH1]; intros l2; simpl; [done |].
            rewrite IH1. lia. }
          rewrite Happ. simpl. rewrite Z2Nat.id by lia.
          replace (1 + p) with (p + 1) by lia. lia.
        * apply Hlo. lia.
      + intros k Hk. rewrite rdZ_wr, decide_False by lia. apply Hhi. lia. }
  destruct HP as (Hl & Hlo & _). split; [done |]. exact Hlo.
Qed.

Lemma rd_loop_copy {A : Type} (d : A) (c : Z) (v : Z -> A) n (g0 : list A) :
  0 <= n ->
  let g := Arr.for_loop 0 n (fun b g => Arr.wr g (c + b) (v b)) g0 in
  length g = length g0
  /\ forall m, Arr.rd d g m
       = if decide (c <= m < c + n /\ 0 <= m < Z.of_nat (length g0))
         then v (m - c) else Arr.rd d g0 m.
Proof.
  intros Hn.
  pose (P := fun (p : Z) (g : list A) =>
    length g = length g0
    /\ forall m, Arr.rd d g m
         = if decide (c <= m < c + p /\ 0 <= m < Z.of_nat (length g0))
           then v (m - c) else Arr.rd d g0 m).
  apply (for_loop_inv P); [done | |].
  - split; [done |]. intros m. rewrite decide_False; [done | lia].
  - intros p g Hp [Hl Hrd]. unfold P. rewrite length_wr. split; [done |].
    intros m. rewrite rd_wr, Hl, Hrd.
    repeat case_decide; try done; try (exfalso; lia).
    f_equal. lia.
Qed.

Lemma rdZ_loop_copy (c : Z) (v : Z -> Z) n (g0 : list Z) :
  0 <= n ->
  let g := Arr.for_loop 0 n (fun b g => Arr.wr g (c + b) (v b)) g0 in
  length g = length g0
  /\ forall m, Arr.rdZ g m
       = if decide (c <= m < c + n /\ 0 <= m < Z.of_nat (length g0))
         then v (m - c) else Arr.rdZ g0 m.
Proof. apply rd_loop_copy. Qed.

Lemma fold_add_app (l1 l2 : list Z) :
  fold_right Z.add 0 (l1 ++ l2) = fold_right Z.add 0 l1 + fold_right Z.add 0 l2.
Proof. induction l1 as [| y l1 IH]; simpl; [done |]. rewrite IH. lia. Qed.

Lemma nodesBefore_zero rs a : nodesBefore rs a 0 = 0.
Proof. reflexivity. Qed.

Lemma nodesBefore_succ rs a (k : nat) r :
  rs !! k = Some r ->
  nodesBefore rs a (Z.of_nat k + 1)
  = nodesBefore rs a (Z.of_nat k) + nodesThisCore a r.
Proof.
  intros Hr. unfold nodesBefore.
  replace (Z.to_nat (Z.of_nat k + 1)) with (S k) by lia. rewrite Nat2Z.id.
  rewrite (take_S_r _ _ _ Hr), map_app, fold_add_app. simpl. lia.
Qed.

Section Gather.

Variables (size : Z) (rs : list Rank).
Hypothesis Hsize : 0 <= size.
Hypothesis Hranks : Z.of_nat (length rs) = size.

Lemma gathered_counts a (loc : list Z) k :
  Z.of_nat (length loc) = size + 1 ->
  0 <= k <= size ->
  let loc2 := Arr.wr (shiftUp size (allgather (map (nodesThisCore a) rs) loc)) 0 0 in
  Z.of_nat (length loc2) = size + 1
  /\ map (Arr.rdZ loc2) (seqZ 1 k) = map (nodesThisCore a) (take (Z.to_nat k) rs).
Proof.
  intros Hloc Hk.
  set (loc1 := allgather (map (nodesThisCore a) rs) loc). intros loc2.
  assert (Hl1 : Z.of_nat (length loc1) = size + 1).
  { unfold loc1, allgather. rewrite length_app, length_drop, !length_map. lia. }
  assert (Hr1 : forall i : nat, Z.of_nat i < size ->
            Some (Arr.rdZ loc1 (Z.of_nat i)) = nodesThisCore a <$> rs !! i).
  { intros i Hi. unfold Arr.rdZ. rewrite rd_nth, Nat2Z.id by lia.
    unfold loc1, allgather. rewrite app_nth1 by (rewrite length_map; lia).
    rewrite nth_lookup, list_lookup_fmap.
    destruct (rs !! i) eqn:E; [done |].
    apply lookup_ge_None in E. lia. }
  destruct (shiftUp_spec (Z.to_nat size) loc1) as (Hl & Hlow & _ & _).
  { lia. }
  rewrite Z2Nat.id in Hl, Hlow by lia.
  split.
  - unfold loc2. rewrite length_wr, Hl. exact Hl1.
  - apply list_eq. intros i. rewrite !list_lookup_fmap.
    destruct (decide (Z.of_nat i < k)) as [Hi | Hi].
    + rewrite lookup_seqZ_lt by done. simpl.
      rewrite lookup_take_lt by lia.
      unfold loc2. rewrite rdZ_wr, decide_False by lia.
      replace (1 + Z.of_nat i) with (Z.of_nat i + 1) by lia.
      rewrite Hlow by lia. apply Hr1. lia.
    + rewrite lookup_seqZ_ge by lia. rewrite lookup_take_ge by lia. done.
Qed.

Lemma gatherObject_spec a (loc glob : list Z) :
  Z.of_nat (length loc) = size + 1 ->
  0 <= a -> a * (size + 1) + size < Z.of_nat (length glob) ->
  let st := gatherObject size rs a (loc, glob) in
  Z.of_nat (length (fst st)) = size + 1
  /\ length (snd st) = length glob
  /\ (forall b, 0 <= b <= size ->
        Arr.rdZ (snd st) (a * (size + 1) + b) = nodesBefore rs a b)
  /\ (forall m, ~ (a * (size + 1) <= m <= a * (size + 1) + size) ->
        Arr.rdZ (snd st) m = Arr.rdZ glob m).
Proof.
  intros Hloc Ha Hglob. unfold gatherObject.
  set (loc2 := Arr.wr (shiftUp size (allgather (map (nodesThisCore a) rs) loc)) 0 0).
  destruct (gathered_counts a loc 0 Hloc ltac:(lia)) as [Hl2 _].
  fold loc2 in Hl2.
  destruct (alCumSum_spec loc2 size Hsize Hl2) as [Hl3 Hr3].
  destruct (rdZ_loop_copy (a * (size + 1))
              (Arr.rdZ (alCumSum loc2 size)) (size + 1) glob ltac:(lia))
    as [Hlg Hrg].
  cbn [fst snd]. split; [done |]. split; [done |]. split.
  - intros b Hb. rewrite Hrg, decide_True by nia.
    replace (a * (size + 1) + b - a * (size + 1)) with b by lia.
    rewrite Hr3 by lia. unfold nodesBefore.
    destruct (gathered_counts a loc b Hloc Hb) as [_ Hmap].
    fold loc2 in Hmap. by rewrite Hmap.
  - intros m Hm. rewrite Hrg, decide_False; [done | lia].
Qed.

Lemma oGatherSurfaceNodes_spec nObj a b :
  0 <= a < nObj -> 0 <= b <= size ->
  Arr.rdZ (fst (oGatherSurfaceNodes size nObj rs)) (a * (size + 1) + b)
  = nodesBefore rs a b.
Proof.
  intros Ha Hb. unfold oGatherSurfaceNodes. cbn [fst].
  pose (P := fun (n : Z) (st : list Z * list Z) =>
    Z.of_nat (length (fst st)) = size + 1
    /\ Z.of_nat (length (snd st)) = nObj * (size + 1)
    /\ forall a' b', 0 <= a' < n -> 0 <= b' <= size ->
         Arr.rdZ (snd st) (a' * (size + 1) + b') = nodesBefore rs a' b').
  assert (HP : P nObj (Arr.for_loop 0 nObj (gatherObject size rs)
                         (Arr.alloc (size + 1) 0, Arr.alloc (nObj * (size + 1)) 0))).
  { apply for_loop_inv; [lia | |].
    - unfold P. cbn [fst snd]. rewrite !length_alloc.
      split; [lia |]. split; [nia |]. intros a' b' Ha'. lia.
    - intros n [loc glob] Hn (Hl & Hg & Hrows). cbn [fst snd] in *.
      destruct (gatherObject_spec n loc glob Hl ltac:(lia) ltac:(nia))
        as (Hl' & Hg' & Hrow & Hother).
      unfold P. split; [done |]. split; [by rewrite Hg' |].
      intros a' b' Ha' Hb'. destruct (decide (a' = n)) as [-> | Hne].
      + by apply Hrow.
      + rewrite Hother by nia. apply Hrows; lia. }
  destruct HP as (_ & _ & Hrows). by apply Hrows.
Qed.

End Gather.

Lemma withTables_surface nObj r :
  mpiRank (withTables nObj r) = mpiRank r
  /\ lookupSurface (withTables nObj r) = fst (oFindObjectSurfaceNodes (domain r) nObj)
  /\ lookupSurfaceOffset (withTables nObj r)
     = snd (oFindObjectSurfaceNodes (domain r) nObj).
Proof.
  unfold withTables.
  destruct (oFillLookupTables (domain r) nObj),
           (oFindObjectSurfaceNodes (domain r) nObj). done.
Qed.

(** the surface offsets of a rank with tables are ordered and end at
    the length of the table *)
Lemma withTables_offsets nObj r a :
  0 <= a < nObj ->
  0 <= Arr.rdZ (lookupSurfaceOffset (withTables nObj r)) a
  /\ 0 <= nodesThisCore a (withTables nObj r)
  /\ Arr.rdZ (lookupSurfaceOffset (withTables nObj r)) (a + 1)
     <= Z.of_nat (length (lookupSurface (withTables nObj r))).
Proof.
  intros Ha. destruct (withTables_surface nObj r) as (_ & Hls & Hlso).
  unfold nodesThisCore. rewrite Hls, Hlso.
  destruct (surfaceOffsets_spec (domain r) nObj ltac:(lia)) as [_ Hoff].
  rewrite surface_length by lia. rewrite !Hoff by lia.
  pose proof (cntLt_mono (surfaceEntries (domain r) nObj) a (a + 1)).
  pose proof (cntLt_mono (surfaceEntries (domain r) nObj) (a + 1) nObj).
  unfold cntLt in *. lia.
Qed.

Lemma numbered_lookup (rs : list Rank) size r :
  map mpiRank rs = seqZ 0 size -> In r rs ->
  0 <= mpiRank r < size /\ rs !! Z.to_nat (mpiRank r) = Some r.
Proof.
  intros Hnum Hr. apply list_elem_of_In, list_elem_of_lookup_1 in Hr as [k Hk].
  assert (Hm : map mpiRank rs !! k = Some (mpiRank r)).
  { change (map mpiRank rs) with (mpiRank <$> rs).
    by rewrite list_lookup_fmap, Hk. }
  rewrite Hnum in Hm. apply lookup_seqZ in Hm as [Hm Hlt].
  rewrite Hm. split; [lia |]. by rewrite Z.add_0_l, Nat2Z.id.
Qed.

(** A world built by [oAlloc] on ranks numbered [0 .. size-1] has what
    the charge corrector relies on: numbered ranks, rows of running
    totals, and on every rank as many rows as its surface block has
    entries. *)
Lemma oAlloc_rows size rs W :
  0 <= size -> map mpiRank rs = seqZ 0 size ->
  oAlloc size rs = Returned W ->
  mpiSize W = size
  /\ ranksNumbered W (ranks W)
  /\ forall a, 0 <= a < nObjects W ->
       rowOrdered W a
       /\ forall r, In r (ranks W) -> rowsMatchBlock W a r.
Proof.
  intros Hsize Hnum. unfold oAlloc.
  set (nObj := Mpi.allreduce_max _).
  set (rs' := map (withTables nObj) rs).
  assert (Hnum' : map mpiRank rs' = seqZ 0 size).
  { unfold rs'. rewrite map_map, <- Hnum. apply map_ext. intros r.
    apply withTables_surface. }
  assert (Hlen : Z.of_nat (length rs') = size).
  { apply (f_equal (@length Z)) in Hnum'.
    rewrite length_map, length_seqZ in Hnum'. lia. }
  pose proof (oGatherSurfaceNodes_spec size rs' Hsize Hlen nObj) as Hspec.
  destruct (oGatherSurfaceNodes size nObj rs') as [glob total].
  intros [= <-]. cbn [mpiSize nObjects ranks capMatrixAllOffsets].
  cbn [fst] in Hspec.
  split; [done |]. split; [exact Hnum' |].
  intros a Ha.
  assert (Hstep : forall k r, 0 <= k < size -> rs' !! Z.to_nat k = Some r ->
            Arr.rdZ glob (a * (size + 1) + k + 1)
            = Arr.rdZ glob (a * (size + 1) + k) + nodesThisCore a r).
  { intros k r Hk Hr.
    replace (a * (size + 1) + k + 1) with (a * (size + 1) + (k + 1)) by lia.
    rewrite !Hspec by lia.
    rewrite <- (Z2Nat.id k) at 1 2 by lia.
    by apply nodesBefore_succ. }
  assert (Hpos : forall r, In r rs' ->
            0 <= Arr.rdZ (lookupSurfaceOffset r) a
            /\ 0 <= nodesThisCore a r
            /\ Arr.rdZ (lookupSurfaceOffset r) (a + 1)
               <= Z.of_nat (length (lookupSurface r))).
  { intros r Hr. apply in_map_iff in Hr as (r0 & <- & _).
    by apply withTables_offsets. }
  split.
  - split.
    + unfold rowOrdered. cbn [mpiSize capMatrixAllOffsets].
      rewrite <- (Z.add_0_r (a * (size + 1))), Hspec by lia. done.
    + cbn [mpiSize capMatrixAllOffsets]. intros k Hk.
      destruct (lookup_lt_is_Some_2 rs' (Z.to_nat k) ltac:(lia)) as [r Hr].
      rewrite (Hstep k r Hk Hr).
      assert (In r rs') by (by eapply list_elem_of_In, list_elem_of_lookup_2).
      destruct (Hpos r) as (_ & H0 & _); [done | lia].
  - intros r Hr. destruct (numbered_lookup rs' size r Hnum' Hr) as [Hk Hlook].
    destruct (Hpos r Hr) as (H1 & H2 & H3).
    unfold rowsMatchBlock, beginIndex, endIndex.
    cbn [mpiSize capMatrixAllOffsets].
    rewrite (Hstep (mpiRank r) r Hk Hlook). unfold nodesThisCore in *.
    repeat split; lia.
Qed.

(** ** Where the normalisation of the store comes from *)

(** With exact arithmetic, the end of the loop body of
    [oComputeCapacitanceMatrix] leaves the object it has just stored
    normalised, when its block lies inside the store and the entries of
    the inverse do not add up to zero. *)
Lemma storeObject_normalised W a inv :
  let T := totSNGlob W a in
  0 <= a < Z.of_nat (length (capMatrixSum W)) ->
  0 <= T ->
  capStoreIndex T a (T * T) <= Z.of_nat (length (capMatrixAll W)) ->
  adSum inv (T * T) <> 0%Qc ->
  sumNormalised (storeObject W a inv) a.
Proof.
  intros T Ha HT Hin Hsum. unfold sumNormalised, storedSum.
  change (totSNGlob (storeObject W a inv) a) with T.
  cbn [capMatrixAll capMatrixSum storeObject]. fold T.
  unfold Arr.rdQ at 1. rewrite rd_wr_eq by lia.
  rewrite (for_loop_ext _ _ _ (fun l acc => (acc + Arr.rdQ inv l)%Qc)).
  - fold (adSum inv (T * T)). field. exact Hsum.
  - intros l acc Hl. f_equal. unfold storeInverse, capStoreIndex in *.
    destruct (rd_loop_copy 0%Qc (a * T * T) (Arr.rdQ inv) (T * T)
                (capMatrixAll W) ltac:(nia)) as [_ Hrd].
    unfold Arr.rdQ at 1. rewrite Hrd, decide_True by nia.
    f_equal. lia.
Qed.

(** * Further properties of [object.c] *)

(** ** The object count *)

Lemma localObjectCount_attained g :
  localObjectCount g = 0
  \/ exists i, 0 <= i < nNodes g /\ tagOf g i = localObjectCount g.
Proof.
  unfold localObjectCount.
  destruct (Z.le_gt_cases 0 (nNodes g)) as [Hn | Hn];
    [| left; apply for_loop_done; lia].
  apply (for_loop_inv
    (fun (n nObj : Z) =>
       nObj = 0 \/ exists i, 0 <= i < n /\ tagOf g i = nObj)); [done | by left |].
  intros n nObj Hin [-> | (i & Hi & <-)].
  - destruct (Dbl.gtb _ _); [right; exists n; split; [lia | done] | by left].
  - destruct (Dbl.gtb _ _); right; [exists n | exists i]; split; (lia || done).
Qed.

Lemma allreduce_max_attained (xs : list Z) :
  xs <> [] -> In (Mpi.allreduce_max xs) xs.
Proof.
  assert (H : forall l m, fold_left Z.max l m = m \/ In (fold_left Z.max l m) l).
  { induction l as [| z l IH]; intros m; simpl; [by left |].
    destruct (IH (Z.max m z)) as [-> | Hin]; [| by right; right].
    destruct (Z.max_spec m z) as [[_ ->] | [_ ->]]; [right; by left | by left]. }
  destruct xs as [| z xs]; [done |]. intros _. simpl.
  destruct (H xs z) as [-> | Hin]; [by left | by right].
Qed.

(** X1.  The object count that [oAlloc] stores is the highest rounded
    tag [(int)(val+0.5)] over the nodes of all ranks: no object node of
    any rank has a tag above it (so [lookupInteriorOffset] is never
    indexed past its [nObjects+1] entries), and when it is positive it
    is the tag of some node of some rank. *)
Theorem X1_object_count_is_the_highest_tag (size : Z) (rs : list Rank) (W : World) :
  oAlloc size rs = Returned W ->
  0 <= nObjects W
  /\ (forall r i, In r rs -> 0 <= i < nNodes (domain r) ->
        isObjectNode (domain r) i = true ->
        1 <= tagOf (domain r) i <= nObjects W)
  /\ (0 < nObjects W ->
      exists r i, In r rs /\ 0 <= i < nNodes (domain r)
                  /\ tagOf (domain r) i = nObjects W).
Proof.
  unfold oAlloc.
  destruct (oGatherSurfaceNodes size _ _) as [glob total].
  intros [= <-]. cbn [nObjects].
  set (counts := map (fun r => localObjectCount (domain r)) rs).
  assert (Hcov : forall r, In r rs ->
            localObjectCount (domain r) <= Mpi.allreduce_max counts).
  { intros r Hr. apply allreduce_max_upper, in_map_iff. by exists r. }
  split; [| split].
  - destruct rs as [| r rs']; [done |].
    pose proof (Hcov r ltac:(by left)).
    pose proof (proj1 (localObjectCount_inv (domain r))). lia.
  - intros r i Hr Hi Hobj. split; [by apply tagOf_ge_1 |].
    pose proof (localObjectCount_covers (domain r) i Hi Hobj).
    pose proof (Hcov r Hr). lia.
  - intros Hpos.
    destruct rs as [| r0 rs']; [done |].
    assert (Hin : In (Mpi.allreduce_max counts) counts)
      by (by apply allreduce_max_attained).
    apply in_map_iff in Hin as (r & Hr & Hin).
    destruct (localObjectCount_attained (domain r)) as [H0 | (i & Hi & Htag)].
    + lia.
    + exists r, i. split; [done |]. split; [done | congruence].
Qed.

(** X1 on the two-object map. *)
Lemma X1_witness :
  exists r i, In r [twoObjectsRank] /\ 0 <= i < nNodes (domain r)
              /\ tagOf (domain r) i = nObjects twoObjectsWorld.
Proof.
  apply (proj2 (proj2 (X1_object_count_is_the_highest_tag 1 [twoObjectsRank]
                         twoObjectsWorld oAlloc_twoObjects))).
  vm_compute. reflexivity.
Defined.

(** ** Ghost nodes of a grid with one ghost layer *)

(** X2.  On a grid with one ghost layer on every side (the only shape
    the recursion of [oGhost] is right for), [isGhostNode] answers true
    for the node with coordinates [(i,j,k)] exactly when a coordinate
    is 0 or [trueSize+1], and this is the ghost band of the grid. *)
Theorem X2_isGhostNode_one_layer_is_the_outer_shell
    (v : list Qc) (nx ny nz i j k : Z) :
  1 <= nx -> 1 <= ny -> 1 <= nz ->
  0 <= i < nx + 2 -> 0 <= j < ny + 2 -> 0 <= k < nz + 2 ->
  let g := scalarGrid v nx ny nz 1 in
  (isGhostNode g (node_of g i j k) = true
   <-> i = 0 \/ i = nx + 1 \/ j = 0 \/ j = ny + 1 \/ k = 0 \/ k = nz + 1)
  /\ isGhostNode g (node_of g i j k) = inGhostBand g (node_of g i j k).
Proof.
  intros Hnx Hny Hnz Hi Hj Hk g. split.
  - unfold g. rewrite isGhostNode_one_layer by done.
    unfold offTruePoints. rewrite !orb_true_iff, !Z.ltb_lt. lia.
  - by apply isGhostNode_is_inGhostBand_one_layer.
Qed.

(** X2 on the 4 x 4 x 4 grid: the corner node (3,1,2) is a ghost node. *)
Lemma X2_witness :
  isGhostNode (scalarGrid [] 2 2 2 1) (node_of (scalarGrid [] 2 2 2 1) 3 1 2)
  = true.
Proof.
  apply (proj1 (X2_isGhostNode_one_layer_is_the_outer_shell [] 2 2 2 3 1 2
                  ltac:(lia) ltac:(lia) ltac:(lia) ltac:(lia) ltac:(lia)
                  ltac:(lia))).
  lia.
Defined.

(** every node index of a one-layer grid is the index of a coordinate
    triple *)
Lemma one_layer_coordinates (v : list Qc) (nx ny nz b : Z) :
  1 <= nx -> 1 <= ny -> 1 <= nz ->
  let g := scalarGrid v nx ny nz 1 in
  0 <= b < nNodes g ->
  exists i j k,
    0 <= i < nx + 2 /\ 0 <= j < ny + 2 /\ 0 <= k < nz + 2
    /\ b = node_of g i j k
    /\ b = i + j * (nx + 2) + k * ((nx + 2) * (ny + 2)).
Proof.
  intros Hnx Hny Hnz g Hb.
  assert (HN : nNodes g = (nx + 2) * (ny + 2) * (nz + 2)).
  { unfold nNodes, g, scalarGrid, Arr.rdZ, Arr.rd. simpl. lia. }
  rewrite HN in Hb.
  set (sx := nx + 2) in *. set (sy := ny + 2) in *. set (sz := nz + 2) in *.
  assert (Hsx : 0 < sx) by lia. assert (Hsy : 0 < sy) by lia.
  exists (b mod sx), ((b / sx) mod sy), (b / (sx * sy)).
  pose proof (Z.mod_pos_bound b sx Hsx).
  pose proof (Z.mod_pos_bound (b / sx) sy Hsy).
  assert (Hk : 0 <= b / (sx * sy) < sz).
  { split; [apply Z.div_pos; nia |].
    apply Z.div_lt_upper_bound; nia. }
  assert (Hdec : b = b mod sx + (b / sx) mod sy * sx
                     + b / (sx * sy) * (sx * sy)).
  { rewrite <- Z.div_div by lia.
    pose proof (Z.div_mod b sx ltac:(lia)).
    pose proof (Z.div_mod (b / sx) sy ltac:(lia)). nia. }
  split; [done |]. split; [done |]. split; [done |]. split; [| done].
  unfold g. rewrite node_of_one_layer. fold sx sy. lia.
Qed.

(** X3.  On a grid with one ghost layer, the eight nodes
    [oFindObjectSurfaceNodes] samples around a node that [isGhostNode]
    rejects all lie inside the local array: the reads [val[myNB[..]]]
    of the two passes stay in bounds. *)
Theorem X3_surface_scan_reads_inside_the_grid
    (v : list Qc) (nx ny nz b : Z) :
  1 <= nx -> 1 <= ny -> 1 <= nz ->
  let g := scalarGrid v nx ny nz 1 in
  0 <= b < nNodes g ->
  isGhostNode g b = false ->
  Forall (fun n => 0 <= n < nNodes g) (myNB g b).
Proof.
  intros Hnx Hny Hnz g Hb Hghost.
  destruct (one_layer_coordinates v nx ny nz b Hnx Hny Hnz Hb)
    as (i & j & k & Hi & Hj & Hk & Hnode & Hdec).
  fold g in Hnode. rewrite Hnode in Hghost. unfold g in Hghost.
  rewrite isGhostNode_one_layer in Hghost by done.
  unfold offTruePoints in Hghost.
  rewrite !orb_false_iff, !Z.ltb_ge in Hghost.
  assert (HN : nNodes g = (nx + 2) * (ny + 2) * (nz + 2)).
  { unfold nNodes, g, scalarGrid, Arr.rdZ, Arr.rd. simpl. lia. }
  rewrite HN in *.
  unfold myNB.
  replace (Arr.rdZ (sizeProd g) 1) with 1
    by (unfold g, scalarGrid, Arr.rdZ, Arr.rd; simpl; lia).
  replace (Arr.rdZ (sizeProd g) 2) with (nx + 2)
    by (unfold g, scalarGrid, Arr.rdZ, Arr.rd; simpl; lia).
  replace (Arr.rdZ (sizeProd g) 3) with ((nx + 2) * (ny + 2))
    by (unfold g, scalarGrid, Arr.rdZ, Arr.rd; simpl; lia).
  remember ((nx + 2) * (ny + 2)) as M eqn:HM.
  remember (nx + 2) as sx eqn:Hsx.
  assert (Fj : sx <= j * sx) by nia.
  assert (Fk : M <= k * M) by nia.
  assert (HMpos : 0 < M) by nia.
  assert (Hup : b < M * (nz + 2)) by lia.
  clear Hnode Hb.
  repeat (apply Forall_cons; split; [lia |]). apply Forall_nil. done.
Qed.

(** X3 at the true point (1,1,1) = 21 of the 4 x 4 x 4 grid. *)
Lemma X3_witness :
  Forall (fun n => 0 <= n < 64) (myNB (scalarGrid [] 2 2 2 1) 21).
Proof.
  apply (X3_surface_scan_reads_inside_the_grid [] 2 2 2 21
           ltac:(lia) ltac:(lia) ltac:(lia)).
  - vm_compute. split; [discriminate | reflexivity].
  - vm_compute. reflexivity.
Defined.

(** ** The surface scan on a grid with one ghost layer *)

Lemma hasTag_strict (g : Grid) (a n : Z) :
  hasTag g a n
  = bool_decide ((Dbl.ofZ a + Q2Qc (1 # 2) < Arr.rdQ (val g) n)%Qc
                 /\ (Arr.rdQ (val g) n < Dbl.ofZ a + Q2Qc (3 # 2))%Qc).
Proof.
  unfold hasTag, Dbl.gtb.
  assert (Hup : (Dbl.ofZ a + Dbl.half + 1 = Dbl.ofZ a + Q2Qc (3 # 2))%Qc).
  { rewrite <- Qcplus_assoc. f_equal; try (apply Qc_is_canon; reflexivity). }
  rewrite Hup. change Dbl.half with (Q2Qc (1 # 2)).
  apply eq_iff_eq_true.
  rewrite andb_true_iff, !Dbl_ltb_lt, bool_decide_eq_true. done.
Qed.

Lemma countNB_strict (g : Grid) (a i : Z) :
  countNB g a i = strictSamples g a i.
Proof.
  rewrite countNB_filter. unfold strictSamples.
  change (myNB g i) with (sampledNodes g i).
  do 2 f_equal. apply List.filter_ext. intros n. apply hasTag_strict.
Qed.

Lemma acceptSurface_one_layer (v : list Qc) (nx ny nz a i : Z) :
  1 <= nx -> 1 <= ny -> 1 <= nz ->
  let g := scalarGrid v nx ny nz 1 in
  0 <= i < nNodes g ->
  isGhostNode g i = inGhostBand g i
  /\ acceptSurface g a i = onFrontier g a i.
Proof.
  intros Hnx Hny Hnz g Hi.
  destruct (one_layer_coordinates v nx ny nz i Hnx Hny Hnz Hi)
    as (x & y & z & Hx & Hy & Hz & Hnode & _).
  assert (Hghost : isGhostNode g i = inGhostBand g i).
  { rewrite Hnode. by apply isGhostNode_is_inGhostBand_one_layer. }
  split; [exact Hghost |].
  unfold acceptSurface, onFrontier.
  rewrite Hghost, countNB_strict, Z.gtb_ltb. f_equal. apply andb_comm.
Qed.

(** C5, as the code has it.  On a subdomain with one ghost layer on
    every side, a node [i] is in the block of the object with index [a]
    (tag [a+1]) exactly when it lies in the local array outside the
    ghost band and between one and seven of the eight sampled nodes
    [i], [i-sizeProd[3]], [i-sizeProd[1]], [i-sizeProd[1]-sizeProd[3]],
    [i-sizeProd[2]], [i-sizeProd[2]-sizeProd[3]],
    [i-sizeProd[2]-sizeProd[1]], [i-sizeProd[2]-sizeProd[1]-sizeProd[3]]
    have a value strictly between [a + 1/2] and [a + 3/2].  The block
    lists these nodes in scan order; the fill pass stores as many as the
    first pass counted, the width of the offsets is that number, and
    the table is full. *)
Theorem C5_scan_records_the_frontier_on_one_layer
    (v : list Qc) (nx ny nz nObj a : Z) :
  1 <= nx -> 1 <= ny -> 1 <= nz -> 0 <= a < nObj ->
  let g := scalarGrid v nx ny nz 1 in
  let tbl := fst (oFindObjectSurfaceNodes g nObj) in
  let off := snd (oFindObjectSurfaceNodes g nObj) in
  (forall i,
      In i (block tbl off a)
      <-> 0 <= i < nNodes g /\ inGhostBand g i = false
          /\ 0 < strictSamples g a i < 8)
  /\ block tbl off a = List.filter (onFrontier g a) (seqZ 0 (nNodes g))
  /\ Arr.rdZ (surfaceCount g nObj) (a + 1) = Z.of_nat (length (block tbl off a))
  /\ Arr.rdZ off (a + 1) - Arr.rdZ off a = Z.of_nat (length (block tbl off a))
  /\ Z.of_nat (length tbl) = Arr.rdZ off nObj.
Proof.
  intros Hnx Hny Hnz Ha g tbl off.
  destruct (surface_blocks_hold_the_accepted_scan g nObj a Ha)
    as (_ & Hmem & Hblock & Hcount & Hwidth & Hlen).
  fold tbl off in Hmem, Hblock, Hcount, Hwidth, Hlen.
  split; [| split; [| by repeat split]].
  - intros i. rewrite Hmem. split.
    + intros (Hi & Hghost & Hd).
      destruct (acceptSurface_one_layer v nx ny nz a i Hnx Hny Hnz Hi)
        as [Heq _]. fold g in Heq.
      rewrite <- Heq, <- countNB_strict. done.
    + intros (Hi & Hghost & Hd).
      destruct (acceptSurface_one_layer v nx ny nz a i Hnx Hny Hnz Hi)
        as [Heq _]. fold g in Heq.
      rewrite Heq, countNB_strict. done.
  - rewrite Hblock. apply List.filter_ext_in. intros i Hi.
    apply list_elem_of_In, elem_of_seqZ in Hi.
    by apply (acceptSurface_one_layer v nx ny nz a i).
Qed.

(** C5 on the two-object map: the block of object 2 is the scan of the
    nodes on its frontier. *)
Lemma C5_witness :
  let g := scalarGrid (objectMap [(42, 1); (41, 2)]) 2 2 2 1 in
  block (fst (oFindObjectSurfaceNodes g 2)) (snd (oFindObjectSurfaceNodes g 2)) 1
  = List.filter (onFrontier g 1) (seqZ 0 (nNodes g)).
Proof.
  exact (proj1 (proj2
    (C5_scan_records_the_frontier_on_one_layer
       (objectMap [(42, 1); (41, 2)]) 2 2 2 2 1
       ltac:(lia) ltac:(lia) ltac:(lia) ltac:(lia)))).
Defined.

(** ** The lookup tables as lists of blocks *)

Lemma increasing_nil : increasing [].
Proof. intros p q x y _ H. by rewrite lookup_nil in H. Qed.

Lemma increasing_cons x l :
  increasing (x :: l) <-> (forall y, In y l -> x < y) /\ increasing l.
Proof.
  split.
  - intros H. split.
    + intros y Hy. apply list_elem_of_In, list_elem_of_lookup in Hy as [q Hq].
      apply (H 0%nat (S q) x y); [lia | done | done].
    + intros p q a b Hpq Ha Hb. by apply (H (S p) (S q) a b); [lia | |].
  - intros [Hx Hl] p q a b Hpq Ha Hb.
    destruct q as [| q]; [lia |]. simpl in Hb.
    destruct p as [| p]; simpl in Ha.
    + injection Ha as <-. apply Hx, list_elem_of_In, list_elem_of_lookup. eauto.
    + apply (Hl p q a b); [lia | done | done].
Qed.

Lemma increasing_filter (f : Z -> bool) l :
  increasing l -> increasing (List.filter f l).
Proof.
  induction l as [| x l IH]; [done |]. rewrite increasing_cons.
  intros [Hx Hl]. simpl. destruct (f x); [| by apply IH].
  apply increasing_cons. split; [| by apply IH].
  intros y Hy. apply filter_In in Hy as [Hy _]. by apply Hx.
Qed.

Lemma increasing_seqZ lo n : increasing (seqZ lo n).
Proof.
  intros p q x y Hpq Hx Hy.
  apply lookup_seqZ in Hx as [-> _]. apply lookup_seqZ in Hy as [-> _]. lia.
Qed.

Lemma increasing_NoDup l : increasing l -> NoDup l.
Proof.
  intros H. apply NoDup_alt. intros p q x Hp Hq.
  destruct (Nat.lt_trichotomy p q) as [Hlt | [Heq | Hgt]]; [| done |].
  - pose proof (H p q x x Hlt Hp Hq). lia.
  - pose proof (H q p x x Hgt Hq Hp). lia.
Qed.

(** a table whose offsets start at 0, do not decrease and end at its
    length is the concatenation of its blocks *)
Lemma table_prefix_blocks (tbl off : list Z) (n : nat) :
  Arr.rdZ off 0 = 0 ->
  (forall a, 0 <= a < Z.of_nat n -> Arr.rdZ off a <= Arr.rdZ off (a + 1)) ->
  take (Z.to_nat (Arr.rdZ off (Z.of_nat n))) tbl
  = flat_map (block tbl off) (seqZ 0 (Z.of_nat n)).
Proof.
  intros H0. induction n as [| n IH]; intros Hmono.
  - change (Z.of_nat 0) with 0. by rewrite H0.
  - rewrite seqZ_S, flat_map_app. simpl. rewrite app_nil_r, Z.add_0_l.
    rewrite <- IH by (intros a Ha; apply Hmono; lia).
    unfold block. rewrite take_take_drop. f_equal.
    assert (0 <= Arr.rdZ off (Z.of_nat n)).
    { clear IH. induction n as [| m IHm]; [change (Z.of_nat 0) with 0; lia |].
      pose proof (Hmono (Z.of_nat m) ltac:(lia)).
      replace (Z.of_nat (S m)) with (Z.of_nat m + 1) by lia.
      assert (0 <= Arr.rdZ off (Z.of_nat m)); [| lia].
      apply IHm. intros a Ha. apply Hmono. lia. }
    pose proof (Hmono (Z.of_nat n) ltac:(lia)).
    replace (Z.of_nat (S n)) with (Z.of_nat n + 1) by lia. lia.
Qed.

Lemma table_is_its_blocks (tbl off : list Z) (N : Z) :
  0 <= N ->
  Arr.rdZ off 0 = 0 ->
  (forall a, 0 <= a < N -> Arr.rdZ off a <= Arr.rdZ off (a + 1)) ->
  Z.of_nat (length tbl) = Arr.rdZ off N ->
  tbl = flat_map (block tbl off) (seqZ 0 N).
Proof.
  intros HN H0 Hmono Hlen.
  rewrite <- (Z2Nat.id N HN) in *.
  rewrite <- table_prefix_blocks by done.
  rewrite <- Hlen, Nat2Z.id, firstn_all. done.
Qed.

Lemma flat_map_ext_within {X Y : Type} (f h : X -> list Y) (l : list X) :
  (forall a, In a l -> f a = h a) -> flat_map f l = flat_map h l.
Proof.
  induction l as [| a l IH]; [done |]. intros H. simpl.
  rewrite (H a) by (by left). rewrite IH; [done |].
  intros b Hb. apply H. by right.
Qed.

Lemma NoDup_flat_map_filter (acc : Z -> Z -> bool) (L objs : list Z) :
  NoDup L -> NoDup objs ->
  (forall a a' i, acc a i = true -> acc a' i = true -> a = a') ->
  NoDup (flat_map (fun a => List.filter (acc a) L) objs).
Proof.
  intros HL Hobjs Hdisj. induction Hobjs as [| a objs Ha Hobjs IH]; simpl.
  - constructor.
  - apply NoDup_app. split; [| split; [| done]].
    + by apply NoDup_ListNoDup, List.NoDup_filter, NoDup_ListNoDup.
    + intros x Hx Hx'.
      apply list_elem_of_In, filter_In in Hx as [_ Hx].
      apply list_elem_of_In, in_flat_map in Hx' as (a' & Ha' & Hx').
      apply filter_In in Hx' as [_ Hx'].
      rewrite (Hdisj a a' x Hx Hx') in Ha.
      by apply Ha, list_elem_of_In.
Qed.

(** X4.  When no tag exceeds the object count (which [oAlloc]
    ensures), the interior table of [oFillLookupTables] lists every node
    of the local array with [val > 0.5] exactly once, ghost nodes
    included; its offsets start at 0, do not decrease and end at the
    length of the table, and inside a block the nodes go up. *)
Theorem X4_interior_table_lists_each_object_node_once (g : Grid) (nObj : Z) :
  0 <= nObj ->
  tagsWithin g nObj = true ->
  let tbl := fst (oFillLookupTables g nObj) in
  let off := snd (oFillLookupTables g nObj) in
  NoDup tbl
  /\ (forall i, In i tbl <-> 0 <= i < nNodes g /\ isObjectNode g i = true)
  /\ Arr.rdZ off 0 = 0
  /\ (forall a, 0 <= a < nObj -> Arr.rdZ off a <= Arr.rdZ off (a + 1))
  /\ Z.of_nat (length tbl) = Arr.rdZ off nObj
  /\ (forall a, 0 <= a < nObj -> increasing (block tbl off a)).
Proof.
  intros HN Htags tbl off.
  pose proof (tagsWithin_spec g nObj Htags) as Hspec.
  assert (H0 : Arr.rdZ off 0 = 0).
  { destruct (interiorOffsets_spec g nObj Hspec HN) as [_ Hoff].
    unfold off. rewrite Hoff by lia. apply cntLt_zero.
    intros e He. pose proof (interiorEntries_bucket g nObj Hspec e He). lia. }
  assert (Hmono : forall a, 0 <= a < nObj ->
                    Arr.rdZ off a <= Arr.rdZ off (a + 1)).
  { intros a Ha.
    pose proof (interior_offsets_ordered g nObj Hspec a Ha) as H. cbv zeta in H.
    unfold off. lia. }
  assert (Hlen : Z.of_nat (length tbl) = Arr.rdZ off nObj)
    by (by apply interior_length).
  assert (Htbl : tbl = flat_map (fun a => List.filter (acceptInterior g a)
                                           (seqZ 0 (nNodes g)))
                         (seqZ 0 nObj)).
  { rewrite (table_is_its_blocks tbl off nObj HN H0 Hmono Hlen) at 1.
    apply flat_map_ext_within. intros a Ha.
    apply list_elem_of_In, elem_of_seqZ in Ha.
    by apply interior_block; [| lia]. }
  split; [| split; [| split; [| split; [| split]]]]; try done.
  - rewrite Htbl. apply NoDup_flat_map_filter; try apply NoDup_seqZ.
    intros a a' i Ha Ha'. unfold acceptInterior in *.
    apply andb_true_iff in Ha as [_ Ha]. apply andb_true_iff in Ha' as [_ Ha'].
    lia.
  - intros i. rewrite Htbl, in_flat_map. split.
    + intros (a & Ha & Hi). apply filter_In in Hi as [Hi Hacc].
      apply list_elem_of_In, elem_of_seqZ in Hi.
      unfold acceptInterior in Hacc. apply andb_true_iff in Hacc as [Hobj _].
      split; [lia | done].
    + intros [Hi Hobj]. exists (tagOf g i - 1).
      pose proof (tagOf_ge_1 g i Hobj). pose proof (Hspec i Hi Hobj).
      split.
      * apply list_elem_of_In, elem_of_seqZ. lia.
      * apply filter_In. split; [apply list_elem_of_In, elem_of_seqZ; lia |].
        unfold acceptInterior. rewrite Hobj, Z.eqb_refl. done.
  - intros a Ha. unfold tbl, off. rewrite interior_block by done.
    apply increasing_filter, increasing_seqZ.
Qed.

(** X4 on the halo map, whose interior table is [20; 21]. *)
Lemma X4_witness :
  In 20 (fst (oFillLookupTables (domain haloRank) 1))
  <-> 0 <= 20 < nNodes (domain haloRank)
      /\ isObjectNode (domain haloRank) 20 = true.
Proof.
  apply (proj1 (proj2 (X4_interior_table_lists_each_object_node_once
                         (domain haloRank) 1 ltac:(lia)
                         ltac:(vm_compute; reflexivity)))).
Defined.

(** X5.  Every block of the surface table of [oFindObjectSurfaceNodes]
    lists its nodes in increasing order, so no node is listed twice in
    a block; the offsets start at 0 and do not decrease, and the table
    is the concatenation of its blocks. *)
Theorem X5_surface_table_is_made_of_increasing_blocks (g : Grid) (nObj : Z) :
  0 <= nObj ->
  let tbl := fst (oFindObjectSurfaceNodes g nObj) in
  let off := snd (oFindObjectSurfaceNodes g nObj) in
  Arr.rdZ off 0 = 0
  /\ (forall a, 0 <= a < nObj ->
        Arr.rdZ off a <= Arr.rdZ off (a + 1)
        /\ increasing (block tbl off a)
        /\ NoDup (block tbl off a))
  /\ tbl = flat_map (block tbl off) (seqZ 0 nObj).
Proof.
  intros HN tbl off.
  destruct (surfaceOffsets_spec g nObj HN) as [Hofflen Hoff]. fold off in Hoff.
  assert (Hbucket : forall e, In e (surfaceEntries g nObj) -> 0 <= fst e < nObj)
    by apply surfaceEntries_bucket.
  assert (H0 : Arr.rdZ off 0 = 0).
  { rewrite Hoff by lia. apply cntLt_zero.
    intros e He. pose proof (Hbucket e He). lia. }
  assert (Hmono : forall a, 0 <= a < nObj ->
                    Arr.rdZ off a <= Arr.rdZ off (a + 1)).
  { intros a Ha. rewrite !Hoff by lia. apply cntLt_mono. lia. }
  assert (Hinc : forall a, 0 <= a < nObj -> increasing (block tbl off a)).
  { intros a Ha. unfold tbl, off. rewrite surface_block by done.
    apply increasing_filter, increasing_seqZ. }
  split; [done |]. split.
  - intros a Ha. split; [by apply Hmono |]. split; [by apply Hinc |].
    by apply increasing_NoDup, Hinc.
  - apply table_is_its_blocks; try done. by apply surface_length.
Qed.

(** X5 on the two-object map. *)
Lemma X5_witness :
  fst (oFindObjectSurfaceNodes (domain twoObjectsRank) 2)
  = flat_map (block (fst (oFindObjectSurfaceNodes (domain twoObjectsRank) 2))
                    (snd (oFindObjectSurfaceNodes (domain twoObjectsRank) 2)))
      (seqZ 0 2).
Proof.
  apply (proj2 (proj2 (X5_surface_table_is_made_of_increasing_blocks
                         (domain twoObjectsRank) 2 ltac:(lia)))).
Defined.

(** ** The surface counts that [oAlloc] gathers *)

Lemma sumZ_app {X : Type} (f : X -> Z) l1 l2 :
  sumZ f (l1 ++ l2) = sumZ f l1 + sumZ f l2.
Proof. unfold sumZ. rewrite map_app. apply fold_add_app. Qed.

Lemma sumZ_ext {X : Type} (f h : X -> Z) l :
  (forall x, In x l -> f x = h x) -> sumZ f l = sumZ h l.
Proof.
  unfold sumZ. induction l as [| x l IH]; [done |]. intros H. simpl.
  rewrite (H x) by (by left). rewrite IH; [done |].
  intros y Hy. apply H. by right.
Qed.

Lemma sumZ_const {X : Type} (c : Z) (l : list X) :
  sumZ (fun _ => c) l = Z.of_nat (length l) * c.
Proof. unfold sumZ. induction l as [| x l IH]; simpl; lia. Qed.

Lemma for_loop_sumZ (f : Z -> Z) lo hi acc :
  Arr.for_loop lo hi (fun a t => t + f a) acc
  = acc + sumZ f (seqZ lo (hi - lo)).
Proof.
  destruct (Z.le_gt_cases lo hi) as [Hle | Hgt].
  - apply (for_loop_inv
      (fun n t => t = acc + sumZ f (seqZ lo (n - lo))) lo hi _ acc Hle).
    + rewrite Z.sub_diag. change (seqZ lo 0) with (@nil Z).
      unfold sumZ. cbn [map fold_right]. lia.
    + intros n t Hn ->.
      replace (n + 1 - lo) with ((n - lo) + 1) by lia.
      rewrite seqZ_app, sumZ_app by lia.
      change (seqZ (lo + (n - lo)) 1) with [0 + (lo + (n - lo))].
      replace (0 + (lo + (n - lo))) with n by lia.
      unfold sumZ. cbn [map fold_right]. lia.
  - rewrite for_loop_done by lia.
    replace (seqZ lo (hi - lo)) with (@nil Z);
      [unfold sumZ; cbn [map fold_right]; lia |].
    symmetry. apply length_zero_iff_nil. rewrite length_seqZ. lia.
Qed.

Lemma gathered_length size nObj rs :
  0 <= size -> Z.of_nat (length rs) = size -> 0 <= nObj ->
  Z.of_nat (length (fst (oGatherSurfaceNodes size nObj rs)))
  = nObj * (size + 1).
Proof.
  intros Hsize Hlen HN. unfold oGatherSurfaceNodes. cbn [fst].
  pose (P := fun (n : Z) (st : list Z * list Z) =>
    Z.of_nat (length (fst st)) = size + 1
    /\ Z.of_nat (length (snd st)) = nObj * (size + 1)).
  assert (HP : P nObj (Arr.for_loop 0 nObj (gatherObject size rs)
                         (Arr.alloc (size + 1) 0, Arr.alloc (nObj * (size + 1)) 0))).
  { apply for_loop_inv; [lia | |].
    - unfold P. cbn [fst snd]. rewrite !length_alloc. split; [lia | nia].
    - intros n [loc glob] Hn (Hl & Hg). cbn [fst snd] in *.
      destruct (gatherObject_spec size rs Hsize Hlen n loc glob Hl
                  ltac:(lia) ltac:(nia)) as (Hl' & Hg' & _).
      unfold P. split; [done | by rewrite Hg']. }
  apply HP.
Qed.

(** what [oGatherSurfaceNodes] leaves in the object of [oAlloc] *)
Lemma oAlloc_gathered (size : Z) (rs : list Rank) (W : World) :
  0 <= size -> map mpiRank rs = seqZ 0 size ->
  oAlloc size rs = Returned W ->
  (forall a b, 0 <= a < nObjects W -> 0 <= b <= size ->
     Arr.rdZ (capMatrixAllOffsets W) (a * (size + 1) + b)
     = sumZ (nodesThisCore a) (take (Z.to_nat b) (ranks W)))
  /\ (forall a, 0 <= a < nObjects W ->
        totSNGlob W a = sumZ (nodesThisCore a) (ranks W))
  /\ Z.of_nat (length (capMatrixAllOffsets W)) = nObjects W * (size + 1)
  /\ Z.of_nat (length (capMatrixAll W))
     = sumZ (totSNGlob W) (seqZ 0 (nObjects W))
       * sumZ (totSNGlob W) (seqZ 0 (nObjects W))
  /\ Z.of_nat (length (capMatrixSum W)) = nObjects W.
Proof.
  intros Hsize Hnum Halloc.
  assert (HN : 0 <= nObjects W).
  { revert Halloc. unfold oAlloc.
    destruct (oGatherSurfaceNodes size _ _) as [glob total].
    intros [= <-]. cbn [nObjects].
    destruct rs as [| r rs']; [done |].
    pose proof (allreduce_max_upper
                  (map (fun r => localObjectCount (domain r)) (r :: rs'))
                  (localObjectCount (domain r)) ltac:(by left)).
    pose proof (proj1 (localObjectCount_inv (domain r))). lia. }
  revert Halloc HN. unfold oAlloc.
  set (nObj := Mpi.allreduce_max _).
  set (rs' := map (withTables nObj) rs).
  assert (Hlen : Z.of_nat (length rs') = size).
  { unfold rs'. rewrite length_map.
    apply (f_equal (@length Z)) in Hnum.
    rewrite length_map, length_seqZ in Hnum. lia. }
  pose proof (oGatherSurfaceNodes_spec size rs' Hsize Hlen nObj) as Hspec.
  pose proof (gathered_length size nObj rs' Hsize Hlen) as Hglob.
  assert (Htot : snd (oGatherSurfaceNodes size nObj rs')
                 = sumZ (fun a => Arr.rdZ (fst (oGatherSurfaceNodes size nObj rs'))
                                    (a * (size + 1) + size))
                     (seqZ 0 nObj)).
  { unfold oGatherSurfaceNodes. cbn [fst snd].
    rewrite for_loop_sumZ, Z.sub_0_r. lia. }
  destruct (oGatherSurfaceNodes size nObj rs') as [glob total].
  cbn [fst snd] in *.
  intros [= <-]. cbn [mpiSize nObjects ranks capMatrixAllOffsets capMatrixAll
                       capMatrixSum]. intros HN.
  assert (Hrow : forall a b, 0 <= a < nObj -> 0 <= b <= size ->
            Arr.rdZ glob (a * (size + 1) + b)
            = sumZ (nodesThisCore a) (take (Z.to_nat b) rs')).
  { intros a b Ha Hb. by rewrite Hspec. }
  assert (HT : forall a, 0 <= a < nObj ->
            Arr.rdZ glob (a * (size + 1) + size) = sumZ (nodesThisCore a) rs').
  { intros a Ha. rewrite Hrow by lia. f_equal.
    apply firstn_all2. lia. }
  split; [exact Hrow |]. split; [| split; [| split]].
  - intros a Ha. unfold totSNGlob. cbn [mpiSize capMatrixAllOffsets].
    by apply HT.
  - by apply Hglob.
  - rewrite length_alloc, Htot.
    unfold totSNGlob. cbn [mpiSize capMatrixAllOffsets]. nia.
  - rewrite length_alloc. lia.
Qed.

(** X6.  In the object [oAlloc] returns, entry [b] of row [a] of
    [nodCorGlob] is the number of surface nodes of object [a] on the
    ranks before rank [b], so the last entry of the row (the global
    count the other functions read as [totSNGlob]) is the sum over all
    ranks; the store [capMatrixAll] has the square of the sum of the
    global counts of all objects as its size, and [capMatrixSum] one
    entry per object. *)
Theorem X6_gathered_rows_are_running_totals (size : Z) (rs : list Rank) (W : World) :
  0 <= size -> map mpiRank rs = seqZ 0 size ->
  oAlloc size rs = Returned W ->
  (forall a b, 0 <= a < nObjects W -> 0 <= b <= size ->
     Arr.rdZ (capMatrixAllOffsets W) (a * (size + 1) + b)
     = sumZ (nodesThisCore a) (take (Z.to_nat b) (ranks W)))
  /\ (forall a, 0 <= a < nObjects W ->
        totSNGlob W a = sumZ (nodesThisCore a) (ranks W))
  /\ Z.of_nat (length (capMatrixAllOffsets W)) = nObjects W * (size + 1)
  /\ Z.of_nat (length (capMatrixAll W))
     = sumZ (totSNGlob W) (seqZ 0 (nObjects W))
       * sumZ (totSNGlob W) (seqZ 0 (nObjects W))
  /\ Z.of_nat (length (capMatrixSum W)) = nObjects W.
Proof. apply oAlloc_gathered. Qed.

(** X6 on the two ranks of the impact example: object 2 has two
    surface nodes on rank 0 and three in all. *)
Lemma X6_witness :
  Arr.rdZ (capMatrixAllOffsets impactWorld) (1 * (2 + 1) + 1)
  = sumZ (nodesThisCore 1) (take (Z.to_nat 1) (ranks impactWorld)).
Proof.
  apply (proj1 (X6_gathered_rows_are_running_totals 2 [impactRank0; impactRank1]
                  impactWorld ltac:(lia) ltac:(reflexivity) oAlloc_impact)).
  - change (0 <= 1 < 2). lia.
  - lia.
Defined.

Lemma oAlloc_twin : oAlloc 1 [twinRank] = Returned twinWorld.
Proof. vm_compute. reflexivity. Qed.

(** ** The capacitance store *)

(** X7.  The store that [oAlloc] allocates holds the matrices of all
    objects in disjoint blocks when every object has the same global
    number [T] of surface nodes: the slots [a*T*T + l] that
    [oComputeCapacitanceMatrix] writes and [oApplyCapacitanceMatrix]
    reads lie inside [capMatrixAll], and two objects never share one. *)
Theorem X7_equal_counts_give_disjoint_blocks_in_the_store
    (size : Z) (rs : list Rank) (W : World) (T : Z) :
  0 <= size -> map mpiRank rs = seqZ 0 size ->
  oAlloc size rs = Returned W ->
  (forall a, 0 <= a < nObjects W -> totSNGlob W a = T) ->
  forall a l, 0 <= a < nObjects W -> 0 <= l < T * T ->
    0 <= capStoreIndex T a l < Z.of_nat (length (capMatrixAll W))
    /\ forall a' l', 0 <= a' < nObjects W -> 0 <= l' < T * T ->
         capStoreIndex T a l = capStoreIndex T a' l' -> a = a' /\ l = l'.
Proof.
  intros Hsize Hnum Halloc HT a l Ha Hl.
  destruct (oAlloc_gathered size rs W Hsize Hnum Halloc)
    as (_ & _ & _ & Hlen & _).
  rewrite (sumZ_ext (totSNGlob W) (fun _ => T)) in Hlen.
  2:{ intros x Hx. apply HT. by apply list_elem_of_In, elem_of_seqZ in Hx. }
  rewrite sumZ_const, length_seqZ in Hlen.
  rewrite Z2Nat.id in Hlen by lia.
  unfold capStoreIndex. rewrite Hlen. split.
  { remember (T * T) as M eqn:HM.
    replace (a * T * T) with (a * M) by (subst M; lia).
    replace (nObjects W * T * (nObjects W * T))
      with (nObjects W * (nObjects W * M)) by (subst M; lia).
    assert (a * M + M <= nObjects W * M) by nia.
    assert (nObjects W * M <= nObjects W * (nObjects W * M)) by nia.
    nia. }
  intros a' l' Ha' Hl' Heq.
  assert (a = a'); [| split; [done | subst; lia]].
  assert (Hdiv : forall x y, 0 <= y < T * T -> (x * T * T + y) / (T * T) = x).
  { intros x y Hy. replace (x * T * T + y) with (y + x * (T * T)) by lia.
    by apply div_linear. }
  rewrite <- (Hdiv a l Hl), <- (Hdiv a' l' Hl'). by rewrite Heq.
Qed.

(** X7 on two objects with two surface nodes each. *)
Lemma X7_witness :
  0 <= capStoreIndex 2 1 3 < Z.of_nat (length (capMatrixAll twinWorld)).
Proof.
  refine (proj1 (X7_equal_counts_give_disjoint_blocks_in_the_store 1 [twinRank]
                   twinWorld 2 ltac:(lia) ltac:(reflexivity) oAlloc_twin
                   _ 1 3 _ ltac:(lia))).
  - intros a Ha. change (0 <= a < 2) in Ha.
    assert (Hcases : a = 0 \/ a = 1) by lia.
    destruct Hcases as [-> | ->]; reflexivity.
  - change (0 <= 1 < 2). lia.
Defined.

(** X8.  What [oComputeCapacitanceMatrix] stores for an object is what
    [oApplyCapacitanceMatrix] reads back: when the block of object [a]
    lies inside [capMatrixAll], entry [(j,i)] read by the corrector is
    entry [T*j+i] of the inverse just stored, and the slots outside
    the block keep their values. *)
Theorem X8_stored_matrix_is_read_back (W : World) (a : Z) (inv : list Qc) :
  let T := totSNGlob W a in
  let W' := storeObject W a inv in
  0 <= a -> 0 <= T ->
  capStoreIndex T a (T * T) <= Z.of_nat (length (capMatrixAll W)) ->
  (forall j i, 0 <= j < T -> 0 <= i < T ->
     capEntry W' a j i = Arr.rdQ inv (T * j + i))
  /\ (forall m, ~ (capStoreIndex T a 0 <= m < capStoreIndex T a (T * T)) ->
        Arr.rdQ (capMatrixAll W') m = Arr.rdQ (capMatrixAll W) m).
Proof.
  intros T W' Ha HT Hin.
  assert (HTT : 0 <= T * T) by nia.
  destruct (rd_loop_copy 0%Qc (a * T * T) (Arr.rdQ inv) (T * T)
              (capMatrixAll W) HTT) as [_ Hrd].
  split.
  - intros j i Hj Hi. unfold capEntry.
    change (totSNGlob W' a) with T.
    change (capMatrixAll W') with (storeInverse T a inv (capMatrixAll W)).
    unfold storeInverse, capStoreIndex in *. unfold Arr.rdQ at 1.
    rewrite Hrd, decide_True by nia. f_equal. lia.
  - intros m Hm.
    change (capMatrixAll W') with (storeInverse T a inv (capMatrixAll W)).
    unfold storeInverse, capStoreIndex in *. unfold Arr.rdQ at 1.
    rewrite Hrd, decide_False by lia. done.
Qed.

(** X8 on the store of the two-object world: the 1 x 1 inverse (4) of
    the first object. *)
Lemma X8_witness :
  capEntry (storeObject twoObjectsWorld 0 [Dbl.ofZ 4]) 0 0 0
  = Arr.rdQ [Dbl.ofZ 4] (1 * 0 + 0).
Proof.
  refine (proj1 (X8_stored_matrix_is_read_back twoObjectsWorld 0 [Dbl.ofZ 4]
                   ltac:(lia) _ _) 0 0 _ _).
  - vm_compute. discriminate.
  - vm_compute. discriminate.
  - change (0 <= 0 < 1). lia.
  - change (0 <= 0 < 1). lia.
Defined.

(** ** The charge corrector on a surface that is already equipotential *)

Lemma wr_same {A : Type} (d : A) (l : list A) i : Arr.wr l i (Arr.rd d l i) = l.
Proof.
  destruct (decide (0 <= i < Z.of_nat (length l))) as [Hi | Hi].
  - unfold Arr.wr, Arr.rd. destruct (Z.ltb_spec i 0); [lia |].
    apply list_insert_id. rewrite nth_lookup.
    destruct (lookup_lt_is_Some_2 l (Z.to_nat i) ltac:(lia)) as [x Hx].
    by rewrite Hx.
  - apply wr_outside. lia.
Qed.

Lemma loop_add_nothing (n : Z -> Z) (c : Z -> Qc) lo hi (v0 : list Qc) :
  (forall j, lo <= j < hi -> c j = 0%Qc) ->
  Arr.for_loop lo hi (fun j v => Arr.wr v (n j) (Arr.rdQ v (n j) + c j)%Qc) v0
  = v0.
Proof.
  intros Hc. destruct (Z.le_gt_cases lo hi) as [Hle | Hgt];
    [| apply for_loop_done; lia].
  apply (for_loop_inv (fun _ v => v = v0)); [done | done |].
  intros j v Hj ->. rewrite (Hc j Hj), Qcplus_0_r. apply (wr_same 0%Qc).
Qed.

Section Equipotential.

Variables (W : World) (a : Z) (rs : list Rank) (c : Qc).
Hypothesis Hsize : 0 <= mpiSize W.
Hypothesis Hrow : rowOrdered W a.
Hypothesis Hnum : ranksNumbered W rs.
Hypothesis Hnorm : sumNormalised W a.
Hypothesis Hphi : equipotential W a rs c.

Lemma equipotential_objectPotential : objectPotential W a rs = c.
Proof.
  rewrite objectPotential_sum.
  rewrite (sumOver_ext _
    (fun r => (c * sumOver
                     (fun i => sumOver (fun j => capEntry W a j i)
                                 (seqZ (beginIndex W a r)
                                    (endIndex W a r - beginIndex W a r)))
                     (seqZ 0 (totSNGlob W a)))%Qc)).
  2:{ intros r Hr. rewrite <- sumOver_scale_l. apply sumOver_ext. intros i _.
      rewrite <- sumOver_scale_l. apply sumOver_ext. intros j Hj.
      apply list_elem_of_In, elem_of_seqZ in Hj.
      rewrite (Hphi r j Hr) by lia. ring. }
  rewrite sumOver_scale_l, sumOver_swap.
  rewrite (sumOver_ext _
    (fun i => sumOver (fun j => capEntry W a j i) (seqZ 0 (totSNGlob W a)))).
  2:{ intros i _. by apply rows_partition. }
  rewrite <- storedSum_sum by done.
  unfold sumNormalised in Hnorm.
  rewrite <- Qcmult_assoc, (Qcmult_comm (storedSum W a)), Hnorm. ring.
Qed.

Lemma equipotential_deltaPhi j : Arr.rdQ (reducedDeltaPhi W a rs) j = 0%Qc.
Proof.
  destruct (decide (0 <= j < totSNGlob W a)) as [Hj | Hj].
  - rewrite rd_reducedDeltaPhi by done.
    transitivity (sumOver (fun _ : Rank => 0%Qc) rs); [| apply sumOver_zero].
    apply sumOver_ext. intros r Hr.
    case_decide as Hin; [| done].
    rewrite equipotential_objectPotential, (Hphi r j Hr Hin). ring.
  - unfold reducedDeltaPhi. rewrite rd_allreduce_sum_vec.
    by rewrite decide_False.
Qed.

Lemma equipotential_rhoCorr i : Arr.rdQ (reducedRhoCorr W a rs) i = 0%Qc.
Proof.
  unfold reducedRhoCorr. rewrite rd_allreduce_sum_vec.
  case_decide as Hi; [| done].
  rewrite sumOver_map.
  transitivity (sumOver (fun _ : Rank => 0%Qc) rs); [| apply sumOver_zero].
  apply sumOver_ext. intros r _.
  rewrite rd_localRhoCorr by done. rewrite decide_True by done.
  transitivity (sumOver (fun _ : Z => 0%Qc)
                  (seqZ (beginIndex W a r) (endIndex W a r - beginIndex W a r)));
    [| apply sumOver_zero].
  apply sumOver_ext. intros j _. rewrite equipotential_deltaPhi. ring.
Qed.

Lemma equipotential_applyObject : applyObject W a rs = rs.
Proof.
  unfold applyObject.
  transitivity (map (fun r : Rank => r) rs); [| apply map_id].
  apply map_ext. intros r.
  unfold addCorrection. rewrite loop_add_nothing.
  - by destruct r.
  - intros j _. apply equipotential_rhoCorr.
Qed.

End Equipotential.

(** X9.  In exact arithmetic (rationals in the place of the doubles of
    the source, whose sums and products are rounded), and for a store
    in which [capMatrixSum[a]] is the inverse of the sum of the matrix
    read for object [a]: when the potential is already the same on all
    surface nodes of an object, the formulas of
    [oApplyCapacitanceMatrix] give that value as the potential of the
    object ([capMatrixPhiSum] after its all-reduce) and a zero
    correction; if this holds for every object, the call leaves every
    rank as it was. *)
Theorem X9_equipotential_surfaces_get_no_correction (W : World) :
  0 <= mpiSize W ->
  ranksNumbered W (ranks W) ->
  (forall a, 0 <= a < nObjects W ->
     rowOrdered W a /\ sumNormalised W a
     /\ exists c, equipotential W a (ranks W) c) ->
  (forall a c, 0 <= a < nObjects W -> equipotential W a (ranks W) c ->
     objectPotential W a (ranks W) = c)
  /\ oApplyCapacitanceMatrix W = W.
Proof.
  intros Hsize Hnum Hobj. split.
  - intros a c Ha Hc. destruct (Hobj a Ha) as (Hrow & Hnorm & _).
    by apply equipotential_objectPotential.
  - assert (Hranks : Arr.for_loop 0 (nObjects W) (applyObject W) (ranks W)
                     = ranks W).
    { destruct (Z.le_gt_cases 0 (nObjects W)) as [Hle | Hgt];
        [| apply for_loop_done; lia].
      apply (for_loop_inv (fun _ rs => rs = ranks W)); [done | done |].
      intros a rs Ha ->. destruct (Hobj a Ha) as (Hrow & Hnorm & c & Hc).
      by apply (equipotential_applyObject W a (ranks W) c). }
    unfold oApplyCapacitanceMatrix. rewrite Hranks. by destruct W.
Qed.

Lemma levelWorld_ready :
  0 <= mpiSize levelWorld
  /\ ranksNumbered levelWorld (ranks levelWorld)
  /\ forall a, 0 <= a < nObjects levelWorld ->
       rowOrdered levelWorld a /\ sumNormalised levelWorld a
       /\ exists c, equipotential levelWorld a (ranks levelWorld) c.
Proof.
  split; [simpl; lia |]. split; [reflexivity |].
  intros a Ha. assert (a = 0) as -> by (simpl in Ha; lia).
  split; [| split].
  - split; [reflexivity |]. intros k Hk.
    assert (k = 0 \/ k = 1) as [-> | ->] by (simpl in Hk; lia);
      vm_compute; discriminate.
  - apply Qc_is_canon. reflexivity.
  - exists (Dbl.ofZ 3). intros r j [<- | [<- | []]] Hj.
    + change (0 <= j < 1) in Hj. assert (j = 0) as -> by lia.
      apply Qc_is_canon. reflexivity.
    + change (1 <= j < 2) in Hj. assert (j = 1) as -> by lia.
      apply Qc_is_canon. reflexivity.
Qed.

(** X9 on two ranks whose surface nodes are both at potential 3. *)
Lemma X9_witness : oApplyCapacitanceMatrix levelWorld = levelWorld.
Proof.
  destruct levelWorld_ready as (Hsize & Hnum & Hobj).
  exact (proj2 (X9_equipotential_surfaces_get_no_correction levelWorld
                  Hsize Hnum Hobj)).
Defined.

(** ** The charge [oCollectObjectCharge] counts *)

Lemma for_loop_preserves {S : Type} (P : S -> Prop) lo hi body (s : S) :
  P s ->
  (forall i t, lo <= i < hi -> P t -> P (body i t)) ->
  P (Arr.for_loop lo hi body s).
Proof.
  intros Hs Hstep. destruct (Z.le_gt_cases lo hi) as [Hle | Hgt].
  - by apply (for_loop_inv (fun _ t => P t)).
  - by rewrite for_loop_done by lia.
Qed.

Lemma ofZ_add x y : Dbl.ofZ (x + y) = (Dbl.ofZ x + Dbl.ofZ y)%Qc.
Proof.
  apply Qc_is_canon. unfold Dbl.ofZ, Qcplus, Q2Qc. cbn [this].
  rewrite !Qred_correct, inject_Z_plus. reflexivity.
Qed.

Lemma ofZ_0 : Dbl.ofZ 0 = 0%Qc.
Proof. apply Qc_is_canon. reflexivity. Qed.

Lemma ofZ_1 : Dbl.ofZ 1 = 1%Qc.
Proof. apply Qc_is_canon. reflexivity. Qed.

Lemma sumZ_plus {X : Type} (f h : X -> Z) l :
  sumZ (fun x => f x + h x) l = sumZ f l + sumZ h l.
Proof. unfold sumZ. induction l as [| x l IH]; simpl; lia. Qed.

Lemma sumZ_zero {X : Type} (l : list X) : sumZ (fun _ => 0) l = 0.
Proof. rewrite sumZ_const. lia. Qed.

Lemma sumZ_one_hot (c s n : Z) :
  0 <= s < n ->
  sumZ (fun s' => if decide (s' = s) then c else 0) (seqZ 0 n) = c.
Proof.
  intros Hs. replace n with (s + (1 + (n - s - 1))) by lia.
  rewrite seqZ_app, seqZ_app, !sumZ_app by lia.
  rewrite (sumZ_ext _ (fun _ => 0) (seqZ 0 s)).
  2:{ intros x Hx. apply list_elem_of_In, elem_of_seqZ in Hx.
      rewrite decide_False; [done | lia]. }
  rewrite (sumZ_ext _ (fun _ => 0) (seqZ (0 + s + 1) _)).
  2:{ intros x Hx. apply list_elem_of_In, elem_of_seqZ in Hx.
      rewrite decide_False; [done | lia]. }
  rewrite !sumZ_zero. change (seqZ (0 + s) 1) with [0 + (0 + s)].
  unfold sumZ. cbn [map fold_right]. rewrite decide_True by lia. lia.
Qed.

Lemma sumOver_one_hot (c : Qc) (s n : Z) :
  0 <= s < n ->
  sumOver (fun s' => if decide (s' = s) then c else 0%Qc) (seqZ 0 n) = c.
Proof.
  intros Hs. replace n with (s + (1 + (n - s - 1))) by lia.
  rewrite seqZ_app, seqZ_app, !sumOver_app by lia.
  rewrite (sumOver_ext _ (fun _ => 0%Qc) (seqZ 0 s)).
  2:{ intros x Hx. apply list_elem_of_In, elem_of_seqZ in Hx.
      rewrite decide_False; [done | lia]. }
  rewrite (sumOver_ext _ (fun _ => 0%Qc) (seqZ (0 + s + 1) _)).
  2:{ intros x Hx. apply list_elem_of_In, elem_of_seqZ in Hx.
      rewrite decide_False; [done | lia]. }
  rewrite !sumOver_zero. change (seqZ (0 + s) 1) with [0 + (0 + s)].
  rewrite sumOver_cons, sumOver_nil, decide_True by lia. ring.
Qed.

Lemma sumQ_alloc n : Mpi.sumQ (Arr.alloc n 0%Qc) = 0%Qc.
Proof.
  unfold Arr.alloc. induction (Z.to_nat n) as [| k IH]; [done |].
  simpl. rewrite IH. ring.
Qed.

Section Accounting.

Variables (nObj : Z) (r : Rank).
Let p0 : Population := pop r.
Hypothesis Hspecies : nSpecies p0 <= Z.of_nat (length (iStop p0)).

Let accounted : Collecting -> Prop := accountedFor nObj p0.

Lemma accounted_attribute a s pIndex st :
  0 <= a < nObj -> 0 <= s < nSpecies p0 ->
  accounted st -> accounted (attribute a s pIndex st).
Proof.
  intros Ha Hs (Hcc & Hlen & Hch & Hst & HnS & HnD & Hpos & Hsum & Hcut).
  assert (Hrem : forall s',
            removed p0 (pCut (cPop st) s pIndex) s'
            = removed p0 (cPop st) s' + if decide (s' = s) then 1 else 0).
  { intros s'. unfold removed. cbn [pCut iStop]. rewrite rdZ_wr.
    destruct (decide (s' = s)) as [-> | Hne].
    - rewrite decide_True by lia. lia.
    - rewrite decide_False by (intros [? _]; congruence). lia. }
  unfold accounted, accountedFor. cbn [attribute cPop chargeCounter cutNumber].
  cbn [pCut iStop charge iStart nSpecies nDims].
  rewrite !length_wr. repeat split; try done.
  - intros s'. rewrite Hrem. pose proof (Hpos s'). case_decide; lia.
  - rewrite sumQ_add_at by lia. rewrite Hsum, Hch. unfold chargeRemoved.
    symmetry.
    rewrite (sumOver_ext _
      (fun s' => (Arr.rdQ (charge p0) s' * Dbl.ofZ (removed p0 (cPop st) s')
                  + if decide (s' = s) then Arr.rdQ (charge p0) s else 0)%Qc)).
    2:{ intros s' _. rewrite Hrem, ofZ_add. case_decide as Hd.
        - subst s'. rewrite ofZ_1. ring.
        - rewrite ofZ_0. ring. }
    by rewrite sumOver_plus, sumOver_one_hot.
  - rewrite Hcut. symmetry.
    rewrite (sumZ_ext _
      (fun s' => removed p0 (cPop st) s' + if decide (s' = s) then 1 else 0))
      by (intros s' _; apply Hrem).
    by rewrite sumZ_plus, sumZ_one_hot.
Qed.

Lemma accounted_matchInterior s pIndex p st :
  0 <= s < nSpecies p0 ->
  accounted st -> accounted (matchInterior nObj r s pIndex p st).
Proof.
  intros Hs Hst. unfold matchInterior.
  apply for_loop_preserves; [done |]. intros a t Ha Ht.
  apply for_loop_preserves; [done |]. intros b t' _ Ht'.
  destruct (_ =? _); [by apply accounted_attribute | done].
Qed.

Lemma accounted_particleLoop fuel : forall s i st,
  0 <= s < nSpecies p0 ->
  accounted st -> accounted (particleLoop fuel nObj r s i st).
Proof.
  induction fuel as [| fuel IH]; intros s i st Hs Hst; [done |].
  simpl. destruct (i <? cStop st); [| done].
  apply IH; [done |]. by apply accounted_matchInterior.
Qed.

Lemma accounted_collectLocal : accountedFor nObj p0 (collectLocal nObj r).
Proof.
  unfold collectLocal. apply for_loop_preserves.
  - unfold accountedFor. cbn [cPop chargeCounter cutNumber]. fold p0.
    rewrite length_alloc.
    assert (Hzero : forall s, removed p0 p0 s = 0) by (intros s; unfold removed; lia).
    repeat split; try done.
    + intros s. rewrite Hzero. lia.
    + rewrite sumQ_alloc. unfold chargeRemoved.
      transitivity (sumOver (fun _ : Z => 0%Qc) (seqZ 0 (nSpecies p0)));
        [by rewrite sumOver_zero |].
      apply sumOver_ext. intros s _. rewrite Hzero, ofZ_0. ring.
    + rewrite (sumZ_ext _ (fun _ => 0)) by (intros s _; apply Hzero).
      by rewrite sumZ_zero.
  - intros s st Hs Hst. unfold speciesLoop.
    apply accounted_particleLoop; [done |].
    destruct Hst as (H1 & H2 & H3 & H4 & H5 & H6 & H7 & H8 & H9).
    unfold accounted, accountedFor. cbn [cPop chargeCounter cutNumber]. done.
Qed.

End Accounting.

Lemma sumQ_allreduce_full n (bufs : list (list Qc)) :
  0 <= n ->
  (forall b, In b bufs -> Z.of_nat (length b) = n) ->
  Mpi.sumQ (Mpi.allreduce_sum_vec n bufs) = sumOver Mpi.sumQ bufs.
Proof.
  intros Hn Hlen. rewrite sumQ_allreduce_sum_vec, sumOver_swap.
  apply sumOver_ext. intros b Hb. by rewrite sumQ_reads, (Hlen b Hb).
Qed.

(** X10.  The particle loops of [oCollectObjectCharge] count what they
    cut: on every rank [cutNumber] is the number of particles cut, the
    sum over the species of the fall of [iStop[s]]; [iStop] never
    rises, and [iStart] and [charge] are left alone.  (No arithmetic on
    doubles is involved.) *)
Theorem X10_cut_number_is_the_fall_of_iStop (nObj : Z) (r : Rank) :
  nSpecies (pop r) <= Z.of_nat (length (iStop (pop r))) ->
  let st := collectLocal nObj r in
  cutNumber st = sumZ (removed (pop r) (cPop st)) (seqZ 0 (nSpecies (pop r)))
  /\ (forall s, Arr.rdZ (iStop (cPop st)) s <= Arr.rdZ (iStop (pop r)) s)
  /\ iStart (cPop st) = iStart (pop r)
  /\ charge (cPop st) = charge (pop r).
Proof.
  intros Hsp st.
  destruct (accounted_collectLocal nObj r Hsp)
    as (_ & _ & Hch & Hst & _ & _ & Hpos & _ & Hcut).
  repeat split; try done.
  intros s. pose proof (Hpos s) as H. unfold removed in H. fold st in H. lia.
Qed.

(** X10 on rank 0 of the impact example, which loses its one particle. *)
Lemma X10_witness :
  cutNumber (collectLocal 2 (withTables 2 impactRank0))
  = sumZ (removed (pop (withTables 2 impactRank0))
                  (cPop (collectLocal 2 (withTables 2 impactRank0))))
         (seqZ 0 (nSpecies (pop (withTables 2 impactRank0)))).
Proof.
  refine (proj1 (X10_cut_number_is_the_fall_of_iStop 2
                   (withTables 2 impactRank0) _)).
  vm_compute. discriminate.
Defined.

(** X23.  In exact arithmetic (the source adds [charge[s]] to the
    counter in doubles, one rounded addition per particle):
    [oCollectObjectCharge] counts the charge it removes.  On every rank
    the charge counters add up to the charge of the particles cut from
    the population (species by species, the fall of [iStop[s]] times
    [charge[s]]), and the all-reduced counters add up to the charge cut
    on all ranks. *)
Theorem X23_counters_add_up_to_the_charge_removed (W : World) :
  0 <= nObjects W ->
  (forall r, In r (ranks W) ->
     nSpecies (pop r) <= Z.of_nat (length (iStop (pop r)))) ->
  (forall r, In r (ranks W) ->
     Mpi.sumQ (chargeCounter (collectLocal (nObjects W) r))
     = chargeRemoved (pop r) (cPop (collectLocal (nObjects W) r)))
  /\ Mpi.sumQ (collectedCharge W)
     = sumOver (fun r => chargeRemoved (pop r)
                           (cPop (collectLocal (nObjects W) r)))
         (ranks W).
Proof.
  intros HN Hsp. split.
  - intros r Hr.
    by destruct (accounted_collectLocal (nObjects W) r (Hsp r Hr))
      as (_ & _ & _ & _ & _ & _ & _ & Hsum & _).
  - unfold collectedCharge. rewrite sumQ_allreduce_full; [| done |].
    + rewrite sumOver_map. apply sumOver_ext. intros r Hr.
      by destruct (accounted_collectLocal (nObjects W) r (Hsp r Hr))
        as (_ & _ & _ & _ & _ & _ & _ & Hsum & _).
    + intros b Hb. apply in_map_iff in Hb as (r & <- & Hr).
      destruct (accounted_collectLocal (nObjects W) r (Hsp r Hr)) as (Hlen & _).
      lia.
Qed.

(** X23 on the two ranks of the impact example. *)
Lemma X23_witness :
  Mpi.sumQ (collectedCharge impactWorld)
  = sumOver (fun r => chargeRemoved (pop r)
                        (cPop (collectLocal (nObjects impactWorld) r)))
      (ranks impactWorld).
Proof.
  refine (proj2 (X23_counters_add_up_to_the_charge_removed impactWorld _ _)).
  - vm_compute. discriminate.
  - intros r [<- | [<- | []]]; vm_compute; discriminate.
Defined.

(** the particle loop is given fuel enough to reach its exit test *)
Lemma cStop_matchInterior nObj r s pIndex p st :
  cStop (matchInterior nObj r s pIndex p st) <= cStop st.
Proof.
  unfold matchInterior.
  apply (for_loop_preserves (fun t => cStop t <= cStop st)); [lia |].
  intros a t _ Ht.
  apply (for_loop_preserves (fun t => cStop t <= cStop st)); [done |].
  intros b t' _ Ht'. destruct (_ =? _); [simpl; lia | done].
Qed.

Lemma particleLoop_fuel nObj r s : forall fuel extra i st,
  cStop st - i <= Z.of_nat fuel ->
  particleLoop (fuel + extra) nObj r s i st = particleLoop fuel nObj r s i st.
Proof.
  induction fuel as [| fuel IH]; intros extra i st Hfuel.
  - destruct extra as [| extra]; [done |]. simpl.
    destruct (Z.ltb_spec i (cStop st)); [lia | done].
  - simpl. destruct (Z.ltb_spec i (cStop st)); [| done].
    apply IH.
    pose proof (cStop_matchInterior nObj r s
                  (i * nDims (cPop st)) (cellCorner r (cPop st) i) st). lia.
Qed.

(** ** The charge [oCollectObjectCharge] deposits *)

Lemma sumOver_const {X : Type} (c : Qc) (l : list X) :
  sumOver (fun _ => c) l = (c * Dbl.ofZ (Z.of_nat (length l)))%Qc.
Proof.
  induction l as [| x l IH].
  - rewrite sumOver_nil. change (Z.of_nat (length [])) with 0.
    rewrite ofZ_0. ring.
  - rewrite sumOver_cons, IH.
    replace (Z.of_nat (length (x :: l))) with (Z.of_nat (length l) + 1)
      by (simpl; lia).
    rewrite ofZ_add, ofZ_1. ring.
Qed.

Lemma length_depositCharge nObj counter inv r :
  length (depositCharge nObj counter inv r) = length (rhoObj r).
Proof.
  unfold depositCharge.
  apply (for_loop_preserves (fun v => length v = length (rhoObj r))); [done |].
  intros a v _ Hv.
  rewrite (loop_add_length (Arr.rdZ (lookupSurface r))
             (fun _ => (Arr.rdQ counter a * Arr.rdQ inv a)%Qc)). done.
Qed.

Lemma sumQ_depositCharge nObj counter inv r :
  0 <= nObj ->
  (forall a, 0 <= a < nObj ->
     Arr.rdZ (lookupSurfaceOffset r) a <= Arr.rdZ (lookupSurfaceOffset r) (a + 1)
     /\ blockInRange a r) ->
  Mpi.sumQ (depositCharge nObj counter inv r)
  = (Mpi.sumQ (rhoObj r)
     + sumOver (fun a => Arr.rdQ counter a * Arr.rdQ inv a
                         * Dbl.ofZ (nodesThisCore a r))
         (seqZ 0 nObj))%Qc.
Proof.
  intros HN Hblocks. unfold depositCharge.
  apply (for_loop_inv
    (fun n v =>
       length v = length (rhoObj r)
       /\ Mpi.sumQ v
          = (Mpi.sumQ (rhoObj r)
             + sumOver (fun a => Arr.rdQ counter a * Arr.rdQ inv a
                                 * Dbl.ofZ (nodesThisCore a r))
                 (seqZ 0 n))%Qc)); [done | |].
  - split; [done |]. change (seqZ 0 0) with (@nil Z).
    rewrite sumOver_nil. ring.
  - intros a v Ha [Hlen Hsum]. destruct (Hblocks a Ha) as [Hord Hin].
    split.
    + rewrite (loop_add_length (Arr.rdZ (lookupSurface r))
                 (fun _ => (Arr.rdQ counter a * Arr.rdQ inv a)%Qc)). done.
    + rewrite (loop_add_sum (Arr.rdZ (lookupSurface r))
                 (fun _ => (Arr.rdQ counter a * Arr.rdQ inv a)%Qc))
        by (intros b Hb; rewrite Hlen; by apply Hin).
      rewrite Hsum, sumOver_const, length_seqZ.
      rewrite seqZ_app, sumOver_app by lia.
      change (seqZ (0 + a) 1) with [0 + (0 + a)].
      rewrite sumOver_cons, sumOver_nil.
      replace (0 + (0 + a)) with a by lia. unfold nodesThisCore.
      rewrite Z2Nat.id by lia. ring.
Qed.

Lemma rd_invNrSurfNod W a :
  0 <= a < nObjects W ->
  Arr.rdQ (invNrSurfNod W) a = (1 / Dbl.ofZ (divisorSlot W a))%Qc.
Proof.
  intros Ha. unfold invNrSurfNod, divisorSlot.
  destruct (rd_loop_write
              (fun a => (1 / Dbl.ofZ (Arr.rdZ (capMatrixAllOffsets W)
                                        ((a + 1) * mpiSize W)))%Qc)
              0 (nObjects W) (Arr.alloc (nObjects W) 0%Qc)) as [_ Hrd].
  rewrite Hrd, decide_True; [done |]. rewrite length_alloc. lia.
Qed.

(** the widths of the rows of the ranks add up to the global count *)
Lemma widths_total W a :
  0 <= mpiSize W -> rowOrdered W a -> ranksNumbered W (ranks W) ->
  sumOver (fun r => Dbl.ofZ (endIndex W a r - beginIndex W a r)) (ranks W)
  = Dbl.ofZ (totSNGlob W a).
Proof.
  intros Hsize Hrow Hnum.
  pose proof (rows_partition W a Hsize Hrow (ranks W) Hnum (fun _ => 1%Qc)) as H.
  rewrite sumOver_const, length_seqZ in H.
  pose proof (T_nonneg W a Hsize Hrow) as HT.
  rewrite Z2Nat.id, Qcmult_1_l in H by lia. rewrite <- H.
  apply sumOver_ext. intros r Hr.
  destruct (rows_within W a Hsize Hrow (ranks W) Hnum r Hr) as [Hb He].
  rewrite sumOver_const, length_seqZ, Z2Nat.id by lia. ring.
Qed.

Lemma length_allreduce_sum_vec n bufs :
  0 <= n -> Z.of_nat (length (Mpi.allreduce_sum_vec n bufs)) = n.
Proof.
  intros Hn. unfold Mpi.allreduce_sum_vec. rewrite length_map, length_seqZ. lia.
Qed.

Lemma total_after_deposit (W : World) :
  0 <= mpiSize W -> 0 <= nObjects W ->
  ranksNumbered W (ranks W) ->
  (forall a, 0 <= a < nObjects W ->
     rowOrdered W a
     /\ forall r, In r (ranks W) -> rowsMatchBlock W a r /\ blockInRange a r) ->
  totalObjectCharge (ranks (oCollectObjectCharge W))
  = (totalObjectCharge (ranks W)
     + sumOver (fun a => Arr.rdQ (collectedCharge W) a
                         * (Dbl.ofZ (totSNGlob W a) / Dbl.ofZ (divisorSlot W a)))
         (seqZ 0 (nObjects W)))%Qc.
Proof.
  intros Hsize HN Hnum Hobj.
  unfold totalObjectCharge, oCollectObjectCharge. cbn [ranks].
  rewrite sumOver_map. cbn [rhoObj].
  rewrite (sumOver_ext _
    (fun r => (Mpi.sumQ (rhoObj r)
               + sumOver (fun a => Arr.rdQ (collectedCharge W) a
                                   * Arr.rdQ (invNrSurfNod W) a
                                   * Dbl.ofZ (nodesThisCore a r))
                   (seqZ 0 (nObjects W)))%Qc)).
  2:{ intros r Hr. apply sumQ_depositCharge; [done |]. intros a Ha.
      destruct (Hobj a Ha) as [_ Hr'].
      destruct (Hr' r Hr) as [(Hw & H0 & Hend) Hin].
      destruct (rows_within W a Hsize (proj1 (Hobj a Ha)) (ranks W) Hnum r Hr).
      split; [lia | done]. }
  rewrite sumOver_plus. f_equal. rewrite sumOver_swap.
  apply sumOver_ext. intros a Ha. apply list_elem_of_In, elem_of_seqZ in Ha.
  destruct (Hobj a ltac:(lia)) as [Hrow Hr'].
  rewrite rd_invNrSurfNod by lia.
  rewrite <- (widths_total W a Hsize Hrow Hnum).
  rewrite (sumOver_ext _
    (fun r => (Arr.rdQ (collectedCharge W) a * (1 / Dbl.ofZ (divisorSlot W a))
               * Dbl.ofZ (endIndex W a r - beginIndex W a r))%Qc)).
  2:{ intros r Hr. destruct (Hr' r Hr) as [(Hw & _) _].
      unfold nodesThisCore. by rewrite <- Hw. }
  rewrite sumOver_scale_l. unfold Qcdiv. ring.
Qed.

Lemma ofZ_eq_0 z : Dbl.ofZ z = 0%Qc -> z = 0.
Proof.
  intros H.
  assert (Hq : (inject_Z z == 0)%Q).
  { rewrite <- (Qred_correct (inject_Z z)).
    change (Qred (inject_Z z)) with (this (Dbl.ofZ z)). by rewrite H. }
  unfold Qeq in Hq. simpl in Hq. lia.
Qed.

(** X11.  In exact arithmetic (the source computes the reciprocal
    [1.0/nodCorGlob[(a+1)*size]] and the deposits in doubles, each of
    them rounded): [oCollectObjectCharge] raises the sum of [rhoObj]
    over all nodes of all ranks by the all-reduced counter of every
    object times the global surface count [T] of the object over the
    entry [nodCorGlob[(a+1)*size]] it divides by (taken non-zero).  For
    the first object that entry is the global count itself, so with
    one object the whole collected charge is deposited. *)
Theorem X11_deposit_scales_the_counters (W : World) :
  0 <= mpiSize W -> 0 <= nObjects W ->
  ranksNumbered W (ranks W) ->
  (forall a, 0 <= a < nObjects W ->
     divisorSlot W a <> 0
     /\ rowOrdered W a
     /\ forall r, In r (ranks W) -> rowsMatchBlock W a r /\ blockInRange a r) ->
  totalObjectCharge (ranks (oCollectObjectCharge W))
  = (totalObjectCharge (ranks W)
     + sumOver (fun a => Arr.rdQ (collectedCharge W) a
                         * (Dbl.ofZ (totSNGlob W a) / Dbl.ofZ (divisorSlot W a)))
         (seqZ 0 (nObjects W)))%Qc
  /\ divisorSlot W 0 = totSNGlob W 0
  /\ (nObjects W = 1 ->
      totalObjectCharge (ranks (oCollectObjectCharge W))
      = (totalObjectCharge (ranks W) + Mpi.sumQ (collectedCharge W))%Qc).
Proof.
  intros Hsize HN Hnum Hobj.
  assert (Htotal := total_after_deposit W Hsize HN Hnum
                      (fun a Ha => proj2 (Hobj a Ha))).
  assert (Hslot : divisorSlot W 0 = totSNGlob W 0).
  { unfold divisorSlot, totSNGlob. f_equal. lia. }
  split; [exact Htotal |]. split; [exact Hslot |].
  intros H1. rewrite Htotal, H1. f_equal.
  change (seqZ 0 1) with [0 + 0]. rewrite sumOver_cons, sumOver_nil.
  change (0 + 0) with 0.
  destruct (Hobj 0 ltac:(lia)) as (Hdiv & _).
  rewrite Hslot in *.
  assert (Hne : Dbl.ofZ (totSNGlob W 0) <> 0%Qc).
  { intros Heq. by apply Hdiv, ofZ_eq_0. }
  assert (Hlen : Z.of_nat (length (collectedCharge W)) = 1).
  { unfold collectedCharge. rewrite length_allreduce_sum_vec; lia. }
  rewrite sumQ_reads, Hlen.
  change (seqZ 0 1) with [0 + 0]. rewrite sumOver_cons, sumOver_nil.
  change (0 + 0) with 0. field. exact Hne.
Qed.

Lemma impactWorld_ready :
  0 <= mpiSize impactWorld /\ 0 <= nObjects impactWorld
  /\ ranksNumbered impactWorld (ranks impactWorld)
  /\ forall a, 0 <= a < nObjects impactWorld ->
       divisorSlot impactWorld a <> 0
       /\ rowOrdered impactWorld a
       /\ forall r, In r (ranks impactWorld) ->
            rowsMatchBlock impactWorld a r /\ blockInRange a r.
Proof.
  split; [simpl; lia |]. split; [simpl; lia |]. split; [reflexivity |].
  intros a Ha. change (0 <= a < 2) in Ha.
  assert (Hcases : a = 0 \/ a = 1) by lia.
  destruct Hcases as [-> | ->].
  - split; [vm_compute; discriminate |]. split.
    + split; [reflexivity |]. intros k Hk. change (0 <= k < 2) in Hk.
      assert (Hk' : k = 0 \/ k = 1) by lia.
      destruct Hk' as [-> | ->]; vm_compute; discriminate.
    + intros r [<- | [<- | []]]; (split;
        [vm_compute; (split; [reflexivity | split; discriminate]) |]).
      * intros b Hb. change (0 <= b < 1) in Hb. assert (b = 0) as -> by lia.
        vm_compute. split; [discriminate | reflexivity].
      * intros b Hb. change (0 <= b < 2) in Hb.
        assert (Hb' : b = 0 \/ b = 1) by lia.
        destruct Hb' as [-> | ->]; vm_compute;
          (split; [discriminate | reflexivity]).
  - split; [vm_compute; discriminate |]. split.
    + split; [reflexivity |]. intros k Hk. change (0 <= k < 2) in Hk.
      assert (Hk' : k = 0 \/ k = 1) by lia.
      destruct Hk' as [-> | ->]; vm_compute; discriminate.
    + intros r [<- | [<- | []]]; (split;
        [vm_compute; (split; [reflexivity | split; discriminate]) |]).
      * intros b Hb. change (1 <= b < 3) in Hb.
        assert (Hb' : b = 1 \/ b = 2) by lia.
        destruct Hb' as [-> | ->]; vm_compute;
          (split; [discriminate | reflexivity]).
      * intros b Hb. change (2 <= b < 3) in Hb. assert (b = 2) as -> by lia.
        vm_compute. split; [discriminate | reflexivity].
Qed.

(** X11 on the two ranks of the impact example. *)
Lemma X11_witness :
  totalObjectCharge (ranks (oCollectObjectCharge impactWorld))
  = (totalObjectCharge (ranks impactWorld)
     + sumOver (fun a => Arr.rdQ (collectedCharge impactWorld) a
                         * (Dbl.ofZ (totSNGlob impactWorld a)
                            / Dbl.ofZ (divisorSlot impactWorld a)))
         (seqZ 0 (nObjects impactWorld)))%Qc.
Proof.
  destruct impactWorld_ready as (Hsize & HN & Hnum & Hobj).
  exact (proj1 (X11_deposit_scales_the_counters impactWorld Hsize HN Hnum Hobj)).
Defined.

Lemma oAlloc_halo : oAlloc 1 [haloRank] = Returned haloWorld.
Proof. vm_compute. reflexivity. Qed.

(** X12.  In exact arithmetic (the counters, the reciprocal and the
    deposits of the source are rounded doubles): with a single object
    whose surface is not empty, one call of [oCollectObjectCharge]
    moves charge without losing any, the sum of [rhoObj] over all nodes
    of all ranks rises by the charge of the particles the call cuts
    from the populations. *)
Theorem X12_single_object_keeps_the_collected_charge (W : World) :
  0 <= mpiSize W -> nObjects W = 1 ->
  ranksNumbered W (ranks W) ->
  totSNGlob W 0 <> 0 ->
  rowOrdered W 0 ->
  (forall r, In r (ranks W) ->
     rowsMatchBlock W 0 r /\ blockInRange 0 r
     /\ nSpecies (pop r) <= Z.of_nat (length (iStop (pop r)))) ->
  let W' := oCollectObjectCharge W in
  map pop (ranks W')
  = map (fun r => cPop (collectLocal (nObjects W) r)) (ranks W)
  /\ totalObjectCharge (ranks W')
     = (totalObjectCharge (ranks W)
        + sumOver (fun r => chargeRemoved (pop r)
                              (cPop (collectLocal (nObjects W) r)))
            (ranks W))%Qc.
Proof.
  intros Hsize H1 Hnum HT Hrow Hranks W'. split.
  - unfold W', oCollectObjectCharge. cbn [ranks]. by rewrite map_map.
  - assert (Hslot : divisorSlot W 0 = totSNGlob W 0).
    { unfold divisorSlot, totSNGlob. f_equal. lia. }
    assert (Hobj : forall a, 0 <= a < nObjects W ->
              rowOrdered W a
              /\ forall r, In r (ranks W) ->
                   rowsMatchBlock W a r /\ blockInRange a r).
    { intros a Ha. assert (a = 0) as -> by lia. split; [done |].
      intros r Hr. destruct (Hranks r Hr) as (? & ? & _). done. }
    unfold W'. rewrite (total_after_deposit W Hsize ltac:(lia) Hnum Hobj).
    f_equal. rewrite H1.
    change (seqZ 0 1) with [0 + 0]. rewrite sumOver_cons, sumOver_nil.
    change (0 + 0) with 0. rewrite Hslot.
    assert (Hne : Dbl.ofZ (totSNGlob W 0) <> 0%Qc)
      by (intros Heq; by apply HT, ofZ_eq_0).
    transitivity (Mpi.sumQ (collectedCharge W)).
    + assert (Hlen : Z.of_nat (length (collectedCharge W)) = 1).
      { unfold collectedCharge. rewrite length_allreduce_sum_vec; lia. }
      rewrite sumQ_reads, Hlen.
      change (seqZ 0 1) with [0 + 0]. rewrite sumOver_cons, sumOver_nil.
      change (0 + 0) with 0. field. exact Hne.
    + unfold collectedCharge. rewrite sumQ_allreduce_full; [| lia |].
      * rewrite sumOver_map, H1. apply sumOver_ext. intros r Hr.
        destruct (Hranks r Hr) as (_ & _ & Hsp).
        by destruct (accounted_collectLocal 1 r Hsp)
          as (_ & _ & _ & _ & _ & _ & _ & Hsum & _).
      * intros b Hb. apply in_map_iff in Hb as (r & <- & Hr).
        destruct (Hranks r Hr) as (_ & _ & Hsp).
        destruct (accounted_collectLocal (nObjects W) r Hsp) as (Hlen & _).
        lia.
Qed.

Lemma haloWorld_ready :
  rowOrdered haloWorld 0
  /\ forall r, In r (ranks haloWorld) ->
       rowsMatchBlock haloWorld 0 r /\ blockInRange 0 r
       /\ nSpecies (pop r) <= Z.of_nat (length (iStop (pop r))).
Proof.
  split.
  - split; [reflexivity |]. intros k Hk. change (0 <= k < 1) in Hk.
    assert (k = 0) as -> by lia. vm_compute. discriminate.
  - intros r [<- | []]. split; [| split].
    + vm_compute. split; [reflexivity | split; discriminate].
    + intros b Hb. change (0 <= b < 8) in Hb.
      assert (Hb' : b = 0 \/ b = 1 \/ b = 2 \/ b = 3 \/ b = 4 \/ b = 5
                    \/ b = 6 \/ b = 7) by lia.
      repeat (destruct Hb' as [-> | Hb'];
              [vm_compute; split; [discriminate | reflexivity] |]).
      subst b. vm_compute. split; [discriminate | reflexivity].
    + vm_compute. discriminate.
Qed.

(** X12 on the halo rank, whose one particle is cut. *)
Lemma X12_witness :
  totalObjectCharge (ranks (oCollectObjectCharge haloWorld))
  = (totalObjectCharge (ranks haloWorld)
     + sumOver (fun r => chargeRemoved (pop r)
                           (cPop (collectLocal (nObjects haloWorld) r)))
         (ranks haloWorld))%Qc.
Proof.
  destruct haloWorld_ready as (Hrow & Hranks).
  refine (proj2 (X12_single_object_keeps_the_collected_charge haloWorld
                   _ eq_refl eq_refl _ Hrow Hranks)).
  - vm_compute. discriminate.
  - vm_compute. discriminate.
Defined.

(** ** What [oCollectObjectCharge] leaves alone *)

Lemma rd_depositCharge_frame nObj counter inv r m :
  (forall a b, 0 <= a < nObj ->
     Arr.rdZ (lookupSurfaceOffset r) a <= b
     < Arr.rdZ (lookupSurfaceOffset r) (a + 1) ->
     Arr.rdZ (lookupSurface r) b <> m) ->
  Arr.rdQ (depositCharge nObj counter inv r) m = Arr.rdQ (rhoObj r) m.
Proof.
  intros Hm. unfold depositCharge.
  apply (for_loop_preserves (fun v => Arr.rdQ v m = Arr.rdQ (rhoObj r) m));
    [done |].
  intros a v Ha Hv.
  rewrite (loop_add_frame (Arr.rdZ (lookupSurface r))
             (fun _ => (Arr.rdQ counter a * Arr.rdQ inv a)%Qc));
    [done |].
  intros b Hb. by apply Hm with a.
Qed.

(** X13.  [oCollectObjectCharge] leaves the replicated object data, the
    object map, the lookup tables and the grids [rho] and [phi] of
    every rank as they were; of [rhoObj] it changes only entries at
    nodes listed in the surface blocks of that rank. *)
Theorem X13_collector_changes_particles_and_surface_charge_only (W : World) :
  let W' := oCollectObjectCharge W in
  mpiSize W' = mpiSize W
  /\ nObjects W' = nObjects W
  /\ capMatrixAllOffsets W' = capMatrixAllOffsets W
  /\ capMatrixAll W' = capMatrixAll W
  /\ capMatrixSum W' = capMatrixSum W
  /\ Forall2 (collectorFrame (nObjects W)) (ranks W) (ranks W').
Proof.
  intros W'. repeat split; try reflexivity.
  unfold W', oCollectObjectCharge. cbn [ranks].
  generalize (collectedCharge W) (invNrSurfNod W). intros counter inv.
  induction (ranks W) as [| r rs IH]; [constructor |].
  simpl. constructor; [| exact IH].
  unfold collectorFrame.
  cbn [mpiRank domain lookupInterior lookupInteriorOffset lookupSurface
       lookupSurfaceOffset rho phi rhoObj].
  repeat split; try reflexivity.
  - apply length_depositCharge.
  - intros m Hm. by apply rd_depositCharge_frame.
Qed.

(** ** [oCollectObjectCharge] when no particle is inside an object *)

Section NoImpact.

Variables (nObj : Z) (r0 : Rank).
Let r : Rank := withTables nObj r0.
Hypothesis Htags : tagsWithin (domain r0) nObj = true.
Hypothesis Hout : noParticleInside r.

Lemma pop_withTables : pop r = pop r0.
Proof.
  unfold r, withTables.
  destruct (oFillLookupTables (domain r0) nObj),
           (oFindObjectSurfaceNodes (domain r0) nObj). done.
Qed.

Lemma particleLoop_miss s fuel : forall i st,
  cPop st = pop r ->
  0 <= s < nSpecies (pop r) ->
  Arr.rdZ (iStart (pop r)) s <= i ->
  cStop st <= Arr.rdZ (iStop (pop r)) s ->
  particleLoop fuel nObj r s i st = st.
Proof.
  induction fuel as [| fuel IH]; intros i st Hpop Hs Hi Hstop; [done |].
  simpl. destruct (Z.ltb_spec i (cStop st)); [| done].
  rewrite Hpop.
  rewrite (matchInterior_untagged r0 nObj Htags).
  - apply IH; (done || lia).
  - fold r. replace (domain r0) with (domain r)
      by (unfold r; apply withTables_domain).
    apply (Hout s i); [done | lia].
Qed.

Lemma collectLocal_miss :
  cPop (collectLocal nObj r) = pop r
  /\ chargeCounter (collectLocal nObj r) = Arr.alloc nObj 0%Qc
  /\ cutNumber (collectLocal nObj r) = 0.
Proof.
  unfold collectLocal.
  apply (for_loop_preserves
    (fun st => cPop st = pop r
               /\ chargeCounter st = Arr.alloc nObj 0%Qc
               /\ cutNumber st = 0)); [done |].
  intros s st Hs (Hp & Hc & Hn). unfold speciesLoop.
  rewrite particleLoop_miss; cbn [cPop chargeCounter cutNumber cStop];
    rewrite ?Hp; (done || lia).
Qed.

End NoImpact.

Lemma rd_allreduce_zeros n (bufs : list (list Qc)) i :
  (forall b, In b bufs -> b = Arr.alloc n 0%Qc) ->
  Arr.rdQ (Mpi.allreduce_sum_vec n bufs) i = 0%Qc.
Proof.
  intros Hb. rewrite rd_allreduce_sum_vec. case_decide; [| done].
  transitivity (sumOver (fun _ : list Qc => 0%Qc) bufs); [| apply sumOver_zero].
  apply sumOver_ext. intros b Hin. rewrite (Hb b Hin). apply rd_alloc.
Qed.

(** X14.  On the object [oAlloc] returns, a call of
    [oCollectObjectCharge] when no particle has the lower corner of its
    cell on an object node changes nothing: no particle is cut, the
    counters stay at zero and [rhoObj] keeps its values (the entries of
    [nodCorGlob] divided by are taken non-zero: the source multiplies
    the zero counter by their reciprocal). *)
Theorem X14_no_particle_inside_means_no_change
    (size : Z) (rs : list Rank) (W : World) :
  oAlloc size rs = Returned W ->
  (forall a, 0 <= a < nObjects W -> divisorSlot W a <> 0) ->
  (forall r, In r (ranks W) -> noParticleInside r) ->
  oCollectObjectCharge W = W
  /\ forall a, Arr.rdQ (collectedCharge W) a = 0%Qc.
Proof.
  intros Halloc _ Hout.
  pose proof (oAlloc_tagsWithin size rs W Halloc) as Htags.
  assert (Hranks : exists rs0, ranks W = map (withTables (nObjects W)) rs0).
  { revert Halloc. unfold oAlloc.
    destruct (oGatherSurfaceNodes size _ _) as [glob total].
    intros [= <-]. cbn [ranks nObjects]. by exists rs. }
  destruct Hranks as [rs0 Hranks].
  assert (Hmiss : forall r, In r (ranks W) ->
            cPop (collectLocal (nObjects W) r) = pop r
            /\ chargeCounter (collectLocal (nObjects W) r)
               = Arr.alloc (nObjects W) 0%Qc).
  { intros r Hr. pose proof (Hout r Hr) as Hr'.
    rewrite Forall_forall in Htags.
    pose proof (Htags r (proj2 (list_elem_of_In _ _) Hr)) as Ht.
    rewrite Hranks in Hr. apply in_map_iff in Hr as (r0 & <- & _).
    rewrite withTables_domain in Ht.
    destruct (collectLocal_miss (nObjects W) r0 Ht Hr') as (H1 & H2 & _).
    done. }
  assert (Hzero : forall a, Arr.rdQ (collectedCharge W) a = 0%Qc).
  { intros a. unfold collectedCharge. apply rd_allreduce_zeros.
    intros b Hb. apply in_map_iff in Hb as (r & <- & Hr).
    by destruct (Hmiss r Hr). }
  split; [| exact Hzero].
  unfold oCollectObjectCharge.
  assert (Hsame : map (fun r =>
      {| mpiRank := mpiRank r;
         pop := cPop (collectLocal (nObjects W) r);
         domain := domain r;
         lookupInterior := lookupInterior r;
         lookupInteriorOffset := lookupInteriorOffset r;
         lookupSurface := lookupSurface r;
         lookupSurfaceOffset := lookupSurfaceOffset r;
         rho := rho r; phi := phi r;
         rhoObj := depositCharge (nObjects W) (collectedCharge W)
                     (invNrSurfNod W) r |}) (ranks W) = ranks W).
  { transitivity (map (fun r : Rank => r) (ranks W)); [| apply map_id].
    apply map_ext_in. intros r Hr.
    destruct (Hmiss r Hr) as [-> _].
    assert (Hdep : depositCharge (nObjects W) (collectedCharge W)
                     (invNrSurfNod W) r = rhoObj r).
    { unfold depositCharge.
      apply (for_loop_preserves (fun v => v = rhoObj r)); [done |].
      intros a v _ ->. apply loop_add_nothing.
      intros b _. rewrite Hzero. ring. }
    rewrite Hdep. by destruct r. }
  rewrite Hsame. by destruct W.
Qed.

Lemma oAlloc_stray : oAlloc 1 [strayRank] = Returned strayWorld.
Proof. vm_compute. reflexivity. Qed.

(** X14 on the rank whose one particle is outside the object. *)
Lemma X14_witness : oCollectObjectCharge strayWorld = strayWorld.
Proof.
  refine (proj1 (X14_no_particle_inside_means_no_change 1 [strayRank]
                   strayWorld oAlloc_stray _ _)).
  - intros a Ha. change (0 <= a < 1) in Ha. assert (a = 0) as -> by lia.
    vm_compute. discriminate.
  - intros r [<- | []] s i Hs Hi.
    change (0 <= s < 1) in Hs. assert (s = 0) as -> by lia.
    change (0 <= i < 1) in Hi. assert (i = 0) as -> by lia.
    vm_compute. intros [_ H]. discriminate H.
Defined.

(** ** The loop over the columns in [oComputeCapacitanceMatrix] *)

(** What the two walks along [nodCorGlob] return: a walk stops on a
    test whose two entries are entries of the array, and a walk
    without a result has reached a test that reads outside the array
    (the fuel [fuelOf W] does not run out before). *)

Lemma nextCore_stops_inside (W : World) (a : Z) fuel : forall j inode j2 inode2,
  nextCore fuel W a j inode = Some (j2, inode2) ->
  j <= j2 /\ coreInArray W a j2 = true.
Proof.
  induction fuel as [| fuel IH]; intros j inode j2 inode2 H; [done |].
  simpl in H. destruct (coreInArray W a j) eqn:Hin; [| done].
  destruct (inode >? nodesOnCore W a j - 1).
  - apply IH in H. split; [lia | apply H].
  - injection H as <- <-. split; [lia | done].
Qed.

Lemma nextCore_none_outside (W : World) (a : Z) fuel : forall j inode,
  0 <= a * (mpiSize W + 1) + j ->
  Z.of_nat (length (capMatrixAllOffsets W)) - (a * (mpiSize W + 1) + j + 1)
  < Z.of_nat fuel ->
  nextCore fuel W a j inode = None ->
  exists j',
    j <= j' /\ coreInArray W a j' = false
    /\ forall k, j <= k < j' ->
         coreInArray W a k = true
         /\ (if decide (k = j) then inode else 0) > nodesOnCore W a k - 1.
Proof.
  induction fuel as [| fuel IH]; intros j inode Hlo Hfuel H.
  - exists j. split; [lia |]. split; [| intros k Hk; lia].
    unfold coreInArray. apply andb_false_intro2, Z.ltb_ge. lia.
  - simpl in H. destruct (coreInArray W a j) eqn:Hin.
    2:{ exists j. split; [lia |]. split; [done | intros k Hk; lia]. }
    destruct (Z.gtb_spec inode (nodesOnCore W a j - 1)) as [Hgt | _]; [| done].
    destruct (IH (j + 1) 0 ltac:(lia) ltac:(lia) H)
      as (j' & Hj' & Hout & Hwalk).
    exists j'. split; [lia |]. split; [done |].
    intros k Hk. destruct (decide (k = j)) as [-> | Hne].
    + split; [done | lia].
    + destruct (Hwalk k ltac:(lia)) as [Hk1 Hk2]. split; [done |].
      destruct (decide (k = j + 1)); lia.
Qed.

Lemma skipEmptyCores_stops_inside (W : World) (a : Z) fuel : forall j j1,
  skipEmptyCores fuel W a j = Some j1 ->
  j <= j1 /\ coreInArray W a j1 = true.
Proof.
  induction fuel as [| fuel IH]; intros j j1 H; [done |].
  simpl in H. destruct (coreInArray W a j) eqn:Hin; [| done].
  destruct (nodesOnCore W a j =? 0).
  - apply IH in H. split; [lia | apply H].
  - injection H as <-. split; [lia | done].
Qed.

Lemma skipEmptyCores_none_outside (W : World) (a : Z) fuel : forall j,
  0 <= a * (mpiSize W + 1) + j ->
  Z.of_nat (length (capMatrixAllOffsets W)) - (a * (mpiSize W + 1) + j + 1)
  < Z.of_nat fuel ->
  skipEmptyCores fuel W a j = None ->
  exists j',
    j <= j' /\ coreInArray W a j' = false
    /\ forall k, j <= k < j' ->
         coreInArray W a k = true /\ nodesOnCore W a k = 0.
Proof.
  induction fuel as [| fuel IH]; intros j Hlo Hfuel H.
  - exists j. split; [lia |]. split; [| intros k Hk; lia].
    unfold coreInArray. apply andb_false_intro2, Z.ltb_ge. lia.
  - simpl in H. destruct (coreInArray W a j) eqn:Hin.
    2:{ exists j. split; [lia |]. split; [done | intros k Hk; lia]. }
    destruct (Z.eqb_spec (nodesOnCore W a j) 0) as [Heq | _]; [| done].
    destruct (IH (j + 1) ltac:(lia) ltac:(lia) H)
      as (j' & Hj' & Hout & Hwalk).
    exists j'. split; [lia |]. split; [done |].
    intros k Hk. destruct (decide (k = j)) as [-> | Hne]; [done |].
    apply Hwalk. lia.
Qed.

Section ColumnCounters.

Variables (W : World) (a : Z).
Hypothesis Ha : 0 <= a.
Hypothesis Hsize : 0 <= mpiSize W.
Hypothesis Hrow : rowOrdered W a.

Let size : Z := mpiSize W.
Let G : Z -> Z := rowEntry W a.
Let T : Z := totSNGlob W a.

Lemma rowEntry_total : T = G size.
Proof. reflexivity. Qed.

Lemma rowEntry_mono x y : 0 <= x <= y -> y <= size -> G x <= G y.
Proof. apply (G_chain W a Hrow). Qed.

Lemma rowEntry_zero : G 0 = 0.
Proof. apply (G_zero W a Hrow). Qed.

Lemma nodesOnCore_rowEntry j : nodesOnCore W a j = G (j + 1) - G j.
Proof.
  unfold nodesOnCore, G, rowEntry. do 2 f_equal. lia.
Qed.

Lemma fuel_covers_the_row : 0 < T -> size < Z.of_nat (fuelOf W).
Proof.
  intros HT. unfold fuelOf.
  destruct (Z.le_gt_cases (Z.of_nat (length (capMatrixAllOffsets W)))
              (a * (size + 1) + size)) as [Hout | Hin].
  - unfold T, totSNGlob in HT. fold size in HT.
    rewrite (rd_outside 0 (capMatrixAllOffsets W)) in HT by lia. lia.
  - nia.
Qed.

Lemma row_in_array j : 0 < T -> 0 <= j < size -> coreInArray W a j = true.
Proof.
  intros HT Hj. unfold coreInArray. fold size.
  destruct (Z.le_gt_cases (Z.of_nat (length (capMatrixAllOffsets W)))
              (a * (size + 1) + size)) as [Hout | Hin].
  - unfold T, totSNGlob in HT. fold size in HT.
    rewrite (rd_outside 0 (capMatrixAllOffsets W)) in HT by lia. lia.
  - apply andb_true_intro. split; [apply Z.leb_le; nia | apply Z.ltb_lt; lia].
Qed.

Lemma skipEmptyCores_spec fuel : forall j,
  0 <= j < size -> G j < T -> size - j <= Z.of_nat fuel ->
  exists j1, skipEmptyCores fuel W a j = Some j1
             /\ j <= j1 < size /\ G j1 = G j /\ G j1 < G (j1 + 1).
Proof.
  induction fuel as [| fuel IH]; intros j Hj HG Hfuel; [lia |].
  pose proof (rowEntry_mono 0 j ltac:(lia) ltac:(lia)) as H0.
  rewrite rowEntry_zero in H0.
  simpl. rewrite row_in_array, nodesOnCore_rowEntry by lia.
  pose proof (rowEntry_mono j (j + 1) ltac:(lia) ltac:(lia)) as Hstep.
  destruct (Z.eqb_spec (G (j + 1) - G j) 0) as [Heq | Hne].
  - assert (j + 1 < size).
    { destruct (decide (j + 1 = size)) as [Hlast | ?]; [| lia].
      rewrite rowEntry_total, <- Hlast in HG. lia. }
    destruct (IH (j + 1) ltac:(lia) ltac:(lia) ltac:(lia))
      as (j1 & Hskip & Hj1 & HG1 & Hnext).
    exists j1. repeat split; (done || lia).
  - exists j. repeat split; (done || lia).
Qed.

Lemma nextCore_spec fuel : forall j inode,
  0 <= j < size -> 0 <= inode -> G j + inode < T ->
  G j + inode <= G (j + 1) -> size - j <= Z.of_nat fuel ->
  exists j2 inode2,
    nextCore fuel W a j inode = Some (j2, inode2)
    /\ j <= j2 < size /\ G j2 + inode2 = G j + inode
    /\ 0 <= inode2 < G (j2 + 1) - G j2.
Proof.
  induction fuel as [| fuel IH]; intros j inode Hj Hin HT Hle Hfuel; [lia |].
  pose proof (rowEntry_mono 0 j ltac:(lia) ltac:(lia)) as H0.
  rewrite rowEntry_zero in H0.
  simpl. rewrite row_in_array, nodesOnCore_rowEntry by lia.
  destruct (Z.gtb_spec inode (G (j + 1) - G j - 1)) as [Hgt | Hok].
  - assert (Heq : G j + inode = G (j + 1)) by lia.
    assert (j + 1 < size).
    { destruct (decide (j + 1 = size)) as [Hlast | ?]; [| lia].
      rewrite rowEntry_total, <- Hlast in HT. lia. }
    pose proof (rowEntry_mono (j + 1) (j + 1 + 1) ltac:(lia) ltac:(lia)).
    destruct (IH (j + 1) 0 ltac:(lia) ltac:(lia) ltac:(lia) ltac:(lia)
                ltac:(lia)) as (j2 & inode2 & Hnext & Hj2 & HG2 & Hin2).
    exists j2, inode2. repeat split; (done || lia).
  - exists j, inode. repeat split; (done || lia).
Qed.

Lemma standsAt_columnAt i ctr :
  0 <= i < T -> standsAt W a i ctr -> exists j1, columnAt W a i ctr j1.
Proof.
  intros Hi (j & inode & -> & Hj & Hin & HG & Hcase).
  change (0 <= j < size) in Hj. change (G j + inode = i) in HG.
  change (inode = 0 \/ inode < G (j + 1) - G j) in Hcase.
  assert (Hfuel : size - j <= Z.of_nat (fuelOf W))
    by (pose proof (fuel_covers_the_row ltac:(lia)); lia).
  destruct Hcase as [-> | Hlt].
  - destruct (skipEmptyCores_spec (fuelOf W) j Hj ltac:(lia) Hfuel)
      as (j1 & Hskip & Hj1 & HG1 & Hnext).
    exists j1, j, 0. fold size G. repeat split; (done || lia).
  - exists j, j, inode. fold size G. repeat split; try (done || lia).
    unfold fuelOf. simpl. rewrite row_in_array, nodesOnCore_rowEntry by lia.
    destruct (Z.eqb_spec (G (j + 1) - G j) 0); [lia | done].
Qed.

(** the closing [while] after a column that is not the last *)
Lemma capAdvance_step i j1 cs :
  0 <= i -> i + 1 < T -> 0 <= j1 < size -> G j1 <= i < G (j1 + 1) ->
  exists ctr',
    capAdvance W a ((j1, i - G j1), cs) = Some (ctr', cs)
    /\ standsAt W a (i + 1) ctr'.
Proof.
  intros Hi Hnext Hj1 HG.
  assert (Hfuel : size - j1 <= Z.of_nat (fuelOf W))
    by (pose proof (fuel_covers_the_row ltac:(lia)); lia).
  destruct (nextCore_spec (fuelOf W) j1 (i - G j1 + 1) Hj1 ltac:(lia)
              ltac:(lia) ltac:(lia) Hfuel)
    as (j2 & inode2 & Hn & Hj2 & HG2 & Hin2).
  exists (j2, inode2). unfold capAdvance. rewrite Hn. split; [done |].
  exists j2, inode2. fold size G. repeat split; (done || lia).
Qed.

(** the closing [while] walks on for as long as no later core has a
    surface node *)
Lemma nextCore_leaves fuel : forall j inode,
  inode > nodesOnCore W a j - 1 ->
  (forall j', j < j' -> nodesOnCore W a j' <= 0) ->
  nextCore fuel W a j inode = None.
Proof.
  induction fuel as [| fuel IH]; intros j inode Hin Hlater; [done |].
  simpl. destruct (coreInArray W a j); [| done].
  destruct (Z.gtb_spec inode (nodesOnCore W a j - 1)) as [_ | Hno]; [| lia].
  apply IH.
  - specialize (Hlater (j + 1) ltac:(lia)). lia.
  - intros j' Hj'. apply Hlater. lia.
Qed.

Variable solve : list (list Qc) -> list (list Qc).

Lemma capFill_step i ctr cs :
  0 <= i < T -> standsAt W a i ctr ->
  exists j1,
    columnAt W a i ctr j1
    /\ capFill solve W a i (ctr, cs)
       = Some ((j1, i - G j1),
               map (fillColumn W a i)
                 (map (resetCharge j1 (i - G j1))
                    (runSolver solve
                       (map (placeCharge a j1 (i - G j1)) cs)))).
Proof.
  intros Hi Hst.
  destruct (standsAt_columnAt i ctr Hi Hst) as (j1 & Hcol).
  pose proof Hcol as (j & inode & -> & Hskip & Hj1 & HG & ->).
  exists j1. split; [exact Hcol |].
  unfold capFill. by rewrite Hskip.
Qed.

Lemma capColumn_step i ctr cs :
  0 <= i -> i + 1 < T -> standsAt W a i ctr ->
  exists j1 ctr',
    columnAt W a i ctr j1
    /\ capColumn solve W a i (ctr, cs)
       = Some (ctr',
               map (fillColumn W a i)
                 (map (resetCharge j1 (i - G j1))
                    (runSolver solve
                       (map (placeCharge a j1 (i - G j1)) cs))))
    /\ standsAt W a (i + 1) ctr'.
Proof.
  intros Hi Hnext Hst.
  destruct (capFill_step i ctr cs ltac:(lia) Hst) as (j1 & Hcol & Hfill).
  pose proof Hcol as (j & inode & _ & _ & Hj1 & HG & _).
  fold size G in Hj1, HG.
  destruct (capAdvance_step i j1
              (map (fillColumn W a i)
                 (map (resetCharge j1 (i - G j1))
                    (runSolver solve
                       (map (placeCharge a j1 (i - G j1)) cs))))
              Hi Hnext Hj1 HG) as (ctr' & Hadv & Hst').
  exists j1, ctr'. split; [exact Hcol |]. split; [| exact Hst'].
  unfold capColumn. by rewrite Hfill.
Qed.

Lemma capColumnsUpTo_stands cs n :
  0 <= n < T ->
  exists ctr cs',
    capColumnsUpTo solve W a n cs = Some (ctr, cs')
    /\ standsAt W a n ctr.
Proof.
  intros Hn. unfold capColumnsUpTo.
  apply (for_loop_inv
    (fun (k : Z) (st : option ((Z * Z) * list CapRank)) =>
       exists ctr cs', st = Some (ctr, cs') /\ standsAt W a k ctr));
    [lia | |].
  - exists (0, 0), cs. split; [done |].
    exists 0, 0. fold size G. rewrite rowEntry_zero.
    pose proof (rowEntry_mono 0 size ltac:(lia) ltac:(lia)) as Hm.
    rewrite rowEntry_zero in Hm.
    assert (0 < size).
    { destruct (decide (size = 0)) as [H0 | ?]; [| lia].
      assert (HT : 0 < T) by lia.
      rewrite rowEntry_total, H0, rowEntry_zero in HT. lia. }
    repeat split; (done || lia || by left).
  - intros k st Hk (ctr & cs' & -> & Hst).
    destruct (capColumn_step k ctr cs' ltac:(lia) ltac:(lia) Hst)
      as (j1 & ctr' & _ & Hcol & Hnext).
    rewrite Hcol. eauto.
Qed.

Lemma capColumnsUpTo_succ cs n :
  0 <= n ->
  capColumnsUpTo solve W a (n + 1) cs
  = match capColumnsUpTo solve W a n cs with
    | None => None
    | Some s => capColumn solve W a n s
    end.
Proof. intros Hn. unfold capColumnsUpTo. by rewrite for_loop_last by lia. Qed.

(** every column of the object gets its fill *)
Lemma capColumnFilled_runs cs i :
  0 <= i < T ->
  exists ctr cs' j1,
    capColumnsUpTo solve W a i cs = Some (ctr, cs')
    /\ columnAt W a i ctr j1
    /\ capColumnFilled solve W a i cs
       = Some ((j1, i - G j1),
               map (fillColumn W a i)
                 (map (resetCharge j1 (i - G j1))
                    (runSolver solve
                       (map (placeCharge a j1 (i - G j1)) cs')))).
Proof.
  intros Hi.
  destruct (capColumnsUpTo_stands cs i Hi) as (ctr & cs' & Hrun & Hst).
  destruct (capFill_step i ctr cs' Hi Hst) as (j1 & Hcol & Hfill).
  exists ctr, cs', j1. split; [exact Hrun |]. split; [exact Hcol |].
  unfold capColumnFilled. by rewrite Hrun.
Qed.

(** after the last column of an object the closing [while] leaves
    [nodCorGlob] when no entry after the row of the object tells of a
    surface node *)
Lemma capColumns_leaves cs :
  0 < T ->
  (forall k, a * (size + 1) + size < k ->
     Arr.rdZ (capMatrixAllOffsets W) k = 0) ->
  capColumns solve W a cs = None.
Proof.
  intros HT Hlater. unfold capColumns. change (totSNGlob W a) with T.
  replace (capColumnsUpTo solve W a T cs)
    with (capColumnsUpTo solve W a (T - 1 + 1) cs) by (f_equal; lia).
  rewrite capColumnsUpTo_succ by lia.
  destruct (capColumnsUpTo_stands cs (T - 1) ltac:(lia))
    as (ctr & cs' & Hrun & Hst).
  rewrite Hrun.
  destruct (capFill_step (T - 1) ctr cs' ltac:(lia) Hst) as (j1 & Hcol & Hfill).
  destruct Hcol as (j & inode & _ & _ & Hj1 & HG & _).
  fold size G in Hj1, HG.
  unfold capColumn. rewrite Hfill. unfold capAdvance.
  pose proof (rowEntry_mono (j1 + 1) size ltac:(lia) ltac:(lia)) as Hup.
  rewrite <- rowEntry_total in Hup.
  rewrite nextCore_leaves; [done | |].
  - rewrite nodesOnCore_rowEntry. lia.
  - intros j' Hj'. destruct (Z.lt_ge_cases j' size) as [Hin | Hout].
    + rewrite nodesOnCore_rowEntry.
      pose proof (rowEntry_mono (j1 + 1) j' ltac:(lia) ltac:(lia)).
      pose proof (rowEntry_mono (j' + 1) size ltac:(lia) ltac:(lia)) as Hup'.
      rewrite <- rowEntry_total in Hup'. lia.
    + unfold nodesOnCore. fold size.
      rewrite (Hlater (a * (size + 1) + j' + 1)) by lia.
      destruct (decide (j' = size)) as [-> | Hne].
      * change (Arr.rdZ (capMatrixAllOffsets W) (a * (size + 1) + size))
          with T. lia.
      * rewrite (Hlater (a * (size + 1) + j')) by lia. lia.
Qed.

End ColumnCounters.

(** X15.  In [oComputeCapacitanceMatrix], for an object whose row of
    [nodCorGlob] is a list of running totals, the counters [(j, inode)]
    of the loop over the columns follow the global surface index: the
    passes before column [i] end inside the row, and when column [i]
    starts the rank the opening [while] stops at is the rank whose rows
    contain [i], and [inode] is the place of [i] among them, so the
    unit charge of the column goes to the owner of surface node [i] and
    the column is filled.  (Nothing is said of the closing [while] of
    the last column.) *)
Theorem X15_column_charge_goes_to_the_owner_of_the_index
    (solve : list (list Qc) -> list (list Qc)) (W : World) (a : Z)
    (cs : list CapRank) (i : Z) :
  0 <= a -> 0 <= mpiSize W -> rowOrdered W a ->
  0 <= i < totSNGlob W a ->
  exists ctr cs' j1,
    capColumnsUpTo solve W a i cs = Some (ctr, cs')
    /\ columnAt W a i ctr j1
    /\ capColumnFilled solve W a i cs
       = Some ((j1, i - rowEntry W a j1),
               map (fillColumn W a i)
                 (map (resetCharge j1 (i - rowEntry W a j1))
                    (runSolver solve
                       (map (placeCharge a j1 (i - rowEntry W a j1)) cs')))).
Proof.
  intros Ha Hsize Hrow Hi.
  exact (capColumnFilled_runs W a Ha Hsize Hrow solve cs i Hi).
Qed.

(** X15 on the second object of the impact example, whose third surface
    node is the one of rank 1. *)
Lemma X15_witness :
  exists ctr cs' j1,
    capColumnsUpTo (fun x => x) impactWorld 1 2
      (map capInit (ranks impactWorld)) = Some (ctr, cs')
    /\ columnAt impactWorld 1 2 ctr j1.
Proof.
  destruct impactWorld_ready as (Hsize & _ & _ & Hobj).
  destruct (X15_column_charge_goes_to_the_owner_of_the_index
              (fun x => x) impactWorld 1 (map capInit (ranks impactWorld)) 2
              ltac:(lia) Hsize
              (proj1 (proj2 (Hobj 1 ltac:(change (0 <= 1 < 2); lia))))
              ltac:(change (0 <= 2 < 3); lia))
    as (ctr & cs' & j1 & Hrun & Hcol & _).
  by exists ctr, cs', j1.
Defined.

(** ** The test charge of the first object *)

Lemma Forall2_map_change {X : Type} (R R' : X -> X -> Prop) (h : X -> X) l0 l :
  Forall2 R l0 l ->
  (forall x x', R x x' -> R' x (h x')) ->
  Forall2 R' l0 (map h l).
Proof.
  intros H Hstep. induction H as [| x x' l0 l Hx _ IH]; simpl; constructor; auto.
Qed.

Lemma Forall2_imap_keep {X : Type} (R : X -> X -> Prop) (l0 l : list X) :
  Forall2 R l0 l ->
  forall f : nat -> X -> X,
  (forall k x x', R x x' -> R x (f k x')) ->
  Forall2 R l0 (imap f l).
Proof.
  intros H. induction H as [| x x' l0 l Hx _ IH]; intros f Hstep; simpl;
    constructor; [by apply Hstep |].
  apply IH. intros k y y' Hy. by apply Hstep.
Qed.

Lemma wr_twice_zero (z : list Qc) k :
  Arr.rdQ z k = 0%Qc -> Arr.wr (Arr.wr z k 1%Qc) k 0%Qc = z.
Proof.
  intros Hz. unfold Arr.wr. destruct (Z.ltb_spec k 0); [done |].
  rewrite list_insert_insert_eq.
  destruct (decide (Z.to_nat k < length z)%nat) as [Hin | Hout].
  - apply list_insert_id. unfold Arr.rdQ, Arr.rd in Hz.
    destruct (Z.ltb_spec k 0); [lia |]. rewrite nth_lookup in Hz.
    destruct (lookup_lt_is_Some_2 z (Z.to_nat k) Hin) as [x Hx].
    rewrite Hx in Hz. simpl in Hz. by rewrite Hx, Hz.
  - apply list_insert_ge. lia.
Qed.

Section FirstObject.

Variable solve : list (list Qc) -> list (list Qc).
Variable W : World.
Hypothesis Hsize : 0 <= mpiSize W.
Hypothesis Hrow : rowOrdered W 0.
Hypothesis Hoff :
  forall r, In r (ranks W) -> Arr.rdZ (lookupSurfaceOffset r) 0 = 0.

Let T : Z := totSNGlob W 0.

(** [c0] has no charge on its solver grid and its first surface block
    starts at entry 0; [c] holds the charge of [c0] *)
Let cleanKept (c0 c : CapRank) : Prop :=
  (forall m, Arr.rdQ (rhoCap c0) m = 0%Qc)
  /\ Arr.rdZ (lookupSurfaceOffset (owner c0)) 0 = 0
  /\ chargeKept c0 c.

Lemma column_keeps_charge i j1 k cs0 cs :
  Forall2 cleanKept cs0 cs ->
  Forall2 cleanKept cs0
    (map (fillColumn W 0 i)
       (map (resetCharge j1 k)
          (runSolver solve (map (placeCharge 0 j1 k) cs)))).
Proof.
  intros Hkept.
  pose (placed := fun (c0 c : CapRank) =>
    (forall m, Arr.rdQ (rhoCap c0) m = 0%Qc)
    /\ Arr.rdZ (lookupSurfaceOffset (owner c0)) 0 = 0
    /\ owner c = owner c0 /\ rhoCap c = rhoCap (placeCharge 0 j1 k c0)).
  apply (Forall2_map_change cleanKept).
  2:{ intros c0 c (Hz & Ho & Hown & Hrho). by repeat split. }
  apply (Forall2_map_change placed).
  2:{ intros c0 c (Hz & Ho & Hown & Hrho). unfold cleanKept, chargeKept.
      split; [done |]. split; [done |].
      unfold resetCharge. rewrite Hown.
      unfold placeCharge in Hrho.
      destruct (mpiRank (owner c0) =? j1); cbn [owner rhoCap] in *;
        [| by rewrite Hown, Hrho].
      split; [done |]. rewrite Hrho, Ho, Z.add_0_l.
      apply wr_twice_zero, Hz. }
  unfold runSolver. apply Forall2_imap_keep.
  2:{ intros n c0 c (Hz & Ho & Hown & Hrho). by repeat split. }
  apply (Forall2_map_change cleanKept); [done |].
  intros c0 c (Hz & Ho & Hown & Hrho). unfold placed.
  split; [done |]. split; [done |].
  unfold placeCharge. rewrite Hown.
  destruct (_ =? _); cbn [owner rhoCap]; by rewrite ?Hown, ?Hrho.
Qed.

Let cs0 : list CapRank := map (freshMatrix T) (map capInit (ranks W)).

Lemma first_columns_keep_charge n :
  0 <= n < T ->
  exists ctr cs,
    capColumnsUpTo solve W 0 n cs0 = Some (ctr, cs)
    /\ standsAt W 0 n ctr
    /\ Forall2 cleanKept cs0 cs.
Proof.
  intros Hn. unfold capColumnsUpTo.
  apply (for_loop_inv
    (fun (k : Z) (st : option ((Z * Z) * list CapRank)) =>
       exists ctr cs, st = Some (ctr, cs)
                      /\ standsAt W 0 k ctr
                      /\ Forall2 cleanKept cs0 cs)); [lia | |].
  - destruct (capColumnsUpTo_stands W 0 ltac:(lia) Hsize Hrow solve cs0 0
                ltac:(fold T; lia))
      as (ctr & cs & Hrun & Hst).
    unfold capColumnsUpTo in Hrun. rewrite for_loop_done in Hrun by lia.
    injection Hrun as <- <-.
    exists (0, 0), cs0. split; [done |]. split; [exact Hst |].
    unfold cs0. clear Hst.
    induction (ranks W) as [| r rs IH]; [constructor |].
    simpl. constructor.
    + unfold cleanKept, chargeKept. cbn [owner rhoCap freshMatrix capInit].
      split; [intros m; apply rd_alloc |]. split; [| done].
      apply Hoff. by left.
    + apply IH. intros r' Hr'. apply Hoff. by right.
  - intros k st Hk (ctr & cs & -> & Hst & Hkept).
    destruct (capColumn_step W 0 ltac:(lia) Hsize Hrow solve k ctr cs
                ltac:(lia) ltac:(fold T; lia) Hst)
      as (j1 & ctr' & _ & Hcol & Hnext).
    rewrite Hcol. eexists _, _. split; [done |]. split; [exact Hnext |].
    by apply column_keeps_charge.
Qed.

Lemma first_fill_keeps_charge i :
  0 <= i < T ->
  exists ctr cs,
    capColumnFilled solve W 0 i cs0 = Some (ctr, cs)
    /\ Forall2 cleanKept cs0 cs.
Proof.
  intros Hi.
  destruct (first_columns_keep_charge i Hi) as (ctr & cs & Hrun & Hst & Hkept).
  destruct (capFill_step W 0 ltac:(lia) Hsize Hrow solve i ctr cs
              ltac:(fold T; lia) Hst) as (j1 & _ & Hfill).
  unfold capColumnFilled. rewrite Hrun, Hfill.
  eexists _, _. split; [done |]. by apply column_keeps_charge.
Qed.

End FirstObject.

(** X16.  For the first object, whose block of the surface table
    starts at entry 0 on every rank, the reset
    [rhoCap->val[lookupSurf[inode]] = 0] of
    [oComputeCapacitanceMatrix] clears the node that was charged: after
    every column the charge grid of every rank is zero again, so each
    solve sees the one unit charge of its column. *)
Theorem X16_first_object_resets_its_test_charge
    (solve : list (list Qc) -> list (list Qc))
    (invert : Z -> list Qc -> list Qc) (W : World) (i : Z) :
  0 <= mpiSize W -> rowOrdered W 0 ->
  (forall r, In r (ranks W) -> Arr.rdZ (lookupSurfaceOffset r) 0 = 0) ->
  0 <= i < totSNGlob W 0 ->
  rhoAfterColumn solve invert W 0 i
  = Some (map (fun r => Arr.alloc (nNodes (domain r)) 0%Qc) (ranks W)).
Proof.
  intros Hsize Hrow Hoff Hi. unfold rhoAfterColumn, capObjectsUpTo.
  rewrite for_loop_done by lia.
  destruct (first_fill_keeps_charge solve W Hsize Hrow Hoff i Hi)
    as (ctr & cs & Hrun & Hkept).
  rewrite Hrun. f_equal.
  transitivity (map rhoCap
                  (map (freshMatrix (totSNGlob W 0)) (map capInit (ranks W)))).
  - clear Hrun. induction Hkept as [| c0 c l0 l (_ & _ & _ & Hr) _ IH];
      [done |]. simpl. by rewrite Hr, IH.
  - rewrite !map_map. by apply map_ext.
Qed.

(** X16 on the first object of the two-object map. *)
Lemma X16_witness :
  rhoAfterColumn (fun x => x) (fun _ m => m) twoObjectsWorld 0 0
  = Some (map (fun r => Arr.alloc (nNodes (domain r)) 0%Qc)
            (ranks twoObjectsWorld)).
Proof.
  refine (X16_first_object_resets_its_test_charge (fun x => x) (fun _ m => m)
            twoObjectsWorld 0 ltac:(simpl; lia) _ _ _).
  - split; [reflexivity |]. intros k Hk. change (0 <= k < 1) in Hk.
    assert (k = 0) as -> by lia. vm_compute. discriminate.
  - intros r [<- | []]. reflexivity.
  - change (0 <= 0 < 1). lia.
Defined.

(** ** Tables built in two passes *)

Lemma two_pass_blocks (es : list (Z * Z)) (N : Z) :
  0 <= N ->
  (forall e, In e es -> 0 <= fst e < N) ->
  let off := alCumSum (fold_left fileCount es (Arr.alloc (N + 1) 0)) N in
  let tbl := fst (fold_left fileEntry es
                    (Arr.alloc (Arr.rdZ off N) 0, initIndex off N)) in
  Z.of_nat (length off) = N + 1
  /\ (forall k, 0 <= k <= N -> Arr.rdZ off k = cntLt es k)
  /\ (forall a, 0 <= a < N -> block tbl off a = filed es a)
  /\ Z.of_nat (length tbl) = Arr.rdZ off N.
Proof.
  intros HN Hes off tbl.
  destruct (fileCount_fold es (Arr.alloc (N + 1) 0) N) as [Hl Hrd];
    [rewrite length_alloc; lia | done |].
  assert (Hoff : Z.of_nat (length off) = N + 1
                 /\ forall k, 0 <= k <= N -> Arr.rdZ off k = cntLt es k).
  { apply alCumSum_counts; [done | | |].
    - rewrite Hl, length_alloc. lia.
    - intros k Hk. rewrite Hrd, decide_True by lia.
      unfold Arr.rdZ. rewrite rd_alloc. lia.
    - intros e He. apply Hes in He. lia. }
  destruct Hoff as [Hlen Hoff].
  split; [done |]. split; [done |]. split.
  - intros a Ha. by apply (filed_block es off N).
  - unfold tbl. rewrite (filed_length es off N) by done.
    symmetry. apply Hoff. lia.
Qed.

(** ** [oSolFacingSurfaceNodes2] *)

Lemma for_loop_flat_map0 {S : Type} (f : S -> Z * Z -> S)
    (evs : Z -> list (Z * Z)) hi s :
  Arr.for_loop 0 hi (fun a t => fold_left f (evs a) t) s
  = fold_left f (flat_map evs (seqZ 0 hi)) s.
Proof. rewrite for_loop_flat_map. by rewrite Z.sub_0_r. Qed.

Section Exposed.

Variables (g : Grid) (surf surfOff : list Z) (nObj : Z).

Lemma exposedCount_entries :
  exposedCount g surf surfOff nObj
  = fold_left fileCount (exposedEntries g surf surfOff nObj)
      (Arr.alloc (nObj + 1) 0).
Proof.
  unfold exposedCount, exposedEntries.
  rewrite <- for_loop_flat_map0. apply for_loop_ext. intros a off _.
  rewrite <- for_loop_flat_map0. apply for_loop_ext. intros k off' _.
  rewrite <- for_loop_flat_map0. apply for_loop_ext. intros j t _.
  unfold lineEntries. by destruct (exposedLine g surf surfOff a j k).
Qed.

Lemma exposedFill_entries off :
  exposedFill g surf surfOff nObj off
  = fold_left fileEntry (exposedEntries g surf surfOff nObj)
      (Arr.alloc (Arr.rdZ off nObj) 0, initIndex off nObj).
Proof.
  unfold exposedFill, exposedEntries.
  rewrite <- for_loop_flat_map0. apply for_loop_ext. intros a st _.
  rewrite <- for_loop_flat_map0. apply for_loop_ext. intros k st' _.
  rewrite <- for_loop_flat_map0. apply for_loop_ext. intros j [tbl index] _.
  unfold lineEntries. by destruct (exposedLine g surf surfOff a j k).
Qed.

End Exposed.

Lemma map_flat_map_list {X Y Z' : Type} (f : Y -> Z') (h : X -> list Y) l :
  map f (flat_map h l) = flat_map (fun x => map f (h x)) l.
Proof.
  induction l as [| x l IH]; [done |]. simpl. by rewrite map_app, IH.
Qed.

Lemma length_flat_map_le {X Y : Type} (h : X -> list Y) (c : nat) l :
  (forall x, In x l -> (length (h x) <= c)%nat) ->
  (length (flat_map h l) <= c * length l)%nat.
Proof.
  induction l as [| x l IH]; intros H; simpl; [lia |].
  rewrite length_app.
  pose proof (H x ltac:(by left)).
  pose proof (IH ltac:(intros y Hy; apply H; by right)). lia.
Qed.

Section ExposedNodes.

Variables (g : Grid) (surf surfOff : list Z) (nObj : Z).

Lemma inSurfaceBlock_spec base p bs :
  inSurfaceBlock surf base p bs = true
  <-> exists b, In b bs /\ Arr.rdZ surf (base + b) = p.
Proof.
  induction bs as [| b bs IH]; simpl.
  - split; [done | by intros (b & [] & _)].
  - destruct (Z.eqb_spec p (Arr.rdZ surf (base + b))) as [-> | Hne].
    + split; [| done]. intros _. exists b. split; [by left | done].
    + rewrite IH. split.
      * intros (b' & Hb' & Hrd). exists b'. split; [by right | done].
      * intros (b' & [<- | Hb'] & Hrd); [congruence |]. by exists b'.
Qed.

Lemma exposedHit_spec a p :
  exposedHit g surf surfOff a p = true <-> exposable g surf surfOff a p.
Proof.
  unfold exposedHit, exposable, listedIn.
  rewrite andb_true_iff, negb_true_iff, inSurfaceBlock_spec.
  split; intros [Hg (b & Hb & Hrd)]; (split; [done |]).
  - apply list_elem_of_In, elem_of_seqZ in Hb.
    exists (Arr.rdZ surfOff a + b). split; [lia | done].
  - exists (b - Arr.rdZ surfOff a). split.
    + apply list_elem_of_In, elem_of_seqZ. lia.
    + rewrite <- Hrd. f_equal. lia.
Qed.

Lemma firstExposed_seqZ a j k p (n : nat) : forall lo,
  firstExposed g surf surfOff a j k (seqZ lo (Z.of_nat n)) = Some p
  <-> exists i, lo <= i < lo + Z.of_nat n
                /\ p = node_of g i j k
                /\ exposable g surf surfOff a (node_of g i j k)
                /\ forall i', lo <= i' < i ->
                     ~ exposable g surf surfOff a (node_of g i' j k).
Proof.
  induction n as [| n IH]; intros lo.
  - change (seqZ lo (Z.of_nat 0)) with (@nil Z). simpl.
    split; [done | intros (i & Hi & _); lia].
  - rewrite seqZ_cons by lia. simpl.
    replace (Z.pred (Z.of_nat (S n))) with (Z.of_nat n) by lia.
    replace (Z.succ lo) with (lo + 1) by lia.
    destruct (exposedHit g surf surfOff a (node_of g lo j k)) eqn:Hhit.
    + apply exposedHit_spec in Hhit. split.
      * intros [= <-]. exists lo. split; [lia |]. split; [done |].
        split; [done |]. intros i' Hi'. lia.
      * intros (i & Hi & -> & Hexp & Hfirst).
        destruct (decide (i = lo)) as [-> | Hne]; [done |].
        exfalso. apply (Hfirst lo); [lia | done].
    + assert (Hno : ~ exposable g surf surfOff a (node_of g lo j k)).
      { intros H. apply exposedHit_spec in H. congruence. }
      rewrite IH. split.
      * intros (i & Hi & -> & Hexp & Hfirst). exists i.
        split; [lia |]. split; [done |]. split; [done |].
        intros i' Hi'. destruct (decide (i' = lo)) as [-> | ?]; [done |].
        apply Hfirst. lia.
      * intros (i & Hi & -> & Hexp & Hfirst).
        destruct (decide (i = lo)) as [-> | Hne]; [done |].
        exists i. split; [lia |]. split; [done |]. split; [done |].
        intros i' Hi'. apply Hfirst. lia.
Qed.

Lemma exposedLine_spec a j k p :
  exposedLine g surf surfOff a j k = Some p
  <-> exists i, 0 <= i < Arr.rdZ (size g) 1
                /\ p = node_of g i j k
                /\ exposable g surf surfOff a (node_of g i j k)
                /\ forall i', 0 <= i' < i ->
                     ~ exposable g surf surfOff a (node_of g i' j k).
Proof.
  unfold exposedLine.
  destruct (Z.le_gt_cases 0 (Arr.rdZ (size g) 1)) as [Hle | Hgt].
  - rewrite <- (Z2Nat.id (Arr.rdZ (size g) 1)) at 1 by done.
    rewrite firstExposed_seqZ. rewrite Z2Nat.id by done.
    split; intros (i & Hi & H); exists i; (split; [lia | done]).
  - replace (seqZ 0 (Arr.rdZ (size g) 1)) with (@nil Z).
    + simpl. split; [done | intros (i & Hi & _); lia].
    + symmetry. apply length_zero_iff_nil. rewrite length_seqZ. lia.
Qed.

Lemma exposedEntries_shape :
  exposedEntries g surf surfOff nObj
  = flat_map (fun a => map (fun p => (a, p)) (exposedOf g surf surfOff a))
      (seqZ 0 nObj).
Proof.
  unfold exposedEntries, exposedOf. apply flat_map_ext. intros a.
  rewrite map_flat_map_list. apply flat_map_ext. intros k.
  rewrite map_flat_map_list. apply flat_map_ext. intros j.
  unfold lineEntries. by destruct (exposedLine g surf surfOff a j k).
Qed.

Lemma exposedEntries_bucket e :
  In e (exposedEntries g surf surfOff nObj) -> 0 <= fst e < nObj.
Proof.
  rewrite exposedEntries_shape, in_flat_map. intros (a & Ha & He).
  apply in_map_iff in He as (b & <- & _). simpl.
  apply list_elem_of_In, elem_of_seqZ in Ha. lia.
Qed.

Lemma exposedEntries_filed a :
  0 <= a < nObj ->
  filed (exposedEntries g surf surfOff nObj) a = exposedOf g surf surfOff a.
Proof.
  intros Ha. rewrite exposedEntries_shape.
  rewrite (filed_flat_map (exposedOf g surf surfOff)) by apply NoDup_seqZ.
  rewrite decide_True; [done |]. apply elem_of_seqZ. lia.
Qed.

Lemma exposedOf_member a p :
  In p (exposedOf g surf surfOff a)
  <-> exists j k, 0 <= j < Arr.rdZ (size g) 2 /\ 0 <= k < Arr.rdZ (size g) 3
                  /\ exposedLine g surf surfOff a j k = Some p.
Proof.
  unfold exposedOf. rewrite in_flat_map. split.
  - intros (k & Hk & Hin). apply in_flat_map in Hin as (j & Hj & Hin).
    apply list_elem_of_In, elem_of_seqZ in Hk.
    apply list_elem_of_In, elem_of_seqZ in Hj.
    exists j, k. split; [lia |]. split; [lia |].
    destruct (exposedLine g surf surfOff a j k) as [q |]; simpl in Hin;
      [| done].
    destruct Hin as [-> | []]. done.
  - intros (j & k & Hj & Hk & Hline). exists k. split.
    + apply list_elem_of_In, elem_of_seqZ. lia.
    + apply in_flat_map. exists j. split.
      * apply list_elem_of_In, elem_of_seqZ. lia.
      * rewrite Hline. by left.
Qed.

Lemma exposedOf_length a :
  Z.of_nat (length (exposedOf g surf surfOff a))
  <= Z.max 0 (Arr.rdZ (size g) 2) * Z.max 0 (Arr.rdZ (size g) 3).
Proof.
  unfold exposedOf.
  pose proof (length_flat_map_le
    (fun k => flat_map (fun j => option_list (exposedLine g surf surfOff a j k))
                (seqZ 0 (Arr.rdZ (size g) 2)))
    (Z.to_nat (Arr.rdZ (size g) 2)) (seqZ 0 (Arr.rdZ (size g) 3))) as H.
  rewrite length_seqZ in H.
  assert (Hin : forall k, In k (seqZ 0 (Arr.rdZ (size g) 3)) ->
            (length (flat_map
                       (fun j => option_list (exposedLine g surf surfOff a j k))
                       (seqZ 0 (Arr.rdZ (size g) 2)))
             <= Z.to_nat (Arr.rdZ (size g) 2))%nat).
  { intros k _.
    pose proof (length_flat_map_le
      (fun j => option_list (exposedLine g surf surfOff a j k)) 1
      (seqZ 0 (Arr.rdZ (size g) 2))) as H1.
    rewrite length_seqZ in H1.
    assert ((length (flat_map
                       (fun j => option_list (exposedLine g surf surfOff a j k))
                       (seqZ 0 (Arr.rdZ (size g) 2)))
             <= 1 * Z.to_nat (Arr.rdZ (size g) 2))%nat); [| lia].
    apply H1. intros j _.
    destruct (exposedLine g surf surfOff a j k); simpl; lia. }
  specialize (H Hin). nia.
Qed.

Lemma exposed_tables :
  0 <= nObj ->
  let out := oSolFacingSurfaceNodes2 g surf surfOff nObj in
  (forall a, 0 <= a < nObj ->
     block (fst out) (snd out) a = exposedOf g surf surfOff a
     /\ Arr.rdZ (snd out) (a + 1) - Arr.rdZ (snd out) a
        = Z.of_nat (length (exposedOf g surf surfOff a)))
  /\ Z.of_nat (length (fst out)) = Arr.rdZ (snd out) nObj.
Proof.
  intros HN out.
  destruct (two_pass_blocks (exposedEntries g surf surfOff nObj) nObj HN
              exposedEntries_bucket) as (Hlen & Hoff & Hblk & Htbl).
  unfold out, oSolFacingSurfaceNodes2. cbn [fst snd].
  rewrite exposedCount_entries, exposedFill_entries.
  split; [| exact Htbl].
  intros a Ha. split.
  - rewrite Hblk by done. by apply exposedEntries_filed.
  - rewrite !Hoff by lia. rewrite cntLt_succ, <- length_filed.
    rewrite exposedEntries_filed by done. lia.
Qed.

End ExposedNodes.

(** X17.  [oSolFacingSurfaceNodes2] records for object [a], from every
    line of the grid along the first axis, the node of lowest index on
    that line that is not a ghost node and is listed in block [a] of
    the surface table, and nothing else: a block of the exposed-node
    table holds at most one node per line, the filling pass stores
    exactly what the counting pass counted, and the table is full. *)
Theorem X17_exposed_nodes_are_the_first_surface_nodes_of_their_lines
    (g : Grid) (surf surfOff : list Z) (nObj a : Z) :
  0 <= a < nObj ->
  let out := oSolFacingSurfaceNodes2 g surf surfOff nObj in
  let blk := block (fst out) (snd out) a in
  (forall p,
      In p blk
      <-> exists i j k,
            0 <= i < Arr.rdZ (size g) 1 /\ 0 <= j < Arr.rdZ (size g) 2
            /\ 0 <= k < Arr.rdZ (size g) 3
            /\ p = node_of g i j k
            /\ exposable g surf surfOff a p
            /\ forall i', 0 <= i' < i ->
                 ~ exposable g surf surfOff a (node_of g i' j k))
  /\ Z.of_nat (length blk)
     <= Z.max 0 (Arr.rdZ (size g) 2) * Z.max 0 (Arr.rdZ (size g) 3)
  /\ Arr.rdZ (snd out) (a + 1) - Arr.rdZ (snd out) a = Z.of_nat (length blk)
  /\ Z.of_nat (length (fst out)) = Arr.rdZ (snd out) nObj.
Proof.
  intros Ha out blk.
  destruct (exposed_tables g surf surfOff nObj ltac:(lia)) as [Hblk Hlen].
  destruct (Hblk a Ha) as [Hb Hw]. fold out in Hb, Hw, Hlen.
  unfold blk. rewrite Hb.
  split; [| split; [apply exposedOf_length | split; [exact Hw | exact Hlen]]].
  intros p. rewrite exposedOf_member. split.
  - intros (j & k & Hj & Hk & Hline).
    apply exposedLine_spec in Hline as (i & Hi & -> & Hexp & Hfirst).
    exists i, j, k. by repeat (split; [done |]).
  - intros (i & j & k & Hi & Hj & Hk & -> & Hexp & Hfirst).
    exists j, k. split; [done |]. split; [done |].
    apply exposedLine_spec. exists i. by repeat (split; [done |]).
Qed.

(** X17 on the two-object map: the line (j,k) = (2,2) gives node 41 for
    object 2. *)
Lemma X17_witness :
  In 41 (block (fst (oSolFacingSurfaceNodes2 (domain twoObjectsRank)
                       [42; 41; 42] [0; 1; 3] 2))
               (snd (oSolFacingSurfaceNodes2 (domain twoObjectsRank)
                       [42; 41; 42] [0; 1; 3] 2)) 1)
  <-> exists i j k,
        0 <= i < Arr.rdZ (size (domain twoObjectsRank)) 1
        /\ 0 <= j < Arr.rdZ (size (domain twoObjectsRank)) 2
        /\ 0 <= k < Arr.rdZ (size (domain twoObjectsRank)) 3
        /\ 41 = node_of (domain twoObjectsRank) i j k
        /\ exposable (domain twoObjectsRank) [42; 41; 42] [0; 1; 3] 1 41
        /\ forall i', 0 <= i' < i ->
             ~ exposable (domain twoObjectsRank) [42; 41; 42] [0; 1; 3] 1
                 (node_of (domain twoObjectsRank) i' j k).
Proof.
  apply (proj1 (X17_exposed_nodes_are_the_first_surface_nodes_of_their_lines
                  (domain twoObjectsRank) [42; 41; 42] [0; 1; 3] 2 1
                  ltac:(lia))).
Defined.

(** ** [oSetObjectValues] *)

Lemma rd_loop_set (n : Z -> Z) (c : Qc) lo hi (v0 : list Qc) :
  lo <= hi ->
  let v := Arr.for_loop lo hi (fun i v => Arr.wr v (n i) c) v0 in
  length v = length v0
  /\ (forall i, lo <= i < hi -> 0 <= n i < Z.of_nat (length v0) ->
        Arr.rdQ v (n i) = c)
  /\ (forall m, (forall i, lo <= i < hi -> n i <> m) ->
        Arr.rdQ v m = Arr.rdQ v0 m).
Proof.
  intros Hle.
  apply (for_loop_inv
    (fun k v =>
       length v = length v0
       /\ (forall i, lo <= i < k -> 0 <= n i < Z.of_nat (length v0) ->
             Arr.rdQ v (n i) = c)
       /\ (forall m, (forall i, lo <= i < k -> n i <> m) ->
             Arr.rdQ v m = Arr.rdQ v0 m))); [done | |].
  - split; [done |]. split; [intros i Hi; lia | done].
  - intros k v Hk (Hlen & Hset & Hframe). rewrite length_wr.
    split; [done |]. split.
    + intros i Hi Hin. rewrite rdQ_wr, Hlen. case_decide as Hd; [done |].
      apply Hset; [| done].
      destruct (decide (i = k)) as [-> | ?]; [| lia].
      exfalso. apply Hd. split; [done | lia].
    + intros m Hm. rewrite rdQ_wr.
      rewrite decide_False by (intros [Heq _]; by apply (Hm k); [lia |]).
      apply Hframe. intros i Hi. apply Hm. lia.
Qed.



(** ** From [oAlloc] to the charge corrector, for one object *)

Lemma storedSum_storeObject W a inv :
  let T := totSNGlob W a in
  0 <= a -> 0 <= T ->
  capStoreIndex T a (T * T) <= Z.of_nat (length (capMatrixAll W)) ->
  storedSum (storeObject W a inv) a = adSum inv (T * T).
Proof.
  intros T Ha HT Hin. unfold storedSum.
  change (totSNGlob (storeObject W a inv) a) with T.
  cbn [capMatrixAll storeObject]. fold T. unfold adSum.
  apply for_loop_ext. intros l acc Hl. f_equal.
  unfold storeInverse, capStoreIndex in *.
  destruct (rd_loop_copy 0%Qc (a * T * T) (Arr.rdQ inv) (T * T)
              (capMatrixAll W) ltac:(nia)) as [_ Hrd].
  unfold Arr.rdQ at 1. rewrite Hrd, decide_True by nia.
  f_equal. lia.
Qed.

(** ** The end of the loop over the columns *)

Lemma capObjectsUpTo_keeps solve invert (W : World) n :
  match capObjectsUpTo solve invert W n with
  | None => True
  | Some (W', _) =>
      mpiSize W' = mpiSize W
      /\ capMatrixAllOffsets W' = capMatrixAllOffsets W
  end.
Proof.
  unfold capObjectsUpTo.
  apply (for_loop_preserves
    (fun st : option (World * list CapRank) =>
       match st with
       | None => True
       | Some (W', _) =>
           mpiSize W' = mpiSize W
           /\ capMatrixAllOffsets W' = capMatrixAllOffsets W
       end)); [done |].
  intros a [[W' cs] |] _ Hkeep; [| done].
  unfold capObject. destruct (capColumns solve W' a _) as [[ctr cs1] |]; done.
Qed.

Lemma capObject_lost solve invert lo hi :
  Arr.for_loop lo hi (capObject solve invert) None = None.
Proof. by apply (for_loop_preserves (fun st => st = None)); [| intros a t _ ->]. Qed.

Lemma last_such (P : Z -> Prop) `{!forall a, Decision (P a)} (N : Z) :
  (exists a, 0 <= a < N /\ P a) ->
  exists a, 0 <= a < N /\ P a /\ forall b, a < b < N -> ~ P b.
Proof.
  intros (a0 & Ha0 & HP0).
  assert (Hscan : forall n : nat,
            Z.of_nat n <= N ->
            (forall b, N - Z.of_nat n <= b < N -> ~ P b)
            \/ exists a, N - Z.of_nat n <= a < N /\ P a
                         /\ forall b, a < b < N -> ~ P b).
  { induction n as [| n IH]; intros Hn; [left; intros b Hb; lia |].
    destruct (IH ltac:(lia)) as [Hnone | (a & Ha & HP & Hlast)].
    - destruct (decide (P (N - Z.of_nat (S n)))) as [Hyes | Hno].
      + right. exists (N - Z.of_nat (S n)). split; [lia |]. split; [done |].
        intros b Hb. apply Hnone. lia.
      + left. intros b Hb.
        destruct (decide (b = N - Z.of_nat (S n))) as [-> | Hne]; [done |].
        apply Hnone. lia.
    - right. exists a. split; [lia | done]. }
  destruct (Hscan (Z.to_nat N) ltac:(lia)) as [Hnone | (a & Ha & HP & Hlast)].
  - exfalso. apply (Hnone a0); [lia | done].
  - exists a. split; [lia | done].
Qed.

(** X19.  On the object [oAlloc] returns, as soon as one object has a
    surface node the loop over the columns of
    [oComputeCapacitanceMatrix] does not end inside [nodCorGlob]: after
    the last column of the last object with surface nodes the closing
    [while (inode > nodesOnCore - 1)] finds no further rank with a
    surface node and its test goes on to entries past the end of the
    array, which is undefined in C; the function has no result here,
    whatever the solver and the inversion. *)
Theorem X19_closing_loop_runs_off_the_offsets
    (solve : list (list Qc) -> list (list Qc))
    (invert : Z -> list Qc -> list Qc)
    (size : Z) (rs : list Rank) (W : World) :
  0 <= size -> map mpiRank rs = seqZ 0 size ->
  oAlloc size rs = Returned W ->
  (exists a, 0 <= a < nObjects W /\ 0 < totSNGlob W a) ->
  oComputeCapacitanceMatrix solve invert W = None.
Proof.
  intros Hsize Hnum Halloc Hsome.
  destruct (oAlloc_rows size rs W Hsize Hnum Halloc) as (HsizeW & _ & Hrows).
  destruct (oAlloc_gathered size rs W Hsize Hnum Halloc)
    as (_ & _ & Hlen & _).
  destruct (last_such (fun a => 0 < totSNGlob W a) (nObjects W) Hsome)
    as (a & Ha & HT & Hlast).
  assert (Hlater : forall k, a * (size + 1) + size < k ->
                     Arr.rdZ (capMatrixAllOffsets W) k = 0).
  { intros k Hk.
    destruct (Z.lt_ge_cases k (nObjects W * (size + 1))) as [Hin | Hout].
    2:{ apply rd_outside. lia. }
    set (b := k / (size + 1)). set (c := k mod (size + 1)).
    assert (Hk' : k = b * (size + 1) + c)
      by (unfold b, c; rewrite Z.mul_comm; apply Z.div_mod; lia).
    assert (Hc : 0 <= c < size + 1) by (apply Z.mod_pos_bound; lia).
    assert (Hb : a < b < nObjects W) by nia.
    destruct (Hrows b ltac:(lia)) as [Hrow _].
    pose proof (Hlast b Hb) as HTb. unfold totSNGlob in HTb.
    pose proof (G_chain W b Hrow 0 c) as Hlo.
    pose proof (G_chain W b Hrow c (mpiSize W)) as Hhi.
    pose proof (G_zero W b Hrow) as Hzero.
    cbv beta in Hlo, Hhi, Hzero.
    rewrite HsizeW in HTb, Hlo, Hhi, Hzero.
    specialize (Hlo ltac:(lia) ltac:(lia)).
    specialize (Hhi ltac:(lia) ltac:(lia)).
    rewrite Hk'. lia. }
  unfold oComputeCapacitanceMatrix.
  assert (Hrun : capObjectsUpTo solve invert W (nObjects W) = None);
    [| by rewrite Hrun].
  unfold capObjectsUpTo.
  replace (Arr.for_loop 0 (nObjects W) (capObject solve invert)
             (Some (W, map capInit (ranks W))))
    with (Arr.for_loop (a + 1) (nObjects W) (capObject solve invert)
            (capObject solve invert a
               (capObjectsUpTo solve invert W a))).
  2:{ unfold capObjectsUpTo. rewrite <- for_loop_last by lia.
      unfold Arr.for_loop.
      replace (nObjects W - 0) with ((a + 1 - 0) + (nObjects W - (a + 1)))
        by lia.
      rewrite seqZ_app, fold_left_app by lia.
      do 2 f_equal. lia. }
  pose proof (capObjectsUpTo_keeps solve invert W a) as Hkeep.
  destruct (capObjectsUpTo solve invert W a) as [[W' cs] |];
    [| apply capObject_lost].
  destruct Hkeep as [Hs Ho].
  unfold capObject. rewrite capColumns_leaves; [apply capObject_lost | ..].
  - lia.
  - rewrite Hs. lia.
  - destruct (Hrows a Ha) as [Hrow _]. unfold rowOrdered. by rewrite Hs, Ho.
  - unfold totSNGlob. by rewrite Hs, Ho.
  - rewrite Hs, Ho, HsizeW. exact Hlater.
Qed.

(** X19 on the one-rank world of the halo object. *)
Lemma X19_witness :
  oComputeCapacitanceMatrix (fun x => x) (fun _ m => m) haloWorld = None.
Proof.
  apply (X19_closing_loop_runs_off_the_offsets
           (fun x => x) (fun _ m => m) 1 [haloRank] haloWorld
           ltac:(lia) ltac:(reflexivity) oAlloc_halo).
  exists 0. split; [vm_compute; split; [discriminate | reflexivity] |].
  vm_compute. reflexivity.
Defined.

(** ** The objects before the last *)

(** the closing [while] stops when a later test inside the array finds
    a surface node *)
Lemma nextCore_finds (W : World) (a : Z) fuel : forall j inode j',
  j < j' ->
  (forall k, j <= k <= j' -> coreInArray W a k = true) ->
  1 <= nodesOnCore W a j' ->
  j' - j < Z.of_nat fuel ->
  exists ctr, nextCore fuel W a j inode = Some ctr.
Proof.
  induction fuel as [| fuel IH]; intros j inode j' Hlt Hin Hnodes Hfuel; [lia |].
  simpl. rewrite (Hin j) by lia.
  destruct (inode >? nodesOnCore W a j - 1); [| by eexists].
  destruct (decide (j + 1 = j')) as [<- | Hne].
  - destruct fuel as [| fuel]; [lia |].
    simpl. rewrite (Hin (j + 1)) by lia.
    destruct (Z.gtb_spec 0 (nodesOnCore W a (j + 1) - 1)); [lia | by eexists].
  - apply (IH (j + 1) 0 j'); try lia. intros k Hk. apply Hin. lia.
Qed.

(** a rank with surface nodes of an object that has some *)
Lemma some_core_has_nodes (W : World) (b : Z) :
  0 <= b -> 0 <= mpiSize W -> rowOrdered W b -> 0 < totSNGlob W b ->
  exists m, 0 <= m < mpiSize W /\ 1 <= nodesOnCore W b m.
Proof.
  intros Hb Hsize Hrow HT.
  assert (Hpos : 0 < mpiSize W).
  { destruct (decide (mpiSize W = 0)) as [H0 | ?]; [| lia].
    pose proof (rowEntry_zero W b Hrow) as Hz.
    rewrite (rowEntry_total W b) in HT. rewrite H0 in HT. lia. }
  destruct (skipEmptyCores_spec W b Hb Hsize Hrow (fuelOf W) 0 ltac:(lia))
    as (m & _ & Hm & _ & Hnodes).
  - rewrite (rowEntry_zero W b Hrow). exact HT.
  - pose proof (fuel_covers_the_row W b Hb Hsize HT). lia.
  - exists m. split; [lia |].
    rewrite (nodesOnCore_rowEntry W b). lia.
Qed.

Lemma capColumns_runs solve (W : World) (a b : Z) (cs : list CapRank) :
  0 <= a < b -> 0 <= mpiSize W ->
  rowOrdered W a -> rowOrdered W b -> 0 < totSNGlob W b ->
  (b + 1) * (mpiSize W + 1) <= Z.of_nat (length (capMatrixAllOffsets W)) ->
  exists ctr cs', capColumns solve W a cs = Some (ctr, cs').
Proof.
  intros Hab Hsize Hrowa Hrowb HTb Hlen.
  pose proof (T_nonneg W a Hsize Hrowa) as HT.
  unfold capColumns.
  destruct (decide (totSNGlob W a = 0)) as [-> | Hpos].
  { unfold capColumnsUpTo. rewrite for_loop_done by lia. by eexists _, _. }
  replace (totSNGlob W a) with (totSNGlob W a - 1 + 1) by lia.
  rewrite capColumnsUpTo_succ by lia.
  destruct (capColumnsUpTo_stands W a ltac:(lia) Hsize Hrowa solve cs
              (totSNGlob W a - 1) ltac:(lia)) as (ctr & cs' & Hrun & Hst).
  rewrite Hrun.
  destruct (capFill_step W a ltac:(lia) Hsize Hrowa solve
              (totSNGlob W a - 1) ctr cs' ltac:(lia) Hst)
    as (j1 & Hcol & Hfill).
  destruct Hcol as (j & inode & _ & _ & Hj1 & _ & _).
  unfold capColumn. rewrite Hfill. unfold capAdvance.
  destruct (some_core_has_nodes W b ltac:(lia) Hsize Hrowb HTb)
    as (m & Hm & Hnodes).
  set (size := mpiSize W) in *.
  destruct (nextCore_finds W a (fuelOf W) j1
              (totSNGlob W a - 1 - rowEntry W a j1 + 1)
              ((b - a) * (size + 1) + m)) as [ctr' Hnext].
  - nia.
  - intros k Hk. unfold coreInArray. fold size.
    apply andb_true_intro. split; [apply Z.leb_le; nia | apply Z.ltb_lt; nia].
  - unfold nodesOnCore in *. fold size in Hnodes |- *.
    replace (a * (size + 1) + ((b - a) * (size + 1) + m) + 1)
      with (b * (size + 1) + m + 1) by lia.
    replace (a * (size + 1) + ((b - a) * (size + 1) + m))
      with (b * (size + 1) + m) by lia.
    exact Hnodes.
  - unfold fuelOf. nia.
  - rewrite Hnext. by eexists _, _.
Qed.

(** X22.  On the object [oAlloc] returns, the objects that have an
    object with a surface node after them are built: for each of them
    the loop over the columns of [oComputeCapacitanceMatrix] ends
    inside [nodCorGlob] (its closing [while] reads on into the rows of
    the objects that follow, up to the first rank with a surface node
    there) and the body of the loop over the objects gets to its end.
    With X19, every object before the last one with surface nodes is
    built and no other; the replicated counts are not changed. *)
Theorem X22_objects_before_the_last_are_built
    (solve : list (list Qc) -> list (list Qc))
    (invert : Z -> list Qc -> list Qc)
    (size : Z) (rs : list Rank) (W : World) (n : Z) :
  0 <= size -> map mpiRank rs = seqZ 0 size ->
  oAlloc size rs = Returned W ->
  0 <= n ->
  (exists b, n <= b < nObjects W /\ 0 < totSNGlob W b) ->
  exists W' cs,
    capObjectsUpTo solve invert W n = Some (W', cs)
    /\ mpiSize W' = mpiSize W
    /\ capMatrixAllOffsets W' = capMatrixAllOffsets W.
Proof.
  intros Hsize Hnum Halloc Hn (b & Hb & HTb).
  destruct (oAlloc_rows size rs W Hsize Hnum Halloc) as (HsizeW & _ & Hrows).
  destruct (oAlloc_gathered size rs W Hsize Hnum Halloc)
    as (_ & _ & Hlen & _).
  unfold capObjectsUpTo.
  apply (for_loop_inv
    (fun (k : Z) (st : option (World * list CapRank)) =>
       exists W' cs, st = Some (W', cs)
                     /\ mpiSize W' = mpiSize W
                     /\ capMatrixAllOffsets W' = capMatrixAllOffsets W));
    [lia | by eexists _, _ |].
  intros a st Ha (W' & cs & -> & Hs & Ho).
  destruct (Hrows a ltac:(lia)) as [Hrowa _].
  destruct (Hrows b ltac:(lia)) as [Hrowb _].
  destruct (capColumns_runs solve W' a b
              (map (freshMatrix (totSNGlob W' a)) cs)) as (ctr & cs' & Hrun).
  - lia.
  - rewrite Hs. lia.
  - unfold rowOrdered. by rewrite Hs, Ho.
  - unfold rowOrdered. by rewrite Hs, Ho.
  - unfold totSNGlob. by rewrite Hs, Ho.
  - rewrite Hs, Ho, Hlen, HsizeW. nia.
  - unfold capObject. rewrite Hrun. by eexists _, _.
Qed.

(** X22 on the two-object map: the first object is built. *)
Lemma X22_witness :
  exists W' cs,
    capObjectsUpTo (fun x => x) (fun _ m => m) twoObjectsWorld 1 = Some (W', cs)
    /\ mpiSize W' = mpiSize twoObjectsWorld
    /\ capMatrixAllOffsets W' = capMatrixAllOffsets twoObjectsWorld.
Proof.
  apply (X22_objects_before_the_last_are_built
           (fun x => x) (fun _ m => m) 1 [twoObjectsRank] twoObjectsWorld 1
           ltac:(lia) ltac:(reflexivity) oAlloc_twoObjects ltac:(lia)).
  exists 1. split; [vm_compute; split; [discriminate | reflexivity] |].
  vm_compute. reflexivity.
Defined.

(** ** The matrix [oComputeCapacitanceMatrix] builds for the first object *)

Lemma lookup_map {X Y : Type} (h : X -> Y) (l : list X) (p : nat) :
  map h l !! p = h <$> l !! p.
Proof.
  revert p. induction l as [| x l IH]; intros [| p]; simpl; auto.
Qed.

Lemma Forall2_map_eq {X Y V : Type} (R : X -> Y -> Prop)
    (h : X -> V) (f : Y -> V) l l' :
  Forall2 R l l' ->
  (forall x y, In x l -> R x y -> f y = h x) ->
  map f l' = map h l.
Proof.
  intros H. induction H as [| x y l l' Hxy _ IH]; intros Heq; [done |].
  simpl. rewrite (Heq x y) by (by left || done).
  rewrite IH; [done |]. intros x' y' Hin. apply Heq. by right.
Qed.

Lemma rd_loop_scatter (n : Z -> Z) (v : Z -> Qc) lo hi (m0 : list Qc) :
  lo <= hi ->
  (forall k k', lo <= k < hi -> lo <= k' < hi -> n k = n k' -> k = k') ->
  let m := Arr.for_loop lo hi (fun k m => Arr.wr m (n k) (v k)) m0 in
  length m = length m0
  /\ (forall k, lo <= k < hi -> 0 <= n k < Z.of_nat (length m0) ->
        Arr.rdQ m (n k) = v k)
  /\ (forall x, (forall k, lo <= k < hi -> n k <> x) ->
        Arr.rdQ m x = Arr.rdQ m0 x).
Proof.
  intros Hle Hinj.
  apply (for_loop_inv
    (fun q m =>
       length m = length m0
       /\ (forall k, lo <= k < q -> 0 <= n k < Z.of_nat (length m0) ->
             Arr.rdQ m (n k) = v k)
       /\ (forall x, (forall k, lo <= k < q -> n k <> x) ->
             Arr.rdQ m x = Arr.rdQ m0 x))); [done | |].
  - split; [done |]. split; [intros k Hk; lia | done].
  - intros q m Hq (Hlen & Hset & Hframe). rewrite length_wr.
    split; [done |]. split.
    + intros k Hk Hin. rewrite rdQ_wr, Hlen.
      destruct (decide (k = q)) as [-> | Hne].
      * by rewrite decide_True.
      * rewrite decide_False.
        -- apply Hset; [lia | done].
        -- intros [Heq _]. apply Hne. symmetry. apply Hinj; (lia || done).
    + intros x Hx. rewrite rdQ_wr.
      rewrite decide_False by (intros [Heq _]; by apply (Hx q); [lia |]).
      apply Hframe. intros k Hk. apply Hx. lia.
Qed.

Lemma sumOver_single {X : Type} (f : X -> Qc) (l : list X) p x :
  l !! p = Some x ->
  (forall q y, l !! q = Some y -> q <> p -> f y = 0%Qc) ->
  sumOver f l = f x.
Proof.
  revert p. induction l as [| y l IH]; intros p Hp H0; [done |].
  rewrite sumOver_cons. destruct p as [| p].
  - injection Hp as ->.
    rewrite (sumOver_ext f (fun _ => 0%Qc)), sumOver_zero; [ring |].
    intros z Hz. apply list_elem_of_In, list_elem_of_lookup_1 in Hz as [q Hq].
    by apply (H0 (S q) z).
  - rewrite (H0 0%nat y) by done.
    rewrite (IH p); [ring | done |].
    intros q z Hq Hne. apply (H0 (S q) z); [done | lia].
Qed.

Lemma sumOver_Forall2 {X Y : Type} (R : X -> Y -> Prop)
    (f : X -> Qc) (g : Y -> Qc) (l1 : list X) (l2 : list Y) :
  Forall2 R l1 l2 ->
  (forall x y, In x l1 -> R x y -> g y = f x) ->
  sumOver g l2 = sumOver f l1.
Proof.
  induction 1 as [| x y l1 l2 Hxy _ IH]; intros Hfg; [done |].
  rewrite !sumOver_cons, (Hfg x y), IH; [done | | by left | done].
  intros x' y' Hx'. apply Hfg. by right.
Qed.

Lemma surface_offset_zero (g : Grid) (nObj : Z) :
  0 <= nObj -> Arr.rdZ (snd (oFindObjectSurfaceNodes g nObj)) 0 = 0.
Proof.
  intros HN. destruct (surfaceOffsets_spec g nObj HN) as [_ Hoff].
  rewrite Hoff by lia. apply cntLt_zero.
  intros e He. pose proof (surfaceEntries_bucket g nObj e He). lia.
Qed.

Section FirstMatrix.

Variable solve : list (list Qc) -> list (list Qc).
Variable W : World.
Hypothesis Hsize : 0 <= mpiSize W.
Hypothesis Hrow : rowOrdered W 0.
Hypothesis Hnum : ranksNumbered W (ranks W).
Hypothesis Hoff :
  forall r, In r (ranks W) -> Arr.rdZ (lookupSurfaceOffset r) 0 = 0.
Hypothesis Hsolve : forall x, length (solve x) = length x.

Let T : Z := totSNGlob W 0.

Lemma beginIndex_rowEntry r : beginIndex W 0 r = rowEntry W 0 (mpiRank r).
Proof. reflexivity. Qed.

Lemma endIndex_rowEntry r : endIndex W 0 r = rowEntry W 0 (mpiRank r + 1).
Proof. unfold endIndex, rowEntry. f_equal; lia. Qed.

(** the rank the column loop stops at is the one whose rows hold [i] *)
Lemma owner_of_column i ctr j1 r :
  columnAt W 0 i ctr j1 -> In r (ranks W) ->
  mpiRank r = j1 <-> beginIndex W 0 r <= i < endIndex W 0 r.
Proof.
  intros (j & inode & _ & _ & Hj1 & HG & _) Hr.
  destruct (numbered_lookup (ranks W) (mpiSize W) r Hnum Hr) as [Hk _].
  rewrite beginIndex_rowEntry, endIndex_rowEntry. split.
  - by intros ->.
  - intros Hi.
    destruct (Z.lt_trichotomy (mpiRank r) j1) as [Hlt | [Heq | Hgt]];
      [| done |].
    + pose proof (rowEntry_mono W 0 Hrow (mpiRank r + 1) j1
                    ltac:(lia) ltac:(lia)). lia.
    + pose proof (rowEntry_mono W 0 Hrow (j1 + 1) (mpiRank r)
                    ltac:(lia) ltac:(lia)). lia.
Qed.

Lemma first_matrix_init :
  Forall2 (columnsDone solve W 0 0) (ranks W)
    (map (freshMatrix T) (map capInit (ranks W))).
Proof.
  pose proof (T_nonneg W 0 Hsize Hrow) as HT. fold T in HT.
  clear Hnum Hoff.
  induction (ranks W) as [| r rs IH]; [constructor |].
  simpl. constructor; [| exact IH].
  unfold columnsDone. cbn [owner rhoCap capMatrix freshMatrix capInit].
  fold T. split; [done |]. split; [done |]. split.
  - rewrite length_alloc. nia.
  - intros k i Hk Hi. unfold Arr.rdQ. rewrite rd_alloc.
    rewrite decide_False; [done | lia].
Qed.

Lemma numbered_position p r :
  ranks W !! p = Some r -> mpiRank r = Z.of_nat p.
Proof.
  intros Hp.
  assert (H : map mpiRank (ranks W) !! p = Some (mpiRank r))
    by (by rewrite lookup_map, Hp).
  unfold ranksNumbered in Hnum. rewrite Hnum in H.
  apply lookup_seqZ in H as [-> _]. lia.
Qed.

Lemma solver_input i ctr j1 cs :
  columnAt W 0 i ctr j1 ->
  Forall2 (columnsDone solve W 0 i) (ranks W) cs ->
  map rhoCap (map (placeCharge 0 j1 (i - rowEntry W 0 j1)) cs)
  = unitChargeAt W 0 i.
Proof.
  intros Hcol Hdone. rewrite map_map. unfold unitChargeAt.
  apply (Forall2_map_eq (columnsDone solve W 0 i)); [done |].
  intros r c Hr (Hown & Hrho & _).
  pose proof (owner_of_column i ctr j1 r Hcol Hr) as Hiff.
  unfold placeCharge. rewrite Hown.
  destruct (Z.eqb_spec (mpiRank r) j1) as [Heq | Hne].
  - rewrite decide_True by (by apply Hiff). cbn [rhoCap]. rewrite Hrho.
    f_equal. unfold surfNode. f_equal.
    rewrite beginIndex_rowEntry, Heq. lia.
  - rewrite decide_False by (intros H; by apply Hne, Hiff). done.
Qed.

Lemma row_major_inj k i k' i' :
  0 <= i < T -> 0 <= i' < T -> T * k + i = T * k' + i' -> k = k' /\ i = i'.
Proof.
  intros Hi Hi' Heq.
  assert (k = k'); [| split; [done | subst; lia]].
  destruct (Z.lt_trichotomy k k') as [Hlt | [? | Hgt]]; [| done |]; nia.
Qed.

Lemma first_matrix_step i ctr j1 cs :
  0 <= i < T -> columnAt W 0 i ctr j1 ->
  Forall2 (columnsDone solve W 0 i) (ranks W) cs ->
  Forall2 (columnsDone solve W 0 (i + 1)) (ranks W)
    (map (fillColumn W 0 i)
       (map (resetCharge j1 (i - rowEntry W 0 j1))
          (runSolver solve
             (map (placeCharge 0 j1 (i - rowEntry W 0 j1)) cs)))).
Proof.
  intros Hi Hcol Hdone.
  pose proof (solver_input i ctr j1 cs Hcol Hdone) as Hinput.
  pose proof (Forall2_length _ _ _ Hdone) as Hlen.
  set (inode := i - rowEntry W 0 j1) in *.
  apply Forall2_same_length_lookup. split.
  { unfold runSolver. by rewrite !length_map, length_imap, length_map. }
  intros p r c4 Hr Hc4.
  rewrite !lookup_map in Hc4. unfold runSolver in Hc4.
  rewrite list_lookup_imap, lookup_map in Hc4.
  destruct (cs !! p) as [c |] eqn:Hc; [| done].
  simpl in Hc4. injection Hc4 as <-.
  pose proof (Forall2_lookup_lr _ _ _ _ _ _ Hdone Hr Hc)
    as (Hown & Hrho & Hmlen & Hm).
  fold T in Hmlen, Hm.
  assert (Hin : In r (ranks W))
    by (by eapply list_elem_of_In, list_elem_of_lookup_2).
  pose proof (numbered_position p r Hr) as Hp.
  destruct (rows_within W 0 Hsize Hrow (ranks W) Hnum r Hin) as [Hb He].
  rewrite Hinput.
  assert (Hphi : nth p (solve (unitChargeAt W 0 i))
                   (phiCap (placeCharge 0 j1 inode c))
                 = nth (Z.to_nat (mpiRank r)) (solve (unitChargeAt W 0 i)) []).
  { rewrite Hp, Nat2Z.id. apply nth_indep.
    rewrite Hsolve. unfold unitChargeAt. rewrite length_map.
    apply lookup_lt_Some in Hr. done. }
  assert (Hplace : owner (placeCharge 0 j1 inode c) = r
                   /\ capMatrix (placeCharge 0 j1 inode c) = capMatrix c
                   /\ rhoCap (placeCharge 0 j1 inode c)
                      = if mpiRank r =? j1
                        then Arr.wr (zeroGrid r)
                               (Arr.rdZ (lookupSurface r) inode) 1%Qc
                        else zeroGrid r).
  { unfold placeCharge. rewrite Hown.
    destruct (mpiRank r =? j1); cbn [owner capMatrix rhoCap];
      rewrite ?Hrho, ?(Hoff r Hin), ?Z.add_0_l; done. }
  destruct Hplace as (Ho1 & Hm1 & Hr1).
  unfold columnsDone, fillColumn, resetCharge.
  cbn [owner rhoCap phiCap capMatrix]. rewrite Ho1.
  destruct (mpiRank r =? j1) eqn:Hj; cbn [owner rhoCap phiCap capMatrix];
    rewrite ?Ho1, Hm1, Hr1, Hphi.
  all: split; [done |]; split;
    [first [ apply wr_twice_zero; unfold zeroGrid, Arr.rdQ; apply rd_alloc
           | done ] |].
  all: fold T;
    destruct (rd_loop_scatter
      (fun k => T * k + i)
      (fun k => Arr.rdQ (nth (Z.to_nat (mpiRank r))
                           (solve (unitChargeAt W 0 i)) [])
                  (Arr.rdZ (lookupSurface r)
                     (Arr.rdZ (lookupSurfaceOffset r) 0 + k
                      - beginIndex W 0 r)))
      (beginIndex W 0 r) (endIndex W 0 r) (capMatrix c) ltac:(lia))
      as (Hl' & Hset & Hframe);
    [ intros k k' _ _ Heq; by destruct (row_major_inj k i k' i Hi Hi Heq) | ];
    (split; [by rewrite Hl' |]);
    intros k' i' Hk' Hi';
    destruct (decide (beginIndex W 0 r <= k' < endIndex W 0 r /\ i' = i))
      as [[Hrows ->] | Hno];
    [ rewrite Hset, decide_True by (lia || nia); done
    | rewrite Hframe, (Hm k' i' Hk' Hi');
      [ repeat case_decide; (done || (exfalso; lia))
      | intros k Hk Heq;
        destruct (row_major_inj k i k' i' Hi Hi' Heq) as [-> ->];
        apply Hno; split; [lia | done] ] ].
Qed.

Lemma first_matrix_columns n :
  0 <= n < T ->
  exists ctr cs,
    capColumnsUpTo solve W 0 n
      (map (freshMatrix T) (map capInit (ranks W))) = Some (ctr, cs)
    /\ standsAt W 0 n ctr
    /\ Forall2 (columnsDone solve W 0 n) (ranks W) cs.
Proof.
  intros Hn. unfold capColumnsUpTo.
  apply (for_loop_inv
    (fun (k : Z) (st : option ((Z * Z) * list CapRank)) =>
       exists ctr cs, st = Some (ctr, cs)
                      /\ standsAt W 0 k ctr
                      /\ Forall2 (columnsDone solve W 0 k) (ranks W) cs));
    [lia | |].
  - destruct (capColumnsUpTo_stands W 0 ltac:(lia) Hsize Hrow solve
                (map (freshMatrix T) (map capInit (ranks W))) 0
                ltac:(fold T; lia)) as (ctr & cs & Hrun & Hst).
    unfold capColumnsUpTo in Hrun. rewrite for_loop_done in Hrun by lia.
    injection Hrun as <- <-.
    eexists _, _. split; [done |]. split; [exact Hst |].
    apply first_matrix_init.
  - intros k st Hk (ctr & cs & -> & Hst & Hdone).
    destruct (capColumn_step W 0 ltac:(lia) Hsize Hrow solve k ctr cs
                ltac:(lia) ltac:(fold T; lia) Hst)
      as (j1 & ctr' & Hcol & Hstep & Hnext).
    rewrite Hstep. eexists _, _. split; [done |]. split; [exact Hnext |].
    apply (first_matrix_step k ctr j1 cs); (done || lia).
Qed.

Lemma first_matrix_filled i :
  0 <= i < T ->
  exists ctr cs,
    capColumnFilled solve W 0 i
      (map (freshMatrix T) (map capInit (ranks W))) = Some (ctr, cs)
    /\ Forall2 (columnsDone solve W 0 (i + 1)) (ranks W) cs.
Proof.
  intros Hi.
  destruct (first_matrix_columns i Hi) as (ctr & cs & Hrun & Hst & Hdone).
  destruct (capFill_step W 0 ltac:(lia) Hsize Hrow solve i ctr cs
              ltac:(fold T; lia) Hst) as (j1 & Hcol & Hfill).
  unfold capColumnFilled. rewrite Hrun, Hfill.
  eexists _, _. split; [done |].
  apply (first_matrix_step i ctr j1 cs); (done || lia).
Qed.

Lemma first_matrix_reduced cs i k r :
  Forall2 (columnsDone solve W 0 T) (ranks W) cs ->
  0 <= i < T -> In r (ranks W) ->
  beginIndex W 0 r <= k < endIndex W 0 r ->
  Arr.rdQ (Mpi.allreduce_sum_vec (T * T) (map capMatrix cs)) (T * k + i)
  = response solve W 0 i r k.
Proof.
  intros Hdone Hi Hr Hk.
  destruct (rows_within W 0 Hsize Hrow (ranks W) Hnum r Hr) as [Hb He].
  fold T in He.
  rewrite rd_allreduce_sum_vec, decide_True by nia.
  rewrite sumOver_map.
  rewrite (sumOver_Forall2 (columnsDone solve W 0 T)
             (fun r' => if decide (beginIndex W 0 r' <= k < endIndex W 0 r')
                        then response solve W 0 i r' k else 0%Qc)
             _ (ranks W) cs Hdone).
  2:{ intros r' c _ (_ & _ & _ & Hm). fold T in Hm.
      rewrite (Hm k i) by lia.
      repeat case_decide; (done || (exfalso; lia)). }
  destruct (numbered_lookup (ranks W) (mpiSize W) r Hnum Hr) as [Hmr Hp].
  rewrite (sumOver_single _ (ranks W) (Z.to_nat (mpiRank r)) r Hp).
  - by rewrite decide_True.
  - intros q r' Hq Hne. pose proof (numbered_position q r' Hq) as Hq'.
    assert (Hlt : (q < length (ranks W))%nat) by (by eapply lookup_lt_Some).
    assert (Hlen : Z.of_nat (length (ranks W)) = mpiSize W).
    { unfold ranksNumbered in Hnum.
      rewrite <- (length_map mpiRank), Hnum, length_seqZ. lia. }
    rewrite decide_False; [done |].
    rewrite !beginIndex_rowEntry, !endIndex_rowEntry in *.
    destruct (Z.lt_trichotomy (mpiRank r') (mpiRank r)) as [Hlo | [Heq | Hhi]].
    + pose proof (rowEntry_mono W 0 Hrow (mpiRank r' + 1) (mpiRank r)
                    ltac:(lia) ltac:(lia)). lia.
    + exfalso. apply Hne. lia.
    + pose proof (rowEntry_mono W 0 Hrow (mpiRank r + 1) (mpiRank r')
                    ltac:(lia) ltac:(lia)). lia.
Qed.

End FirstMatrix.

(** X20.  On the object [oAlloc] returns (with at least one object,
    the first of them with a surface node), and with a solver that is a
    function of the charge and answers with one grid per rank: when the
    last column of the first object has been filled in
    [oComputeCapacitanceMatrix], the matrices the ranks hold add up,
    entry by entry, to the matrix of the solver's responses to unit
    charges.  Entry [totSNGlob*k + i] is the potential at the surface
    node of global index [k], on the rank whose rows hold [k], that the
    solver gives for a charge 1 on the surface node of global index [i]
    and 0 on every other node of every rank.  (The sum is the one the
    [MPI_Allreduce] after the loop takes; the statement stops at the
    last fill, before the closing [while] of that column.) *)
Theorem X20_first_matrix_is_the_response_to_unit_charges
    (solve : list (list Qc) -> list (list Qc))
    (size : Z) (rs : list Rank) (W : World) :
  0 <= size -> map mpiRank rs = seqZ 0 size ->
  oAlloc size rs = Returned W ->
  0 < nObjects W -> 0 < totSNGlob W 0 ->
  (forall x, length (solve x) = length x) ->
  exists ctr cs,
    capColumnFilled solve W 0 (totSNGlob W 0 - 1)
      (map (freshMatrix (totSNGlob W 0)) (map capInit (ranks W)))
    = Some (ctr, cs)
    /\ forall i k r,
         0 <= i < totSNGlob W 0 -> In r (ranks W) ->
         beginIndex W 0 r <= k < endIndex W 0 r ->
         Arr.rdQ (Mpi.allreduce_sum_vec (totSNGlob W 0 * totSNGlob W 0)
                    (map capMatrix cs))
           (totSNGlob W 0 * k + i)
         = response solve W 0 i r k.
Proof.
  intros Hsize Hnum Halloc HN HT Hsolve.
  destruct (oAlloc_rows size rs W Hsize Hnum Halloc) as (HsizeW & HnumW & Hrows).
  destruct (Hrows 0 ltac:(lia)) as [Hrow _].
  assert (HsW : 0 <= mpiSize W) by lia.
  assert (Hoff : forall r, In r (ranks W) ->
                   Arr.rdZ (lookupSurfaceOffset r) 0 = 0).
  { revert Halloc HN. unfold oAlloc.
    destruct (oGatherSurfaceNodes size _ _) as [glob total].
    intros [= <-]. cbn [ranks nObjects]. intros HN r Hr.
    apply in_map_iff in Hr as (r0 & <- & Hr0).
    destruct (withTables_surface
                (Mpi.allreduce_max
                   (map (fun r => localObjectCount (domain r)) rs)) r0)
      as (_ & _ & ->).
    apply surface_offset_zero. lia. }
  destruct (first_matrix_filled solve W HsW Hrow HnumW Hoff Hsolve
              (totSNGlob W 0 - 1) ltac:(lia))
    as (ctr & cs & Hrun & Hdone).
  exists ctr, cs. split; [exact Hrun |].
  replace (totSNGlob W 0 - 1 + 1) with (totSNGlob W 0) in Hdone by lia.
  intros i k r Hi Hr Hk.
  by apply (first_matrix_reduced solve W HsW Hrow HnumW cs i k r).
Qed.

(** X20 on the one-rank world of the halo object, with a solver that
    hands back what it is given. *)
Lemma X20_witness :
  exists ctr cs,
    capColumnFilled (fun x => x) haloWorld 0 (totSNGlob haloWorld 0 - 1)
      (map (freshMatrix (totSNGlob haloWorld 0))
         (map capInit (ranks haloWorld)))
    = Some (ctr, cs)
    /\ forall i k r,
         0 <= i < totSNGlob haloWorld 0 -> In r (ranks haloWorld) ->
         beginIndex haloWorld 0 r <= k < endIndex haloWorld 0 r ->
         Arr.rdQ (Mpi.allreduce_sum_vec
                    (totSNGlob haloWorld 0 * totSNGlob haloWorld 0)
                    (map capMatrix cs))
           (totSNGlob haloWorld 0 * k + i)
         = response (fun x => x) haloWorld 0 i r k.
Proof.
  apply (X20_first_matrix_is_the_response_to_unit_charges
           (fun x => x) 1 [haloRank] haloWorld
           ltac:(lia) ltac:(vm_compute; reflexivity) oAlloc_halo
           ltac:(reflexivity) ltac:(reflexivity) ltac:(reflexivity)).
Defined.

(** ** The corrector and the zero of the potential *)

Lemma rd_map_plus (c : Qc) (l : list Qc) n :
  0 <= n < Z.of_nat (length l) ->
  Arr.rdQ (map (fun v => (v + c)%Qc) l) n = (Arr.rdQ l n + c)%Qc.
Proof.
  intros Hn. unfold Arr.rdQ. rewrite !rd_nth by lia.
  rewrite (nth_indep _ 0%Qc (0 + c)%Qc) by (rewrite length_map; lia).
  by rewrite (map_nth (fun v => (v + c)%Qc)).
Qed.

Lemma allreduce_sum_vec_ext n (b1 b2 : list (list Qc)) :
  (forall i, 0 <= i < n ->
     Arr.rdQ (Mpi.allreduce_sum_vec n b1) i
     = Arr.rdQ (Mpi.allreduce_sum_vec n b2) i) ->
  Mpi.allreduce_sum_vec n b1 = Mpi.allreduce_sum_vec n b2.
Proof.
  intros H. unfold Mpi.allreduce_sum_vec. apply map_ext_in. intros i Hi.
  apply list_elem_of_In, elem_of_seqZ in Hi.
  specialize (H i ltac:(lia)).
  rewrite !rd_allreduce_sum_vec, !decide_True in H by lia. exact H.
Qed.

Section Gauge.

Variables (W : World) (a : Z) (rs : list Rank) (c : Qc).
Hypothesis Hsize : 0 <= mpiSize W.
Hypothesis Hrow : rowOrdered W a.
Hypothesis Hnum : ranksNumbered W rs.
Hypothesis Hnorm : sumNormalised W a.
Hypothesis Hphi : forall r, In r rs -> phiCovers W a r.

Let rs' : list Rank := map (raisePotential c) rs.

Lemma raised_objectPotential :
  objectPotential W a rs' = (objectPotential W a rs + c)%Qc.
Proof.
  rewrite (objectPotential_sum W a rs), (objectPotential_sum W a rs').
  unfold rs'. rewrite sumOver_map.
  rewrite (sumOver_ext _
    (fun r => (sumOver
                 (fun i => sumOver
                    (fun j => capEntry W a j i
                              * Arr.rdQ (phi r) (surfNode W a r j))
                    (seqZ (beginIndex W a r)
                       (endIndex W a r - beginIndex W a r)))
                 (seqZ 0 (totSNGlob W a))
               + c * sumOver
                       (fun i => sumOver (fun j => capEntry W a j i)
                                   (seqZ (beginIndex W a r)
                                      (endIndex W a r - beginIndex W a r)))
                       (seqZ 0 (totSNGlob W a)))%Qc) rs).
  2:{ intros r Hr. rewrite <- sumOver_scale_l, <- sumOver_plus.
      apply sumOver_ext. intros i _.
      rewrite <- sumOver_scale_l, <- sumOver_plus.
      apply sumOver_ext. intros j Hj.
      apply list_elem_of_In, elem_of_seqZ in Hj.
      change (surfNode W a (raisePotential c r) j) with (surfNode W a r j).
      cbn [phi raisePotential].
      rewrite rd_map_plus by (apply (Hphi r Hr); lia). ring. }
  assert (Hall : sumOver
                   (fun r => sumOver
                      (fun i => sumOver (fun j => capEntry W a j i)
                                  (seqZ (beginIndex W a r)
                                     (endIndex W a r - beginIndex W a r)))
                      (seqZ 0 (totSNGlob W a))) rs
                 = storedSum W a).
  { rewrite sumOver_swap, storedSum_sum by done.
    apply sumOver_ext. intros i _. by apply rows_partition. }
  rewrite sumOver_plus, sumOver_scale_l, Hall.
  unfold sumNormalised in Hnorm.
  rewrite Qcmult_plus_distr_l, <- (Qcmult_assoc c),
    (Qcmult_comm (storedSum W a)), Hnorm. ring.
Qed.

Lemma raised_deltaPhi : reducedDeltaPhi W a rs' = reducedDeltaPhi W a rs.
Proof.
  unfold reducedDeltaPhi. apply allreduce_sum_vec_ext. intros j Hj.
  fold (reducedDeltaPhi W a rs') (reducedDeltaPhi W a rs).
  rewrite (rd_reducedDeltaPhi W a rs Hsize Hrow j Hj).
  rewrite (rd_reducedDeltaPhi W a rs' Hsize Hrow j Hj). cbv beta.
  unfold rs' at 2. rewrite sumOver_map. apply sumOver_ext. intros r Hr.
  change (beginIndex W a (raisePotential c r)) with (beginIndex W a r).
  change (endIndex W a (raisePotential c r)) with (endIndex W a r).
  case_decide as Hin; [| done].
  rewrite raised_objectPotential.
  change (surfNode W a (raisePotential c r) j) with (surfNode W a r j).
  cbn [phi raisePotential].
  rewrite rd_map_plus by (by apply (Hphi r Hr)). ring.
Qed.

Lemma raised_rhoCorr : reducedRhoCorr W a rs' = reducedRhoCorr W a rs.
Proof.
  unfold reducedRhoCorr. rewrite raised_deltaPhi. unfold rs'.
  by rewrite map_map.
Qed.

Lemma raised_applyObject :
  applyObject W a rs' = map (raisePotential c) (applyObject W a rs).
Proof.
  unfold applyObject. rewrite raised_rhoCorr. unfold rs'.
  rewrite !map_map. done.
Qed.

End Gauge.

Lemma sameShape_phiCovers W a r r' :
  sameShape r r' -> phiCovers W a r -> phiCovers W a r'.
Proof.
  intros (H1 & H2 & H3 & H4 & _) Hc j.
  unfold phiCovers, surfNode, beginIndex, endIndex in *.
  rewrite H1, H2, H3, H4. apply Hc.
Qed.

(** X21.  In exact arithmetic (rationals in the place of the rounded
    doubles of the source), the correction of
    [oApplyCapacitanceMatrix] does not depend on the zero of the
    potential: for a store in which [capMatrixSum[a]] is the inverse of
    the sum of the matrix read for object [a], and a potential grid
    that holds the surface nodes, raising [phi] by the same constant on
    every node of every rank gives the same [rho]; the call on the
    raised potential is the raised result of the call. *)
Theorem X21_corrector_ignores_the_zero_of_the_potential (W : World) (c : Qc) :
  0 <= mpiSize W ->
  ranksNumbered W (ranks W) ->
  (forall a, 0 <= a < nObjects W ->
     rowOrdered W a /\ sumNormalised W a
     /\ forall r, In r (ranks W) -> phiCovers W a r) ->
  oApplyCapacitanceMatrix (raiseWorld c W)
  = raiseWorld c (oApplyCapacitanceMatrix W)
  /\ map rho (ranks (oApplyCapacitanceMatrix (raiseWorld c W)))
     = map rho (ranks (oApplyCapacitanceMatrix W)).
Proof.
  intros Hsize Hnum Hobj.
  assert (Hloop :
    Arr.for_loop 0 (nObjects W) (applyObject W)
      (map (raisePotential c) (ranks W))
    = map (raisePotential c)
        (Arr.for_loop 0 (nObjects W) (applyObject W) (ranks W))).
  { destruct (Z.le_gt_cases 0 (nObjects W)) as [HN | HN].
    2:{ by rewrite !for_loop_done by lia. }
    apply (for_loop_inv
             (fun k s =>
                Forall2 sameShape (ranks W) s
                /\ Arr.for_loop 0 k (applyObject W)
                     (map (raisePotential c) (ranks W))
                   = map (raisePotential c) s)); [done | |].
    - split; [apply Forall2_diag, sameShape_refl |].
      by rewrite for_loop_done by lia.
    - intros a s Ha [Hshape Heq].
      destruct (Hobj a Ha) as (Hrow & Hnorm & Hcov).
      assert (Hs : ranksNumbered W s).
      { unfold ranksNumbered. by rewrite (sameShape_numbered _ _ Hshape). }
      split.
      + unfold applyObject. apply Forall2_map_step; [done |].
        intros r r' _. apply sameShape_addCorrection.
      + rewrite for_loop_last, Heq by lia.
        apply raised_applyObject; try done.
        apply (Forall2_transfer sameShape (phiCovers W a) (ranks W) s);
          [done | | done].
        intros r r'. apply sameShape_phiCovers. }
  assert (Hcall : oApplyCapacitanceMatrix (raiseWorld c W)
                  = raiseWorld c (oApplyCapacitanceMatrix W)).
  { unfold oApplyCapacitanceMatrix, raiseWorld.
    cbn [mpiSize nObjects capMatrixAllOffsets capMatrixAll capMatrixSum ranks].
    f_equal. exact Hloop. }
  split; [exact Hcall |].
  rewrite Hcall. unfold raiseWorld. cbn [ranks]. by rewrite map_map.
Qed.

Lemma correctorWorld_covered :
  forall a, 0 <= a < nObjects correctorWorld ->
    forall r, In r (ranks correctorWorld) -> phiCovers correctorWorld a r.
Proof.
  intros a Ha. assert (a = 0) as -> by (simpl in Ha; lia).
  intros r [<- | [<- | []]] j Hj.
  - change (0 <= j < 1) in Hj. assert (j = 0) as -> by lia.
    vm_compute. split; [discriminate | reflexivity].
  - change (1 <= j < 2) in Hj. assert (j = 1) as -> by lia.
    vm_compute. split; [discriminate | reflexivity].
Qed.

(** X21 on the two ranks of the corrector world, the potential raised
    by one. *)
Lemma X21_witness :
  map rho (ranks (oApplyCapacitanceMatrix (raiseWorld 1 correctorWorld)))
  = map rho (ranks (oApplyCapacitanceMatrix correctorWorld)).
Proof.
  destruct correctorWorld_ready as (Hsize & Hnum & Hobj).
  refine (proj2 (X21_corrector_ignores_the_zero_of_the_potential
                   correctorWorld 1 Hsize Hnum _)).
  intros a Ha. destruct (Hobj a Ha) as (H1 & H2 & _).
  split; [exact H1 |]. split; [exact H2 |].
  by apply correctorWorld_covered.
Defined.
